(** * slang: macro preprocessor, interval-map helper and [$countbits]

    A shallow embedding of
    - [source/util/IntervalMap.cpp]          (module [IntervalMapDetails]),
    - [source/compilation/builtins/MathFuncs.cpp] (module [Builtins]),
    - [source/parsing/Preprocessor_macros.cpp]    (module [Preprocessor]),
    followed by the properties established about them. *)

From Stdlib Require Import ZArith Lia List String Ascii Bool DecimalString.
From stdpp Require Import base option list gmap strings.

(** ** Results of partial computations

    [Crash] stands for a failed [ASSERT] or an access the C++ code leaves
    undefined (e.g. [back()] of an empty vector); [OutOfFuel] is produced only
    by the step-indexed recursive functions when their index is exhausted. *)
Inductive Res (A : Type) : Type :=
| Ok (a : A)
| Crash
| OutOfFuel.
Arguments Ok {A} a.
Arguments Crash {A}.
Arguments OutOfFuel {A}.

(* ====================================================================== *)
(** * IntervalMap.cpp *)
(* ====================================================================== *)
Module IntervalMapDetails.
Local Open Scope Z_scope.

(** [uint32_t] arithmetic: every result is reduced modulo [2^32]. *)
Definition uint32 (z : Z) : Z := z mod 2 ^ 32.

Definition IndexPair : Type := (Z * Z)%type.

(** The locals of [distribute] that its loop updates; [newSizes] is the
    caller's array. *)
Record DistState : Type := mkDist
  { newSizes : list Z;
    sum : Z;
    posPair : IndexPair }.

(** One iteration of
    [for (n = 0; n != numNodes; ++n) { sum += newSizes[n] = perNode + (n < extra); ... }].
    Writing past the end of the caller's array is undefined: [None]. *)
Definition distribute_body (numNodes perNode extra position n : Z)
    (s : DistState) : option DistState :=
  let size_n := uint32 (perNode + Z.b2z (n <? extra)) in
  if decide (Z.to_nat n < length (newSizes s))%nat then
    let sizes := <[Z.to_nat n := size_n]> (newSizes s) in
    let sum' := uint32 (sum s + size_n) in
    let pos :=
      if (fst (posPair s) =? numNodes) && (position <? sum')
      then (n, uint32 (position - uint32 (sum' - size_n)))
      else posPair s in
    Some (mkDist sizes sum' pos)
  else None.

Fixpoint distribute_loop (numNodes perNode extra position : Z)
    (k : nat) (n : Z) (s : DistState) : option DistState :=
  match k with
  | O => Some s
  | S k' =>
      match distribute_body numNodes perNode extra position n s with
      | Some s' => distribute_loop numNodes perNode extra position k' (n + 1) s'
      | None => None
      end
  end.

(** [distribute]; [None] is a failed [ASSERT] (or the out-of-range write
    above).  The arguments are [uint32_t] values, [0 <= x < 2^32]. *)
Definition distribute (numNodes numElements capacity : Z) (newSizes0 : list Z)
    (position : Z) (grow : bool) : option (list Z * IndexPair) :=
  if negb (uint32 (numElements + Z.b2z grow) <=? uint32 (numNodes * capacity)) then None
  else if negb (position <=? numElements) then None
  else if numNodes =? 0 then Some (newSizes0, (0, 0))
  else
    let perNode := uint32 (numElements + Z.b2z grow) / numNodes in
    let extra := uint32 (numElements + Z.b2z grow) mod numNodes in
    match distribute_loop numNodes perNode extra position (Z.to_nat numNodes) 0
            (mkDist newSizes0 0 (numNodes, 0)) with
    | None => None
    | Some s =>
        if negb (sum s =? uint32 (numElements + Z.b2z grow)) then None
        else if grow then
          let first := fst (posPair s) in
          if negb (first <? numNodes) then None
          else
            match newSizes s !! Z.to_nat first with
            | None => None
            | Some sz =>
                if sz =? 0 then None
                else Some (<[Z.to_nat first := uint32 (sz - 1)]> (newSizes s), posPair s)
            end
        else Some (newSizes s, posPair s)
    end.

(** The left-leaning even split of [total] elements over [numNodes] nodes. *)
Definition evenSplit (total numNodes n : Z) : Z :=
  total / numNodes + Z.b2z (n <? total mod numNodes).

(** Number of elements the even split places in the nodes before node [j]. *)
Definition sizesBefore (total numNodes : Z) (j : nat) : Z :=
  foldr Z.add 0 (map (fun i => evenSplit total numNodes (Z.of_nat i)) (seq 0 j)).

(** Closed form of [sizesBefore]. *)
Definition prefixClosed (total numNodes j : Z) : Z :=
  j * (total / numNodes) + Z.min j (total mod numNodes).

(** Loop invariant of [distribute] after [k] iterations. *)
Record distInv (total numNodes position : Z) (sizes0 : list Z)
    (k : nat) (s : DistState) : Prop := mkDistInv
  { inv_len : length (newSizes s) = length sizes0;
    inv_done : forall j, (j < k)%nat ->
      newSizes s !! j = Some (evenSplit total numNodes (Z.of_nat j));
    inv_rest : forall j, (k <= j)%nat -> newSizes s !! j = sizes0 !! j;
    inv_sum : sum s = prefixClosed total numNodes (Z.of_nat k);
    inv_found : position < prefixClosed total numNodes (Z.of_nat k) ->
      exists j, (j < k)%nat /\
        posPair s = (Z.of_nat j, position - prefixClosed total numNodes (Z.of_nat j)) /\
        prefixClosed total numNodes (Z.of_nat j) <= position
          < prefixClosed total numNodes (Z.of_nat j + 1);
    inv_notfound : prefixClosed total numNodes (Z.of_nat k) <= position ->
      posPair s = (numNodes, 0) }.

End IntervalMapDetails.

(* ====================================================================== *)
(** * MathFuncs.cpp: [$countbits] *)
(* ====================================================================== *)
Module Builtins.
Local Open Scope Z_scope.

(** [logic_t] and [SVInt] are declared outside the translated sources.  A
    four-state bit carries a [uint8_t] value: [0], [1], [X_VALUE] or
    [Z_VALUE]; an [SVInt] is a vector of such bits, least significant first,
    and [countZeros], [countOnes], [countXs], [countZs] count the bits of the
    respective value. *)
Inductive logic_t : Type := bit0 | bit1 | bitX | bitZ.

Definition X_VALUE : Z := 128.
Definition Z_VALUE : Z := 64.

Definition value (b : logic_t) : Z :=
  match b with bit0 => 0 | bit1 => 1 | bitX => X_VALUE | bitZ => Z_VALUE end.

Definition logic_eqb (a b : logic_t) : bool := value a =? value b.

Record SVInt : Type := mkSVInt { bits : list logic_t }.

Definition getBitWidth (iv : SVInt) : Z := Z.of_nat (length (bits iv)).

Definition countOf (b : logic_t) (iv : SVInt) : Z :=
  Z.of_nat (length (List.filter (fun x => logic_eqb x b) (bits iv))).

Definition countZeros : SVInt -> Z := countOf bit0.
Definition countOnes : SVInt -> Z := countOf bit1.
Definition countXs : SVInt -> Z := countOf bitX.
Definition countZs : SVInt -> Z := countOf bitZ.

(** [iv[0]]: the least significant bit (out of range reads give X). *)
Definition lsb (iv : SVInt) : logic_t :=
  match bits iv with b :: _ => b | [] => bitX end.

(** An argument expression, seen through [arg->eval(context)]: the constant
    it evaluates to, or [None] when evaluation fails. *)
Definition Expression : Type := option SVInt.

Definition uint64 (z : Z) : Z := z mod 2 ^ 64.

(** [SVInt(32, count, true)]: the low 32 bits of [count], read as signed. *)
Definition SVInt32_signed (count : Z) : Z := (count + 2 ^ 31) mod 2 ^ 32 - 2 ^ 31.

(** [bool seen[4]{}; uint64_t count = 0;] *)
Record CountState : Type := mkCount
  { seen0 : bool; seen1 : bool; seen2 : bool; seen3 : bool; count : Z }.

(** Body of the loop over [args.subspan(1)], after [v] has been evaluated. *)
Definition countBits_body (iv : SVInt) (st : CountState) (v : SVInt) : CountState :=
  let bit := lsb v in
  if value bit =? 0 then
    if negb (seen0 st)
    then mkCount true (seen1 st) (seen2 st) (seen3 st) (uint64 (count st + countZeros iv))
    else st
  else if value bit =? 1 then
    if negb (seen1 st)
    then mkCount (seen0 st) true (seen2 st) (seen3 st) (uint64 (count st + countOnes iv))
    else st
  else if value bit =? X_VALUE then
    if negb (seen2 st)
    then mkCount (seen0 st) (seen1 st) true (seen3 st) (uint64 (count st + countXs iv))
    else st
  else if value bit =? Z_VALUE then
    if negb (seen3 st)
    then mkCount (seen0 st) (seen1 st) (seen2 st) true (uint64 (count st + countZs iv))
    else st
  else st.

Fixpoint countBits_loop (iv : SVInt) (args : list Expression) (st : CountState)
    : option CountState :=
  match args with
  | [] => Some st
  | arg :: rest =>
      match arg with
      | None => None
      | Some v => countBits_loop iv rest (countBits_body iv st v)
      end
  end.

(** [CountBitsFunction::eval]; [None] is the null [ConstantValue].
    [checkArguments] guarantees at least two arguments. *)
Definition CountBitsFunction_eval (args : list Expression) : option Z :=
  match args with
  | [] => None
  | arg0 :: controls =>
      match arg0 with
      | None => None
      | Some iv =>
          match countBits_loop iv controls (mkCount false false false false 0) with
          | None => None
          | Some st => Some (SVInt32_signed (count st))
          end
      end
  end.

(** The least significant bits of the control arguments that evaluate. *)
Definition controlBits (controls : list Expression) : list logic_t :=
  omap (fun e : Expression => lsb <$> e) controls.

(** Sum of the counts of the bit values that occur among [bs], each taken once. *)
Definition countDistinct (iv : SVInt) (bs : list logic_t) : Z :=
  foldr Z.add 0
    (map (fun b => if existsb (logic_eqb b) bs then countOf b iv else 0)
         [bit0; bit1; bitX; bitZ]).

(** Invariant of the loop of [eval] once the control bits [bs] have been
    processed. *)
Definition countInv (iv : SVInt) (bs : list logic_t) (st : CountState) : Prop :=
  seen0 st = existsb (logic_eqb bit0) bs /\
  seen1 st = existsb (logic_eqb bit1) bs /\
  seen2 st = existsb (logic_eqb bitX) bs /\
  seen3 st = existsb (logic_eqb bitZ) bs /\
  count st = uint64 (countDistinct iv bs).

(** [SVInt::hasUnknown], declared with [SVInt]: some bit is X or Z. *)
Definition hasUnknown (iv : SVInt) : bool :=
  existsb (fun b => logic_eqb b bitX || logic_eqb b bitZ) (bits iv).

(** [CountOnesFunction::eval]; [checkArguments] guarantees one argument. *)
Definition CountOnesFunction_eval (args : list Expression) : option Z :=
  match args with
  | [] => None
  | arg0 :: _ =>
      match arg0 with
      | None => None
      | Some iv => Some (SVInt32_signed (uint64 (countOnes iv)))
      end
  end.

(** [BooleanBitVectorFunction::BVFKind] *)
Inductive BVFKind : Type := OneHot | OneHot0 | IsUnknown.

(** [BooleanBitVectorFunction::eval]; the one-bit unsigned result
    [SVInt(1, uint64_t(b), false)] is given by its value, [0] or [1]. *)
Definition BooleanBitVectorFunction_eval (kind : BVFKind) (args : list Expression)
    : option Z :=
  match args with
  | [] => None
  | arg0 :: _ =>
      match arg0 with
      | None => None
      | Some iv =>
          match kind with
          | OneHot => Some (Z.b2z (countOnes iv =? 1))
          | OneHot0 => Some (Z.b2z (countOnes iv <=? 1))
          | IsUnknown => Some (Z.b2z (hasUnknown iv))
          end
      end
  end.

End Builtins.

(* ====================================================================== *)
(** * Preprocessor_macros.cpp *)
(* ====================================================================== *)

(** ** Tokens, trivia, locations, diagnostics *)

Module TokenKind.
Inductive t : Type :=
| Unknown | EndOfFile | Identifier | StringLiteral | IntegerLiteral
| Directive | EmptyMacroArgument | LineContinuation | MacroQuote | MacroPaste
| Slash | Star | Comma | Equals
| OpenParenthesis | CloseParenthesis | OpenBracket | CloseBracket
| OpenBrace | CloseBrace
| Other (n : nat).
End TokenKind.

Module SyntaxKind.
Inductive t : Type :=
| Unknown | MacroUsage | DefineDirective | OtherDirective (n : nat).
End SyntaxKind.

Module TriviaKind.
Inductive t : Type :=
| Whitespace | EndOfLine | LineContinuation | LineComment | BlockComment.
End TriviaKind.

Module MacroIntrinsic.
Inductive t : Type := None | File | Line.
End MacroIntrinsic.

(** Diagnostic codes.  [External n] stands for the codes raised inside the
    lexer and token layer ([Lexer::splitTokens], [Token::createExpected]). *)
Module diag.
Inductive t : Type :=
| UnknownDirective | ExpectedMacroArgs | ExpectedMacroStringifyEnd
| IgnoredMacroPaste | MisplacedDirectiveChar | NotEnoughMacroArgs
| TooManyActualMacroArgs | RecursiveMacro | UnbalancedMacroArgDims
| External (n : nat).
End diag.

#[global] Instance TokenKind_eq_dec : EqDecision TokenKind.t.
Proof. solve_decision. Defined.
#[global] Instance SyntaxKind_eq_dec : EqDecision SyntaxKind.t.
Proof. solve_decision. Defined.
#[global] Instance TriviaKind_eq_dec : EqDecision TriviaKind.t.
Proof. solve_decision. Defined.
#[global] Instance MacroIntrinsic_eq_dec : EqDecision MacroIntrinsic.t.
Proof. solve_decision. Defined.
#[global] Instance diag_eq_dec : EqDecision diag.t.
Proof. solve_decision. Defined.

Module Preprocessor.

(** [SourceLocation]: a buffer id and an offset into that buffer. *)
Record SourceLocation : Type := mkLoc { loc_buffer : N; loc_offset : Z }.

Definition NoLocation : SourceLocation := mkLoc 0 0.

(** [loc + n] and [a - b] of [SourceLocation]. *)
Definition loc_add (l : SourceLocation) (n : Z) : SourceLocation :=
  mkLoc (loc_buffer l) (loc_offset l + n).
Definition loc_sub (a b : SourceLocation) : Z := loc_offset a - loc_offset b.

Record SourceRange : Type := mkRange { range_start : SourceLocation; range_end : SourceLocation }.

Record Trivia : Type := mkTrivia { trivia_kind : TriviaKind.t; trivia_rawText : string }.

(** A (non-null) [Token]; the null token [Token()] is [None] in
    [option Token].  [directiveKind] is meaningful for [Directive] tokens. *)
Record Token : Type := mkToken
  { kind : TokenKind.t;
    trivia : list Trivia;
    rawText : string;
    location : SourceLocation;
    directiveKind : SyntaxKind.t }.

Definition withTrivia (t : Token) (tr : list Trivia) : Token :=
  mkToken (kind t) tr (rawText t) (location t) (directiveKind t).
Definition withLocation (t : Token) (l : SourceLocation) : Token :=
  mkToken (kind t) (trivia t) (rawText t) l (directiveKind t).
Definition withRawText (t : Token) (s : string) : Token :=
  mkToken (kind t) (trivia t) s (location t) (directiveKind t).

Record Diagnostic : Type := mkDiag
  { code : diag.t; diag_location : SourceLocation; diag_args : list string }.

Record ExternalDiag : Type := mkExternalDiag
  { ext_code : nat; ext_location : SourceLocation }.

Definition ofExternal (d : ExternalDiag) : Diagnostic :=
  mkDiag (diag.External (ext_code d)) (ext_location d) [].

(** ** Collaborators outside the translated file

    The lexer, the token accessors and the source-manager queries the macro
    engine calls into are not part of the translated sources; the engine is
    parameterised over them. *)
Class Lexer : Type :=
  { (** [Token::valueText] *)
    valueText : Token -> string;
    (** [Token::isOnSameLine] *)
    isOnSameLine : Token -> bool;
    (** [LexerFacts::isKeyword] *)
    isKeyword : TokenKind.t -> bool;
    (** [LexerFacts::getTokenKindText] *)
    getTokenKindText : TokenKind.t -> string;
    (** [Lexer::stringify(alloc, location, trivia, begin, end)] *)
    Lexer_stringify : SourceLocation -> list Trivia -> list Token -> Token;
    (** [Lexer::concatenateTokens(alloc, left, right)]; [None] is the null token *)
    concatenateTokens : Token -> Token -> option Token;
    (** [Lexer::splitTokens(alloc, diagnostics, sourceManager, token, offset, version, results)] *)
    splitTokens : Token -> nat -> list Token * list ExternalDiag;
    (** [Lexer::commentify(alloc, begin, end)] *)
    commentify : list Token -> Trivia;
    (** [Token::createExpected(alloc, diagnostics, actual, expected, lastConsumed, matchingDelim)] *)
    createExpected : Token -> TokenKind.t -> option Token -> Token * list ExternalDiag;
    (** [SourceManager::getFileName], [SourceManager::getLineNumber], [uintToStr] *)
    getFileName : SourceLocation -> string;
    getLineNumber : SourceLocation -> nat;
    uintToStr : nat -> string }.

(** [SyntaxFacts::getDelimCloseKind] *)
Definition getDelimCloseKind (k : TokenKind.t) : TokenKind.t :=
  match k with
  | TokenKind.OpenParenthesis => TokenKind.CloseParenthesis
  | TokenKind.OpenBracket => TokenKind.CloseBracket
  | TokenKind.OpenBrace => TokenKind.CloseBrace
  | _ => TokenKind.Unknown
  end.

(** ** Macro definitions *)

Record MacroFormalArgumentSyntax : Type := mkFormal
  { formal_name : Token;
    defaultValue : option (list Token) }.

(** [DefineDirectiveSyntax]; [syntax_addr] is the address of the node, the
    identity under which it is kept in [alreadyExpanded]. *)
Record DefineDirectiveSyntax : Type := mkDefine
  { syntax_addr : N;
    define_name : Token;
    formalArguments : option (list MacroFormalArgumentSyntax);
    body : list Token }.

Record MacroDef : Type := mkMacroDef
  { syntax : option DefineDirectiveSyntax;
    builtIn : bool;
    intrinsic : MacroIntrinsic.t }.

(** [MacroDef(nullptr)] *)
Definition nullMacro : MacroDef := mkMacroDef None false MacroIntrinsic.None.

Definition isIntrinsic (m : MacroDef) : bool :=
  negb (bool_decide (intrinsic m = MacroIntrinsic.None)).
Definition valid (m : MacroDef) : bool :=
  bool_decide (is_Some (syntax m)) || isIntrinsic m.
Definition needsArgs (m : MacroDef) : bool :=
  match syntax m with
  | Some d => bool_decide (is_Some (formalArguments d))
  | None => false
  end.

(** The pointer value [macro.syntax]; [0] is [nullptr]. *)
Definition syntaxPtr (m : MacroDef) : N :=
  match syntax m with Some d => syntax_addr d | None => 0%N end.

Record MacroActualArgumentListSyntax : Type := mkActualArgs
  { openParen : Token;
    args : list (list Token);
    closeParen : Token }.

(** ** Source manager (expansion buffers) *)

Record ExpansionInfo : Type := mkExpansion
  { spelling : SourceLocation;
    usageRange : SourceRange;
    isMacroArg : bool;
    macroName : option string }.

Record SourceManager : Type := mkSM
  { nextBufferID : N;
    expansionBuffers : gmap N ExpansionInfo }.

(** ** Preprocessor state and the state monad over it *)

Record PPState : Type := mkPP
  { macros : gmap string MacroDef;
    diagnostics : list Diagnostic;
    sourceManager : SourceManager;
    (** the raw tokens still to be pulled by [Preprocessor::peek]/[consume] *)
    input : list Token;
    expandedTokens : list Token;
    (** [currentMacroToken]: an index into [expandedTokens], or null *)
    currentMacroToken : option nat }.

Definition M (A : Type) : Type := PPState -> Res (A * PPState).

Definition ret {A} (a : A) : M A := fun pp => Ok (a, pp).
Definition bind {A B} (c : M A) (k : A -> M B) : M B :=
  fun pp =>
    match c pp with
    | Ok (a, pp') => k a pp'
    | Crash => Crash
    | OutOfFuel => OutOfFuel
    end.
Definition crash {A} : M A := fun _ => Crash.
Definition outOfFuel {A} : M A := fun _ => OutOfFuel.

Declare Scope pp_scope.
Delimit Scope pp_scope with pp.
Notation "'do' x <- c ;; k" := (bind c (fun x => k))
  (at level 10, x name, c at level 99, k at level 200) : pp_scope.
Notation "'do' ' p <- c ;; k" := (bind c (fun x => let 'p := x in k))
  (at level 10, p pattern, c at level 99, k at level 200) : pp_scope.
Notation "'run' c ;; k" := (bind c (fun _ => k))
  (at level 10, c at level 99, k at level 200) : pp_scope.
Local Open Scope pp_scope.

(** [x] when the optional value is present, a crash otherwise (used where
    the C++ dereferences without a check). *)
Definition must {A} (o : option A) : M A :=
  match o with Some a => ret a | None => crash end.

Definition addDiag (c : diag.t) (l : SourceLocation) (a : list string) : M unit :=
  fun pp => Ok (tt, mkPP (macros pp) (diagnostics pp ++ [mkDiag c l a]) (sourceManager pp)
                      (input pp) (expandedTokens pp) (currentMacroToken pp)).

Definition addExternalDiags (ds : list ExternalDiag) : M unit :=
  fun pp => Ok (tt, mkPP (macros pp) (diagnostics pp ++ map ofExternal ds) (sourceManager pp)
                      (input pp) (expandedTokens pp) (currentMacroToken pp)).

(** Modelled from the spec: [SourceManager::createExpansionLoc], which is not
    in the translated sources.  It registers a fresh expansion buffer and
    returns its start location. *)
Definition createExpansionLoc (sp : SourceLocation) (r : SourceRange)
    (isArg : bool) (name : option string) : M SourceLocation :=
  fun pp =>
    let sm := sourceManager pp in
    let id := nextBufferID sm in
    Ok (mkLoc id 0,
        mkPP (macros pp) (diagnostics pp)
             (mkSM (id + 1) (<[id := mkExpansion sp r isArg name]> (expansionBuffers sm)))
             (input pp) (expandedTokens pp) (currentMacroToken pp)).

(** Modelled from the spec: the pull iterator over the raw token stream
    ([Preprocessor::peek], [consume], [expect]), which is not in the
    translated sources.  Past the end it yields [EndOfFile]. *)
Definition eofToken : Token :=
  mkToken TokenKind.EndOfFile [] EmptyString NoLocation SyntaxKind.Unknown.

Definition pp_peek : M Token :=
  fun pp => Ok (match input pp with t :: _ => t | [] => eofToken end, pp).

Definition pp_consume : M Token :=
  fun pp =>
    match input pp with
    | t :: rest =>
        Ok (t, mkPP (macros pp) (diagnostics pp) (sourceManager pp) rest
                    (expandedTokens pp) (currentMacroToken pp))
    | [] => Ok (eofToken, pp)
    end.

Definition getState : M PPState := fun pp => Ok (pp, pp).

Definition setExpandedTokens (ts : list Token) : M unit :=
  fun pp => Ok (tt, mkPP (macros pp) (diagnostics pp) (sourceManager pp) (input pp)
                      ts (currentMacroToken pp)).

Definition setCurrentMacroToken (i : option nat) : M unit :=
  fun pp => Ok (tt, mkPP (macros pp) (diagnostics pp) (sourceManager pp) (input pp)
                      (expandedTokens pp) i).

(** ** [string_view] helpers *)

Definition backslash : ascii := "092"%char.
Definition dquote : ascii := "034"%char.
Definition grave : ascii := "096"%char.

(** [s.substr(pos)]; [None] when [pos > s.size()] (the C++ throws). *)
Definition substr (s : string) (pos : nat) : option string :=
  if (pos <=? String.length s)%nat
  then Some (String.substring pos (String.length s - pos) s)
  else None.

(** [!s.empty() && s[0] == c] *)
Definition startsWith (c : ascii) (s : string) : bool :=
  match s with
  | String a _ => Ascii.eqb a c
  | EmptyString => false
  end.

(** [s.find(pat)]; [None] is [npos]. *)
Definition find (pat s : string) : option nat := String.index 0 pat s.

Definition pasteText : string := String grave (String grave EmptyString).
Definition quoteText : string := String grave (String dquote EmptyString).

Definition strlen (s : string) : Z := Z.of_nat (String.length s).

Definition isEmpty {A} (l : list A) : bool :=
  match l with [] => true | _ :: _ => false end.

Section Engine.
Context {L : Lexer}.

Definition pp_expect (k : TokenKind.t) : M Token :=
  do t <- pp_peek ;;
  if bool_decide (kind t = k) then pp_consume
  else
    let '(tok, ds) := createExpected t k None in
    run addExternalDiags ds ;; ret tok.

(** ** [Preprocessor::findMacro] *)
Definition findMacro (directive : Token) : M MacroDef :=
  do name <- must (substr (valueText directive) 1) ;;
  do name <- (if startsWith backslash name then must (substr name 1) else ret name) ;;
  do pp <- getState ;;
  match macros pp !! name with
  | None => ret nullMacro
  | Some m => ret m
  end.

(** ** [Preprocessor::MacroParser] *)

Record MacroParser : Type := mkParser { buffer : list Token; currentIndex : nat }.

Definition setBuffer (newBuffer : list Token) : MacroParser := mkParser newBuffer 0.

Definition next (p : MacroParser) : option Token * MacroParser :=
  match buffer p !! currentIndex p with
  | Some t => (Some t, mkParser (buffer p) (S (currentIndex p)))
  | None => (None, p)
  end.

Definition peek (p : MacroParser) : M Token :=
  match buffer p !! currentIndex p with
  | Some t => ret t
  | None => pp_peek
  end.

Definition consume (p : MacroParser) : M (Token * MacroParser) :=
  match next p with
  | (Some t, p') => ret (t, p')
  | (None, _) => do t <- pp_consume ;; ret (t, p)
  end.

Definition expect (p : MacroParser) (k : TokenKind.t) : M (Token * MacroParser) :=
  match buffer p !! currentIndex p with
  | None => do t <- pp_expect k ;; ret (t, p)
  | Some cur =>
      if negb (bool_decide (kind cur = k)) then
        let last_ := if (0 <? currentIndex p)%nat
                     then buffer p !! (currentIndex p - 1)%nat else None in
        let '(tok, ds) := createExpected cur k last_ in
        run addExternalDiags ds ;; ret (tok, p)
      else ret (cur, mkParser (buffer p) (S (currentIndex p)))
  end.

(** Tokens the parser can still consume: the rest of its buffer and then the
    raw input of the preprocessor.  Every iteration of the parsing loops
    below consumes one of them or leaves the loop, which bounds the loops. *)
Definition remaining (p : MacroParser) (pp : PPState) : nat :=
  (length (buffer p) - currentIndex p) + length (input pp).

(** The loop of [parseTokenList]; [delimPairStack] is kept top first. *)
Fixpoint parseTokenList_loop (n : nat) (allowNewlines : bool) (p : MacroParser)
    (tokens : list Token) (delimPairStack : list TokenKind.t)
    : M (list Token * MacroParser) :=
  match n with
  | O => outOfFuel
  | S n' =>
      do tk <- peek p ;;
      let k := kind tk in
      if bool_decide (k = TokenKind.EndOfFile)
         || (negb allowNewlines && negb (isOnSameLine tk)) then
        match delimPairStack with
        | top :: _ =>
            do b <- must (last tokens) ;;
            run addDiag diag.UnbalancedMacroArgDims (location b) [getTokenKindText top] ;;
            ret (tokens, p)
        | [] => ret (tokens, p)
        end
      else
        let continue_ (stack : list TokenKind.t) :=
          do '(t, p') <- consume p ;;
          let closeKind := getDelimCloseKind k in
          let stack' := if negb (bool_decide (closeKind = TokenKind.Unknown))
                        then closeKind :: stack else stack in
          parseTokenList_loop n' allowNewlines p' (tokens ++ [t]) stack' in
        match delimPairStack with
        | [] =>
            if bool_decide (k = TokenKind.Comma)
               || bool_decide (k = TokenKind.CloseParenthesis)
            then ret (tokens, p)
            else continue_ []
        | top :: rest =>
            if bool_decide (top = k) then continue_ rest else continue_ delimPairStack
        end
  end.

Definition parseTokenList (allowNewlines : bool) (p : MacroParser)
    : M (list Token * MacroParser) :=
  do pp <- getState ;;
  parseTokenList_loop (S (remaining p pp)) allowNewlines p [] [].

Definition parseActualArgument (p : MacroParser) : M (list Token * MacroParser) :=
  parseTokenList true p.

(** [parseArgumentList(results, parseActualArgument)]; the separators are
    not recorded. *)
Fixpoint parseArgumentList_loop (n : nat) (p : MacroParser)
    (results : list (list Token)) : M (list (list Token) * MacroParser) :=
  match n with
  | O => outOfFuel
  | S n' =>
      do '(arg, p1) <- parseActualArgument p ;;
      do tk <- peek p1 ;;
      if bool_decide (kind tk = TokenKind.Comma) then
        do '(_, p2) <- consume p1 ;;
        parseArgumentList_loop n' p2 (results ++ [arg])
      else ret (results ++ [arg], p1)
  end.

Definition parseArgumentList (p : MacroParser)
    : M (list (list Token) * MacroParser) :=
  do pp <- getState ;;
  parseArgumentList_loop (S (remaining p pp)) p [].

Definition parseActualArgumentList (p : MacroParser) (prevToken : Token)
    : M (option MacroActualArgumentListSyntax * MacroParser) :=
  do tk <- peek p ;;
  if negb (bool_decide (kind tk = TokenKind.OpenParenthesis)) then
    run addDiag diag.ExpectedMacroArgs
          (loc_add (location prevToken) (strlen (rawText prevToken))) [] ;;
    ret (None, p)
  else
    do '(open, p1) <- consume p ;;
    do '(arguments, p2) <- parseArgumentList p1 ;;
    do '(close, p3) <- expect p2 TokenKind.CloseParenthesis ;;
    ret (Some (mkActualArgs open arguments close), p3).

(** ** [Preprocessor::applyMacroOps] *)

(** The locals of [applyMacroOps] together with [dest]. *)
Record OpsState : Type := mkOps
  { emptyArgTrivia : list Trivia;
    stringifyBuffer : list Token;
    commentBuffer : list Token;
    stringify : option Token;
    syntheticComment : option Token;
    anyNewMacros : bool;
    didConcat : bool;
    dest : list Token }.

Definition set_emptyArgTrivia (v : list Trivia) (s : OpsState) : OpsState :=
  mkOps v (stringifyBuffer s) (commentBuffer s) (stringify s) (syntheticComment s)
        (anyNewMacros s) (didConcat s) (dest s).
Definition set_stringifyBuffer (v : list Token) (s : OpsState) : OpsState :=
  mkOps (emptyArgTrivia s) v (commentBuffer s) (stringify s) (syntheticComment s)
        (anyNewMacros s) (didConcat s) (dest s).
Definition set_commentBuffer (v : list Token) (s : OpsState) : OpsState :=
  mkOps (emptyArgTrivia s) (stringifyBuffer s) v (stringify s) (syntheticComment s)
        (anyNewMacros s) (didConcat s) (dest s).
Definition set_stringify (v : option Token) (s : OpsState) : OpsState :=
  mkOps (emptyArgTrivia s) (stringifyBuffer s) (commentBuffer s) v (syntheticComment s)
        (anyNewMacros s) (didConcat s) (dest s).
Definition set_syntheticComment (v : option Token) (s : OpsState) : OpsState :=
  mkOps (emptyArgTrivia s) (stringifyBuffer s) (commentBuffer s) (stringify s) v
        (anyNewMacros s) (didConcat s) (dest s).
Definition set_anyNewMacros (v : bool) (s : OpsState) : OpsState :=
  mkOps (emptyArgTrivia s) (stringifyBuffer s) (commentBuffer s) (stringify s)
        (syntheticComment s) v (didConcat s) (dest s).
Definition set_didConcat (v : bool) (s : OpsState) : OpsState :=
  mkOps (emptyArgTrivia s) (stringifyBuffer s) (commentBuffer s) (stringify s)
        (syntheticComment s) (anyNewMacros s) v (dest s).
Definition set_dest (v : list Token) (s : OpsState) : OpsState :=
  mkOps (emptyArgTrivia s) (stringifyBuffer s) (commentBuffer s) (stringify s)
        (syntheticComment s) (anyNewMacros s) (didConcat s) v.

Definition initOps (dest0 : list Token) : OpsState :=
  mkOps [] [] [] None None false false dest0.

(** [newToken.kind == Directive && newToken.directiveKind() == MacroUsage] *)
Definition isMacroUsage (t : Token) : bool :=
  bool_decide (kind t = TokenKind.Directive)
  && bool_decide (directiveKind t = SyntaxKind.MacroUsage).

(** What the [switch] of one loop iteration leaves behind: [newToken],
    [nextDidConcat], the (possibly advanced) index and the locals. *)
Definition SwitchResult : Type := (option Token * bool * nat * OpsState)%type.

(** [case TokenKind::MacroQuote] *)
Definition ops_quote (token : Token) (i : nat) (s : OpsState) : M SwitchResult :=
  match stringify s with
  | None => ret (None, false, i, set_stringifyBuffer [] (set_stringify (Some token) s))
  | Some q =>
      ret (Some (Lexer_stringify (location q) (trivia q) (stringifyBuffer s)),
           false, i, set_stringify None s)
  end.

(** The guard of the first branch of [case TokenKind::MacroPaste]:
    [i == 0 || i == tokens.size() - 1 || !token.trivia().empty() ||
     !tokens[i + 1].trivia().empty() || !emptyArgTrivia.empty()]. *)
Definition pasteIgnored (tokens : list Token) (i : nat) (token : Token)
    (s : OpsState) : M bool :=
  if (i =? 0)%nat || (i =? length tokens - 1)%nat || negb (isEmpty (trivia token))
  then ret true
  else
    do right <- must (tokens !! S i) ;;
    ret (negb (isEmpty (trivia right)) || negb (isEmpty (emptyArgTrivia s))).

(** [case TokenKind::MacroPaste] *)
Definition ops_paste (tokens : list Token) (token : Token) (i : nat)
    (s : OpsState) : M SwitchResult :=
  do ignored <- pasteIgnored tokens i token s ;;
  if ignored then
    run addDiag diag.IgnoredMacroPaste (location token) [] ;;
    ret (None, false, i, set_emptyArgTrivia (emptyArgTrivia s ++ trivia token) s)
  else
    do right <- must (tokens !! S i) ;;
    match stringify s with
    | Some _ =>
        if isEmpty (stringifyBuffer s)
           || bool_decide (kind right = TokenKind.MacroQuote) then
          run addDiag diag.IgnoredMacroPaste (location token) [] ;;
          ret (None, false, i, s)
        else
          do left <- must (last (stringifyBuffer s)) ;;
          match concatenateTokens left right with
          | Some newToken =>
              ret (Some newToken, false, S i,
                   set_stringifyBuffer (removelast (stringifyBuffer s)) s)
          | None => ret (None, false, i, s)
          end
    | None =>
        match syntheticComment s with
        | Some sc =>
            do back <- must (last (commentBuffer s)) ;;
            if bool_decide (kind back = TokenKind.Star)
               && bool_decide (kind right = TokenKind.Slash) then
              let cb := commentBuffer s ++ [right] in
              ret (None, false, S i,
                   set_syntheticComment None
                     (set_emptyArgTrivia
                        ((emptyArgTrivia s ++ trivia sc) ++ [commentify cb])
                        (set_commentBuffer cb s)))
            else ret (None, false, i, s)
        | None =>
            do left <- must (last (dest s)) ;;
            if bool_decide (kind left = TokenKind.Slash)
               && bool_decide (kind right = TokenKind.Star) then
              ret (Some right, false, S i,
                   set_commentBuffer [withTrivia left []]
                     (set_dest (removelast (dest s))
                        (set_syntheticComment (Some left) s)))
            else
              match concatenateTokens left right with
              | Some newToken =>
                  ret (Some newToken, true, S i,
                       set_anyNewMacros (anyNewMacros s || isMacroUsage newToken)
                         (set_dest (removelast (dest s)) s))
              | None => ret (None, false, i, s)
              end
        end
    end.

(** [default:] *)
Definition ops_default (token : Token) (i : nat) (s : OpsState) : M SwitchResult :=
  if didConcat s && isEmpty (trivia token) && isEmpty (emptyArgTrivia s) then
    do left <- must (last (dest s)) ;;
    match concatenateTokens left token with
    | Some newToken => ret (Some newToken, true, i, set_dest (removelast (dest s)) s)
    | None => ret (Some token, false, i, s)
    end
  else ret (Some token, false, i, s).

Definition ops_switch (tokens : list Token) (token : Token) (i : nat)
    (s : OpsState) : M SwitchResult :=
  match kind token with
  | TokenKind.MacroQuote => ops_quote token i s
  | TokenKind.MacroPaste => ops_paste tokens token i s
  | _ => ops_default token i s
  end.

(** The part of the loop body after the [switch] (from [didConcat =
    nextDidConcat] on).  [rec] is [applyMacroOps] itself, for the re-lexed
    remainder of a split escaped identifier. *)
Definition ops_emit (rec : list Token -> list Token -> M (bool * list Token))
    (newToken : option Token) (s : OpsState) : M OpsState :=
  match newToken with
  | None => ret s
  | Some newToken =>
      if bool_decide (kind newToken = TokenKind.EmptyMacroArgument) then
        ret (set_emptyArgTrivia (emptyArgTrivia s ++ trivia newToken) s)
      else
        let '(newToken, s) :=
          if negb (isEmpty (emptyArgTrivia s))
          then (withTrivia newToken (emptyArgTrivia s ++ trivia newToken),
                set_emptyArgTrivia [] s)
          else (newToken, s) in
        match stringify s with
        | None =>
            match syntheticComment s with
            | Some _ => ret (set_commentBuffer (commentBuffer s ++ [newToken]) s)
            | None => ret (set_dest (dest s ++ [newToken]) s)
            end
        | Some q =>
            let split_at :=
              if bool_decide (kind newToken = TokenKind.Identifier)
                 && startsWith backslash (rawText newToken)
              then find quoteText (rawText newToken) else None in
            match split_at with
            | Some offset =>
                let split := mkToken TokenKind.Identifier (trivia newToken)
                               (String.substring 0 offset (rawText newToken))
                               (location newToken) SyntaxKind.Unknown in
                let sb := stringifyBuffer s ++ [split] in
                let dest1 := dest s ++ [Lexer_stringify (location q) (trivia q) sb] in
                let '(splits, ds) := splitTokens newToken (offset + 2) in
                run addExternalDiags ds ;;
                do '(any, dest2) <- rec splits dest1 ;;
                ret (set_anyNewMacros (anyNewMacros s || any)
                       (set_dest dest2
                          (set_stringify None (set_stringifyBuffer sb s))))
            | None => ret (set_stringifyBuffer (stringifyBuffer s ++ [newToken]) s)
            end
        end
  end.

(** One iteration of [for (size_t i = 0; i < tokens.size(); i++)]; the
    result is the index the iteration ends with (before the loop's [i++]). *)
Definition ops_body (rec : list Token -> list Token -> M (bool * list Token))
    (tokens : list Token) (i : nat) (s : OpsState) : M (nat * OpsState) :=
  do token <- must (tokens !! i) ;;
  do '(newToken, nextDidConcat, i', s1) <- ops_switch tokens token i s ;;
  do s2 <- ops_emit rec newToken (set_didConcat nextDidConcat s1) ;;
  ret (i', s2).

(** The loop; [n] bounds the number of iterations and is instantiated with
    [tokens.size()], which suffices since [i] grows in every iteration. *)
Fixpoint ops_loop (rec : list Token -> list Token -> M (bool * list Token))
    (tokens : list Token) (n : nat) (i : nat) (s : OpsState) : M OpsState :=
  if (i <? length tokens)%nat then
    match n with
    | O => outOfFuel
    | S n' =>
        do '(i', s') <- ops_body rec tokens i s ;;
        ops_loop rec tokens n' (S i') s'
    end
  else ret s.

(** [applyMacroOps(tokens, dest)], step-indexed over the depth of its
    recursion; returns [anyNewMacros] and the new contents of [dest]. *)
Fixpoint applyMacroOps (fuel : nat) (tokens : list Token) (dest0 : list Token)
    : M (bool * list Token) :=
  match fuel with
  | O => outOfFuel
  | S fuel' =>
      do s <- ops_loop (applyMacroOps fuel') tokens (length tokens) 0 (initOps dest0) ;;
      run (match stringify s with
           | Some q => addDiag diag.ExpectedMacroStringifyEnd (location q) []
           | None => ret tt
           end) ;;
      ret (anyNewMacros s, dest s)
  end.

(** ** [Preprocessor::MacroExpansion] *)

Record MacroExpansion : Type := mkMacroExpansion
  { exp_dest : list Token;
    usageSite : Token;
    any : bool;
    isTopLevel : bool }.

Definition getRange (e : MacroExpansion) : SourceRange :=
  mkRange (location (usageSite e))
          (loc_add (location (usageSite e)) (strlen (rawText (usageSite e)))).

(** [adjustLoc(token, macroLoc, firstLoc, expansionRange)]: the location,
    followed by the new values of the reference arguments [macroLoc] and
    [firstLoc]. *)
Definition adjustLoc (token : Token) (macroLoc firstLoc : SourceLocation)
    (expansionRange : SourceRange)
    : M (SourceLocation * SourceLocation * SourceLocation) :=
  if negb (bool_decide (loc_buffer (location token) = loc_buffer firstLoc)) then
    let firstLoc' := location token in
    do macroLoc' <- createExpansionLoc firstLoc' expansionRange true None ;;
    ret (loc_add macroLoc' (loc_sub (location token) firstLoc'), macroLoc', firstLoc')
  else
    ret (loc_add macroLoc (loc_sub (location token) firstLoc), macroLoc, firstLoc).

(** [append(token, location, allowLineContinuation)] *)
Definition append_at (e : MacroExpansion) (token : Token) (loc : SourceLocation)
    (allowLineContinuation : bool) : M MacroExpansion :=
  let token :=
    if negb (any e) then
      if negb (isTopLevel e) then withTrivia token (trivia (usageSite e))
      else withTrivia token []
    else token in
  if bool_decide (kind token = TokenKind.LineContinuation)
     && negb allowLineContinuation then
    do rest <- must (substr (rawText token) 1) ;;
    let newTrivia := trivia token ++ [mkTrivia TriviaKind.EndOfLine rest] in
    ret (mkMacroExpansion
           (exp_dest e ++ [mkToken TokenKind.EmptyMacroArgument newTrivia EmptyString
                                   loc SyntaxKind.Unknown])
           (usageSite e) true (isTopLevel e))
  else
    ret (mkMacroExpansion (exp_dest e ++ [withLocation token loc])
           (usageSite e) true (isTopLevel e)).

(** [append(token, macroLoc, firstLoc, expansionRange, allowLineContinuation)] *)
Definition append (e : MacroExpansion) (token : Token)
    (macroLoc firstLoc : SourceLocation) (expansionRange : SourceRange)
    (allowLineContinuation : bool)
    : M (MacroExpansion * SourceLocation * SourceLocation) :=
  do '(loc, macroLoc', firstLoc') <- adjustLoc token macroLoc firstLoc expansionRange ;;
  do e' <- append_at e token loc allowLineContinuation ;;
  ret (e', macroLoc', firstLoc').

Fixpoint appendAll (e : MacroExpansion) (tokens : list Token)
    (macroLoc firstLoc : SourceLocation) (expansionRange : SourceRange)
    : M (MacroExpansion * SourceLocation * SourceLocation) :=
  match tokens with
  | [] => ret (e, macroLoc, firstLoc)
  | token :: rest =>
      do '(e', macroLoc', firstLoc') <- append e token macroLoc firstLoc expansionRange false ;;
      appendAll e' rest macroLoc' firstLoc' expansionRange
  end.

(** ** [Preprocessor::expandIntrinsic] *)
Definition expandIntrinsic (i : MacroIntrinsic.t) (e : MacroExpansion)
    : M (bool * MacroExpansion) :=
  let loc := range_start (getRange e) in
  match i with
  | MacroIntrinsic.File =>
      let fileName := getFileName loc in
      let text := String dquote (fileName ++ String dquote EmptyString) in
      do e' <- append_at e (mkToken TokenKind.StringLiteral [] text loc SyntaxKind.Unknown)
                 loc false ;;
      ret (true, e')
  | MacroIntrinsic.Line =>
      let text := uintToStr (getLineNumber loc) in
      do e' <- append_at e (mkToken TokenKind.IntegerLiteral [] text loc SyntaxKind.Unknown)
                 loc false ;;
      ret (true, e')
  | MacroIntrinsic.None => crash
  end.

(** ** [Preprocessor::expandMacro] *)

(** [struct ArgTokens : span<const Token> { bool isExpanded = false; }] *)
Record ArgTokens : Type := mkArgTokens { arg_tokens : list Token; isExpanded : bool }.

(** The result of [expandReplacementList]: the returned flag, the new value
    of the reference argument [tokens], whether [tokens] was replaced by a
    fresh copy (so that [tokens.data()] changed), and the new value of the
    reference argument [alreadyExpanded]. *)
Record ReplacementResult : Type := mkReplacement
  { erl_ok : bool;
    erl_tokens : list Token;
    erl_replaced : bool;
    erl_alreadyExpanded : gset N }.

(** The loop over [formalList] that fills [argumentMap]; [None] is the
    [return false] after [NotEnoughMacroArgs]. *)
Fixpoint matchArguments (formals : list MacroFormalArgumentSyntax) (i : nat)
    (actualArgs : MacroActualArgumentListSyntax)
    (argumentMap : gmap string ArgTokens) : M (option (gmap string ArgTokens)) :=
  match formals with
  | [] => ret (Some argumentMap)
  | formal :: rest =>
      let continue_ (tokenList : list Token) :=
        let name := valueText (formal_name formal) in
        let argumentMap' :=
          if negb (bool_decide (name = EmptyString)) then
            match argumentMap !! name with
            | Some _ => argumentMap
            | None => <[name := mkArgTokens tokenList false]> argumentMap
            end
          else argumentMap in
        matchArguments rest (S i) actualArgs argumentMap' in
      match args actualArgs !! i with
      | Some actual =>
          match actual, defaultValue formal with
          | [], Some def => continue_ def
          | _, _ => continue_ actual
          end
      | None =>
          match defaultValue formal with
          | Some def => continue_ def
          | None =>
              run addDiag diag.NotEnoughMacroArgs (location (closeParen actualArgs)) [] ;;
              ret None
          end
      end
  end.

(** What the closures [append] and [handleToken] of [expandMacro] capture by
    reference. *)
Record ExpandState : Type := mkExpand
  { expansion : MacroExpansion;
    argumentMap : gmap string ArgTokens;
    inDefineDirective : bool;
    expansionLoc : SourceLocation;
    start : SourceLocation }.

Section expandMacro.
(** [expandReplacementList], as seen from [expandMacro]. *)
Variable expandReplacementList_rec : list Token -> gset N -> M ReplacementResult.
Variable expansionRange : SourceRange.

(** The lambda [append] *)
Definition expand_append (token : Token) (s : ExpandState) : M (bool * ExpandState) :=
  do '(e, macroLoc, firstLoc) <-
     append (expansion s) token (expansionLoc s) (start s) expansionRange false ;;
  ret (true, mkExpand e (argumentMap s) (inDefineDirective s) macroLoc firstLoc).

(** The lambda [appendBody] (inside a [`define]) *)
Definition appendBody (token : Token) (e : MacroExpansion)
    (argLoc firstLoc : SourceLocation) (argRange : SourceRange)
    : M (MacroExpansion * SourceLocation * SourceLocation) :=
  if negb (isOnSameLine token) then
    let lc := mkToken TokenKind.LineContinuation (trivia token)
                (String backslash EmptyString) (location token) SyntaxKind.Unknown in
    do '(e1, argLoc1, firstLoc1) <- append e lc argLoc firstLoc argRange true ;;
    append e1 (withTrivia token []) argLoc1 firstLoc1 argRange false
  else append e token argLoc firstLoc argRange false.

Fixpoint appendBodyAll (tokens : list Token) (e : MacroExpansion)
    (argLoc firstLoc : SourceLocation) (argRange : SourceRange)
    : M (MacroExpansion * SourceLocation * SourceLocation) :=
  match tokens with
  | [] => ret (e, argLoc, firstLoc)
  | token :: rest =>
      do '(e', argLoc', firstLoc') <- appendBody token e argLoc firstLoc argRange ;;
      appendBodyAll rest e' argLoc' firstLoc' argRange
  end.

(** The lambda [handleToken] *)
Definition handleToken (token : Token) (s : ExpandState) : M (bool * ExpandState) :=
  let s :=
    if inDefineDirective s && negb (isOnSameLine token)
    then mkExpand (expansion s) (argumentMap s) false (expansionLoc s) (start s)
    else s in
  if negb (bool_decide (kind token = TokenKind.Identifier))
     && negb (isKeyword (kind token))
     && negb (bool_decide (kind token = TokenKind.Directive)) then
    expand_append token s
  else
    let text := valueText token in
    let isDirective :=
      bool_decide (kind token = TokenKind.Directive)
      && negb (bool_decide (text = EmptyString)) in
    if isDirective && negb (bool_decide (directiveKind token = SyntaxKind.MacroUsage)) then
      let s :=
        if bool_decide (directiveKind token = SyntaxKind.DefineDirective)
        then mkExpand (expansion s) (argumentMap s) true (expansionLoc s) (start s)
        else s in
      expand_append token s
    else
      do text <- (if isDirective then must (substr text 1) else ret text) ;;
      match argumentMap s !! text with
      | None => expand_append token s
      | Some arg =>
          (* fully expand the argument before its first substitution *)
          do expanded <-
             (if negb (isExpanded arg) then
                do r <- expandReplacementList_rec (arg_tokens arg) ∅ ;;
                if negb (erl_ok r) then ret None
                else
                  ret (Some (erl_tokens r,
                             mkExpand (expansion s)
                               (<[text := mkArgTokens (erl_tokens r) true]> (argumentMap s))
                               (inDefineDirective s) (expansionLoc s) (start s)))
              else ret (Some (arg_tokens arg, s))) ;;
          match expanded with
          | None => ret (false, s)
          | Some (argTokens, s) =>
              match argTokens with
              | [] =>
                  let empty := mkToken TokenKind.EmptyMacroArgument (trivia token)
                                 EmptyString (location token) SyntaxKind.Unknown in
                  expand_append empty s
              | begin :: rest =>
                  let first := withTrivia begin (trivia token) in
                  let firstLoc := location first in
                  do '(tokenLoc, macroLoc', start') <-
                     adjustLoc token (expansionLoc s) (start s) expansionRange ;;
                  let argRange :=
                    mkRange tokenLoc (loc_add tokenLoc (strlen (rawText token))) in
                  do argLoc <- createExpansionLoc firstLoc argRange true None ;;
                  do first <-
                     (if bool_decide (kind token = TokenKind.Directive) then
                        let grave_ := mkToken TokenKind.Unknown (trivia first)
                                        (String grave EmptyString) firstLoc
                                        SyntaxKind.Unknown in
                        match concatenateTokens grave_ first with
                        | Some combined => ret combined
                        | None =>
                            run addDiag diag.MisplacedDirectiveChar firstLoc [] ;;
                            ret first
                        end
                      else ret first) ;;
                  do '(e, _, _) <-
                     (if inDefineDirective s
                      then appendBodyAll (first :: rest) (expansion s) argLoc firstLoc argRange
                      else appendAll (expansion s) (first :: rest) argLoc firstLoc argRange) ;;
                  ret (true, mkExpand e (argumentMap s) (inDefineDirective s)
                               macroLoc' start')
              end
          end
      end.

(** [for (auto t : ts) if (!handleToken(t)) return false;] *)
Fixpoint handleTokens (ts : list Token) (s : ExpandState) : M (bool * ExpandState) :=
  match ts with
  | [] => ret (true, s)
  | t :: rest =>
      do '(ok, s') <- handleToken t s ;;
      if ok then handleTokens rest s' else ret (false, s')
  end.

(** One iteration of the loop over the body in [expandMacro]. *)
Definition expandBodyToken (token : Token) (s : ExpandState) : M (bool * ExpandState) :=
  let index :=
    if bool_decide (kind token = TokenKind.Identifier)
       && startsWith backslash (rawText token)
    then find pasteText (rawText token) else None in
  match index with
  | Some index =>
      let first := withRawText token (String.substring 0 index (rawText token)) in
      do '(ok, s1) <- handleToken first s ;;
      if negb ok then ret (false, s1)
      else
        let '(splits, ds) := splitTokens token index in
        run addExternalDiags ds ;;
        do '(ok, s2) <- handleTokens splits s1 ;;
        if negb ok then ret (false, s2)
        else
          match last splits with
          | Some back =>
              let loc := loc_add (location back) (strlen (rawText back)) in
              let empty := mkToken TokenKind.EmptyMacroArgument
                             [mkTrivia TriviaKind.Whitespace " "] EmptyString loc
                             SyntaxKind.Unknown in
              handleToken empty s2
          | None => ret (true, s2)
          end
  | None => handleToken token s
  end.

Fixpoint expandBody (ts : list Token) (s : ExpandState) : M (bool * ExpandState) :=
  match ts with
  | [] => ret (true, s)
  | t :: rest =>
      do '(ok, s') <- expandBodyToken t s ;;
      if ok then expandBody rest s' else ret (false, s')
  end.

End expandMacro.

Definition expandMacro
    (expandReplacementList_rec : list Token -> gset N -> M ReplacementResult)
    (macro : MacroDef) (e : MacroExpansion)
    (actualArgs : option MacroActualArgumentListSyntax) : M (bool * MacroExpansion) :=
  if isIntrinsic macro then
    match actualArgs with
    | Some _ => crash
    | None => expandIntrinsic (intrinsic macro) e
    end
  else
    do directive <- must (syntax macro) ;;
    match body directive with
    | [] => ret (true, e)
    | body0 :: _ =>
        let macroName := valueText (define_name directive) in
        match formalArguments directive with
        | None =>
            let start_ := location body0 in
            do expansionLoc_ <-
               createExpansionLoc start_ (getRange e) false (Some macroName) ;;
            do '(e', _, _) <- appendAll e (body directive) expansionLoc_ start_ (getRange e) ;;
            ret (true, e')
        | Some formalList =>
            do actualArgs <- must actualArgs ;;
            if (length formalList <? length (args actualArgs))%nat then
              run addDiag diag.TooManyActualMacroArgs
                    (location (openParen actualArgs)) [] ;;
              ret (false, e)
            else
              do matched <- matchArguments formalList 0 actualArgs ∅ ;;
              match matched with
              | None => ret (false, e)
              | Some argumentMap_ =>
                  let endOfArgs := closeParen actualArgs in
                  let expansionRange :=
                    mkRange (range_start (getRange e))
                            (loc_add (location endOfArgs) (strlen (rawText endOfArgs))) in
                  let start_ := location body0 in
                  do expansionLoc_ <-
                     createExpansionLoc start_ expansionRange false (Some macroName) ;;
                  do '(ok, s) <-
                     expandBody expandReplacementList_rec expansionRange (body directive)
                       (mkExpand e argumentMap_ false expansionLoc_ start_) ;;
                  ret (ok, expansion s)
              end
        end
    end.

(** ** [Preprocessor::expandReplacementList] *)

Section expandReplacementList.
(** The function itself, for the recursive calls (directly and through
    [expandMacro]). *)
Variable rec : list Token -> gset N -> M ReplacementResult.
(** The reference argument [tokens] as passed in. *)
Variable tokens0 : list Token.

Definition erl_fail (alreadyExpanded : gset N) : M ReplacementResult :=
  ret (mkReplacement false tokens0 false alreadyExpanded).

(** [while ((token = parser.next())) { ... }] followed by the epilogue.
    Every iteration takes at least one token from the parser's buffer, so
    [n = tokens.size() + 1] bounds the loop. *)
Fixpoint erl_loop (n : nat) (parser : MacroParser) (outBuffer : list Token)
    (expandedSomething : bool) (alreadyExpanded : gset N) : M ReplacementResult :=
  match n with
  | O => outOfFuel
  | S n' =>
      match next parser with
      | (None, _) =>
          ret (mkReplacement true
                 (if expandedSomething then outBuffer else tokens0)
                 expandedSomething alreadyExpanded)
      | (Some token, parser) =>
          if negb (bool_decide (kind token = TokenKind.Directive))
             || negb (bool_decide (directiveKind token = SyntaxKind.MacroUsage)) then
            erl_loop n' parser (outBuffer ++ [token]) expandedSomething alreadyExpanded
          else
            do macro <- findMacro token ;;
            if negb (valid macro) then
              erl_loop n' parser (outBuffer ++ [token]) expandedSomething alreadyExpanded
            else if negb (isIntrinsic macro)
                    && bool_decide (syntaxPtr macro ∈ alreadyExpanded) then
              run addDiag diag.RecursiveMacro (location token) [valueText token] ;;
              erl_fail alreadyExpanded
            else
              do '(actualArgs, parser) <-
                 (if needsArgs macro then parseActualArgumentList parser token
                  else ret (None, parser)) ;;
              if needsArgs macro && negb (bool_decide (is_Some actualArgs)) then
                erl_fail alreadyExpanded
              else
                let expansion_ := mkMacroExpansion [] token false false in
                do '(ok, expansion_) <- expandMacro rec macro expansion_ actualArgs ;;
                if negb ok then erl_fail alreadyExpanded
                else
                  let alreadyExpanded := alreadyExpanded ∪ {[ syntaxPtr macro ]} in
                  do r <- rec (exp_dest expansion_) alreadyExpanded ;;
                  if negb (erl_ok r) then erl_fail (erl_alreadyExpanded r)
                  else
                    let alreadyExpanded := erl_alreadyExpanded r ∖ {[ syntaxPtr macro ]} in
                    erl_loop n' parser (outBuffer ++ erl_tokens r) true alreadyExpanded
      end
  end.

End expandReplacementList.

(** [expandReplacementList(tokens, alreadyExpanded)], step-indexed over the
    depth of the nested expansion. *)
Fixpoint expandReplacementList (fuel : nat) (tokens : list Token)
    (alreadyExpanded : gset N) : M ReplacementResult :=
  match fuel with
  | O => outOfFuel
  | S fuel' =>
      erl_loop (expandReplacementList fuel') tokens (S (length tokens))
        (setBuffer tokens) [] false alreadyExpanded
  end.

(** ** [Preprocessor::handleTopLevelMacro] *)

(** The tail of the function, after the [while (true)] loop. *)
Definition topLevel_finish (actualArgs : option MacroActualArgumentListSyntax)
    : M (option MacroActualArgumentListSyntax) :=
  do pp <- getState ;;
  run (if negb (isEmpty (expandedTokens pp)) then setCurrentMacroToken (Some 0%nat)
       else ret tt) ;;
  ret actualArgs.

(** The [while (true)] loop.  [ptr == tokens.data()] holds exactly when
    [expandReplacementList] did not replace [tokens] by a fresh copy, which
    is what [erl_replaced] records.  From the second iteration on the source
    makes [tokens] a view of [expandedTokens], which the rewrite pass clears
    and refills while it still reads the view; here the pass reads the list
    as it was before the clearing.  The index [n] counts the iterations
    still allowed; [fuel] bounds the depth of the calls made from one
    iteration. *)
Fixpoint topLevel_loop (fuel n : nat) (tokens : list Token)
    (alreadyExpanded : gset N)
    (actualArgs : option MacroActualArgumentListSyntax)
    : M (option MacroActualArgumentListSyntax) :=
  match n with
  | O => outOfFuel
  | S n' =>
      do r <- expandReplacementList fuel tokens alreadyExpanded ;;
      if negb (erl_ok r) then ret actualArgs
      else
        run setExpandedTokens [] ;;
        do '(anyNew, dest_) <- applyMacroOps fuel (erl_tokens r) [] ;;
        run setExpandedTokens dest_ ;;
        if negb anyNew && negb (erl_replaced r) then topLevel_finish actualArgs
        else topLevel_loop fuel n' dest_ (erl_alreadyExpanded r) actualArgs
  end.

Definition handleTopLevelMacro (fuel : nat) (directive : Token)
    : M (option MacroActualArgumentListSyntax) :=
  do macro <- findMacro directive ;;
  if negb (valid macro) then
    run addDiag diag.UnknownDirective (location directive) [valueText directive] ;;
    do tk <- pp_peek ;;
    if bool_decide (kind tk = TokenKind.OpenParenthesis) then
      do '(actualArgs, _) <- parseActualArgumentList (setBuffer []) directive ;;
      ret actualArgs
    else ret None
  else
    do pp <- getState ;;
    if bool_decide (is_Some (currentMacroToken pp)) then crash
    else
      do '(actualArgs, _) <-
         (if needsArgs macro then parseActualArgumentList (setBuffer []) directive
          else ret (None, setBuffer [])) ;;
      if needsArgs macro && negb (bool_decide (is_Some actualArgs)) then ret None
      else
        let expansion_ := mkMacroExpansion [] directive false true in
        do '(ok, expansion_) <-
           expandMacro (expandReplacementList fuel) macro expansion_ actualArgs ;;
        if negb ok then ret actualArgs
        else
          let alreadyExpanded : gset N :=
            if negb (isIntrinsic macro) then {[ syntaxPtr macro ]} else ∅ in
          topLevel_loop fuel fuel (exp_dest expansion_) alreadyExpanded actualArgs.

End Engine.

(** ** A small concrete lexer

    Used to run the engine on concrete inputs.  It follows the contracts the
    engine relies on: [concatenateTokens] glues the two spellings and yields
    a token only if the result is a single identifier, number or directive;
    [stringify] yields a [StringLiteral]; identifiers are looked up by their
    spelling. *)
Module Example.

Definition isDigit (c : ascii) : bool :=
  let n := nat_of_ascii c in (48 <=? n)%nat && (n <=? 57)%nat.
Definition isIdentStart (c : ascii) : bool :=
  let n := nat_of_ascii c in
  ((65 <=? n)%nat && (n <=? 90)%nat) || ((97 <=? n)%nat && (n <=? 122)%nat)
  || (n =? 95)%nat.
Definition isIdentChar (c : ascii) : bool :=
  isIdentStart c || isDigit c || (nat_of_ascii c =? 36)%nat.

Fixpoint allChars (f : ascii -> bool) (s : string) : bool :=
  match s with
  | EmptyString => true
  | String c r => f c && allChars f r
  end.

Definition isIdentifierText (s : string) : bool :=
  match s with
  | String c r => isIdentStart c && allChars isIdentChar r
  | EmptyString => false
  end.

Definition isNumberText (s : string) : bool :=
  match s with
  | String c r => isDigit c && allChars isDigit r
  | EmptyString => false
  end.

(** The directive kind of a directive spelled [name] (without the grave). *)
Definition directiveKindOf (name : string) : SyntaxKind.t :=
  if bool_decide (name = "define") then SyntaxKind.DefineDirective
  else if bool_decide (name = "ifdef") then SyntaxKind.OtherDirective 0
  else if bool_decide (name = "ifndef") then SyntaxKind.OtherDirective 1
  else if bool_decide (name = "else") then SyntaxKind.OtherDirective 2
  else if bool_decide (name = "endif") then SyntaxKind.OtherDirective 3
  else if bool_decide (name = "undef") then SyntaxKind.OtherDirective 4
  else if bool_decide (name = "include") then SyntaxKind.OtherDirective 5
  else SyntaxKind.MacroUsage.

(** Lex [text] as exactly one token, if it is one. *)
Definition lexOne (text : string) (tr : list Trivia) (loc : SourceLocation)
    : option Token :=
  match text with
  | String c r =>
      if Ascii.eqb c grave then
        if isIdentifierText r
        then Some (mkToken TokenKind.Directive tr text loc (directiveKindOf r))
        else None
      else if isIdentifierText text
      then Some (mkToken TokenKind.Identifier tr text loc SyntaxKind.Unknown)
      else if isNumberText text
      then Some (mkToken TokenKind.IntegerLiteral tr text loc SyntaxKind.Unknown)
      else None
  | EmptyString => None
  end.

Definition concat_ (left right : Token) : option Token :=
  if bool_decide (rawText left = EmptyString) || bool_decide (rawText right = EmptyString)
  then None
  else lexOne (rawText left ++ rawText right)%string (trivia left) (location left).

Definition triviaText (tr : list Trivia) : string :=
  foldr (fun t acc => (trivia_rawText t ++ acc)%string) EmptyString tr.

Definition tokensText (ts : list Token) : string :=
  foldr (fun t acc => (triviaText (trivia t) ++ rawText t ++ acc)%string) EmptyString ts.

Definition stringify_ (loc : SourceLocation) (tr : list Trivia) (ts : list Token) : Token :=
  mkToken TokenKind.StringLiteral tr
    (String dquote (tokensText ts ++ String dquote EmptyString)) loc SyntaxKind.Unknown.

Definition split_ (t : Token) (offset : nat) : list Token * list ExternalDiag :=
  let rest := String.substring offset (String.length (rawText t) - offset) (rawText t) in
  let loc := loc_add (location t) (Z.of_nat offset) in
  match rest with
  | EmptyString => ([], [])
  | _ =>
      match lexOne rest [] loc with
      | Some tok => ([tok], [])
      | None => ([mkToken TokenKind.Unknown [] rest loc SyntaxKind.Unknown],
                 [mkExternalDiag 0 loc])
      end
  end.

Definition sameLine (t : Token) : bool :=
  forallb (fun tr => negb (bool_decide (trivia_kind tr = TriviaKind.EndOfLine))
                     && negb (bool_decide (trivia_kind tr = TriviaKind.LineContinuation)))
          (trivia t).

Definition lexer : Lexer :=
  {| valueText := rawText;
     isOnSameLine := sameLine;
     isKeyword := fun k => match k with TokenKind.Other n => (n <? 100)%nat | _ => false end;
     getTokenKindText := fun _ => EmptyString;
     Lexer_stringify := stringify_;
     concatenateTokens := concat_;
     splitTokens := split_;
     commentify := fun ts => mkTrivia TriviaKind.BlockComment (tokensText ts);
     createExpected := fun actual k _ =>
       (mkToken k [] EmptyString (location actual) SyntaxKind.Unknown,
        [mkExternalDiag 1 (location actual)]);
     getFileName := fun _ => "file.sv";
     getLineNumber := fun l => Z.to_nat (loc_offset l);
     uintToStr := fun n => NilZero.string_of_uint (Nat.to_uint n) |}.

(** Token builders: a token of buffer [1] at offset [off]. *)
Definition tok (k : TokenKind.t) (text : string) (off : Z) : Token :=
  mkToken k [] text (mkLoc 1 off) SyntaxKind.Unknown.
Definition ident (text : string) (off : Z) : Token := tok TokenKind.Identifier text off.
Definition usage (text : string) (off : Z) : Token :=
  mkToken TokenKind.Directive [] text (mkLoc 1 off) SyntaxKind.MacroUsage.
Definition spaced (t : Token) : Token :=
  withTrivia t [mkTrivia TriviaKind.Whitespace " "].

Definition defineMacro (addr : N) (name : string)
    (formals : option (list string)) (body_ : list Token) : MacroDef :=
  mkMacroDef
    (Some (mkDefine addr (ident name 0)
             (option_map (map (fun f => mkFormal (ident f 0) None)) formals) body_))
    false MacroIntrinsic.None.

Definition initialState (table : list (string * MacroDef)) (input_ : list Token) : PPState :=
  mkPP (list_to_map table) [] (mkSM 2 ∅) input_ [] None.

End Example.

(** ** Vocabulary of the statements *)

Definition addDiagState (c : diag.t) (l : SourceLocation) (a : list string)
    (pp : PPState) : PPState :=
  mkPP (macros pp) (diagnostics pp ++ [mkDiag c l a]) (sourceManager pp)
       (input pp) (expandedTokens pp) (currentMacroToken pp).

(** Number of [RecursiveMacro] diagnostics. *)
Definition RMcount (ds : list Diagnostic) : nat :=
  length (List.filter (fun d => bool_decide (code d = diag.RecursiveMacro)) ds).

(** The part of the state the expansion functions never touch. *)
Definition frame (pp pp' : PPState) : Prop :=
  macros pp' = macros pp /\
  expandedTokens pp' = expandedTokens pp /\
  currentMacroToken pp' = currentMacroToken pp.

(** [quiet pp pp']: [pp'] arose from [pp] without new [RecursiveMacro]
    diagnostics and with the frame intact. *)
Definition quiet (pp pp' : PPState) : Prop :=
  frame pp pp' /\ RMcount (diagnostics pp') = RMcount (diagnostics pp).

Definition Quiet {A} (c : M A) : Prop :=
  forall pp a pp', c pp = Ok (a, pp') -> quiet pp pp'.

(** [loud ok pp pp']: at most one new [RecursiveMacro] diagnostic, and none
    when the step reported success. *)
Definition loud (ok : bool) (pp pp' : PPState) : Prop :=
  frame pp pp' /\
  (RMcount (diagnostics pp') <= RMcount (diagnostics pp) + 1)%nat /\
  (ok = true -> RMcount (diagnostics pp') = RMcount (diagnostics pp)).

Definition Loud {A} (okOf : A -> bool) (c : M A) : Prop :=
  forall pp a pp', c pp = Ok (a, pp') -> loud (okOf a) pp pp'.

(** A computation that reports failure without a diagnostic of its own. *)
Definition Aborts {A} (okOf : A -> bool) (c : M A) : Prop :=
  forall pp a pp', c pp = Ok (a, pp') -> quiet pp pp' /\ okOf a = false.

Definition isSomeb {A} (o : option A) : bool :=
  match o with Some _ => true | None => false end.

(** What one top-level expansion does to the state: at most one
    [RecursiveMacro] diagnostic; and either nothing is handed out, or nothing
    of that kind was reported and the tokens handed out are a result of
    [applyMacroOps]. *)
Definition topLevel_post (Good : list Token -> Prop) (pp pp' : PPState) : Prop :=
  macros pp' = macros pp /\
  (RMcount (diagnostics pp') <= RMcount (diagnostics pp) + 1)%nat /\
  (currentMacroToken pp' = currentMacroToken pp \/
   (RMcount (diagnostics pp') = RMcount (diagnostics pp) /\
    currentMacroToken pp' = Some 0%nat /\
    expandedTokens pp' <> [] /\ Good (expandedTokens pp'))).

(** The three kinds that only exist between body emission and the rewrite
    pass. *)
Definition sentinel (k : TokenKind.t) : bool :=
  match k with
  | TokenKind.MacroQuote | TokenKind.MacroPaste | TokenKind.EmptyMacroArgument => true
  | _ => false
  end.

Definition noSentinels (ts : list Token) : Prop :=
  Forall (fun t => sentinel (kind t) = false) ts.

(** The contract of the lexer callbacks the property depends on:
    [stringify] produces a string literal, and a concatenation that lexes
    cleanly is neither a quote nor a paste token. *)
Definition lexerContract (L : Lexer) : Prop :=
  (forall loc tr ts, kind (Lexer_stringify loc tr ts) = TokenKind.StringLiteral) /\
  (forall l r t, concatenateTokens l r = Some t ->
     kind t <> TokenKind.MacroQuote /\ kind t <> TokenKind.MacroPaste).

(** [newToken] is never a quote or a paste token. *)
Definition emittable (o : option Token) : Prop :=
  forall t, o = Some t ->
    kind t <> TokenKind.MacroQuote /\ kind t <> TokenKind.MacroPaste.

(** A token [expandReplacementList] copies to its output: not a macro usage,
    or a usage whose name is not (yet) a macro. *)
Definition inert {L : Lexer} (pp : PPState) (t : Token) : Prop :=
  isMacroUsage t = false \/
  exists m, findMacro t pp = Ok (m, pp) /\ valid m = false.

(** A token that, met inside a stringification, is simply collected: no
    operator token, and no escaped identifier with an embedded quote. *)
Definition collected (t : Token) : Prop :=
  kind t <> TokenKind.MacroQuote /\ kind t <> TokenKind.MacroPaste /\
  (if bool_decide (kind t = TokenKind.Identifier) && startsWith backslash (rawText t)
   then find quoteText (rawText t) else None) = None.

(** The trivia an appended token ends up with: the first token of an
    expansion takes the trivia of the usage site (nested expansion) or none
    (top level). *)
Definition appendedTrivia (e : MacroExpansion) (tr : list Trivia) : list Trivia :=
  if any e then tr
  else if isTopLevel e then [] else trivia (usageSite e).

(** Tokens that differ at most in trivia and location. *)
Definition sameShape (t t' : Token) : Prop :=
  kind t = kind t' /\ rawText t = rawText t' /\ directiveKind t = directiveKind t'.

(** [OutOfFuel] only ever comes from the step index of the recursive
    functions: the loops over a token buffer are given a bound that they
    cannot exhaust. *)

Definition NoOOF {A} (c : M A) : Prop := forall pp, c pp <> OutOfFuel.

(** ** Concrete macro tables *)

Module Examples.
Import Example.
Local Open Scope string_scope.

(** [`define M(a, b) a``b c] *)
Definition tablePaste : list (string * MacroDef) :=
  [("M", defineMacro 10 "M" (Some ["a"; "b"])
           [spaced (ident "a" 5); tok TokenKind.MacroPaste "``" 6; ident "b" 8;
            spaced (ident "c" 10)])].

(** [(foo,bar)] *)
Definition inputFooBar : list Token :=
  [tok TokenKind.OpenParenthesis "(" 103; ident "foo" 104; tok TokenKind.Comma "," 107;
   ident "bar" 108; tok TokenKind.CloseParenthesis ")" 111].

(** [`define m1 `m2] and [`define m2 `m1] *)
Definition tableMutual : list (string * MacroDef) :=
  [("m1", defineMacro 10 "m1" None [spaced (usage "`m2" 5)]);
   ("m2", defineMacro 11 "m2" None [spaced (usage "`m1" 9)])].

(** [`define m1 `m2] and [`define m2(x) `m1] *)
Definition tableMutualArgs : list (string * MacroDef) :=
  [("m1", defineMacro 10 "m1" None [spaced (usage "`m2" 5)]);
   ("m2", defineMacro 11 "m2" (Some ["x"]) [spaced (usage "`m1" 9)])].

(** [`define X x], [`define M(a) `if``a] and [`define ifdefx y] *)
Definition tableChained : list (string * MacroDef) :=
  [("X", defineMacro 10 "X" None [spaced (ident "x" 5)]);
   ("M", defineMacro 11 "M" (Some ["a"])
           [spaced (usage "`if" 20); tok TokenKind.MacroPaste "``" 23; ident "a" 25]);
   ("ifdefx", defineMacro 12 "ifdefx" None [spaced (ident "y" 40)])].

(** [(def`X)] *)
Definition inputChained : list Token :=
  [tok TokenKind.OpenParenthesis "(" 103; ident "def" 104; usage "`X" 107;
   tok TokenKind.CloseParenthesis ")" 109].

End Examples.

(** The table of the divergent expansion. *)
Module Diverge.
Import Example.
Local Open Scope string_scope.

(** [`define A(x) x] and [`define B `A(`B)] *)
Definition macroA : MacroDef := defineMacro 10 "A" (Some ["x"]) [spaced (ident "x" 5)].

Definition macroB : MacroDef :=
  defineMacro 11 "B" None
    [spaced (usage "`A" 20); tok TokenKind.OpenParenthesis "(" 22; usage "`B" 23;
     tok TokenKind.CloseParenthesis ")" 25].

Definition table : list (string * MacroDef) := [("A", macroA); ("B", macroB)].

Definition usageOf (text : string) (tr : list Trivia) (loc : SourceLocation) : Token :=
  mkToken TokenKind.Directive tr text loc SyntaxKind.MacroUsage.

Definition punct (k : TokenKind.t) (text : string) (tr : list Trivia)
    (loc : SourceLocation) : Token :=
  mkToken k tr text loc SyntaxKind.Unknown.

(** The expansion of [B], up to trivia and locations. *)
Definition isBodyOfB (ts : list Token) : Prop :=
  exists tr1 l1 tr2 l2 tr3 l3 tr4 l4,
    ts = [usageOf "`A" tr1 l1; punct TokenKind.OpenParenthesis "(" tr2 l2;
          usageOf "`B" tr3 l3; punct TokenKind.CloseParenthesis ")" tr4 l4].

End Diverge.

Module EmptyArgExample.
Import Example.
Local Open Scope string_scope.

(** The occurrence of the formal [a] in the body of [`define M(a) a x]. *)
Definition formalOccurrence : Token := spaced (ident "a" 5).

Definition macroM : MacroDef :=
  defineMacro 10 "M" (Some ["a"]) [formalOccurrence; spaced (ident "x" 7)].

(** [()]: one empty actual argument. *)
Definition emptyActuals : MacroActualArgumentListSyntax :=
  mkActualArgs (tok TokenKind.OpenParenthesis "(" 102) [[]]
               (tok TokenKind.CloseParenthesis ")" 103).

(** The state of [expandMacro] after a first token has been appended. *)
Definition midExpansion : ExpandState :=
  mkExpand (mkMacroExpansion [ident "k" 0] (usage "`M" 100) true true)
           {[ "a" := mkArgTokens [] false ]} false (mkLoc 2 0) (mkLoc 1 0).

Definition someRange : SourceRange := mkRange (mkLoc 1 100) (mkLoc 1 104).

End EmptyArgExample.

(** ** [isSameToken], [isSameTokenList], [Preprocessor::isSameMacro] *)

(** The loop of [isSameToken] over the two trivia lists, which have the same
    length when it runs. *)
Fixpoint isSameTrivia (lt rt : list Trivia) : bool :=
  match lt, rt with
  | l :: lt', r :: rt' =>
      if negb (bool_decide (trivia_kind l = trivia_kind r))
         || negb (bool_decide (trivia_rawText l = trivia_rawText r))
      then false
      else isSameTrivia lt' rt'
  | _, _ => true
  end.

Definition isSameToken (left right : Token) : bool :=
  if negb (bool_decide (kind left = kind right))
     || negb (bool_decide (rawText left = rawText right))
  then false
  else if negb (length (trivia left) =? length (trivia right))%nat then false
  else isSameTrivia (trivia left) (trivia right).

(** The loop of [isSameTokenList], after the sizes were found equal. *)
Fixpoint isSameTokens (left right : list Token) : bool :=
  match left, right with
  | l :: left', r :: right' =>
      if negb (isSameToken l r) then false else isSameTokens left' right'
  | _, _ => true
  end.

Definition isSameTokenList (left right : list Token) : bool :=
  if negb (length left =? length right)%nat then false
  else isSameTokens left right.

(** The loop of [isSameMacro] over the formal arguments. *)
Fixpoint isSameFormals (la ra : list MacroFormalArgumentSyntax) : bool :=
  match la, ra with
  | leftArg :: la', rightArg :: ra' =>
      if negb (isSameToken (formal_name leftArg) (formal_name rightArg)) then false
      else if negb (Bool.eqb (bool_decide (is_Some (defaultValue leftArg)))
                             (bool_decide (is_Some (defaultValue rightArg)))) then false
      else
        match defaultValue leftArg, defaultValue rightArg with
        | Some ld, Some rd =>
            if negb (isSameTokenList ld rd) then false else isSameFormals la' ra'
        | _, _ => isSameFormals la' ra'
        end
  | _, _ => true
  end.

Definition isSameMacro (left right : DefineDirectiveSyntax) : bool :=
  if negb (Bool.eqb (bool_decide (is_Some (formalArguments left)))
                    (bool_decide (is_Some (formalArguments right)))) then false
  else
    match formalArguments left, formalArguments right with
    | Some la, Some ra =>
        if negb (length la =? length ra)%nat then false
        else if negb (isSameFormals la ra) then false
        else isSameTokenList (body left) (body right)
    | _, _ => isSameTokenList (body left) (body right)
    end.

(** What [isSameToken] compares of a token. *)
Definition spelling_of (t : Token) : TokenKind.t * string * list (TriviaKind.t * string) :=
  (kind t, rawText t, map (fun tr => (trivia_kind tr, trivia_rawText tr)) (trivia t)).

(** What [isSameMacro] compares of a formal argument and of a definition. *)
Definition formal_spelling (f : MacroFormalArgumentSyntax) :=
  (spelling_of (formal_name f), map spelling_of <$> defaultValue f).

Definition macro_spelling (d : DefineDirectiveSyntax) :=
  (map formal_spelling <$> formalArguments d, map spelling_of (body d)).

(** ** [Preprocessor::createBuiltInMacro] *)

(** [std::to_string(int)] *)
Definition to_string (value : Z) : string := NilZero.string_of_int (Z.to_int value).

(** [createBuiltInMacro(name, value, valueStr)].  [addr] is the address of
    the [DefineDirectiveSyntax] node the allocator hands out.  The numeric
    value the literal token carries besides its text is not represented. *)
Definition createBuiltInMacro (addr : N) (name : string) (value : Z)
    (valueStr : string) : M unit :=
  let valueStr := if bool_decide (valueStr = EmptyString) then to_string value else valueStr in
  let nameTok := mkToken TokenKind.Identifier [] name NoLocation SyntaxKind.Unknown in
  let body_ := [mkToken TokenKind.IntegerLiteral [] valueStr NoLocation SyntaxKind.Unknown] in
  let def := mkMacroDef (Some (mkDefine addr nameTok None body_)) true MacroIntrinsic.None in
  fun pp => Ok (tt, mkPP (<[name := def]> (macros pp)) (diagnostics pp) (sourceManager pp)
                      (input pp) (expandedTokens pp) (currentMacroToken pp)).

(** ** Well-formed macro tables *)

(** A [MacroDef] is built from a definition or from an intrinsic, never from
    both: an intrinsic macro has no syntax node. *)
Definition wfMacro (m : MacroDef) : bool :=
  negb (isIntrinsic m) || negb (bool_decide (is_Some (syntax m))).

Definition wfTable (tbl : gmap string MacroDef) : Prop :=
  map_Forall (fun _ m => wfMacro m = true) tbl.

(** ** Frame of the expansion *)

(** [grows pp pp']: the macro table is the same and the diagnostics of [pp]
    are still there, in front of the new ones. *)
Definition grows (pp pp' : PPState) : Prop :=
  macros pp' = macros pp /\
  exists ds, diagnostics pp' = diagnostics pp ++ ds.

Definition Grows {A} (c : M A) : Prop :=
  forall pp a pp', c pp = Ok (a, pp') -> grows pp pp'.

(** A token that neither the nested expansion nor the rewrite pass treats
    specially: no usage of a macro, no quote, paste, empty argument or line
    continuation. *)
Definition ordinaryToken (t : Token) : Prop :=
  sentinel (kind t) = false /\ kind t <> TokenKind.LineContinuation /\
  isMacroUsage t = false.

(** [pp'] differs from [pp] at most in the source manager. *)
Definition onlyBuffers (pp pp' : PPState) : Prop :=
  macros pp' = macros pp /\ diagnostics pp' = diagnostics pp /\
  input pp' = input pp /\ expandedTokens pp' = expandedTokens pp /\
  currentMacroToken pp' = currentMacroToken pp.

(** The tokens a top-level expansion hands out for a body of ordinary
    tokens: the body, relocated, the first token without its trivia. *)
Definition relocatedBody (body_ ts : list Token) : Prop :=
  length ts = length body_ /\
  forall i t, body_ !! i = Some t ->
    exists loc, ts !! i =
      Some (mkToken (kind t) (if (i =? 0)%nat then [] else trivia t)
              (rawText t) loc (directiveKind t)).

(** The tokens bound to the [i]-th formal argument [f] by the loop that
    fills [argumentMap]: the actual argument, or the default when the actual
    is empty or missing. *)
Definition boundTokens (actualArgs : MacroActualArgumentListSyntax) (i : nat)
    (f : MacroFormalArgumentSyntax) : option (list Token) :=
  match args actualArgs !! i with
  | Some [] => Some (default [] (defaultValue f))
  | Some actual => Some actual
  | None => defaultValue f
  end.

(** The tokens a [MacroParser] has before it: the rest of its buffer, then
    the raw input of the preprocessor. *)
Definition pending (p : MacroParser) (pp : PPState) : list Token :=
  drop (currentIndex p) (buffer p) ++ input pp.

(** The token [peek] shows. *)
Definition upcoming (p : MacroParser) (pp : PPState) : Token :=
  match pending p pp with t :: _ => t | [] => eofToken end.

(** The kinds at which [parseTokenList] stops. *)
Definition stopsAt {L : Lexer} (allowNewlines : bool) (tk : Token) : Prop :=
  kind tk = TokenKind.EndOfFile \/
  (allowNewlines = false /\ isOnSameLine tk = false) \/
  kind tk = TokenKind.Comma \/ kind tk = TokenKind.CloseParenthesis.

(** ** A lexer that glues operators and escaped identifiers

    Modelled from the spec: [Lexer::concatenateTokens], which is not in the
    translated sources ("token or null if the concatenation does not lex
    cleanly").  The spellings of the two tokens are glued and lexed again;
    the result is the token when the text is exactly one paste operator, one
    quote operator, one escaped identifier (a backslash followed by
    characters other than white space) or one token of [Example.lexOne], and
    null otherwise.  The other callbacks are those of [Example.lexer]. *)
Module Relex.

Definition isSpace (c : ascii) : bool :=
  let n := nat_of_ascii c in (n =? 32)%nat || ((9 <=? n)%nat && (n <=? 13)%nat).

Definition isEscapedIdentifierText (s : string) : bool :=
  match s with
  | String c (String d r) =>
      Ascii.eqb c backslash && Example.allChars (fun x => negb (isSpace x)) (String d r)
  | _ => false
  end.

Definition lexOne (text : string) (tr : list Trivia) (loc : SourceLocation)
    : option Token :=
  if bool_decide (text = String grave (String grave EmptyString)) then
    Some (mkToken TokenKind.MacroPaste tr text loc SyntaxKind.Unknown)
  else if bool_decide (text = String grave (String dquote EmptyString)) then
    Some (mkToken TokenKind.MacroQuote tr text loc SyntaxKind.Unknown)
  else if isEscapedIdentifierText text then
    Some (mkToken TokenKind.Identifier tr text loc SyntaxKind.Unknown)
  else Example.lexOne text tr loc.

Definition concat_ (left right : Token) : option Token :=
  if bool_decide (rawText left = EmptyString) || bool_decide (rawText right = EmptyString)
  then None
  else lexOne (rawText left ++ rawText right)%string (trivia left) (location left).

Definition lexer : Lexer :=
  {| valueText := @valueText Example.lexer;
     isOnSameLine := @isOnSameLine Example.lexer;
     isKeyword := @isKeyword Example.lexer;
     getTokenKindText := @getTokenKindText Example.lexer;
     Lexer_stringify := @Lexer_stringify Example.lexer;
     concatenateTokens := concat_;
     splitTokens := @splitTokens Example.lexer;
     commentify := @commentify Example.lexer;
     createExpected := @createExpected Example.lexer;
     getFileName := @getFileName Example.lexer;
     getLineNumber := @getLineNumber Example.lexer;
     uintToStr := @uintToStr Example.lexer |}.

(** A grave accent on its own, which the lexer hands out as a directive
    token of unknown kind. *)
Definition loneGrave (off : Z) : Token :=
  mkToken TokenKind.Directive [] (String grave EmptyString) (mkLoc 1 off) SyntaxKind.Unknown.

(** [`define M(a, b) a``b] *)
Definition tableGlue : list (string * MacroDef) :=
  [("M"%string,
    Example.defineMacro 10 "M" (Some ["a"%string; "b"%string])
      [Example.spaced (Example.ident "a" 5); Example.tok TokenKind.MacroPaste "``" 6;
       Example.ident "b" 8])].

(** [(`,`)] *)
Definition inputGraves : list Token :=
  [Example.tok TokenKind.OpenParenthesis "(" 103; loneGrave 104;
   Example.tok TokenKind.Comma "," 105; loneGrave 106;
   Example.tok TokenKind.CloseParenthesis ")" 107].

(** The escaped identifier [\x] followed by two paste operators. *)
Definition escapedThenPastes : list Token :=
  [Example.tok TokenKind.Identifier (String backslash "x") 0;
   Example.tok TokenKind.MacroPaste "``" 2; Example.tok TokenKind.MacroPaste "``" 4].

End Relex.

(** The tokens [ts] after pending trivia [tr] have been handed to them: the
    first token gets [tr] in front of its own trivia. *)
Definition withPending (tr : list Trivia) (ts : list Token) : list Token :=
  match ts with
  | [] => []
  | t :: rest => withTrivia t (tr ++ trivia t) :: rest
  end.

(** No token of [ts] is an empty-argument token. *)
Definition noEmptyArguments (ts : list Token) : Prop :=
  Forall (fun t => kind t <> TokenKind.EmptyMacroArgument) ts.

(** ** Relocation into an expansion buffer *)

(** [t] at the place [adjustLoc] gives it as long as the tokens stay in the
    buffer of [firstLoc]: [macroLoc + (t.location() - firstLoc)]. *)
Definition relocate (macroLoc firstLoc : SourceLocation) (t : Token) : Token :=
  withLocation t (loc_add macroLoc (loc_sub (location t) firstLoc)).

(** A run of tokens of one buffer appended to an expansion: all of them
    relocated, the first one with the trivia [tr0]. *)
Definition relocated (macroLoc firstLoc : SourceLocation) (tr0 : list Trivia)
    (ts : list Token) : list Token :=
  match ts with
  | [] => []
  | t :: rest =>
      relocate macroLoc firstLoc (withTrivia t tr0) :: map (relocate macroLoc firstLoc) rest
  end.

(** The state after [createExpansionLoc] has registered [info]; the location
    it returns is the start of the buffer [nextBufferID (sourceManager pp)]. *)
Definition withExpansion (info : ExpansionInfo) (pp : PPState) : PPState :=
  mkPP (macros pp) (diagnostics pp)
       (mkSM (nextBufferID (sourceManager pp) + 1)
             (<[nextBufferID (sourceManager pp) := info]> (expansionBuffers (sourceManager pp))))
       (input pp) (expandedTokens pp) (currentMacroToken pp).

(** The tokens of [ts] lie in the buffer of [l]. *)
Definition inBufferOf (l : SourceLocation) (ts : list Token) : Prop :=
  Forall (fun t => loc_buffer (location t) = loc_buffer l) ts.

End Preprocessor.

(* ====================================================================== *)
(** * Properties *)
(* ====================================================================== *)

(** ** [IntervalMapDetails::distribute] *)

Section distribute_facts.
Import IntervalMapDetails.
Local Open Scope Z_scope.

Lemma sizesBefore_S total numNodes j :
  sizesBefore total numNodes (S j) =
  sizesBefore total numNodes j + evenSplit total numNodes (Z.of_nat j).
Proof.
  unfold sizesBefore. rewrite seq_S, map_app, foldr_app. simpl.
  generalize (evenSplit total numNodes (Z.of_nat j)) as e.
  generalize (map (fun i => evenSplit total numNodes (Z.of_nat i)) (seq 0 j)) as l.
  induction l as [|x l IH]; intros e; simpl; [lia|]. rewrite IH. lia.
Qed.

Lemma sizesBefore_closed total numNodes j :
  0 < numNodes ->
  sizesBefore total numNodes j = prefixClosed total numNodes (Z.of_nat j).
Proof.
  intros Hn. pose proof (Z.mod_pos_bound total numNodes Hn) as Hm.
  induction j as [|j IH].
  - unfold prefixClosed. cbn. lia.
  - rewrite sizesBefore_S, IH. unfold prefixClosed, evenSplit.
    destruct (Z.ltb_spec (Z.of_nat j) (total mod numNodes)); simpl; lia.
Qed.

Lemma uint32_small z : 0 <= z < 2 ^ 32 -> uint32 z = z.
Proof. intros H. unfold uint32. now apply Z.mod_small. Qed.

Lemma prefixClosed_step total numNodes j :
  0 < numNodes ->
  prefixClosed total numNodes (j + 1) =
  prefixClosed total numNodes j + evenSplit total numNodes j.
Proof.
  intros Hn. pose proof (Z.mod_pos_bound total numNodes Hn) as Hm.
  unfold prefixClosed, evenSplit.
  destruct (Z.ltb_spec j (total mod numNodes)); simpl; lia.
Qed.

Lemma evenSplit_nonneg total numNodes j :
  0 < numNodes -> 0 <= total -> 0 <= evenSplit total numNodes j.
Proof.
  intros Hn Ht. unfold evenSplit.
  pose proof (Z.div_pos total numNodes Ht Hn).
  destruct (j <? total mod numNodes); simpl; lia.
Qed.

Lemma prefixClosed_full total numNodes :
  0 < numNodes -> prefixClosed total numNodes numNodes = total.
Proof.
  intros Hn. pose proof (Z.mod_pos_bound total numNodes Hn) as Hm.
  unfold prefixClosed. rewrite Z.min_r by lia.
  rewrite (Z.div_mod total numNodes) at 3 by lia. lia.
Qed.

Lemma prefixClosed_mono total numNodes i j :
  0 < numNodes -> 0 <= total -> 0 <= i <= j ->
  prefixClosed total numNodes i <= prefixClosed total numNodes j.
Proof.
  intros Hn Ht Hij. unfold prefixClosed.
  pose proof (Z.div_pos total numNodes Ht Hn).
  assert (i * (total / numNodes) <= j * (total / numNodes)) by nia.
  lia.
Qed.

Lemma prefixClosed_bounds total numNodes j :
  0 < numNodes -> 0 <= total -> 0 <= j <= numNodes ->
  0 <= prefixClosed total numNodes j <= total.
Proof.
  intros Hn Ht Hj. split.
  - pose proof (prefixClosed_mono total numNodes 0 j Hn Ht ltac:(lia)) as H.
    unfold prefixClosed in H at 1. pose proof (Z.mod_pos_bound total numNodes Hn). lia.
  - rewrite <- (prefixClosed_full total numNodes Hn) at 2.
    apply prefixClosed_mono; lia.
Qed.

Lemma distribute_body_inv total numNodes position sizes0 k s :
  0 < numNodes < 2 ^ 32 -> 0 <= total < 2 ^ 32 -> 0 <= position ->
  (Z.of_nat k < numNodes) -> (k < length sizes0)%nat ->
  distInv total numNodes position sizes0 k s ->
  exists s',
    distribute_body numNodes (total / numNodes) (total mod numNodes) position
      (Z.of_nat k) s = Some s' /\
    distInv total numNodes position sizes0 (S k) s'.
Proof.
  intros Hn Ht Hp Hk Hlen [Il Id Ir Is If Inf].
  unfold distribute_body. rewrite Nat2Z.id.
  destruct (decide (k < length (newSizes s))%nat) as [Hlt|Hge]; [|lia].
  eexists; split; [reflexivity|].
  fold (evenSplit total numNodes (Z.of_nat k)).
  pose proof (evenSplit_nonneg total numNodes (Z.of_nat k) ltac:(lia) ltac:(lia)) as He.
  pose proof (prefixClosed_step total numNodes (Z.of_nat k) ltac:(lia)) as Hstep.
  pose proof (prefixClosed_bounds total numNodes (Z.of_nat k) ltac:(lia) ltac:(lia) ltac:(lia)) as Hb.
  pose proof (prefixClosed_bounds total numNodes (Z.of_nat k + 1) ltac:(lia) ltac:(lia) ltac:(lia)) as Hb'.
  rewrite (uint32_small (evenSplit _ _ _)) by lia.
  rewrite Is. rewrite (uint32_small (_ + _)) by lia.
  constructor; cbn [newSizes sum posPair fst snd]; rewrite ?Nat2Z.inj_succ, <- ?Z.add_1_r.
  - now rewrite length_insert.
  - intros j Hj. destruct (decide (j = k)) as [->|Hne].
    + now rewrite list_lookup_insert_eq.
    + rewrite list_lookup_insert_ne by lia. apply Id. lia.
  - intros j Hj. rewrite list_lookup_insert_ne by lia. apply Ir. lia.
  - lia.
  - intros Hpos.
    destruct (Z.lt_ge_cases position (prefixClosed total numNodes (Z.of_nat k))) as [Hold|Hnew].
    + destruct (If Hold) as (j & Hj & Hpp & Hrange).
      exists j. split; [lia|]. split; [|exact Hrange].
      rewrite Hpp. simpl.
      destruct (Z.eqb_spec (Z.of_nat j) numNodes); [lia|]. simpl. reflexivity.
    + rewrite (Inf Hnew). simpl. rewrite Z.eqb_refl.
      destruct (Z.ltb_spec position (prefixClosed total numNodes (Z.of_nat k) + evenSplit total numNodes (Z.of_nat k))); [|lia].
      simpl. exists k. split; [lia|]. split; [|lia].
      f_equal.
      replace (prefixClosed total numNodes (Z.of_nat k) + evenSplit total numNodes (Z.of_nat k) - evenSplit total numNodes (Z.of_nat k)) with (prefixClosed total numNodes (Z.of_nat k)) by lia.
      rewrite (uint32_small (prefixClosed _ _ _)) by lia.
      apply uint32_small. lia.
  - intros Hpos.
    assert (prefixClosed total numNodes (Z.of_nat k) <= position) as Hold by lia.
    rewrite (Inf Hold). simpl. rewrite Z.eqb_refl.
    destruct (Z.ltb_spec position (prefixClosed total numNodes (Z.of_nat k) + evenSplit total numNodes (Z.of_nat k))); [lia|].
    reflexivity.
Qed.

Lemma distribute_loop_inv total numNodes position sizes0 m : forall k s,
  0 < numNodes < 2 ^ 32 -> 0 <= total < 2 ^ 32 -> 0 <= position ->
  (Z.of_nat (k + m) <= numNodes) -> (k + m <= length sizes0)%nat ->
  distInv total numNodes position sizes0 k s ->
  exists s',
    distribute_loop numNodes (total / numNodes) (total mod numNodes) position
      m (Z.of_nat k) s = Some s' /\
    distInv total numNodes position sizes0 (k + m) s'.
Proof.
  induction m as [|m IH]; intros k s Hn Ht Hp Hkm Hlen Hinv.
  - exists s. split; [reflexivity|]. now rewrite Nat.add_0_r.
  - simpl.
    destruct (distribute_body_inv total numNodes position sizes0 k s) as (s1 & -> & Hinv1);
      try assumption; try lia.
    replace (Z.of_nat k + 1) with (Z.of_nat (S k)) by lia.
    destruct (IH (S k) s1) as (s2 & Hrun & Hinv2); try assumption; try lia.
    exists s2. split; [exact Hrun|].
    now replace (k + S m)%nat with (S k + m)%nat by lia.
Qed.

Lemma distInv_init total numNodes position sizes0 :
  0 < numNodes -> 0 <= position ->
  distInv total numNodes position sizes0 0 (mkDist sizes0 0 (numNodes, 0)).
Proof.
  intros Hn Hp. pose proof (Z.mod_pos_bound total numNodes Hn).
  constructor; cbn [newSizes sum posPair]; try reflexivity.
  - intros j Hj. lia.
  - unfold prefixClosed. simpl. lia.
  - unfold prefixClosed. simpl. lia.
Qed.

(** C5 (as amended).  [distribute] computes the left-leaning even split of
    [numElements + grow]; the sizes it leaves in [newSizes] are that split
    with the grown element taken out again at the returned node; the returned
    pair locates [position] in the split whenever [position] is below the
    total, and is [(numNodes, 0)] otherwise. *)
Theorem distribute_even_split numNodes numElements capacity sizes0 position grow :
  1 <= numNodes < 2 ^ 32 -> 0 <= numElements -> 0 <= capacity ->
  numElements + Z.b2z grow <= numNodes * capacity ->
  numNodes * capacity < 2 ^ 32 ->
  0 <= position <= numElements ->
  numNodes <= Z.of_nat (length sizes0) ->
  let total := numElements + Z.b2z grow in
  exists sizes node off,
    distribute numNodes numElements capacity sizes0 position grow
      = Some (sizes, (node, off)) /\
    length sizes = length sizes0 /\
    (forall j : nat, Z.of_nat j < numNodes ->
       sizes !! j = Some (evenSplit total numNodes (Z.of_nat j)
                          - Z.b2z (grow && (Z.of_nat j =? node)))) /\
    (forall j : nat, numNodes <= Z.of_nat j -> sizes !! j = sizes0 !! j) /\
    (position < total ->
       0 <= node < numNodes /\
       off = position - sizesBefore total numNodes (Z.to_nat node) /\
       0 <= off < evenSplit total numNodes node) /\
    (position = total -> node = numNodes /\ off = 0).
Proof.
  intros Hn He Hc Hcap Hprod Hpos Hlen total.
  assert (0 <= Z.b2z grow <= 1) as Hg by (destruct grow; simpl; lia).
  assert (0 <= total < 2 ^ 32) as Ht by (subst total; lia).
  unfold distribute. fold total.
  rewrite (uint32_small total) by lia.
  rewrite (uint32_small (numNodes * capacity)) by nia.
  destruct (Z.leb_spec total (numNodes * capacity)) as [_|]; [|subst total; lia].
  destruct (Z.leb_spec position numElements) as [_|]; [|lia].
  destruct (Z.eqb_spec numNodes 0) as [|_]; [lia|]. cbn [negb].
  destruct (distribute_loop_inv total numNodes position sizes0 (Z.to_nat numNodes) 0
              (mkDist sizes0 0 (numNodes, 0))) as (s & Hrun & Hinv);
    try lia.
  { apply distInv_init; lia. }
  change (Z.of_nat 0) with 0 in Hrun. rewrite Hrun. clear Hrun.
  rewrite Nat.add_0_l in Hinv. destruct Hinv as [Il Id Ir Is If Inf].
  rewrite Z2Nat.id in Is, If, Inf by lia.
  rewrite prefixClosed_full in Is, If, Inf by lia.
  rewrite Is, Z.eqb_refl. cbn [negb].
  assert (forall j : nat, prefixClosed total numNodes (Z.of_nat j + 1)
            - prefixClosed total numNodes (Z.of_nat j)
            = evenSplit total numNodes (Z.of_nat j)) as Hdiff.
  { intros j. rewrite prefixClosed_step by lia. lia. }
  destruct grow.
  - (* grow: position <= numElements < total, so the node was found *)
    destruct If as (j & Hj & Hpp & Hrange); [subst total; simpl; lia|].
    rewrite Hpp. cbn [fst].
    destruct (Z.ltb_spec (Z.of_nat j) numNodes) as [_|]; [|lia]. cbn [negb].
    rewrite Nat2Z.id, (Id j Hj).
    specialize (Hdiff j).
    destruct (Z.eqb_spec (evenSplit total numNodes (Z.of_nat j)) 0) as [Hz|Hnz]; [lia|].
    pose proof (evenSplit_nonneg total numNodes (Z.of_nat j) ltac:(lia) ltac:(lia)).
    pose proof (prefixClosed_bounds total numNodes (Z.of_nat j + 1) ltac:(lia) ltac:(lia) ltac:(lia)).
    pose proof (prefixClosed_bounds total numNodes (Z.of_nat j) ltac:(lia) ltac:(lia) ltac:(lia)).
    rewrite uint32_small by lia.
    do 3 eexists. split; [reflexivity|].
    split; [now rewrite length_insert|].
    split.
    { intros i Hi. cbn [andb]. destruct (decide (i = j)) as [->|Hne].
      - rewrite list_lookup_insert_eq by lia. rewrite Z.eqb_refl. reflexivity.
      - rewrite list_lookup_insert_ne by lia.
        destruct (Z.eqb_spec (Z.of_nat i) (Z.of_nat j)); [lia|].
        rewrite Id by lia. simpl. f_equal. lia. }
    split.
    { intros i Hi. rewrite list_lookup_insert_ne by lia. apply Ir. lia. }
    split.
    { intros _. rewrite Nat2Z.id, sizesBefore_closed by lia. lia. }
    intros Heq. subst total. simpl in Heq. lia.
  - (* no grow *)
    destruct (posPair s) as [node off] eqn:Hpp.
    do 3 eexists. split; [reflexivity|].
    split; [exact Il|].
    split.
    { intros i Hi. cbn [andb]. rewrite Id by lia. simpl. f_equal. lia. }
    split.
    { intros i Hi. apply Ir. lia. }
    split.
    { intros Hlt. destruct (If Hlt) as (j & Hj & Hpp' & Hrange).
      injection Hpp' as -> ->.
      specialize (Hdiff j).
      rewrite Nat2Z.id, sizesBefore_closed by lia. lia. }
    intros Heq. specialize (Inf ltac:(lia)).
    now injection Inf as -> ->.
Qed.

Lemma distribute_even_split_witness :
  exists sizes node off,
    distribute 2 3 4 [7; 7; 7] 2 true = Some (sizes, (node, off)) /\
    length sizes = 3%nat /\
    (forall j : nat, Z.of_nat j < 2 ->
       sizes !! j = Some (evenSplit 4 2 (Z.of_nat j) - Z.b2z (true && (Z.of_nat j =? node)))) /\
    (forall j : nat, 2 <= Z.of_nat j -> sizes !! j = [7; 7; 7] !! j) /\
    (2 < 4 ->
       0 <= node < 2 /\
       off = 2 - sizesBefore 4 2 (Z.to_nat node) /\
       0 <= off < evenSplit 4 2 node) /\
    (2 = 4 -> node = 2 /\ off = 0).
Proof.
  apply (distribute_even_split 2 3 4 [7; 7; 7] 2 true); simpl; lia.
Defined.

(** C5 as stated fails: with [grow] the size written for the insertion node
    is one below the even split, and without [grow] a position at the very
    end is answered by the out-of-range pair [(numNodes, 0)]. *)
Lemma distribute_counterexample :
  (exists sizes pos,
     distribute 2 3 4 [0; 0] 0 true = Some (sizes, pos) /\
     sizes !! 0%nat = Some 1 /\ evenSplit (3 + Z.b2z true) 2 0 = 2) /\
  distribute 1 0 1 [0] 0 false = Some ([0], (1, 0)).
Proof.
  split; [|reflexivity].
  exists [1; 2], (0, 0). repeat split.
Qed.

End distribute_facts.

(** ** [CountBitsFunction::eval] *)

Section countbits_facts.
Import Builtins.
Local Open Scope Z_scope.

Lemma count_partition iv :
  countZeros iv + countOnes iv + countXs iv + countZs iv = getBitWidth iv.
Proof.
  unfold countZeros, countOnes, countXs, countZs, countOf, getBitWidth.
  destruct iv as [l]. simpl.
  induction l as [|b l IH]; [reflexivity|].
  cbn [List.filter].
  destruct b; cbn in *; lia.
Qed.

Lemma countOf_nonneg b iv : 0 <= countOf b iv.
Proof. unfold countOf. lia. Qed.

Lemma uint64_add_l a b : uint64 (uint64 a + b) = uint64 (a + b).
Proof. unfold uint64. apply Zplus_mod_idemp_l. Qed.

Lemma countBits_body_inv iv bs st v :
  countInv iv bs st -> countInv iv (bs ++ [lsb v]) (countBits_body iv st v).
Proof.
  intros (H0 & H1 & H2 & H3 & Hc).
  unfold countInv, countBits_body, countDistinct.
  cbn [map foldr]. rewrite !existsb_app. cbn [existsb].
  unfold countDistinct in Hc. cbn [map foldr] in Hc.
  rewrite <- H0, <- H1, <- H2, <- H3 in *.
  unfold countZeros, countOnes, countXs, countZs.
  destruct st as [s0 s1 s2 s3 c]. cbn [seen0 seen1 seen2 seen3 count] in *.
  subst c.
  destruct (lsb v); cbn -[uint64 countOf];
    destruct s0, s1, s2, s3; cbn -[uint64 countOf];
    rewrite ?uint64_add_l; repeat split; try (f_equal; lia). 
Qed.

Lemma countBits_loop_inv iv controls : forall bs st st',
  countInv iv bs st ->
  countBits_loop iv controls st = Some st' ->
  countInv iv (bs ++ controlBits controls) st'.
Proof.
  induction controls as [|[v|] rest IH]; intros bs st st' Hinv Hrun; simpl in Hrun.
  - injection Hrun as <-. unfold controlBits. simpl. now rewrite app_nil_r.
  - apply (IH (bs ++ [lsb v])) in Hrun; [|now apply countBits_body_inv].
    unfold controlBits in *. cbn [omap list_omap fmap option_fmap option_map].
    now rewrite <- app_assoc in Hrun.
  - discriminate.
Qed.

Lemma countBits_loop_app iv controls1 controls2 st :
  countBits_loop iv (controls1 ++ controls2) st =
  match countBits_loop iv controls1 st with
  | Some st1 => countBits_loop iv controls2 st1
  | None => None
  end.
Proof.
  revert st. induction controls1 as [|[v|] rest IH]; intros st; simpl; auto.
Qed.

Lemma countBits_body_seen iv bs st v :
  countInv iv bs st -> existsb (logic_eqb (lsb v)) bs = true ->
  countBits_body iv st v = st.
Proof.
  intros (H0 & H1 & H2 & H3 & _) Hseen. unfold countBits_body.
  destruct (lsb v); cbn; rewrite ?H0, ?H1, ?H2, ?H3, Hseen; reflexivity.
Qed.

Lemma countDistinct_le_width iv bs :
  0 <= countDistinct iv bs <= getBitWidth iv.
Proof.
  rewrite <- count_partition. unfold countDistinct. cbn [map foldr].
  unfold countZeros, countOnes, countXs, countZs.
  pose proof (countOf_nonneg bit0 iv). pose proof (countOf_nonneg bit1 iv).
  pose proof (countOf_nonneg bitX iv). pose proof (countOf_nonneg bitZ iv).
  repeat match goal with |- context [if ?b then _ else _] => destruct b end; lia.
Qed.

Lemma SVInt32_signed_le x : 0 <= x -> SVInt32_signed (uint64 x) <= x.
Proof.
  intros Hx. unfold SVInt32_signed, uint64.
  pose proof (Z.mod_le x (2 ^ 64) Hx ltac:(lia)).
  pose proof (Z.mod_pos_bound x (2 ^ 64) ltac:(lia)).
  pose proof (Z.mod_le (x mod 2 ^ 64 + 2 ^ 31) (2 ^ 32) ltac:(lia) ltac:(lia)).
  lia.
Qed.

(** C10.  A successful [$countbits] evaluation returns the counts of the
    distinct control bit values, each taken once; a further control argument
    whose least significant bit was already seen does not change the result,
    and the result never exceeds the bit width of the first argument. *)
Theorem countbits_counts_each_value_once (args : list Expression) (r : Z) :
  CountBitsFunction_eval args = Some r ->
  exists iv controls,
    args = Some iv :: controls /\
    r = SVInt32_signed (uint64 (countDistinct iv (controlBits controls))) /\
    r <= getBitWidth iv /\
    (forall c : SVInt,
       existsb (logic_eqb (lsb c)) (controlBits controls) = true ->
       CountBitsFunction_eval (args ++ [Some c]) = Some r).
Proof.
  unfold CountBitsFunction_eval.
  destruct args as [|[iv|] controls]; try discriminate.
  destruct (countBits_loop iv controls _) as [st|] eqn:Hrun; [|discriminate].
  intros [= <-]. exists iv, controls.
  assert (countInv iv [] (mkCount false false false false 0)) as Hinit.
  { repeat split. }
  pose proof (countBits_loop_inv iv controls [] _ _ Hinit Hrun) as Hinv.
  rewrite app_nil_l in Hinv.
  destruct Hinv as (H0 & H1 & H2 & H3 & Hc).
  split; [reflexivity|]. split.
  { now rewrite Hc. }
  split.
  { rewrite Hc.
    pose proof (countDistinct_le_width iv (controlBits controls)).
    pose proof (SVInt32_signed_le (countDistinct iv (controlBits controls))). lia. }
  intros c Hseen. cbn [app].
  rewrite countBits_loop_app, Hrun. cbn [countBits_loop].
  rewrite (countBits_body_seen iv (controlBits controls)); [reflexivity| |exact Hseen].
  repeat split; assumption.
Qed.

Lemma countbits_counts_each_value_once_witness :
  exists iv controls,
    [Some (mkSVInt [bit1; bit0; bitX; bit1]); Some (mkSVInt [bit1]); Some (mkSVInt [bit1; bit0])]
      = Some iv :: controls /\
    2 = SVInt32_signed (uint64 (countDistinct iv (controlBits controls))) /\
    2 <= getBitWidth iv /\
    (forall c : SVInt,
       existsb (logic_eqb (lsb c)) (controlBits controls) = true ->
       CountBitsFunction_eval
         ([Some (mkSVInt [bit1; bit0; bitX; bit1]); Some (mkSVInt [bit1]); Some (mkSVInt [bit1; bit0])]
            ++ [Some c]) = Some 2).
Proof.
  apply (countbits_counts_each_value_once
           [Some (mkSVInt [bit1; bit0; bitX; bit1]); Some (mkSVInt [bit1]); Some (mkSVInt [bit1; bit0])] 2).
  reflexivity.
Defined.

End countbits_facts.

Import Preprocessor.
Local Open Scope pp_scope.

(** * Reasoning about computations in [M] *)

Lemma bind_Ok {A B} (c : M A) (k : A -> M B) pp r :
  bind c k pp = Ok r -> exists a pp1, c pp = Ok (a, pp1) /\ k a pp1 = Ok r.
Proof.
  unfold bind. destruct (c pp) as [[a pp1]| |]; try discriminate. eauto.
Qed.

Lemma bind_eval {A B} (c : M A) (k : A -> M B) pp a pp1 :
  c pp = Ok (a, pp1) -> bind c k pp = k a pp1.
Proof. unfold bind. now intros ->. Qed.

Lemma bind_assoc {A B C} (c : M A) (k0 : A -> M B) (k : B -> M C) pp :
  bind (bind c k0) k pp = bind c (fun x => bind (k0 x) k) pp.
Proof. unfold bind. destruct (c pp) as [[a pp1]| |]; reflexivity. Qed.

Lemma bind_ret_l {A B} (a : A) (k : A -> M B) pp : bind (ret a) k pp = k a pp.
Proof. reflexivity. Qed.

Lemma bind_crash_l {A B} (c : M A) (k : A -> M B) pp :
  c pp = Crash -> bind c k pp = Crash.
Proof. unfold bind. now intros ->. Qed.

Lemma bind_OutOfFuel {A B} (c : M A) (k : A -> M B) pp :
  c pp = OutOfFuel -> bind c k pp = OutOfFuel.
Proof. unfold bind. now intros ->. Qed.

Lemma ret_Ok {A} (a : A) pp r : ret a pp = Ok r -> r = (a, pp).
Proof. unfold ret. congruence. Qed.

Lemma must_Ok {A} (o : option A) pp r :
  must o pp = Ok r -> exists a, o = Some a /\ r = (a, pp).
Proof. destruct o; simpl; unfold ret, crash; [|discriminate]. intros [= <-]. eauto. Qed.

Lemma RMcount_app ds1 ds2 : RMcount (ds1 ++ ds2) = (RMcount ds1 + RMcount ds2)%nat.
Proof. unfold RMcount. now rewrite List.filter_app, length_app. Qed.

Lemma RMcount_external ds : RMcount (map ofExternal ds) = 0%nat.
Proof. induction ds as [|d ds IH]; [reflexivity|]. exact IH. Qed.

Lemma quiet_refl pp : quiet pp pp.
Proof. repeat split. Qed.

Lemma quiet_trans pp1 pp2 pp3 : quiet pp1 pp2 -> quiet pp2 pp3 -> quiet pp1 pp3.
Proof.
  intros [(a1 & b1 & c1) d1] [(a2 & b2 & c2) d2].
  repeat split; congruence.
Qed.

Lemma Quiet_ret {A} (a : A) : Quiet (ret a).
Proof. intros pp a' pp' [= _ <-]. apply quiet_refl. Qed.

Lemma Quiet_crash {A} : Quiet (@crash A).
Proof. intros pp a pp' H. discriminate. Qed.

Lemma Quiet_outOfFuel {A} : Quiet (@outOfFuel A).
Proof. intros pp a pp' H. discriminate. Qed.

Lemma Quiet_bind {A B} (c : M A) (k : A -> M B) :
  Quiet c -> (forall a, Quiet (k a)) -> Quiet (bind c k).
Proof.
  intros Hc Hk pp b pp' H. apply bind_Ok in H as (a & pp1 & H1 & H2).
  eapply quiet_trans; [eapply Hc|eapply Hk]; eauto.
Qed.

Lemma Quiet_must {A} (o : option A) : Quiet (must o).
Proof. destruct o; [apply Quiet_ret|apply Quiet_crash]. Qed.

Lemma Quiet_getState : Quiet getState.
Proof. intros pp a pp' [= _ <-]. apply quiet_refl. Qed.

Lemma Quiet_addDiag c l a : c <> diag.RecursiveMacro -> Quiet (addDiag c l a).
Proof.
  intros Hc pp [] pp' [= <-]. repeat split. simpl.
  rewrite RMcount_app. unfold RMcount at 2. simpl.
  rewrite bool_decide_eq_false_2 by exact Hc. simpl. lia.
Qed.

Lemma Quiet_addExternalDiags ds : Quiet (addExternalDiags ds).
Proof.
  intros pp [] pp' [= <-]. repeat split. simpl.
  rewrite RMcount_app, RMcount_external. lia.
Qed.

Lemma Quiet_createExpansionLoc sp r b n : Quiet (createExpansionLoc sp r b n).
Proof. intros pp a pp' [= _ <-]. repeat split. Qed.

Lemma Quiet_pp_peek : Quiet pp_peek.
Proof. intros pp a pp' [= _ <-]. apply quiet_refl. Qed.

Lemma Quiet_pp_consume : Quiet pp_consume.
Proof.
  intros pp a pp'. unfold pp_consume. destruct (input pp); intros [= _ <-]; repeat split.
Qed.

(** Structural proof search for [Quiet] goals. *)
Create HintDb quiet_db discriminated.
#[local] Hint Resolve Quiet_ret Quiet_crash Quiet_outOfFuel Quiet_must Quiet_getState
  Quiet_addExternalDiags Quiet_createExpansionLoc Quiet_pp_peek Quiet_pp_consume
  : quiet_db.

Ltac quiet_step :=
  match goal with
  | |- Quiet (bind _ _) => apply Quiet_bind; [|intros ?]
  | |- Quiet (addDiag _ _ _) => apply Quiet_addDiag; discriminate
  | |- Quiet (match ?x with _ => _ end) => destruct x
  | |- Quiet (let '(_, _) := ?x in _) => destruct x
  | |- Quiet _ => solve [auto with quiet_db]
  end.
Ltac quiet_auto := repeat quiet_step.

Section Quiet_engine.
Context {L : Lexer}.

Lemma Quiet_pp_expect k : Quiet (pp_expect k).
Proof. unfold pp_expect. quiet_auto. Qed.

Lemma Quiet_findMacro d : Quiet (findMacro d).
Proof. unfold findMacro. quiet_auto. Qed.

Lemma Quiet_peek p : Quiet (peek p).
Proof. unfold peek. quiet_auto. Qed.

Lemma Quiet_consume p : Quiet (consume p).
Proof. unfold consume. quiet_auto. Qed.

Lemma Quiet_expect p k : Quiet (expect p k).
Proof. unfold expect. pose proof Quiet_pp_expect. quiet_auto. Qed.

Lemma Quiet_parseTokenList_loop n : forall b p ts st, Quiet (parseTokenList_loop n b p ts st).
Proof.
  pose proof Quiet_peek. pose proof Quiet_consume.
  induction n as [|n IH]; intros b p ts st; simpl; quiet_auto.
Qed.

Lemma Quiet_parseTokenList b p : Quiet (parseTokenList b p).
Proof. unfold parseTokenList. pose proof Quiet_parseTokenList_loop. quiet_auto. Qed.

Lemma Quiet_parseArgumentList_loop n : forall p rs, Quiet (parseArgumentList_loop n p rs).
Proof.
  pose proof Quiet_peek. pose proof Quiet_consume. pose proof Quiet_parseTokenList.
  induction n as [|n IH]; intros p rs; simpl; unfold parseActualArgument; quiet_auto.
Qed.

Lemma Quiet_parseActualArgumentList p t : Quiet (parseActualArgumentList p t).
Proof.
  unfold parseActualArgumentList, parseArgumentList.
  pose proof Quiet_peek. pose proof Quiet_consume. pose proof Quiet_expect.
  pose proof Quiet_parseArgumentList_loop.
  quiet_auto.
Qed.

Lemma Quiet_ops_switch tokens token i s : Quiet (ops_switch tokens token i s).
Proof.
  unfold ops_switch, ops_quote, ops_paste, ops_default, pasteIgnored. quiet_auto.
Qed.

Lemma Quiet_ops_emit rec newToken s :
  (forall ts d, Quiet (rec ts d)) -> Quiet (ops_emit rec newToken s).
Proof. intros Hrec. unfold ops_emit. quiet_auto. Qed.

Lemma Quiet_ops_body rec tokens i s :
  (forall ts d, Quiet (rec ts d)) -> Quiet (ops_body rec tokens i s).
Proof.
  intros Hrec. unfold ops_body.
  pose proof Quiet_ops_switch. pose proof (fun nt s => Quiet_ops_emit rec nt s Hrec).
  quiet_auto.
Qed.

Lemma Quiet_ops_loop rec tokens n :
  (forall ts d, Quiet (rec ts d)) -> forall i s, Quiet (ops_loop rec tokens n i s).
Proof.
  intros Hrec. pose proof (fun i s => Quiet_ops_body rec tokens i s Hrec).
  induction n as [|n IH]; intros i s; simpl; quiet_auto.
Qed.

Lemma Quiet_applyMacroOps fuel : forall tokens dest0, Quiet (applyMacroOps fuel tokens dest0).
Proof.
  induction fuel as [|fuel IH]; intros tokens dest0; simpl; [quiet_auto|].
  pose proof (Quiet_ops_loop (applyMacroOps fuel) tokens (length tokens) IH).
  quiet_auto.
Qed.

Lemma Quiet_adjustLoc t ml fl r : Quiet (adjustLoc t ml fl r).
Proof. unfold adjustLoc. quiet_auto. Qed.

Lemma Quiet_append_at e t l b : Quiet (append_at e t l b).
Proof. unfold append_at. quiet_auto. Qed.

Lemma Quiet_append e t ml fl r b : Quiet (append e t ml fl r b).
Proof.
  unfold append. pose proof Quiet_adjustLoc. pose proof Quiet_append_at. quiet_auto.
Qed.

Lemma Quiet_appendAll ts : forall e ml fl r, Quiet (appendAll e ts ml fl r).
Proof.
  pose proof Quiet_append.
  induction ts as [|t ts IH]; intros e ml fl r; simpl; quiet_auto.
Qed.

Lemma Quiet_expandIntrinsic i e : Quiet (expandIntrinsic i e).
Proof. unfold expandIntrinsic. pose proof Quiet_append_at. quiet_auto. Qed.

Lemma Quiet_matchArguments formals : forall i a m, Quiet (matchArguments formals i a m).
Proof.
  induction formals as [|f formals IH]; intros i a m; simpl; quiet_auto.
Qed.

Lemma Quiet_expand_append r t s : Quiet (expand_append r t s).
Proof. unfold expand_append. pose proof Quiet_append. quiet_auto. Qed.

Lemma Quiet_appendBody t e al fl r : Quiet (appendBody t e al fl r).
Proof. unfold appendBody. pose proof Quiet_append. quiet_auto. Qed.

Lemma Quiet_appendBodyAll ts : forall e al fl r, Quiet (appendBodyAll ts e al fl r).
Proof.
  pose proof Quiet_appendBody.
  induction ts as [|t ts IH]; intros e al fl r; simpl; quiet_auto.
Qed.

End Quiet_engine.

Lemma quiet_loud ok pp pp' : quiet pp pp' -> loud ok pp pp'.
Proof. intros [Hf Hc]. split; [exact Hf|]. split; [lia|auto]. Qed.

Lemma quiet_then_loud ok pp1 pp2 pp3 : quiet pp1 pp2 -> loud ok pp2 pp3 -> loud ok pp1 pp3.
Proof.
  intros [(a1 & b1 & c1) d1] [(a2 & b2 & c2) [d2 e2]].
  split; [repeat split; congruence|]. split; [lia|]. intros H. rewrite e2 by exact H. lia.
Qed.

Lemma loud_then_quiet ok pp1 pp2 pp3 : loud ok pp1 pp2 -> quiet pp2 pp3 -> loud ok pp1 pp3.
Proof.
  intros [(a1 & b1 & c1) [d1 e1]] [(a2 & b2 & c2) d2].
  split; [repeat split; congruence|]. split; [lia|]. intros H. rewrite d2, e1 by exact H. lia.
Qed.

Lemma Loud_of_Quiet {A} (okOf : A -> bool) c : Quiet c -> Loud okOf c.
Proof. intros H pp a pp' Hrun. apply quiet_loud. eapply H; eauto. Qed.

Lemma Loud_ret {A} (okOf : A -> bool) a : Loud okOf (ret a).
Proof. apply Loud_of_Quiet, Quiet_ret. Qed.

Lemma Aborts_ret {A} (okOf : A -> bool) a : okOf a = false -> Aborts okOf (ret a).
Proof. intros H pp a' pp' [= <- <-]. split; [apply quiet_refl|exact H]. Qed.

Lemma Loud_bind_quiet {A B} (okOf : B -> bool) (c : M A) (k : A -> M B) :
  Quiet c -> (forall a, Loud okOf (k a)) -> Loud okOf (bind c k).
Proof.
  intros Hc Hk pp b pp' H. apply bind_Ok in H as (a & pp1 & H1 & H2).
  eapply quiet_then_loud; [eapply Hc|eapply Hk]; eauto.
Qed.

Lemma Loud_bind {A B} (ok1 : A -> bool) (ok2 : B -> bool) (c : M A) (k : A -> M B) :
  Loud ok1 c ->
  (forall a, ok1 a = true -> Loud ok2 (k a)) ->
  (forall a, ok1 a = false -> Aborts ok2 (k a)) ->
  Loud ok2 (bind c k).
Proof.
  intros Hc Hk Hf pp b pp' H. apply bind_Ok in H as (a & pp1 & H1 & H2).
  specialize (Hc _ _ _ H1). destruct (ok1 a) eqn:Hok.
  - destruct Hc as (Hfr & _ & Heq). specialize (Heq eq_refl).
    eapply quiet_then_loud; [split; eassumption|]. eapply Hk; eauto.
  - destruct (Hf a Hok _ _ _ H2) as [Hq Hb]. rewrite Hb.
    eapply loud_then_quiet; [|exact Hq].
    destruct Hc as (Hfr & Hle & _). split; [exact Hfr|]. split; [exact Hle|discriminate].
Qed.

Ltac loud_step :=
  match goal with
  | |- Loud _ (ret _) => apply Loud_ret
  | |- Loud _ (match ?x with _ => _ end) => destruct x
  | |- Loud _ (let '(_, _) := ?x in _) => destruct x
  | |- Loud _ (bind _ _) => apply Loud_bind_quiet; [solve [quiet_auto]|intros ?]
  | |- Loud _ _ => apply Loud_of_Quiet; solve [quiet_auto]
  end.
Ltac loud_auto := repeat loud_step.

Section Loud_engine.
Context {L : Lexer}.
Variable rec : list Token -> gset N -> M ReplacementResult.
Hypothesis Hrec : forall ts AE, Loud erl_ok (rec ts AE).

Lemma Loud_handleToken r t s : Loud fst (handleToken rec r t s).
Proof using Hrec.
  pose proof Quiet_expand_append. pose proof Quiet_adjustLoc.
  pose proof Quiet_appendAll. pose proof Quiet_appendBodyAll.
  unfold handleToken.
  loud_auto.
  eapply (Loud_bind isSomeb).
  - loud_auto. eapply (Loud_bind erl_ok); [apply Hrec| |].
    + intros res Hres. rewrite Hres. simpl. apply Loud_ret.
    + intros res Hres. rewrite Hres. simpl. now apply Aborts_ret.
  - intros [[ts s']|] _; [|loud_auto]. loud_auto.
  - intros [[ts s']|]; [discriminate|]. intros _. now apply Aborts_ret.
Qed.

Lemma Loud_handleTokens r ts : forall s, Loud fst (handleTokens rec r ts s).
Proof using Hrec.
  induction ts as [|t ts IH]; intros s; simpl; [apply Loud_ret|].
  eapply (Loud_bind fst); [apply Loud_handleToken| |].
  - intros [ok s'] Hok. simpl in Hok. subst ok. apply IH.
  - intros [ok s'] Hok. simpl in Hok. subst ok. now apply Aborts_ret.
Qed.

Lemma Loud_expandBodyToken r t s : Loud fst (expandBodyToken rec r t s).
Proof using Hrec.
  unfold expandBodyToken.
  destruct (if _ : bool then find pasteText (rawText t) else None) as [index|];
    [|apply Loud_handleToken].
  eapply (Loud_bind fst); [apply Loud_handleToken| |].
  - intros [ok s1] Hok. simpl in Hok. subst ok. simpl.
    destruct (splitTokens t index) as [splits ds].
    apply Loud_bind_quiet; [apply Quiet_addExternalDiags|intros _].
    eapply (Loud_bind fst); [apply Loud_handleTokens| |].
    + intros [ok s2] Hok. simpl in Hok. subst ok. simpl.
      destruct (last splits); [apply Loud_handleToken|apply Loud_ret].
    + intros [ok s2] Hok. simpl in Hok. subst ok. simpl. now apply Aborts_ret.
  - intros [ok s1] Hok. simpl in Hok. subst ok. simpl. now apply Aborts_ret.
Qed.

Lemma Loud_expandBody r ts : forall s, Loud fst (expandBody rec r ts s).
Proof using Hrec.
  induction ts as [|t ts IH]; intros s; simpl; [apply Loud_ret|].
  eapply (Loud_bind fst); [apply Loud_expandBodyToken| |].
  - intros [ok s'] Hok. simpl in Hok. subst ok. apply IH.
  - intros [ok s'] Hok. simpl in Hok. subst ok. now apply Aborts_ret.
Qed.

Lemma Loud_expandMacro macro e actualArgs : Loud fst (expandMacro rec macro e actualArgs).
Proof using Hrec.
  pose proof Quiet_expandIntrinsic. pose proof Quiet_appendAll.
  pose proof Quiet_matchArguments.
  unfold expandMacro. loud_auto.
  eapply (Loud_bind fst); [apply Loud_expandBody| |].
  - intros [ok s'] Hok. simpl in Hok. subst ok. apply Loud_ret.
  - intros [ok s'] Hok. simpl in Hok. subst ok. now apply Aborts_ret.
Qed.

Lemma Loud_erl_fail tokens0 AE : Loud erl_ok (erl_fail tokens0 AE).
Proof. apply Loud_ret. Qed.

Lemma Aborts_erl_fail tokens0 AE : Aborts erl_ok (erl_fail tokens0 AE).
Proof. now apply Aborts_ret. Qed.

Lemma Loud_recursive tokens0 AE loc a :
  Loud erl_ok (bind (addDiag diag.RecursiveMacro loc a) (fun _ => erl_fail tokens0 AE)).
Proof.
  intros pp r pp' H. cbv [bind addDiag erl_fail ret] in H. injection H as <- <-.
  split; [repeat split|]. simpl. rewrite RMcount_app. unfold RMcount at 2. simpl.
  split; [lia|discriminate].
Qed.

Lemma Loud_erl_loop tokens0 n :
  forall parser outBuffer es AE, Loud erl_ok (erl_loop rec tokens0 n parser outBuffer es AE).
Proof using Hrec.
  pose proof Quiet_findMacro. pose proof Quiet_parseActualArgumentList.
  induction n as [|n IH]; intros parser outBuffer es AE; simpl.
  { apply Loud_of_Quiet, Quiet_outOfFuel. }
  destruct (next parser) as [[token|] parser']; [|apply Loud_ret].
  destruct (negb _ || negb _); [apply IH|].
  apply Loud_bind_quiet; [apply Quiet_findMacro|intros macro].
  destruct (negb (valid macro)); [apply IH|].
  destruct (negb (isIntrinsic macro) && _); [apply Loud_recursive|].
  apply Loud_bind_quiet; [quiet_auto|intros [actualArgs parser'']].
  destruct (needsArgs macro && _); [apply Loud_erl_fail|].
  eapply (Loud_bind fst); [apply Loud_expandMacro| |].
  - intros [ok e'] Hok. simpl in Hok. subst ok. simpl.
    eapply (Loud_bind erl_ok); [apply Hrec| |].
    + intros res Hres. rewrite Hres. simpl. apply IH.
    + intros res Hres. rewrite Hres. simpl. apply Aborts_erl_fail.
  - intros [ok e'] Hok. simpl in Hok. subst ok. simpl. apply Aborts_erl_fail.
Qed.

End Loud_engine.

Section Loud_top.
Context {L : Lexer}.

Lemma expandReplacementList_S fuel tokens AE :
  expandReplacementList (S fuel) tokens AE =
  erl_loop (expandReplacementList fuel) tokens (S (length tokens))
    (setBuffer tokens) [] false AE.
Proof. reflexivity. Qed.

Lemma Loud_expandReplacementList fuel :
  forall tokens AE, Loud erl_ok (expandReplacementList fuel tokens AE).
Proof.
  induction fuel as [|fuel IH]; intros tokens AE.
  - apply Loud_of_Quiet, Quiet_outOfFuel.
  - rewrite expandReplacementList_S. apply Loud_erl_loop, IH.
Qed.

(** [Good] is any property of token lists that every result of
    [applyMacroOps] on an empty destination has. *)
Variable Good : list Token -> Prop.
Hypothesis HGood : forall fuel tokens pp b d pp',
  applyMacroOps fuel tokens [] pp = Ok ((b, d), pp') -> Good d.

Lemma loud_topLevel_post ok pp pp' : loud ok pp pp' -> topLevel_post Good pp pp'.
Proof. intros ((Hm & _ & Hc) & Hle & _). split; [exact Hm|]. split; [exact Hle|now left]. Qed.

Lemma topLevel_loop_post fuel n : forall tokens AE actualArgs pp r pp',
  topLevel_loop fuel n tokens AE actualArgs pp = Ok (r, pp') -> topLevel_post Good pp pp'.
Proof using HGood.
  induction n as [|n IH]; intros tokens AE actualArgs pp r pp' H; simpl in H; [discriminate|].
  apply bind_Ok in H as (res & pp1 & Herl & H).
  pose proof (Loud_expandReplacementList _ _ _ _ _ _ Herl) as Hloud.
  destruct (erl_ok res) eqn:Hok; simpl in H.
  2:{ injection H as <- <-. eapply loud_topLevel_post; eauto. }
  destruct Hloud as ((Hm1 & He1 & Hc1) & _ & Hrm1). specialize (Hrm1 eq_refl).
  apply bind_Ok in H as ([] & pp2 & Hset & H). injection Hset as <-.
  apply bind_Ok in H as ([anyNew dest_] & pp3 & Hops & H).
  pose proof (HGood _ _ _ _ _ _ Hops) as Hgood.
  apply Quiet_applyMacroOps in Hops as ((Hm3 & He3 & Hc3) & Hrm3). simpl in *.
  apply bind_Ok in H as ([] & pp4 & Hset & H). injection Hset as <-.
  destruct (negb anyNew && negb (erl_replaced res)).
  - unfold topLevel_finish in H.
    apply bind_Ok in H as (pp5 & pp5' & Hget & H). injection Hget as <- <-.
    simpl in H. destruct dest_ as [|d0 dest_]; simpl in H.
    + injection H as <- <-. split; [simpl; congruence|]. simpl.
      split; [lia|left; congruence].
    + injection H as <- <-. split; [simpl; congruence|]. simpl.
      split; [lia|right]. repeat split; [congruence|discriminate|exact Hgood].
  - apply IH in H. destruct H as (Hm & Hle & Hcases). simpl in *.
    split; [congruence|]. split; [lia|].
    destruct Hcases as [Hsame|(Heq & Hcur & Hne & Hg)]; [left; congruence|right].
    repeat split; try assumption; lia.
Qed.

Lemma handleTopLevelMacro_post fuel directive pp r pp' :
  handleTopLevelMacro fuel directive pp = Ok (r, pp') -> topLevel_post Good pp pp'.
Proof using HGood.
  intros H. unfold handleTopLevelMacro in H.
  apply bind_Ok in H as (macro & pp1 & Hfind & H).
  apply Quiet_findMacro in Hfind as Hq1.
  destruct (negb (valid macro)).
  { eapply (loud_topLevel_post true), quiet_then_loud; [exact Hq1|].
    revert H. generalize pp1 r pp'.
    change (Loud (fun _ : option MacroActualArgumentListSyntax => true)
              (bind (addDiag diag.UnknownDirective (location directive) [valueText directive])
                 (fun _ => bind pp_peek (fun tk =>
                    if bool_decide (kind tk = TokenKind.OpenParenthesis)
                    then bind (parseActualArgumentList (setBuffer []) directive)
                           (fun x => let '(actualArgs, _) := x in ret actualArgs)
                    else ret None)))).
    pose proof Quiet_parseActualArgumentList. loud_auto. }
  apply bind_Ok in H as (pp2 & pp2' & Hget & H). injection Hget as <- <-.
  destruct (bool_decide (is_Some (currentMacroToken pp1))); [discriminate|].
  apply bind_Ok in H as ([actualArgs parser] & pp3 & Hargs & H).
  assert (quiet pp1 pp3) as Hq3.
  { destruct (needsArgs macro).
    - eapply Quiet_parseActualArgumentList; eauto.
    - injection Hargs as _ _ <-. apply quiet_refl. }
  pose proof (quiet_trans _ _ _ Hq1 Hq3) as Hq13.
  destruct (needsArgs macro && _).
  { injection H as <- <-. eapply (loud_topLevel_post true), quiet_loud; eauto. }
  apply bind_Ok in H as ([ok e'] & pp4 & Hexp & H).
  pose proof (Loud_expandMacro _ (Loud_expandReplacementList fuel) _ _ _ _ _ _ Hexp) as Hloud.
  simpl in Hloud.
  pose proof (quiet_then_loud _ _ _ _ Hq13 Hloud) as Hl4.
  destruct ok; simpl in H.
  2:{ injection H as <- <-. eapply loud_topLevel_post; eauto. }
  apply topLevel_loop_post in H.
  destruct Hl4 as ((Hm4 & He4 & Hc4) & _ & Hrm4). specialize (Hrm4 eq_refl).
  destruct H as (Hm & Hle & Hcases).
  split; [congruence|]. split; [lia|].
  destruct Hcases as [Hsame|(Heq & Hcur & Hne & Hg)]; [left; congruence|right].
  repeat split; try assumption; lia.
Qed.

End Loud_top.

Lemma NoOOF_ret {A} (a : A) : NoOOF (ret a).
Proof. intros pp. discriminate. Qed.
Lemma NoOOF_crash {A} : NoOOF (@crash A).
Proof. intros pp. discriminate. Qed.
Lemma NoOOF_must {A} (o : option A) : NoOOF (must o).
Proof. destruct o; [apply NoOOF_ret|apply NoOOF_crash]. Qed.
Lemma NoOOF_getState : NoOOF getState.
Proof. intros pp. discriminate. Qed.
Lemma NoOOF_addDiag c l a : NoOOF (addDiag c l a).
Proof. intros pp. discriminate. Qed.
Lemma NoOOF_addExternalDiags ds : NoOOF (addExternalDiags ds).
Proof. intros pp. discriminate. Qed.
Lemma NoOOF_createExpansionLoc sp r b n : NoOOF (createExpansionLoc sp r b n).
Proof. intros pp. discriminate. Qed.
Lemma NoOOF_pp_peek : NoOOF pp_peek.
Proof. intros pp. discriminate. Qed.
Lemma NoOOF_pp_consume : NoOOF pp_consume.
Proof. intros pp. unfold pp_consume. destruct (input pp); discriminate. Qed.

Lemma bind_NoOOF_at {A B} (c : M A) (k : A -> M B) pp :
  c pp <> OutOfFuel ->
  (forall a pp1, c pp = Ok (a, pp1) -> k a pp1 <> OutOfFuel) ->
  bind c k pp <> OutOfFuel.
Proof.
  intros Hc Hk. unfold bind. destruct (c pp) as [[a pp1]| |]; [now apply Hk|discriminate|congruence].
Qed.

Lemma NoOOF_bind {A B} (c : M A) (k : A -> M B) :
  NoOOF c -> (forall a, NoOOF (k a)) -> NoOOF (bind c k).
Proof. intros Hc Hk pp. apply bind_NoOOF_at; [apply Hc|]. intros a pp1 _. apply Hk. Qed.

Create HintDb nooof_db discriminated.
#[local] Hint Resolve NoOOF_ret NoOOF_crash NoOOF_must NoOOF_getState NoOOF_addDiag
  NoOOF_addExternalDiags NoOOF_createExpansionLoc NoOOF_pp_peek NoOOF_pp_consume : nooof_db.

Ltac nooof_step :=
  match goal with
  | |- NoOOF (bind _ _) => apply NoOOF_bind; [|intros ?]
  | |- NoOOF (match ?x with _ => _ end) => destruct x
  | |- NoOOF (let '(_, _) := ?x in _) => destruct x
  | |- NoOOF _ => solve [auto with nooof_db]
  end.
Ltac nooof_auto := repeat nooof_step.

(** ** The bounded loops cannot exhaust their bound *)

Section parser_total.
Context {L : Lexer}.

Lemma NoOOF_pp_expect k : NoOOF (pp_expect k).
Proof. unfold pp_expect. nooof_auto. Qed.
Lemma NoOOF_findMacro d : NoOOF (findMacro d).
Proof. unfold findMacro. nooof_auto. Qed.
Lemma NoOOF_peek p : NoOOF (peek p).
Proof. unfold peek. nooof_auto. Qed.
Lemma NoOOF_consume p : NoOOF (consume p).
Proof. unfold consume. nooof_auto. Qed.
Lemma NoOOF_expect p k : NoOOF (expect p k).
Proof. unfold expect. pose proof NoOOF_pp_expect. nooof_auto. Qed.

Lemma peek_total p pp : exists t, peek p pp = Ok (t, pp).
Proof. unfold peek. destruct (buffer p !! currentIndex p); eexists; reflexivity. Qed.

Lemma consume_total p pp : exists t p' pp', consume p pp = Ok ((t, p'), pp').
Proof.
  unfold consume, next. destruct (buffer p !! currentIndex p); [do 3 eexists; reflexivity|].
  unfold bind, pp_consume. destruct (input pp); do 3 eexists; reflexivity.
Qed.

Lemma peek_Ok p pp t pp' :
  peek p pp = Ok (t, pp') ->
  pp' = pp /\ (remaining p pp = 0%nat -> t = eofToken).
Proof.
  unfold peek, remaining. destruct (buffer p !! currentIndex p) as [t0|] eqn:Hb.
  - intros [= <- <-]. split; [reflexivity|]. apply lookup_lt_Some in Hb. lia.
  - unfold pp_peek. intros [= <- <-]. split; [reflexivity|].
    destruct (input pp); [reflexivity|simpl; lia].
Qed.

Lemma consume_Ok p pp t p' pp' :
  consume p pp = Ok ((t, p'), pp') ->
  buffer p' = buffer p /\ (currentIndex p <= currentIndex p')%nat /\
  remaining p' pp' = (remaining p pp - 1)%nat.
Proof.
  unfold consume, next, remaining. destruct (buffer p !! currentIndex p) as [t0|] eqn:Hb.
  - intros [= <- <- <-]. apply lookup_lt_Some in Hb. simpl. repeat split; lia.
  - apply lookup_ge_None in Hb. unfold bind, pp_consume, ret.
    destruct (input pp) as [|t0 rest] eqn:Hin; intros [= <- <- <-]; simpl;
      rewrite ?Hin; simpl; repeat split; lia.
Qed.

Lemma parseTokenList_loop_total n : forall b p ts st pp,
  (remaining p pp < n)%nat ->
  parseTokenList_loop n b p ts st pp <> OutOfFuel /\
  (forall r p' pp', parseTokenList_loop n b p ts st pp = Ok ((r, p'), pp') ->
     buffer p' = buffer p /\ (currentIndex p <= currentIndex p')%nat /\
     (remaining p' pp' <= remaining p pp)%nat).
Proof.
  induction n as [|n IH]; intros b p ts st pp Hn; [lia|].
  cbn [parseTokenList_loop].
  destruct (peek_total p pp) as [tk Hpeek].
  destruct (peek_Ok _ _ _ _ Hpeek) as [_ Heof].
  rewrite (bind_eval _ _ _ _ _ Hpeek).
  destruct (bool_decide (kind tk = TokenKind.EndOfFile) || _) eqn:Hstop.
  { destruct st as [|top st].
    - split; [discriminate|]. intros r p' pp' [= <- <- <-]. repeat split; lia.
    - split.
      + assert (NoOOF (do b0 <- must (last ts);;
                       run addDiag diag.UnbalancedMacroArgDims (location b0) [getTokenKindText top];;
                       ret (ts, p))) as H by nooof_auto.
        apply H.
      + intros r p' pp' H. apply bind_Ok in H as (b0 & pp1 & H1 & H).
        apply must_Ok in H1 as (? & _ & [= <- <-]).
        cbv [bind addDiag ret] in H. injection H as <- <- <-.
        unfold remaining. simpl. repeat split; lia. }
  apply orb_false_iff in Hstop as [Hne _]. apply bool_decide_eq_false in Hne.
  assert (remaining p pp <> 0)%nat as Hpos.
  { intros H0. apply Hne. now rewrite (Heof H0). }
  assert (forall stack,
    (do ' (t, p') <- consume p;;
     parseTokenList_loop n b p' (ts ++ [t])
       (if negb (bool_decide (getDelimCloseKind (kind tk) = TokenKind.Unknown))
        then getDelimCloseKind (kind tk) :: stack else stack)) pp <> OutOfFuel /\
    (forall r p' pp',
       (do ' (t, p') <- consume p;;
        parseTokenList_loop n b p' (ts ++ [t])
          (if negb (bool_decide (getDelimCloseKind (kind tk) = TokenKind.Unknown))
           then getDelimCloseKind (kind tk) :: stack else stack)) pp = Ok ((r, p'), pp') ->
       buffer p' = buffer p /\ (currentIndex p <= currentIndex p')%nat /\
       (remaining p' pp' <= remaining p pp)%nat)) as Hcont.
  { intros stack.
    destruct (consume_total p pp) as (t & p1 & pp1 & Hc).
    destruct (consume_Ok _ _ _ _ _ Hc) as (Hb1 & Hi1 & Hr1).
    rewrite (bind_eval _ _ _ _ _ Hc).
    match goal with |- context [parseTokenList_loop n b p1 ?ts' ?st'] =>
      destruct (IH b p1 ts' st' pp1 ltac:(lia)) as [Hno Hres] end.
    split; [exact Hno|]. intros r p' pp' H. apply Hres in H as (Hb2 & Hi2 & Hr2).
    repeat split; [congruence|lia|lia]. }
  destruct st as [|top rest].
  - destruct (_ || _).
    + split; [discriminate|]. intros r p' pp' [= <- <- <-]. repeat split; lia.
    + apply Hcont.
  - destruct (bool_decide (top = kind tk)); apply Hcont.
Qed.

Lemma parseTokenList_total b p :
  NoOOF (parseTokenList b p) /\
  (forall pp r p' pp', parseTokenList b p pp = Ok ((r, p'), pp') ->
     buffer p' = buffer p /\ (currentIndex p <= currentIndex p')%nat /\
     (remaining p' pp' <= remaining p pp)%nat).
Proof.
  unfold parseTokenList. split.
  - intros pp. rewrite (bind_eval _ _ pp pp pp eq_refl).
    apply parseTokenList_loop_total. lia.
  - intros pp r p' pp'. rewrite (bind_eval _ _ pp pp pp eq_refl).
    apply parseTokenList_loop_total. lia.
Qed.

Lemma parseArgumentList_loop_total n : forall p rs pp,
  (remaining p pp < n)%nat ->
  parseArgumentList_loop n p rs pp <> OutOfFuel /\
  (forall r p' pp', parseArgumentList_loop n p rs pp = Ok ((r, p'), pp') ->
     buffer p' = buffer p /\ (currentIndex p <= currentIndex p')%nat).
Proof.
  induction n as [|n IH]; intros p rs pp Hn; [lia|].
  cbn [parseArgumentList_loop]. unfold parseActualArgument.
  destruct (parseTokenList_total true p) as [Hno Hres].
  destruct (parseTokenList true p pp) as [[[arg p1] pp1]| |] eqn:Hpl;
    [|split; [now rewrite (bind_crash_l _ _ _ Hpl)|intros r p' pp' H; now rewrite (bind_crash_l _ _ _ Hpl) in H]
     |now apply Hno in Hpl].
  destruct (Hres _ _ _ _ Hpl) as (Hb1 & Hi1 & Hr1).
  rewrite (bind_eval _ _ _ _ _ Hpl).
  destruct (peek_total p1 pp1) as [tk Hpeek].
  destruct (peek_Ok _ _ _ _ Hpeek) as [_ Heof].
  rewrite (bind_eval _ _ _ _ _ Hpeek).
  destruct (bool_decide (kind tk = TokenKind.Comma)) eqn:Hcomma.
  - apply bool_decide_eq_true in Hcomma.
    assert (remaining p1 pp1 <> 0)%nat as Hpos.
    { intros H0. rewrite (Heof H0) in Hcomma. discriminate. }
    destruct (consume_total p1 pp1) as (t & p2 & pp2 & Hc).
    destruct (consume_Ok _ _ _ _ _ Hc) as (Hb2 & Hi2 & Hr2).
    rewrite (bind_eval _ _ _ _ _ Hc).
    destruct (IH p2 (rs ++ [arg]) pp2 ltac:(lia)) as [Hno' Hres'].
    split; [exact Hno'|]. intros r p' pp' H. apply Hres' in H as (Hb3 & Hi3).
    split; [congruence|lia].
  - split; [discriminate|]. intros r p' pp' [= <- <- <-]. split; [congruence|lia].
Qed.

Lemma expect_Ok p k pp t p' pp' :
  expect p k pp = Ok ((t, p'), pp') ->
  buffer p' = buffer p /\ (currentIndex p <= currentIndex p')%nat.
Proof.
  unfold expect. destruct (buffer p !! currentIndex p) as [cur|].
  - destruct (negb _).
    + destruct (createExpected _ _ _) as [tok ds]. cbv [bind addExternalDiags ret].
      intros [= <- <- <-]. split; [reflexivity|lia].
    + intros [= <- <- <-]. simpl. split; [reflexivity|lia].
  - intros H. apply bind_Ok in H as (t0 & pp0 & _ & [= <- <- <-]). split; [reflexivity|lia].
Qed.

Lemma parseActualArgumentList_total p prev :
  NoOOF (parseActualArgumentList p prev) /\
  (forall pp r p' pp', parseActualArgumentList p prev pp = Ok ((r, p'), pp') ->
     buffer p' = buffer p /\ (currentIndex p <= currentIndex p')%nat).
Proof.
  unfold parseActualArgumentList, parseArgumentList. split.
  - intros pp. destruct (peek_total p pp) as [tk Hpeek]. rewrite (bind_eval _ _ _ _ _ Hpeek).
    destruct (negb _); [discriminate|].
    destruct (consume_total p pp) as (t & p1 & pp1 & Hc). rewrite (bind_eval _ _ _ _ _ Hc).
    apply bind_NoOOF_at.
    + rewrite (bind_eval _ _ pp1 pp1 pp1 eq_refl). apply parseArgumentList_loop_total. lia.
    + intros [arguments p2] pp2 _.
      assert (NoOOF (do ' (close, p3) <- expect p2 TokenKind.CloseParenthesis;;
                     ret (Some (mkActualArgs t arguments close), p3))) as H.
      { pose proof NoOOF_expect. nooof_auto. }
      apply H.
  - intros pp r p' pp'. destruct (peek_total p pp) as [tk Hpeek].
    rewrite (bind_eval _ _ _ _ _ Hpeek).
    destruct (negb _).
    { cbv [bind addDiag ret]. intros [= <- <- <-]. split; [reflexivity|lia]. }
    destruct (consume_total p pp) as (t & p1 & pp1 & Hc). rewrite (bind_eval _ _ _ _ _ Hc).
    destruct (consume_Ok _ _ _ _ _ Hc) as (Hb1 & Hi1 & _).
    intros H. apply bind_Ok in H as ([arguments p2] & pp2 & Hargs & H).
    rewrite (bind_eval _ _ pp1 pp1 pp1 eq_refl) in Hargs.
    apply parseArgumentList_loop_total in Hargs as (Hb2 & Hi2); [|lia].
    apply bind_Ok in H as ([close p3] & pp3 & Hexp & [= <- <- <-]).
    apply expect_Ok in Hexp as (Hb3 & Hi3). split; [congruence|lia].
Qed.

End parser_total.

(** The rewrite pass and the expansion run out of fuel only if their
    recursive calls do. *)
Section fuel_only.
Context {L : Lexer}.

Lemma NoOOF_ops_switch tokens token i s : NoOOF (ops_switch tokens token i s).
Proof.
  unfold ops_switch, ops_quote, ops_paste, ops_default, pasteIgnored. nooof_auto.
Qed.

Lemma ops_switch_index tokens token i s pp nt ndc i' s1 pp1 :
  ops_switch tokens token i s pp = Ok ((nt, ndc, i', s1), pp1) -> (i <= i')%nat.
Proof.
  unfold ops_switch, ops_quote, ops_paste, ops_default, pasteIgnored.
  cbv [bind ret must crash addDiag].
  repeat case_match; intros; simplify_eq; lia.
Qed.

Section ops.
Variable rec : list Token -> list Token -> M (bool * list Token).
Hypothesis Hrec : forall ts d, NoOOF (rec ts d).

Lemma NoOOF_ops_emit nt s : NoOOF (ops_emit rec nt s).
Proof using Hrec. unfold ops_emit. nooof_auto. Qed.

Lemma NoOOF_ops_body tokens i s : NoOOF (ops_body rec tokens i s).
Proof using Hrec.
  unfold ops_body. pose proof NoOOF_ops_switch. pose proof NoOOF_ops_emit. nooof_auto.
Qed.

Lemma ops_body_index tokens i s pp i' s' pp' :
  ops_body rec tokens i s pp = Ok ((i', s'), pp') -> (i <= i')%nat.
Proof.
  unfold ops_body. intros H.
  apply bind_Ok in H as (token & pp0 & _ & H).
  apply bind_Ok in H as ([[[nt ndc] j] s1] & pp1 & Hsw & H).
  apply bind_Ok in H as (s2 & pp2 & _ & [= <- <- <-]).
  eapply ops_switch_index; eauto.
Qed.

Lemma ops_loop_fuel_only tokens n : forall i s,
  (length tokens - i <= n)%nat -> NoOOF (ops_loop rec tokens n i s).
Proof using Hrec.
  induction n as [|n IH]; intros i s Hn pp; cbn [ops_loop].
  - destruct (Nat.ltb_spec i (length tokens)); [lia|discriminate].
  - destruct (Nat.ltb_spec i (length tokens)); [|discriminate].
    apply bind_NoOOF_at; [apply NoOOF_ops_body|].
    intros [i' s'] pp1 Hb. apply ops_body_index in Hb. apply IH. lia.
Qed.

End ops.

Section expansion.
Variable rec : list Token -> gset N -> M ReplacementResult.
Hypothesis Hrec : forall ts AE, NoOOF (rec ts AE).

Lemma NoOOF_adjustLoc t ml fl r : NoOOF (adjustLoc t ml fl r).
Proof. unfold adjustLoc. nooof_auto. Qed.
Lemma NoOOF_append_at e t l b : NoOOF (append_at e t l b).
Proof. unfold append_at. nooof_auto. Qed.
Lemma NoOOF_append e t ml fl r b : NoOOF (append e t ml fl r b).
Proof. unfold append. pose proof NoOOF_adjustLoc. pose proof NoOOF_append_at. nooof_auto. Qed.
Lemma NoOOF_appendAll ts : forall e ml fl r, NoOOF (appendAll e ts ml fl r).
Proof.
  pose proof NoOOF_append. induction ts as [|t ts IH]; intros e ml fl r; simpl; nooof_auto.
Qed.
Lemma NoOOF_appendBodyAll ts : forall e ml fl r, NoOOF (appendBodyAll ts e ml fl r).
Proof.
  pose proof NoOOF_append.
  induction ts as [|t ts IH]; intros e ml fl r; simpl; unfold appendBody; nooof_auto.
Qed.
Lemma NoOOF_matchArguments formals : forall i a m, NoOOF (matchArguments formals i a m).
Proof. induction formals as [|f formals IH]; intros i a m; simpl; nooof_auto. Qed.

Lemma NoOOF_handleToken r t s : NoOOF (handleToken rec r t s).
Proof using Hrec.
  pose proof NoOOF_append. pose proof NoOOF_adjustLoc.
  pose proof NoOOF_appendAll. pose proof NoOOF_appendBodyAll.
  unfold handleToken, expand_append. nooof_auto.
Qed.

Lemma NoOOF_handleTokens r ts : forall s, NoOOF (handleTokens rec r ts s).
Proof using Hrec.
  pose proof NoOOF_handleToken. induction ts as [|t ts IH]; intros s; simpl; nooof_auto.
Qed.

Lemma NoOOF_expandBody r ts : forall s, NoOOF (expandBody rec r ts s).
Proof using Hrec.
  pose proof NoOOF_handleToken. pose proof NoOOF_handleTokens.
  induction ts as [|t ts IH]; intros s; simpl; unfold expandBodyToken; nooof_auto.
Qed.

Lemma NoOOF_expandMacro macro e a : NoOOF (expandMacro rec macro e a).
Proof using Hrec.
  pose proof NoOOF_append_at. pose proof NoOOF_appendAll. pose proof NoOOF_matchArguments.
  pose proof NoOOF_expandBody.
  unfold expandMacro, expandIntrinsic. nooof_auto.
Qed.

Lemma erl_loop_fuel_only tokens0 n : forall parser out es AE,
  (length (buffer parser) - currentIndex parser < n)%nat ->
  NoOOF (erl_loop rec tokens0 n parser out es AE).
Proof using Hrec.
  induction n as [|n IH]; intros parser out es AE Hn pp; [lia|].
  cbn [erl_loop]. unfold next.
  destruct (buffer parser !! currentIndex parser) as [token|] eqn:Hb; [|discriminate].
  apply lookup_lt_Some in Hb.
  assert (forall out' es' AE', erl_loop rec tokens0 n
            (mkParser (buffer parser) (S (currentIndex parser))) out' es' AE' pp <> OutOfFuel)
    as Hnext.
  { intros. apply IH. simpl. lia. }
  destruct (negb _ || negb _); [apply Hnext|].
  apply bind_NoOOF_at; [apply NoOOF_findMacro|]. intros macro pp1 _.
  destruct (negb (valid macro)); [apply IH; simpl; lia|].
  destruct (negb (isIntrinsic macro) && _); [discriminate|].
  apply bind_NoOOF_at.
  { destruct (needsArgs macro); [apply parseActualArgumentList_total|discriminate]. }
  intros [actualArgs parser'] pp2 Hparse.
  assert (buffer parser' = buffer parser /\ (S (currentIndex parser) <= currentIndex parser')%nat)
    as [Hbuf Hidx].
  { destruct (needsArgs macro).
    - apply parseActualArgumentList_total in Hparse. exact Hparse.
    - injection Hparse as _ <- _. split; [reflexivity|simpl; lia]. }
  destruct (needsArgs macro && _); [discriminate|].
  apply bind_NoOOF_at; [apply NoOOF_expandMacro|]. intros [ok e'] pp3 _.
  destruct (negb ok); [discriminate|].
  apply bind_NoOOF_at; [apply Hrec|]. intros res pp4 _.
  destruct (negb (erl_ok res)); [discriminate|].
  apply IH. rewrite Hbuf. lia.
Qed.

End expansion.

(** One level of [expandReplacementList] runs out of fuel only if one of the
    nested calls does. *)
Lemma expandReplacementList_fuel_only fuel tokens AE :
  (forall ts AE', NoOOF (expandReplacementList fuel ts AE')) ->
  NoOOF (expandReplacementList (S fuel) tokens AE).
Proof.
  intros Hrec. rewrite expandReplacementList_S. apply erl_loop_fuel_only; [exact Hrec|].
  simpl. lia.
Qed.

Lemma applyMacroOps_fuel_only fuel tokens dest0 :
  (forall ts d, NoOOF (applyMacroOps fuel ts d)) ->
  NoOOF (applyMacroOps (S fuel) tokens dest0).
Proof.
  intros Hrec. cbn [applyMacroOps].
  apply NoOOF_bind; [apply ops_loop_fuel_only; [exact Hrec|lia]|].
  intros s. nooof_auto.
Qed.

End fuel_only.

Lemma Forall_removelast {A} (P : A -> Prop) (l : list A) :
  Forall P l -> Forall P (removelast l).
Proof.
  induction 1 as [|x l Hx Hl IH]; simpl; [constructor|].
  destruct l; [constructor|]. constructor; assumption.
Qed.

(** ** The rewrite pass lets no operator token through *)

Section noSentinels.
Context {L : Lexer}.
Hypothesis HL : lexerContract L.

Lemma emittable_nonsentinel t : sentinel (kind t) = false -> emittable (Some t).
Proof. intros H t' [= <-]. split; intros Hk; rewrite Hk in H; discriminate. Qed.

Lemma ops_quote_ok token i s pp nt ndc i' s1 pp1 :
  ops_quote token i s pp = Ok ((nt, ndc, i', s1), pp1) ->
  dest s1 = dest s /\ emittable nt.
Proof using HL.
  destruct HL as [Hstr _]. unfold ops_quote.
  destruct (stringify s); intros [= <- <- <- <- <-]; (split; [reflexivity|]).
  - apply emittable_nonsentinel. now rewrite Hstr.
  - intros t Ht. discriminate.
Qed.

Lemma ops_paste_ok tokens token i s pp nt ndc i' s1 pp1 :
  ops_paste tokens token i s pp = Ok ((nt, ndc, i', s1), pp1) ->
  (dest s1 = dest s \/ dest s1 = removelast (dest s)) /\ emittable nt.
Proof using HL.
  destruct HL as [_ Hcat]. unfold ops_paste. intros H.
  assert (emittable None) as Hnone by (intros t Ht; discriminate).
  apply bind_Ok in H as (ignored & pp0 & _ & H).
  destruct ignored.
  { cbv [bind addDiag ret] in H. injection H as <- <- <- <- <-. auto. }
  apply bind_Ok in H as (right & pp0' & _ & H).
  destruct (stringify s).
  { destruct (isEmpty (stringifyBuffer s) || _).
    - cbv [bind addDiag ret] in H. injection H as <- <- <- <- <-. auto.
    - apply bind_Ok in H as (left & pp0'' & _ & H).
      destruct (concatenateTokens left right) eqn:Hc; injection H as <- <- <- <- <-.
      + split; [now left|]. intros t' [= <-]. eapply Hcat; eauto.
      + auto. }
  destruct (syntheticComment s).
  { apply bind_Ok in H as (back & pp0'' & _ & H).
    destruct (_ && _); injection H as <- <- <- <- <-; auto. }
  apply bind_Ok in H as (left & pp0'' & _ & H).
  destruct (bool_decide (kind left = TokenKind.Slash) && bool_decide (kind right = TokenKind.Star)) eqn:Hsl.
  { injection H as <- <- <- <- <-. split; [now right|].
    apply andb_true_iff in Hsl as [_ Hstar]. apply bool_decide_eq_true in Hstar.
    apply emittable_nonsentinel. now rewrite Hstar. }
  destruct (concatenateTokens left right) eqn:Hc; injection H as <- <- <- <- <-.
  - split; [now right|]. intros t' [= <-]. eapply Hcat; eauto.
  - auto.
Qed.

Lemma ops_default_ok token i s pp nt ndc i' s1 pp1 :
  kind token <> TokenKind.MacroQuote -> kind token <> TokenKind.MacroPaste ->
  ops_default token i s pp = Ok ((nt, ndc, i', s1), pp1) ->
  (dest s1 = dest s \/ dest s1 = removelast (dest s)) /\ emittable nt.
Proof using HL.
  destruct HL as [_ Hcat]. intros Hq Hp. unfold ops_default. intros H.
  assert (emittable (Some token)) as Htok by (intros t [= <-]; auto).
  destruct (_ && _ && _).
  - apply bind_Ok in H as (left & pp0 & _ & H).
    destruct (concatenateTokens left token) eqn:Hc; injection H as <- <- <- <- <-.
    + split; [now right|]. intros t' [= <-]. eapply Hcat; eauto.
    + auto.
  - injection H as <- <- <- <- <-. auto.
Qed.

Lemma ops_switch_ok tokens token i s pp nt ndc i' s1 pp1 :
  ops_switch tokens token i s pp = Ok ((nt, ndc, i', s1), pp1) ->
  (dest s1 = dest s \/ dest s1 = removelast (dest s)) /\ emittable nt.
Proof using HL.
  unfold ops_switch. intros H.
  destruct (kind token) eqn:Hk;
    try (eapply ops_default_ok; [| |exact H]; rewrite Hk; discriminate).
  - apply ops_quote_ok in H as [-> Hnt]. auto.
  - eapply ops_paste_ok; eauto.
Qed.

Section with_rec.
Variable rec : list Token -> list Token -> M (bool * list Token).
Hypothesis Hrec : forall ts d pp b d' pp',
  rec ts d pp = Ok ((b, d'), pp') -> noSentinels d -> noSentinels d'.

Lemma ops_emit_ok nt s pp s2 pp2 :
  emittable nt -> noSentinels (dest s) ->
  ops_emit rec nt s pp = Ok (s2, pp2) -> noSentinels (dest s2).
Proof using HL Hrec.
  destruct HL as [Hstr _]. intros Hnt Hd. unfold ops_emit. intros H.
  destruct nt as [t|]; [|injection H as <- <-; exact Hd].
  destruct (Hnt t eq_refl) as [Hq Hp].
  destruct (bool_decide (kind t = TokenKind.EmptyMacroArgument)) eqn:Hema.
  { injection H as <- <-. exact Hd. }
  apply bool_decide_eq_false in Hema.
  assert (forall tr, sentinel (kind (withTrivia t tr)) = false) as Hwt.
  { intros tr. simpl. destruct (kind t); try reflexivity; congruence. }
  assert (sentinel (kind t) = false) as Ht.
  { destruct (kind t); try reflexivity; congruence. }
  destruct (negb (isEmpty (emptyArgTrivia s))).
  - simpl in H. destruct (stringify s) as [q|].
    + match type of H with context [match ?x with Some _ => _ | None => _ end] =>
        destruct x as [offset|] end.
      * simpl in H. destruct (splitTokens _ _) as [splits ds].
        apply bind_Ok in H as ([] & pp0 & _ & H).
        apply bind_Ok in H as ([any d2] & pp0' & Hr & H).
        injection H as <- <-. simpl.
        eapply Hrec; [exact Hr|]. apply Forall_app. split; [exact Hd|].
        constructor; [|constructor]. now rewrite Hstr.
      * injection H as <- <-. exact Hd.
    + destruct (syntheticComment s); injection H as <- <-; simpl; [exact Hd|].
      apply Forall_app. split; [exact Hd|]. constructor; [apply Hwt|constructor].
  - destruct (stringify s) as [q|].
    + match type of H with context [match ?x with Some _ => _ | None => _ end] =>
        destruct x as [offset|] end.
      * simpl in H. destruct (splitTokens _ _) as [splits ds].
        apply bind_Ok in H as ([] & pp0 & _ & H).
        apply bind_Ok in H as ([any d2] & pp0' & Hr & H).
        injection H as <- <-. simpl.
        eapply Hrec; [exact Hr|]. apply Forall_app. split; [exact Hd|].
        constructor; [|constructor]. now rewrite Hstr.
      * injection H as <- <-. exact Hd.
    + destruct (syntheticComment s); injection H as <- <-; simpl; [exact Hd|].
      apply Forall_app. split; [exact Hd|]. constructor; [exact Ht|constructor].
Qed.

Lemma ops_body_ok tokens i s pp i' s2 pp2 :
  noSentinels (dest s) ->
  ops_body rec tokens i s pp = Ok ((i', s2), pp2) -> noSentinels (dest s2).
Proof using HL Hrec.
  intros Hd H. unfold ops_body in H.
  apply bind_Ok in H as (token & pp0 & _ & H).
  apply bind_Ok in H as ([[[nt ndc] j] s1] & pp1 & Hsw & H).
  apply bind_Ok in H as (s2' & pp2' & Hem & H). injection H as <- <- <-.
  apply ops_switch_ok in Hsw as [Hdest Hnt].
  eapply ops_emit_ok; [exact Hnt| |exact Hem]. simpl.
  destruct Hdest as [->| ->]; [exact Hd|now apply Forall_removelast].
Qed.

Lemma ops_loop_ok tokens n : forall i s pp s' pp',
  noSentinels (dest s) ->
  ops_loop rec tokens n i s pp = Ok (s', pp') -> noSentinels (dest s').
Proof using HL Hrec.
  induction n as [|n IH]; intros i s pp s' pp' Hd H; simpl in H.
  - destruct (i <? length tokens)%nat; [discriminate|]. injection H as <- <-. exact Hd.
  - destruct (i <? length tokens)%nat; [|injection H as <- <-; exact Hd].
    apply bind_Ok in H as ([i' s1] & pp1 & Hb & H).
    eapply IH; [|exact H]. eapply ops_body_ok; eauto.
Qed.

End with_rec.

Lemma applyMacroOps_noSentinels fuel : forall tokens dest0 pp b d pp',
  applyMacroOps fuel tokens dest0 pp = Ok ((b, d), pp') ->
  noSentinels dest0 -> noSentinels d.
Proof using HL.
  induction fuel as [|fuel IH]; intros tokens dest0 pp b d pp' H Hd; simpl in H;
    [discriminate|].
  apply bind_Ok in H as (s & pp1 & Hloop & H).
  apply bind_Ok in H as ([] & pp2 & _ & H). injection H as <- <- <-.
  eapply ops_loop_ok; [exact IH| |exact Hloop]. exact Hd.
Qed.

End noSentinels.

(** ** The recursion guard of [expandReplacementList] *)

Section guard.
Context {L : Lexer}.

Lemma isMacroUsage_negb t :
  negb (bool_decide (kind t = TokenKind.Directive))
  || negb (bool_decide (directiveKind t = SyntaxKind.MacroUsage))
  = negb (isMacroUsage t).
Proof. unfold isMacroUsage. now rewrite negb_andb. Qed.

Lemma erl_loop_inert rec tokens0 pp pre : forall n tokens j out es AE,
  Forall (inert pp) pre ->
  drop j tokens = pre ++ drop (j + length pre) tokens ->
  erl_loop rec tokens0 (length pre + n) (mkParser tokens j) out es AE pp =
  erl_loop rec tokens0 n (mkParser tokens (j + length pre)) (out ++ pre) es AE pp.
Proof.
  induction pre as [|t pre IH]; intros n tokens j out es AE Hin Hdrop.
  - simpl. now rewrite Nat.add_0_r, app_nil_r.
  - apply Forall_cons in Hin as [Ht Hpre]. cbn [length Nat.add erl_loop].
    assert (tokens !! j = Some t) as Hj.
    { pose proof (lookup_drop tokens j 0) as E. rewrite Nat.add_0_r in E.
      rewrite <- E, Hdrop. reflexivity. }
    unfold next. cbn [buffer currentIndex]. rewrite Hj.
    rewrite isMacroUsage_negb.
    assert (drop (S j) tokens = pre ++ drop (S j + length pre) tokens) as Hdrop'.
    { rewrite (drop_S _ _ _ Hj) in Hdrop. simpl in Hdrop. injection Hdrop as Hdrop.
      rewrite Hdrop at 1. do 2 f_equal. lia. }
    replace (j + S (length pre))%nat with (S j + length pre)%nat by lia.
    replace (out ++ t :: pre) with ((out ++ [t]) ++ pre) by now rewrite <- app_assoc.
    destruct Ht as [Hnot|(m & Hfind & Hinv)].
    + rewrite Hnot. simpl. now apply IH.
    + destruct (isMacroUsage t); simpl; [|now apply IH].
      rewrite (bind_eval _ _ _ _ _ Hfind), Hinv. simpl. now apply IH.
Qed.

Lemma erl_loop_guard rec tokens0 n parser parser' out es AE pp tok macro :
  next parser = (Some tok, parser') ->
  isMacroUsage tok = true ->
  findMacro tok pp = Ok (macro, pp) ->
  valid macro = true -> isIntrinsic macro = false ->
  syntaxPtr macro ∈ AE ->
  erl_loop rec tokens0 (S n) parser out es AE pp =
  Ok (mkReplacement false tokens0 false AE,
      addDiagState diag.RecursiveMacro (location tok) [valueText tok] pp).
Proof.
  intros Hnext Htok Hfind Hvalid Hintr Hin.
  cbn [erl_loop]. rewrite Hnext, isMacroUsage_negb, Htok. cbn [negb].
  rewrite (bind_eval _ _ _ _ _ Hfind), Hvalid, Hintr. cbn [negb andb].
  rewrite bool_decide_eq_true_2 by exact Hin.
  reflexivity.
Qed.

Lemma expandReplacementList_guard fuel pre tok rest AE pp macro :
  Forall (inert pp) pre ->
  isMacroUsage tok = true ->
  findMacro tok pp = Ok (macro, pp) ->
  valid macro = true -> isIntrinsic macro = false ->
  syntaxPtr macro ∈ AE ->
  expandReplacementList (S fuel) (pre ++ tok :: rest) AE pp =
  Ok (mkReplacement false (pre ++ tok :: rest) false AE,
      addDiagState diag.RecursiveMacro (location tok) [valueText tok] pp).
Proof.
  intros Hpre Htok Hfind Hvalid Hintr Hin.
  rewrite expandReplacementList_S. unfold setBuffer.
  replace (S (length (pre ++ tok :: rest)))
    with (length pre + S (S (length rest)))%nat by (rewrite length_app; simpl; lia).
  rewrite erl_loop_inert; [|exact Hpre|].
  2:{ rewrite drop_0. simpl. now rewrite drop_app_length. }
  cbn [erl_loop Nat.add app]. unfold next. cbn [buffer currentIndex].
  rewrite (lookup_app_r pre) by lia. rewrite Nat.sub_diag. cbn [lookup list_lookup].
  rewrite isMacroUsage_negb, Htok. cbn [negb].
  rewrite (bind_eval _ _ _ _ _ Hfind), Hvalid, Hintr. cbn [negb andb].
  rewrite bool_decide_eq_true_2 by exact Hin.
  reflexivity.
Qed.

End guard.

Lemma substring_all (s : string) : String.substring 0 (String.length s) s = s.
Proof. induction s as [|c s IH]; [reflexivity|]. simpl. now rewrite IH. Qed.

Lemma substr_tail (c : ascii) (r : string) : substr (String c r) 1 = Some r.
Proof.
  unfold substr. simpl. rewrite Nat.sub_0_r. now rewrite substring_all.
Qed.

(** ** [findMacro] and escaped names *)

Section findMacro_facts.
Context {L : Lexer}.

Lemma findMacro_eval directive c name pp :
  valueText directive = String c name ->
  startsWith backslash name = false ->
  findMacro directive pp = Ok (default nullMacro (macros pp !! name), pp).
Proof.
  intros Hvt Hns. unfold findMacro. rewrite Hvt, substr_tail.
  cbn [must]. unfold bind at 1. cbn [ret]. rewrite Hns.
  cbv [bind ret getState]. now destruct (macros pp !! name).
Qed.

Lemma findMacro_eval_escaped directive c name pp :
  valueText directive = String c (String backslash name) ->
  findMacro directive pp = Ok (default nullMacro (macros pp !! name), pp).
Proof.
  intros Hvt. unfold findMacro. rewrite Hvt, substr_tail.
  cbn [must]. unfold bind at 1. cbn [ret startsWith].
  rewrite Ascii.eqb_refl, substr_tail.
  cbv [bind ret must getState]. now destruct (macros pp !! name).
Qed.

(** C9.  A directive whose name begins with a backslash is looked up
    without that one backslash, whatever follows it; any other name is
    looked up unchanged.  An escaped usage of a name that does not itself
    begin with a backslash therefore resolves to the same entry as the plain
    usage; of a name with two leading backslashes only the first is
    stripped. *)
Theorem findMacro_strips_escape (escaped plain : Token) (c c' : ascii) (name : string)
    (pp : PPState) :
  valueText escaped = String c (String backslash name) ->
  valueText plain = String c' name ->
  findMacro escaped pp = Ok (default nullMacro (macros pp !! name), pp) /\
  (startsWith backslash name = false ->
   findMacro plain pp = Ok (default nullMacro (macros pp !! name), pp) /\
   findMacro plain pp = findMacro escaped pp) /\
  (forall rest, name = String backslash rest ->
   findMacro plain pp = Ok (default nullMacro (macros pp !! rest), pp)).
Proof.
  intros He Hp.
  pose proof (findMacro_eval_escaped escaped c name pp He) as Hesc.
  split; [exact Hesc|]. split.
  - intros Hn. rewrite Hesc. pose proof (findMacro_eval plain c' name pp Hp Hn). now split.
  - intros rest ->. now apply (findMacro_eval_escaped plain c').
Qed.

End findMacro_facts.

Lemma findMacro_strips_escape_witness :
  findMacro (L := Example.lexer) (Example.usage (String grave (String backslash (String backslash "FOO"))) 0)
    (Example.initialState
       [("FOO"%string, Example.defineMacro 10 "FOO" None []);
        (String backslash "FOO", Example.defineMacro 11 "BAR" None [])] []) =
  Ok (default nullMacro
        (macros (Example.initialState
       [("FOO"%string, Example.defineMacro 10 "FOO" None []);
        (String backslash "FOO", Example.defineMacro 11 "BAR" None [])] []) !! String backslash "FOO"),
      (Example.initialState
       [("FOO"%string, Example.defineMacro 10 "FOO" None []);
        (String backslash "FOO", Example.defineMacro 11 "BAR" None [])] [])) /\
  (startsWith backslash (String backslash "FOO") = false ->
   findMacro (L := Example.lexer) (Example.usage (String grave (String backslash "FOO")) 0)
    (Example.initialState
       [("FOO"%string, Example.defineMacro 10 "FOO" None []);
        (String backslash "FOO", Example.defineMacro 11 "BAR" None [])] []) =
   Ok (default nullMacro
         (macros (Example.initialState
       [("FOO"%string, Example.defineMacro 10 "FOO" None []);
        (String backslash "FOO", Example.defineMacro 11 "BAR" None [])] []) !! String backslash "FOO"),
       (Example.initialState
       [("FOO"%string, Example.defineMacro 10 "FOO" None []);
        (String backslash "FOO", Example.defineMacro 11 "BAR" None [])] [])) /\
   findMacro (L := Example.lexer) (Example.usage (String grave (String backslash "FOO")) 0)
    (Example.initialState
       [("FOO"%string, Example.defineMacro 10 "FOO" None []);
        (String backslash "FOO", Example.defineMacro 11 "BAR" None [])] []) =
   findMacro (L := Example.lexer) (Example.usage (String grave (String backslash (String backslash "FOO"))) 0)
    (Example.initialState
       [("FOO"%string, Example.defineMacro 10 "FOO" None []);
        (String backslash "FOO", Example.defineMacro 11 "BAR" None [])] [])) /\
  (forall rest, String backslash "FOO" = String backslash rest ->
   findMacro (L := Example.lexer) (Example.usage (String grave (String backslash "FOO")) 0)
    (Example.initialState
       [("FOO"%string, Example.defineMacro 10 "FOO" None []);
        (String backslash "FOO", Example.defineMacro 11 "BAR" None [])] []) =
   Ok (default nullMacro
         (macros (Example.initialState
       [("FOO"%string, Example.defineMacro 10 "FOO" None []);
        (String backslash "FOO", Example.defineMacro 11 "BAR" None [])] []) !! rest),
       (Example.initialState
       [("FOO"%string, Example.defineMacro 10 "FOO" None []);
        (String backslash "FOO", Example.defineMacro 11 "BAR" None [])] []))).
Proof.
  apply (findMacro_strips_escape (L := Example.lexer)
           (Example.usage (String grave (String backslash (String backslash "FOO"))) 0)
           (Example.usage (String grave (String backslash "FOO")) 0)
           grave grave (String backslash "FOO")); reflexivity.
Defined.

(** ** Ignored paste tokens *)

Section rewrite_pass.
Context {L : Lexer}.
Variable rec : list Token -> list Token -> M (bool * list Token).

Lemma withTrivia_same t : withTrivia t (trivia t) = t.
Proof. now destruct t. Qed.

Lemma isEmpty_false {A} (l : list A) : l <> [] -> isEmpty l = false.
Proof. destruct l; [congruence|reflexivity]. Qed.

(** Pending trivia are handed to the next token the pass produces. *)
Lemma ops_emit_donates newToken s pp :
  kind newToken <> TokenKind.EmptyMacroArgument ->
  emptyArgTrivia s <> [] ->
  ops_emit rec (Some newToken) s pp =
  ops_emit rec (Some (withTrivia newToken (emptyArgTrivia s ++ trivia newToken)))
    (set_emptyArgTrivia [] s) pp.
Proof.
  intros Hk He. unfold ops_emit. cbn [kind withTrivia set_emptyArgTrivia emptyArgTrivia].
  rewrite bool_decide_eq_false_2 by exact Hk.
  rewrite (isEmpty_false _ He). reflexivity.
Qed.

Lemma pasteIgnored_true tokens i token s pp :
  tokens !! i = Some token ->
  (i = 0%nat \/ i = (length tokens - 1)%nat \/ trivia token <> [] \/
   (exists right, tokens !! S i = Some right /\ trivia right <> []) \/
   emptyArgTrivia s <> []) ->
  pasteIgnored tokens i token s pp = Ok (true, pp).
Proof.
  intros Hi Hcond. unfold pasteIgnored.
  destruct (Nat.eqb_spec i 0); [reflexivity|].
  destruct (Nat.eqb_spec i (length tokens - 1)); [reflexivity|].
  destruct (trivia token) as [|tr0 trs] eqn:Htr; [|reflexivity]. cbn [orb negb isEmpty].
  apply lookup_lt_Some in Hi.
  destruct (tokens !! S i) as [right|] eqn:Hr.
  2:{ apply lookup_ge_None in Hr. lia. }
  cbv [bind must ret].
  destruct Hcond as [?|[?|[?|[(right' & Hr' & Hne)|Hne]]]]; try congruence.
  - injection Hr' as <-. now rewrite (isEmpty_false _ Hne).
  - rewrite (isEmpty_false _ Hne). now rewrite orb_true_r.
Qed.

(** An ignored paste: one [IgnoredMacroPaste] diagnostic, no token consumed
    or concatenated, its trivia appended to the pending trivia. *)
Lemma ops_body_ignored_paste (tokens : list Token) (i : nat)
    (token : Token) (s : OpsState) (pp : PPState) :
  tokens !! i = Some token ->
  kind token = TokenKind.MacroPaste ->
  (i = 0%nat \/ i = (length tokens - 1)%nat \/ trivia token <> [] \/
   (exists right, tokens !! S i = Some right /\ trivia right <> []) \/
   emptyArgTrivia s <> []) ->
  ops_body rec tokens i s pp =
    Ok ((i, set_didConcat false (set_emptyArgTrivia (emptyArgTrivia s ++ trivia token) s)),
        addDiagState diag.IgnoredMacroPaste (location token) [] pp).
Proof.
  intros Hi Hk Hcond.
  unfold ops_body. rewrite Hi. cbn [must]. rewrite bind_ret_l.
  assert (ops_switch tokens token i s pp =
          Ok ((None, false, i, set_emptyArgTrivia (emptyArgTrivia s ++ trivia token) s),
              addDiagState diag.IgnoredMacroPaste (location token) [] pp)) as Hsw.
  { unfold ops_switch. rewrite Hk. unfold ops_paste.
    rewrite (bind_eval _ _ _ _ _ (pasteIgnored_true _ _ _ _ _ Hi Hcond)).
    reflexivity. }
  rewrite (bind_eval _ _ _ _ _ Hsw). reflexivity.
Qed.

End rewrite_pass.

(** ** Unterminated stringification *)

Section unterminated.
Context {L : Lexer}.
Variable rec : list Token -> list Token -> M (bool * list Token).

Lemma ops_body_collects tokens i t s q pp :
  tokens !! i = Some t -> collected t ->
  stringify s = Some q -> didConcat s = false ->
  exists s',
    ops_body rec tokens i s pp = Ok ((i, s'), pp) /\
    stringify s' = Some q /\ didConcat s' = false /\
    dest s' = dest s /\ anyNewMacros s' = anyNewMacros s.
Proof.
  intros Hi (Hq & Hp & Hsplit) Hstr Hdc.
  unfold ops_body. rewrite Hi. cbn [must]. rewrite bind_ret_l.
  assert (ops_switch tokens t i s pp = Ok ((Some t, false, i, s), pp)) as Hsw.
  { unfold ops_switch, ops_default. rewrite Hdc. cbn [andb].
    destruct (kind t); try congruence; reflexivity. }
  rewrite (bind_eval _ _ _ _ _ Hsw).
  unfold ops_emit. cbn [kind]. unfold bind.
  destruct (bool_decide (kind t = TokenKind.EmptyMacroArgument)).
  { cbn [ret]. eexists. split; [reflexivity|]. now rewrite <- Hstr. }
  destruct (negb (isEmpty (emptyArgTrivia (set_didConcat false s))));
    cbn [stringify set_emptyArgTrivia set_didConcat kind rawText withTrivia];
    rewrite Hstr, Hsplit; cbn [ret]; eexists; (split; [reflexivity|]); now rewrite <- Hstr.
Qed.

Lemma ops_loop_collects tokens q pp n : forall i s,
  (forall j t, (i <= j)%nat -> tokens !! j = Some t -> collected t) ->
  stringify s = Some q -> didConcat s = false ->
  (length tokens - i <= n)%nat ->
  exists s',
    ops_loop rec tokens n i s pp = Ok (s', pp) /\
    stringify s' = Some q /\ dest s' = dest s /\ anyNewMacros s' = anyNewMacros s.
Proof.
  induction n as [|n IH]; intros i s Hall Hstr Hdc Hn.
  - simpl. destruct (Nat.ltb_spec i (length tokens)); [lia|]. exists s. auto.
  - simpl. destruct (Nat.ltb_spec i (length tokens)) as [Hlt|]; [|exists s; auto].
    destruct (lookup_lt_is_Some_2 tokens i Hlt) as [t Ht].
    destruct (ops_body_collects tokens i t s q pp Ht (Hall i t (le_n _) Ht) Hstr Hdc)
      as (s1 & Hrun & Hstr1 & Hdc1 & Hd1 & Ha1).
    rewrite (bind_eval _ _ _ _ _ Hrun).
    destruct (IH (S i) s1) as (s2 & Hrun2 & Hstr2 & Hd2 & Ha2); try assumption; try lia.
    { intros j t' Hj. apply Hall. lia. }
    exists s2. repeat split; try assumption; congruence.
Qed.

End unterminated.

Section unterminated_top.
Context {L : Lexer}.

(** C4 (as amended).  When the input ends inside a stringification,
    [ExpectedMacroStringifyEnd] is reported at the opening quote and the
    function returns the destination as the loop left it; the tokens
    collected for the stringification are not part of it: after an opening
    quote followed only by collected tokens the destination is unchanged. *)
Theorem unterminated_stringify_drops_buffer :
  (forall fuel tokens dest0 pp s pp1 q,
     ops_loop (applyMacroOps fuel) tokens (length tokens) 0 (initOps dest0) pp = Ok (s, pp1) ->
     stringify s = Some q ->
     applyMacroOps (S fuel) tokens dest0 pp =
     Ok ((anyNewMacros s, dest s),
         addDiagState diag.ExpectedMacroStringifyEnd (location q) [] pp1)) /\
  (forall fuel q body_ dest0 pp,
     kind q = TokenKind.MacroQuote ->
     Forall collected body_ ->
     applyMacroOps (S fuel) (q :: body_) dest0 pp =
     Ok ((false, dest0),
         addDiagState diag.ExpectedMacroStringifyEnd (location q) [] pp)).
Proof.
  assert (forall fuel tokens dest0 pp s pp1 q,
     ops_loop (applyMacroOps fuel) tokens (length tokens) 0 (initOps dest0) pp = Ok (s, pp1) ->
     stringify s = Some q ->
     applyMacroOps (S fuel) tokens dest0 pp =
     Ok ((anyNewMacros s, dest s),
         addDiagState diag.ExpectedMacroStringifyEnd (location q) [] pp1)) as Hgen.
  { intros fuel tokens dest0 pp s pp1 q Hloop Hstr. cbn [applyMacroOps].
    rewrite (bind_eval _ _ _ _ _ Hloop), Hstr. reflexivity. }
  split; [exact Hgen|].
  intros fuel q body_ dest0 pp Hq Hbody.
  set (s0 := set_didConcat false
               (set_stringifyBuffer [] (set_stringify (Some q) (initOps dest0)))).
  destruct (ops_loop_collects (applyMacroOps fuel) (q :: body_) q pp (length body_) 1 s0)
    as (s' & Hrun & Hstr & Hd & Ha); try reflexivity.
  { intros j t Hj Ht. destruct j as [|j]; [lia|]. simpl in Ht.
    rewrite Forall_forall in Hbody. apply Hbody.
    eapply list_elem_of_lookup_2; eauto. }
  { simpl. lia. }
  rewrite (Hgen fuel (q :: body_) dest0 pp s' pp q); [now rewrite Hd, Ha| |exact Hstr].
  cbn [length ops_loop]. cbn [Nat.ltb Nat.leb].
  assert (ops_body (applyMacroOps fuel) (q :: body_) 0 (initOps dest0) pp = Ok ((0%nat, s0), pp))
    as Hfirst.
  { unfold ops_body. cbn [lookup list_lookup must]. rewrite bind_ret_l.
    unfold ops_switch. rewrite Hq. reflexivity. }
  rewrite (bind_eval _ _ _ _ _ Hfirst). exact Hrun.
Qed.

End unterminated_top.

Lemma unterminated_stringify_drops_buffer_witness :
  applyMacroOps (L := Example.lexer) 1
    [Example.tok TokenKind.MacroQuote (String grave (String dquote EmptyString)) 0;
     Example.ident "a" 3]
    [Example.ident "z" 9] (Example.initialState [] []) =
  Ok ((false, [Example.ident "z" 9]),
      addDiagState diag.ExpectedMacroStringifyEnd (mkLoc 1 0) []
        (Example.initialState [] [])).
Proof.
  refine (proj2 (unterminated_stringify_drops_buffer (L := Example.lexer)) 0%nat
            (Example.tok TokenKind.MacroQuote (String grave (String dquote EmptyString)) 0)
            [Example.ident "a" 3] [Example.ident "z" 9] (Example.initialState [] []) _ _).
  - reflexivity.
  - repeat constructor; discriminate.
Defined.

(** C4 as stated fails: the token collected after the unterminated quote is
    not flushed to the output. *)
Lemma unterminated_stringify_not_flushed :
  applyMacroOps (L := Example.lexer) 1
    [Example.tok TokenKind.MacroQuote (String grave (String dquote EmptyString)) 0;
     Example.ident "a" 3]
    [] (Example.initialState [] []) =
  Ok ((false, []),
      addDiagState diag.ExpectedMacroStringifyEnd (mkLoc 1 0) []
        (Example.initialState [] [])).
Proof. vm_compute. reflexivity. Qed.

(** C7: the code at the failing input.  The chained concatenation of the
    default branch synthesizes the macro usage [`ifdefx], which is not in the
    input, and [applyMacroOps] returns [false].  The input arises from the
    usage [`M(def`X)] with [`define X x] and [`define M(a) `if``a]; the
    top-level loop then stops and hands out [`ifdefx] unexpanded, although
    it names a macro. *)
Lemma chained_concat_not_reported :
  (exists newToken,
     applyMacroOps (L := Example.lexer) 1
       [Example.usage "`if" 0; Example.tok TokenKind.MacroPaste "``" 3;
        Example.ident "def" 5; Example.ident "x" 8]
       [] (Example.initialState [] []) =
     Ok ((false, [newToken]), Example.initialState [] []) /\
     isMacroUsage newToken = true /\
     rawText newToken = "`ifdefx"%string /\
     ~ In newToken [Example.usage "`if" 0; Example.tok TokenKind.MacroPaste "``" 3;
                    Example.ident "def" 5; Example.ident "x" 8]) /\
  (exists r pp',
     handleTopLevelMacro (L := Example.lexer) 5 (Example.usage "`M" 100)
       (Example.initialState Examples.tableChained Examples.inputChained) = Ok (r, pp') /\
     map rawText (expandedTokens pp') = ["`ifdefx"%string] /\
     map isMacroUsage (expandedTokens pp') = [true] /\
     diagnostics pp' = [] /\
     is_Some (macros pp' !! "ifdefx"%string)).
Proof.
  split.
  - eexists. split; [vm_compute; reflexivity|]. split; [reflexivity|].
    split; [reflexivity|]. simpl. intros [H|[H|[H|[H|[]]]]]; discriminate.
  - eexists _, _. split; [vm_compute; reflexivity|].
    repeat split. vm_compute. eauto.
Qed.

(** ** Empty macro arguments *)

Section empty_argument.
Context {L : Lexer}.

Lemma expandReplacementList_nil fuel AE pp :
  expandReplacementList (S fuel) [] AE pp = Ok (mkReplacement true [] false AE, pp).
Proof. reflexivity. Qed.

Lemma expand_append_empty range tr l s pp loc ml fl pp' :
  adjustLoc (mkToken TokenKind.EmptyMacroArgument tr EmptyString l SyntaxKind.Unknown)
    (expansionLoc s) (start s) range pp = Ok ((loc, ml, fl), pp') ->
  exists s2,
    expand_append range
      (mkToken TokenKind.EmptyMacroArgument tr EmptyString l SyntaxKind.Unknown) s pp
      = Ok ((true, s2), pp') /\
    exp_dest (expansion s2) =
      exp_dest (expansion s) ++
      [mkToken TokenKind.EmptyMacroArgument (appendedTrivia (expansion s) tr)
         EmptyString loc SyntaxKind.Unknown].
Proof.
  intros Hadj. unfold expand_append, append. cbv [bind]. rewrite Hadj.
  unfold appendedTrivia, append_at.
  destruct (any (expansion s)); [|destruct (isTopLevel (expansion s))];
    cbn; eexists; split; reflexivity.
Qed.

Lemma adjustLoc_location t t' ml fl range pp :
  location t = location t' -> adjustLoc t ml fl range pp = adjustLoc t' ml fl range pp.
Proof. intros H. unfold adjustLoc. now rewrite H. Qed.

Lemma adjustLoc_total t ml fl range pp :
  exists loc ml' fl' pp', adjustLoc t ml fl range pp = Ok ((loc, ml', fl'), pp').
Proof.
  unfold adjustLoc. destruct (negb _); cbv [bind createExpansionLoc ret]; eauto.
Qed.

(** The token appended for a formal parameter whose actual argument is
    empty. *)
Lemma handleToken_empty_argument fuel range token text arg s pp :
  (kind token <> TokenKind.Directive /\
   (kind token = TokenKind.Identifier \/ isKeyword (kind token) = true) /\
   valueText token = text) \/
  (kind token = TokenKind.Directive /\
   directiveKind token = SyntaxKind.MacroUsage /\
   exists c, valueText token = String c text) ->
  argumentMap s !! text = Some arg ->
  arg_tokens arg = [] ->
  exists loc ml fl s2 pp',
    adjustLoc token (expansionLoc s) (start s) range pp = Ok ((loc, ml, fl), pp') /\
    handleToken (expandReplacementList (S fuel)) range token s pp = Ok ((true, s2), pp') /\
    exp_dest (expansion s2) =
      exp_dest (expansion s) ++
      [mkToken TokenKind.EmptyMacroArgument (appendedTrivia (expansion s) (trivia token))
         EmptyString loc SyntaxKind.Unknown].
Proof.
  intros Hkey Hlook Hnil.
  set (empty := mkToken TokenKind.EmptyMacroArgument (trivia token) EmptyString
                  (location token) SyntaxKind.Unknown).
  destruct (adjustLoc_total token (expansionLoc s) (start s) range pp)
    as (loc & ml & fl & pp' & Hadj).
  pose proof Hadj as Hadj0.
  exists loc, ml, fl.
  (* the state [handleToken] appends to *)
  unfold handleToken.
  set (s0 := if inDefineDirective s && negb (isOnSameLine token)
             then mkExpand (expansion s) (argumentMap s) false (expansionLoc s) (start s)
             else s).
  assert (expansion s0 = expansion s /\ argumentMap s0 = argumentMap s /\
          expansionLoc s0 = expansionLoc s /\ start s0 = start s) as (He0 & Hm0 & Hl0 & Hs0).
  { subst s0. destruct (_ && _); auto. }
  assert (negb (bool_decide (kind token = TokenKind.Identifier))
          && negb (isKeyword (kind token))
          && negb (bool_decide (kind token = TokenKind.Directive)) = false) as ->.
  { destruct Hkey as [(Hnd & [Hid|Hkw] & _)|(Hd & _)].
    - now rewrite (bool_decide_eq_true_2 _ Hid).
    - rewrite Hkw. now rewrite andb_false_r.
    - rewrite (bool_decide_eq_true_2 _ Hd). now rewrite andb_false_r. }
  cbv zeta.
  assert ((if bool_decide (kind token = TokenKind.Directive)
              && negb (bool_decide (valueText token = EmptyString))
           then must (substr (valueText token) 1) else ret (valueText token)) pp
          = Ok (text, pp) /\
          bool_decide (kind token = TokenKind.Directive)
            && negb (bool_decide (valueText token = EmptyString))
            && negb (bool_decide (directiveKind token = SyntaxKind.MacroUsage)) = false)
    as [Htext ->].
  { destruct Hkey as [(Hnd & _ & Hvt)|(Hd & Hmu & c & Hvt)].
    - rewrite (bool_decide_eq_false_2 _ Hnd). cbn [andb]. now rewrite Hvt.
    - rewrite (bool_decide_eq_true_2 _ Hd), (bool_decide_eq_true_2 _ Hmu), Hvt.
      rewrite bool_decide_eq_false_2 by discriminate. cbn [andb negb].
      now rewrite substr_tail. }
  rewrite (bind_eval _ _ _ _ _ Htext), Hm0, Hlook.
  destruct (isExpanded arg) eqn:Hexp; cbn [negb].
  + rewrite bind_ret_l, Hnil.
    rewrite (adjustLoc_location token empty) in Hadj by reflexivity.
    rewrite <- Hl0, <- Hs0 in Hadj.
    destruct (expand_append_empty range _ _ s0 pp loc ml fl pp' Hadj) as (s2 & Hrun & Hd).
    exists s2, pp'. split; [exact Hadj0|]. split; [exact Hrun|]. now rewrite Hd, He0.
  + rewrite Hnil, bind_assoc.
    rewrite (bind_eval _ _ _ _ _ (expandReplacementList_nil fuel ∅ pp)).
    cbn [erl_ok erl_tokens negb]. rewrite bind_ret_l.
    rewrite (adjustLoc_location token empty) in Hadj by reflexivity.
    rewrite <- Hl0, <- Hs0 in Hadj.
    match goal with |- context [expand_append range _ ?s1 pp] =>
      destruct (expand_append_empty range (trivia token) (location token) s1 pp loc ml fl pp' Hadj)
        as (s2 & Hrun & Hd) end.
    exists s2, pp'. split; [exact Hadj0|]. split; [exact Hrun|].
    rewrite Hd. cbn [expansion]. now rewrite He0.
Qed.

(** An empty-argument token that the loop takes as it is: nothing is
    emitted and its trivia are appended to the pending trivia. *)
Lemma ops_body_empty_argument rec tokens i tok s pp :
  tokens !! i = Some tok ->
  kind tok = TokenKind.EmptyMacroArgument ->
  (didConcat s = false \/ trivia tok <> [] \/ emptyArgTrivia s <> [] \/
   exists left, last (dest s) = Some left /\ concatenateTokens left tok = None) ->
  ops_body rec tokens i s pp =
  Ok ((i, set_emptyArgTrivia (emptyArgTrivia s ++ trivia tok) (set_didConcat false s)),
      pp).
Proof.
  intros Hi Hk Hcond.
  unfold ops_body. rewrite Hi. cbn [must]. rewrite bind_ret_l.
  assert (ops_switch tokens tok i s pp = Ok ((Some tok, false, i, s), pp)) as Hsw.
  { unfold ops_switch. rewrite Hk. unfold ops_default.
    destruct (didConcat s && isEmpty (trivia tok) && isEmpty (emptyArgTrivia s)) eqn:Hc;
      [|reflexivity].
    apply andb_true_iff in Hc as [Hc He]. apply andb_true_iff in Hc as [Hdc Ht].
    destruct Hcond as [Hf|[Hne|[Hne|(left & Hlast & Hcat)]]].
    - congruence.
    - now rewrite (isEmpty_false _ Hne) in Ht.
    - now rewrite (isEmpty_false _ Hne) in He.
    - rewrite Hlast. cbn [must]. rewrite bind_ret_l, Hcat. reflexivity. }
  rewrite (bind_eval _ _ _ _ _ Hsw). unfold bind, ops_emit.
  rewrite (bool_decide_eq_true_2 _ Hk). reflexivity.
Qed.

End empty_argument.

(** C8 as stated fails: at the top level, the token appended for an empty
    argument at the start of the body carries no trivia, although the formal
    occurrence has leading whitespace, and it lies in the expansion buffer,
    not at the formal occurrence. *)
Lemma empty_argument_first_token_loses_trivia :
  exists e pp' t rest,
    expandMacro (L := Example.lexer) (expandReplacementList (L := Example.lexer) 1)
      EmptyArgExample.macroM (mkMacroExpansion [] (Example.usage "`M" 100) false true)
      (Some EmptyArgExample.emptyActuals)
      (Example.initialState [("M"%string, EmptyArgExample.macroM)] []) = Ok ((true, e), pp') /\
    exp_dest e = t :: rest /\
    kind t = TokenKind.EmptyMacroArgument /\
    trivia t = [] /\
    trivia EmptyArgExample.formalOccurrence = [mkTrivia TriviaKind.Whitespace " "] /\
    location t = mkLoc 2 0 /\
    location EmptyArgExample.formalOccurrence = mkLoc 1 5.
Proof.
  do 4 eexists. split; [vm_compute; reflexivity|]. repeat split.
Qed.

(** * Propagation of [OutOfFuel] through the nested expansion *)

(** Non-membership in a small literal set of addresses. *)
Ltac notin_small :=
  let Hmem := fresh "Hmem" in
  intros Hmem;
  repeat (apply elem_of_union in Hmem as [Hmem|Hmem]);
  first [ now apply not_elem_of_empty in Hmem
        | apply elem_of_singleton in Hmem; discriminate Hmem ].

Section divergence.
Context {L : Lexer}.
Variable rec : list Token -> gset N -> M ReplacementResult.

Lemma handleToken_OutOfFuel range token text arg s pp :
  kind token = TokenKind.Identifier ->
  valueText token = text ->
  argumentMap s !! text = Some arg ->
  isExpanded arg = false ->
  rec (arg_tokens arg) ∅ pp = OutOfFuel ->
  handleToken rec range token s pp = OutOfFuel.
Proof.
  intros Hk Hvt Hlook Hexp Hrec. unfold handleToken.
  rewrite Hk.
  rewrite (bool_decide_eq_true_2 (TokenKind.Identifier = TokenKind.Identifier) eq_refl).
  rewrite (bool_decide_eq_false_2 (TokenKind.Identifier = TokenKind.Directive)) by discriminate.
  cbn [negb andb]. rewrite bind_ret_l, Hvt.
  assert (forall b : bool,
            argumentMap (if b then mkExpand (expansion s) (argumentMap s) false
                                       (expansionLoc s) (start s) else s) = argumentMap s) as Hm.
  { now intros []. }
  rewrite Hm, Hlook, Hexp. cbn [negb].
  rewrite bind_assoc. now rewrite (bind_OutOfFuel _ _ _ Hrec).
Qed.

Lemma expandBody_OutOfFuel range token rest s pp :
  (bool_decide (kind token = TokenKind.Identifier) && startsWith backslash (rawText token)) = false ->
  handleToken rec range token s pp = OutOfFuel ->
  expandBody rec range (token :: rest) s pp = OutOfFuel.
Proof.
  intros Hesc Hh. cbn [expandBody]. apply bind_OutOfFuel.
  unfold expandBodyToken. now rewrite Hesc.
Qed.

Lemma expandMacro_OutOfFuel macro d body0 rest formals e actualArgs amap pp pp1 :
  isIntrinsic macro = false ->
  syntax macro = Some d ->
  body d = body0 :: rest ->
  formalArguments d = Some formals ->
  (length formals <? length (args actualArgs))%nat = false ->
  matchArguments formals 0 actualArgs ∅ pp = Ok (Some amap, pp1) ->
  (forall range eloc pp2, macros pp2 = macros pp1 ->
     expandBody rec range (body0 :: rest) (mkExpand e amap false eloc (location body0)) pp2
       = OutOfFuel) ->
  expandMacro rec macro e (Some actualArgs) pp = OutOfFuel.
Proof.
  intros Hintr Hsyn Hbody Hformals Hlen Hmatch Hdiv.
  unfold expandMacro. rewrite Hintr, Hsyn. cbn [must]. rewrite bind_ret_l.
  rewrite Hbody, Hformals. cbn [must]. rewrite bind_ret_l, Hlen.
  rewrite (bind_eval _ _ _ _ _ Hmatch).
  erewrite bind_eval by reflexivity.
  apply bind_OutOfFuel, Hdiv. reflexivity.
Qed.

(** The loop of [expandReplacementList] at a usage of an object-like macro
    whose expansion makes the nested call run out of fuel. *)
Lemma erl_loop_OutOfFuel_object tokens0 n parser token out es AE macro e' pp pp' :
  buffer parser !! currentIndex parser = Some token ->
  isMacroUsage token = true ->
  findMacro token pp = Ok (macro, pp) ->
  valid macro = true -> isIntrinsic macro = false ->
  syntaxPtr macro ∉ AE ->
  needsArgs macro = false ->
  expandMacro rec macro (mkMacroExpansion [] token false false) None pp = Ok ((true, e'), pp') ->
  rec (exp_dest e') (AE ∪ {[ syntaxPtr macro ]}) pp' = OutOfFuel ->
  erl_loop rec tokens0 (S n) parser out es AE pp = OutOfFuel.
Proof.
  intros Hi Hmu Hfind Hvalid Hintr Hnin Hargs Hexp Hrec.
  cbn [erl_loop]. unfold next. rewrite Hi.
  rewrite isMacroUsage_negb, Hmu. cbn [negb].
  rewrite (bind_eval _ _ _ _ _ Hfind), Hvalid, Hintr. cbn [negb andb].
  rewrite bool_decide_eq_false_2 by exact Hnin.
  rewrite Hargs. rewrite bind_ret_l. cbn [andb].
  rewrite (bind_eval _ _ _ _ _ Hexp). cbn [negb].
  now apply bind_OutOfFuel.
Qed.

(** The same at a usage of a function-like macro whose expansion runs out
    of fuel (while pre-expanding an argument). *)
Lemma erl_loop_OutOfFuel_function tokens0 n parser token out es AE macro actualArgs parser' pp pp1 :
  buffer parser !! currentIndex parser = Some token ->
  isMacroUsage token = true ->
  findMacro token pp = Ok (macro, pp) ->
  valid macro = true -> isIntrinsic macro = false ->
  syntaxPtr macro ∉ AE ->
  needsArgs macro = true ->
  parseActualArgumentList (mkParser (buffer parser) (S (currentIndex parser))) token pp
    = Ok ((Some actualArgs, parser'), pp1) ->
  expandMacro rec macro (mkMacroExpansion [] token false false) (Some actualArgs) pp1
    = OutOfFuel ->
  erl_loop rec tokens0 (S n) parser out es AE pp = OutOfFuel.
Proof.
  intros Hi Hmu Hfind Hvalid Hintr Hnin Hargs Hparse Hexp.
  cbn [erl_loop]. unfold next. rewrite Hi.
  rewrite isMacroUsage_negb, Hmu. cbn [negb].
  rewrite (bind_eval _ _ _ _ _ Hfind), Hvalid, Hintr. cbn [negb andb].
  rewrite bool_decide_eq_false_2 by exact Hnin.
  rewrite Hargs. rewrite (bind_eval _ _ _ _ _ Hparse). cbn [andb].
  rewrite (bool_decide_eq_true_2 (is_Some (Some actualArgs))) by eauto. cbn [negb].
  now apply bind_OutOfFuel.
Qed.

Lemma append_shape e token ml fl range pp :
  kind token <> TokenKind.LineContinuation ->
  exists t' e' ml' fl' pp',
    append e token ml fl range false pp = Ok ((e', ml', fl'), pp') /\
    exp_dest e' = exp_dest e ++ [t'] /\ sameShape token t' /\
    usageSite e' = usageSite e /\ isTopLevel e' = isTopLevel e /\
    macros pp' = macros pp.
Proof.
  intros Hk. unfold append.
  destruct (adjustLoc_total token ml fl range pp) as (loc & ml' & fl' & pp' & Hadj).
  rewrite (bind_eval _ _ _ _ _ Hadj).
  assert (macros pp' = macros pp) as Hm.
  { apply Quiet_adjustLoc in Hadj. apply Hadj. }
  unfold append_at.
  assert (forall tr, bool_decide (kind (withTrivia token tr) = TokenKind.LineContinuation) = false) as Hlc.
  { intros tr. now apply bool_decide_eq_false_2. }
  destruct (any e); [|destruct (isTopLevel e) eqn:Htop]; cbn [negb];
    rewrite ?Hlc, ?(bool_decide_eq_false_2 _ Hk); cbn [andb]; rewrite bind_ret_l;
    eexists _, _, _, _, _; (split; [reflexivity|]); cbn; repeat split; auto.
Qed.

Lemma appendAll_shape tokens : forall e ml fl range pp,
  Forall (fun t => kind t <> TokenKind.LineContinuation) tokens ->
  exists ts' e' ml' fl' pp',
    appendAll e tokens ml fl range pp = Ok ((e', ml', fl'), pp') /\
    exp_dest e' = exp_dest e ++ ts' /\ Forall2 sameShape tokens ts' /\
    macros pp' = macros pp.
Proof.
  induction tokens as [|t tokens IH]; intros e ml fl range pp Hall.
  - exists [], e, ml, fl, pp. cbn. rewrite app_nil_r. repeat split; constructor.
  - apply Forall_cons in Hall as [Ht Hall].
    destruct (append_shape e t ml fl range pp Ht)
      as (t' & e1 & ml1 & fl1 & pp1 & Hrun & Hd & Hsh & _ & _ & Hm).
    destruct (IH e1 ml1 fl1 range pp1 Hall) as (ts' & e2 & ml2 & fl2 & pp2 & Hrun2 & Hd2 & Hsh2 & Hm2).
    exists (t' :: ts'), e2, ml2, fl2, pp2. cbn [appendAll].
    rewrite (bind_eval _ _ _ _ _ Hrun). split; [exact Hrun2|].
    split; [rewrite Hd2, Hd, <- app_assoc; reflexivity|].
    split; [constructor; assumption|congruence].
Qed.

(** Expansion of an object-like macro: the body, up to trivia and locations. *)
Lemma expandMacro_object macro d body0 rest e pp :
  isIntrinsic macro = false ->
  syntax macro = Some d ->
  body d = body0 :: rest ->
  formalArguments d = None ->
  Forall (fun t => kind t <> TokenKind.LineContinuation) (body0 :: rest) ->
  exists ts' e' pp',
    expandMacro rec macro e None pp = Ok ((true, e'), pp') /\
    exp_dest e' = exp_dest e ++ ts' /\ Forall2 sameShape (body0 :: rest) ts' /\
    macros pp' = macros pp.
Proof.
  intros Hintr Hsyn Hbody Hformals Hall.
  unfold expandMacro. rewrite Hintr, Hsyn. cbn [must]. rewrite bind_ret_l.
  rewrite Hbody, Hformals.
  erewrite bind_eval by reflexivity.
  match goal with |- context [bind (appendAll e _ ?ml ?fl ?r) _ ?p] =>
    destruct (appendAll_shape (body0 :: rest) e ml fl r p Hall)
      as (ts' & e' & ml' & fl' & pp' & Hrun & Hd & Hsh & Hm) end.
  exists ts', e', pp'. rewrite (bind_eval _ _ _ _ _ Hrun).
  repeat split; assumption.
Qed.

End divergence.

Section diverge_facts.
Import Preprocessor.Example Preprocessor.Diverge.
Local Open Scope string_scope.
#[local] Existing Instance lexer.

Lemma sameShape_eq t k raw dk tr0 l0 :
  sameShape (mkToken k tr0 raw l0 dk) t -> t = mkToken k (trivia t) raw (location t) dk.
Proof. destruct t. intros (H1 & H2 & H3). simpl in *. now subst. Qed.

Lemma bodyOfB_shape ts :
  Forall2 sameShape
    [spaced (usage "`A" 20); tok TokenKind.OpenParenthesis "(" 22; usage "`B" 23;
     tok TokenKind.CloseParenthesis ")" 25] ts ->
  isBodyOfB ts.
Proof.
  intros H.
  repeat match goal with
         | H : Forall2 _ (_ :: _) _ |- _ => apply Forall2_cons_inv_l in H as (? & ? & ? & H & ->)
         | H : Forall2 _ [] _ |- _ => apply Forall2_nil_inv_l in H as ->
         end.
  repeat match goal with
         | H : sameShape _ _ |- _ => apply sameShape_eq in H
         end.
  unfold isBodyOfB, usageOf, punct.
  match goal with
  | Ha : ?a = _, Hb : ?b = _, Hc : ?c = _, Hd : ?d = _ |- context [[?a; ?b; ?c; ?d]] =>
      exists (trivia a), (location a), (trivia b), (location b),
             (trivia c), (location c), (trivia d), (location d);
      rewrite Ha at 1; rewrite Hb at 1; rewrite Hc at 1; rewrite Hd at 1
  end.
  reflexivity.
Qed.

Section loop.
Variable m : gmap string MacroDef.
Hypothesis HA : m !! "A" = Some macroA.
Hypothesis HB : m !! "B" = Some macroB.

Lemma findMacro_A tr loc pp :
  macros pp = m -> findMacro (usageOf "`A" tr loc) pp = Ok (macroA, pp).
Proof using HA.
  intros Hm. rewrite (findMacro_eval _ grave "A") by reflexivity. now rewrite Hm, HA.
Qed.

Lemma findMacro_B tr loc pp :
  macros pp = m -> findMacro (usageOf "`B" tr loc) pp = Ok (macroB, pp).
Proof using HB.
  intros Hm. rewrite (findMacro_eval _ grave "B") by reflexivity. now rewrite Hm, HB.
Qed.

Lemma parse_args tr1 l1 tr2 l2 tr3 l3 tr4 l4 pp :
  let a1 := usageOf "`A" tr1 l1 in
  let a2 := punct TokenKind.OpenParenthesis "(" tr2 l2 in
  let a3 := usageOf "`B" tr3 l3 in
  let a4 := punct TokenKind.CloseParenthesis ")" tr4 l4 in
  parseActualArgumentList (mkParser [a1; a2; a3; a4] 1) a1 pp =
  Ok ((Some (mkActualArgs a2 [[a3]] a4), mkParser [a1; a2; a3; a4] 4), pp).
Proof.
  intros. unfold parseActualArgumentList, parseArgumentList, parseActualArgument, parseTokenList.
  cbn. reflexivity.
Qed.

(** With [fuel] for the nested calls, the expansion of [`A(`B)] runs out of
    fuel as soon as the expansion of [`B] does. *)
Lemma bodyOfB_OutOfFuel fuel ts AE pp :
  (forall tr loc pp', macros pp' = m ->
     expandReplacementList fuel [usageOf "`B" tr loc] ∅ pp' = OutOfFuel) ->
  isBodyOfB ts -> macros pp = m -> 10%N ∉ AE ->
  expandReplacementList (S fuel) ts AE pp = OutOfFuel.
Proof using HA.
  intros IH (tr1 & l1 & tr2 & l2 & tr3 & l3 & tr4 & l4 & ->) Hm Hnin.
  rewrite expandReplacementList_S.
  eapply (erl_loop_OutOfFuel_function _ _ _ _ (usageOf "`A" tr1 l1) _ _ _ macroA).
  - reflexivity.
  - reflexivity.
  - now apply findMacro_A.
  - reflexivity.
  - reflexivity.
  - exact Hnin.
  - reflexivity.
  - apply parse_args.
  - eapply (expandMacro_OutOfFuel _ macroA).
    + reflexivity.
    + reflexivity.
    + reflexivity.
    + reflexivity.
    + reflexivity.
    + cbn. rewrite lookup_empty. reflexivity.
    + intros range eloc pp2 Hm2.
      apply expandBody_OutOfFuel; [reflexivity|].
      eapply (handleToken_OutOfFuel _ _ _ "x").
      * reflexivity.
      * reflexivity.
      * apply lookup_insert_eq.
      * reflexivity.
      * apply IH. congruence.
Qed.

(** The expansion of [`B] runs out of fuel for every amount of fuel. *)
Lemma usage_of_B_OutOfFuel fuel : forall tr loc pp,
  macros pp = m ->
  expandReplacementList fuel [usageOf "`B" tr loc] ∅ pp = OutOfFuel.
Proof using HA HB.
  induction fuel as [fuel IH] using lt_wf_ind. intros tr loc pp Hm.
  destruct fuel as [|fuel]; [reflexivity|].
  rewrite expandReplacementList_S.
  destruct (expandMacro_object (expandReplacementList fuel) macroB _ _ _
              (mkMacroExpansion [] (usageOf "`B" tr loc) false false) pp
              eq_refl eq_refl eq_refl eq_refl)
    as (ts' & e' & pp' & Hrun & Hd & Hsh & Hm').
  { repeat constructor; discriminate. }
  eapply (erl_loop_OutOfFuel_object _ _ _ _ (usageOf "`B" tr loc) _ _ _ macroB).
  - reflexivity.
  - reflexivity.
  - now apply findMacro_B.
  - reflexivity.
  - reflexivity.
  - notin_small.
  - reflexivity.
  - exact Hrun.
  - rewrite Hd. cbn [exp_dest app].
    destruct fuel as [|fuel]; [reflexivity|].
    apply bodyOfB_OutOfFuel.
    + intros tr' loc' pp'' Hm''. apply IH; [lia|exact Hm''].
    + now apply bodyOfB_shape.
    + congruence.
    + notin_small.
Qed.

End loop.

Lemma lookup_A : (list_to_map table : gmap string MacroDef) !! "A" = Some macroA.
Proof. vm_compute. reflexivity. Qed.
Lemma lookup_B : (list_to_map table : gmap string MacroDef) !! "B" = Some macroB.
Proof. vm_compute. reflexivity. Qed.

End diverge_facts.

(** C2: the code at the failing input.  With [`define A(x) x] and
    [`define B `A(`B)], the top-level usage [`B] exhausts every amount of
    fuel: each pre-expansion of the argument [`B] starts from an empty
    [alreadyExpanded] and expands [`B] again. *)
Theorem top_level_usage_diverges (fuel : nat) :
  handleTopLevelMacro (L := Example.lexer) fuel (Example.usage "`B" 100)
    (Example.initialState Diverge.table []) = OutOfFuel.
Proof.
  unfold handleTopLevelMacro.
  rewrite (bind_eval _ _ _ _ _
             (findMacro_B _ lookup_B [] (mkLoc 1 100)
                (Example.initialState Diverge.table []) eq_refl)).
  cbn [valid negb]. change (valid Diverge.macroB) with true. cbn [negb].
  rewrite (bind_eval _ _ _ _ _ (eq_refl : getState _ = Ok (_, _))).
  cbn [Example.initialState currentMacroToken].
  rewrite bool_decide_eq_false_2 by (intros [? ?]; discriminate).
  change (needsArgs Diverge.macroB) with false. cbv iota.
  rewrite bind_ret_l. cbn [andb].
  destruct (expandMacro_object (L := Example.lexer)
              (expandReplacementList (L := Example.lexer) fuel) Diverge.macroB _ _ _
              (mkMacroExpansion [] (Example.usage "`B" 100) false true)
              (Example.initialState Diverge.table [])
              eq_refl eq_refl eq_refl eq_refl)
    as (ts' & e' & pp' & Hrun & Hd & Hsh & Hm').
  { repeat constructor; discriminate. }
  unfold Example.initialState in Hrun.
  rewrite (bind_eval _ _ _ _ _ Hrun). cbn [negb].
  change (isIntrinsic Diverge.macroB) with false. cbn [negb].
  destruct fuel as [|fuel]; [reflexivity|].
  cbn [topLevel_loop]. apply bind_OutOfFuel.
  rewrite Hd. cbn [exp_dest app].
  apply (bodyOfB_OutOfFuel (list_to_map Diverge.table) lookup_A).
  - intros tr loc pp'' Hm''.
    now apply (usage_of_B_OutOfFuel _ lookup_A lookup_B).
  - now apply bodyOfB_shape.
  - rewrite Hm'. reflexivity.
  - notin_small.
Qed.

(** ** The example lexer meets the contract *)

Section example_lexer.
Import Preprocessor.Example.
Local Open Scope string_scope.

Lemma lexOne_kind text tr loc t :
  lexOne text tr loc = Some t -> sentinel (kind t) = false.
Proof.
  unfold lexOne. destruct text as [|c r]; [discriminate|].
  destruct (Ascii.eqb c grave).
  - destruct (isIdentifierText r); [|discriminate]. now intros [= <-].
  - destruct (isIdentifierText _); [now intros [= <-]|].
    destruct (isNumberText _); [now intros [= <-]|discriminate].
Qed.

Lemma lexer_contract : lexerContract lexer.
Proof.
  split; [reflexivity|]. intros l r t. simpl. unfold concat_.
  destruct (_ || _); [discriminate|]. intros H. apply lexOne_kind in H.
  split; intros E; rewrite E in H; discriminate.
Qed.

End example_lexer.

(** ** Top-level expansion *)

Section top_level.
Context {L : Lexer}.


End top_level.



Section recursion.
Context {L : Lexer}.


End recursion.



(* ====================================================================== *)
(** * Further properties of the translated code *)
(* ====================================================================== *)

(** ** [IntervalMapDetails::distribute]: totals, capacity, balance *)

Section distribute_more.
Import IntervalMapDetails.
Local Open Scope Z_scope.

(** The sizes [distribute] writes and the pair it returns, in closed form. *)
Lemma distribute_result numNodes numElements capacity sizes0 position grow :
  1 <= numNodes < 2 ^ 32 -> 0 <= numElements -> 0 <= capacity ->
  numElements + Z.b2z grow <= numNodes * capacity ->
  numNodes * capacity < 2 ^ 32 ->
  0 <= position <= numElements ->
  numNodes <= Z.of_nat (length sizes0) ->
  let total := numElements + Z.b2z grow in
  exists sizes node off,
    distribute numNodes numElements capacity sizes0 position grow
      = Some (sizes, (node, off)) /\
    length sizes = length sizes0 /\
    (forall j : nat, Z.of_nat j < numNodes ->
       sizes !! j = Some (evenSplit total numNodes (Z.of_nat j)
                          - Z.b2z (grow && (Z.of_nat j =? node)))) /\
    (position < total ->
       0 <= node < numNodes /\
       off = position - prefixClosed total numNodes node /\
       0 <= off < evenSplit total numNodes node) /\
    (position = total -> node = numNodes /\ off = 0).
Proof.
  intros Hn He Hc Hcap Hprod Hpos Hlen total.
  assert (0 <= Z.b2z grow <= 1) as Hg by (destruct grow; simpl; lia).
  assert (0 <= total < 2 ^ 32) as Ht by (subst total; lia).
  unfold distribute. fold total.
  rewrite (uint32_small total) by lia.
  rewrite (uint32_small (numNodes * capacity)) by nia.
  destruct (Z.leb_spec total (numNodes * capacity)) as [_|]; [|subst total; lia].
  destruct (Z.leb_spec position numElements) as [_|]; [|lia].
  destruct (Z.eqb_spec numNodes 0) as [|_]; [lia|]. cbn [negb].
  destruct (distribute_loop_inv total numNodes position sizes0 (Z.to_nat numNodes) 0
              (mkDist sizes0 0 (numNodes, 0))) as (s & Hrun & Hinv);
    try lia.
  { apply distInv_init; lia. }
  change (Z.of_nat 0) with 0 in Hrun. rewrite Hrun. clear Hrun.
  rewrite Nat.add_0_l in Hinv. destruct Hinv as [Il Id Ir Is If Inf].
  rewrite Z2Nat.id in Is, If, Inf by lia.
  rewrite prefixClosed_full in Is, If, Inf by lia.
  rewrite Is, Z.eqb_refl. cbn [negb].
  assert (forall j : nat, prefixClosed total numNodes (Z.of_nat j + 1)
            - prefixClosed total numNodes (Z.of_nat j)
            = evenSplit total numNodes (Z.of_nat j)) as Hdiff.
  { intros j. rewrite prefixClosed_step by lia. lia. }
  destruct grow.
  - destruct If as (j & Hj & Hpp & Hrange); [subst total; simpl; lia|].
    rewrite Hpp. cbn [fst].
    destruct (Z.ltb_spec (Z.of_nat j) numNodes) as [_|]; [|lia]. cbn [negb].
    rewrite Nat2Z.id, (Id j Hj).
    specialize (Hdiff j).
    destruct (Z.eqb_spec (evenSplit total numNodes (Z.of_nat j)) 0) as [Hz|Hnz]; [lia|].
    pose proof (evenSplit_nonneg total numNodes (Z.of_nat j) ltac:(lia) ltac:(lia)).
    pose proof (prefixClosed_bounds total numNodes (Z.of_nat j + 1) ltac:(lia) ltac:(lia) ltac:(lia)).
    pose proof (prefixClosed_bounds total numNodes (Z.of_nat j) ltac:(lia) ltac:(lia) ltac:(lia)).
    rewrite uint32_small by lia.
    do 3 eexists. split; [reflexivity|].
    split; [now rewrite length_insert|].
    split.
    { intros i Hi. cbn [andb]. destruct (decide (i = j)) as [->|Hne].
      - rewrite list_lookup_insert_eq by lia. rewrite Z.eqb_refl. reflexivity.
      - rewrite list_lookup_insert_ne by lia.
        destruct (Z.eqb_spec (Z.of_nat i) (Z.of_nat j)); [lia|].
        rewrite Id by lia. simpl. f_equal. lia. }
    split.
    { intros _. lia. }
    intros Heq. subst total. simpl in Heq. lia.
  - destruct (posPair s) as [node off] eqn:Hpp.
    do 3 eexists. split; [reflexivity|].
    split; [exact Il|].
    split.
    { intros i Hi. cbn [andb]. rewrite Id by lia. simpl. f_equal. lia. }
    split.
    { intros Hlt. destruct (If Hlt) as (j & Hj & Hpp' & Hrange).
      injection Hpp' as -> ->.
      specialize (Hdiff j). lia. }
    intros Heq. specialize (Inf ltac:(lia)).
    now injection Inf as -> ->.
Qed.

(** Sum of the first [k] entries of a size array. *)
Lemma sum_take_S (sizes : list Z) (k : nat) (x : Z) :
  sizes !! k = Some x ->
  foldr Z.add 0 (take (S k) sizes) = foldr Z.add 0 (take k sizes) + x.
Proof.
  intros Hx. rewrite (take_S_r _ _ _ Hx), foldr_app. simpl.
  generalize (take k sizes) as l. induction l as [|y l IH]; simpl; lia.
Qed.

Lemma evenSplit_le_capacity total numNodes capacity j :
  0 < numNodes -> 0 <= total <= numNodes * capacity -> 0 <= j ->
  evenSplit total numNodes j <= capacity.
Proof.
  intros Hn Ht Hj. unfold evenSplit.
  pose proof (Z.mod_pos_bound total numNodes Hn) as Hm.
  pose proof (Z.div_mod total numNodes ltac:(lia)) as Hdm.
  destruct (Z.ltb_spec j (total mod numNodes)) as [Hlt|Hge]; simpl.
  - (* an extra element: total is not a multiple of numNodes *)
    assert (total / numNodes < capacity); [|lia].
    destruct (Z_lt_le_dec (total / numNodes) capacity) as [|Hc]; [assumption|].
    assert (numNodes * capacity <= numNodes * (total / numNodes)) by nia. lia.
  - assert (total / numNodes <= capacity); [|lia].
    destruct (Z_le_gt_dec (total / numNodes) capacity) as [|Hc]; [assumption|].
    assert (numNodes * (capacity + 1) <= numNodes * (total / numNodes)) by nia. lia.
Qed.

(** Sum of the sizes written before node [k], with the insertion node [node]
    one short when [grow] is set. *)
Lemma sum_written total numNodes node (grow : bool) (sizes : list Z) :
  0 < numNodes ->
  (forall j : nat, Z.of_nat j < numNodes ->
     sizes !! j = Some (evenSplit total numNodes (Z.of_nat j)
                        - Z.b2z (grow && (Z.of_nat j =? node)))) ->
  forall k : nat, Z.of_nat k <= numNodes ->
    foldr Z.add 0 (take k sizes) =
    prefixClosed total numNodes (Z.of_nat k)
    - Z.b2z (grow && (0 <=? node) && (node <? Z.of_nat k)).
Proof.
  intros Hn Hs. induction k as [|k IH]; intros Hk.
  - rewrite take_0. unfold prefixClosed. change (Z.of_nat 0) with 0. cbn [foldr].
    pose proof (Z.mod_pos_bound total numNodes Hn).
    destruct grow, (Z.leb_spec 0 node), (Z.ltb_spec node 0); cbn [andb Z.b2z]; lia.
  - rewrite (sum_take_S _ _ _ (Hs k ltac:(lia))), IH by lia.
    rewrite Nat2Z.inj_succ, <- Z.add_1_r, prefixClosed_step by lia.
    destruct grow; simpl; [|lia].
    destruct (Z.eqb_spec (Z.of_nat k) node), (Z.leb_spec 0 node),
      (Z.ltb_spec node (Z.of_nat k)), (Z.ltb_spec node (Z.of_nat k + 1)); simpl; lia.
Qed.

(** X1: the sizes written add up to the number of elements. *)
Theorem distribute_preserves_count numNodes numElements capacity sizes0 position grow
    sizes pos :
  1 <= numNodes < 2 ^ 32 -> 0 <= numElements -> 0 <= capacity ->
  numElements + Z.b2z grow <= numNodes * capacity ->
  numNodes * capacity < 2 ^ 32 ->
  0 <= position <= numElements ->
  numNodes <= Z.of_nat (length sizes0) ->
  distribute numNodes numElements capacity sizes0 position grow = Some (sizes, pos) ->
  foldr Z.add 0 (take (Z.to_nat numNodes) sizes) = numElements.
Proof.
  intros Hn He Hc Hcap Hprod Hpos Hlen Hrun.
  destruct (distribute_result numNodes numElements capacity sizes0 position grow)
    as (sizes' & node & off & Hrun' & _ & Hs & Hfound & _); try assumption.
  rewrite Hrun in Hrun'. injection Hrun' as <- ->.
  rewrite (sum_written _ numNodes node grow sizes ltac:(lia) Hs) by lia.
  rewrite Z2Nat.id, prefixClosed_full by lia.
  destruct grow; simpl in *; [|lia].
  destruct Hfound as ((Hlo & Hhi) & _); [lia|].
  destruct (Z.leb_spec 0 node), (Z.ltb_spec node numNodes); simpl; lia.
Qed.

Lemma distribute_preserves_count_witness :
  foldr Z.add 0 (take (Z.to_nat 3) [1; 2; 2; 9]) = 5.
Proof.
  apply (distribute_preserves_count 3 5 4 [0; 0; 0; 9] 1 true [1; 2; 2; 9] (0, 1));
    [lia|lia|lia|simpl; lia|lia|lia|simpl; lia|reflexivity].
Defined.

(** X2: no node is given more than [capacity] elements, and the node that is
    to receive the new element has room for it. *)
Theorem distribute_respects_capacity numNodes numElements capacity sizes0 position grow
    sizes node off :
  1 <= numNodes < 2 ^ 32 -> 0 <= numElements -> 0 <= capacity ->
  numElements + Z.b2z grow <= numNodes * capacity ->
  numNodes * capacity < 2 ^ 32 ->
  0 <= position <= numElements ->
  numNodes <= Z.of_nat (length sizes0) ->
  distribute numNodes numElements capacity sizes0 position grow = Some (sizes, (node, off)) ->
  forall (j : nat) (s : Z), Z.of_nat j < numNodes -> sizes !! j = Some s ->
    0 <= s /\ s + Z.b2z (grow && (Z.of_nat j =? node)) <= capacity.
Proof.
  intros Hn He Hc Hcap Hprod Hpos Hlen Hrun j s Hj Hsj.
  destruct (distribute_result numNodes numElements capacity sizes0 position grow)
    as (sizes' & node' & off' & Hrun' & _ & Hs & Hfound & _); try assumption.
  rewrite Hrun in Hrun'. injection Hrun' as <- <- <-.
  rewrite (Hs j Hj) in Hsj. injection Hsj as <-.
  assert (0 <= Z.b2z grow <= 1) as Hg by (destruct grow; simpl; lia).
  pose proof (evenSplit_le_capacity (numElements + Z.b2z grow) numNodes capacity
                (Z.of_nat j) ltac:(lia) ltac:(lia) ltac:(lia)).
  pose proof (evenSplit_nonneg (numElements + Z.b2z grow) numNodes (Z.of_nat j)
                ltac:(lia) ltac:(lia)).
  split; [|lia].
  destruct grow; simpl in *; [|lia].
  destruct (Z.eqb_spec (Z.of_nat j) node) as [<-|]; simpl; [|lia].
  destruct Hfound as (_ & _ & Hoff); lia.
Qed.

Lemma distribute_respects_capacity_witness :
  0 <= 1 /\ 1 + Z.b2z (true && (Z.of_nat 2 =? 2)) <= 2.
Proof.
  apply (distribute_respects_capacity 3 5 2 [0; 0; 0] 5 true [2; 2; 1] 2 1);
    [lia|lia|lia|simpl; lia|lia|lia|simpl; lia|reflexivity|simpl; lia|reflexivity].
Defined.

(** X3: once the pending element is counted in, the sizes never increase from
    one node to the next and differ by at most one. *)
Theorem distribute_is_balanced numNodes numElements capacity sizes0 position grow
    sizes node off :
  1 <= numNodes < 2 ^ 32 -> 0 <= numElements -> 0 <= capacity ->
  numElements + Z.b2z grow <= numNodes * capacity ->
  numNodes * capacity < 2 ^ 32 ->
  0 <= position <= numElements ->
  numNodes <= Z.of_nat (length sizes0) ->
  distribute numNodes numElements capacity sizes0 position grow = Some (sizes, (node, off)) ->
  forall (i j : nat) (si sj : Z),
    (i <= j)%nat -> Z.of_nat j < numNodes ->
    sizes !! i = Some si -> sizes !! j = Some sj ->
    let full (k : nat) (s : Z) := s + Z.b2z (grow && (Z.of_nat k =? node)) in
    full j sj <= full i si <= full j sj + 1.
Proof.
  intros Hn He Hc Hcap Hprod Hpos Hlen Hrun i j si sj Hij Hj Hsi Hsj.
  destruct (distribute_result numNodes numElements capacity sizes0 position grow)
    as (sizes' & node' & off' & Hrun' & _ & Hs & _); try assumption.
  rewrite Hrun in Hrun'. injection Hrun' as <- <- <-.
  rewrite (Hs i ltac:(lia)) in Hsi. rewrite (Hs j Hj) in Hsj.
  injection Hsi as <-. injection Hsj as <-. cbv zeta.
  unfold evenSplit.
  destruct (Z.ltb_spec (Z.of_nat i) ((numElements + Z.b2z grow) mod numNodes)),
    (Z.ltb_spec (Z.of_nat j) ((numElements + Z.b2z grow) mod numNodes)); simpl; lia.
Qed.

Lemma distribute_is_balanced_witness :
  2 + Z.b2z (false && (Z.of_nat 2 =? 3)) <= 3 + Z.b2z (false && (Z.of_nat 0 =? 3))
    <= 2 + Z.b2z (false && (Z.of_nat 2 =? 3)) + 1.
Proof.
  apply (distribute_is_balanced 3 8 4 [0; 0; 0] 8 false [3; 3; 2] 3 0 ltac:(lia) ltac:(lia)
           ltac:(lia) ltac:(simpl; lia) ltac:(lia) ltac:(lia) ltac:(simpl; lia) eq_refl
           0%nat 2%nat 3 2); [lia|simpl; lia|reflexivity|reflexivity].
Defined.

(** X4: when an element is to be inserted, the returned pair is a valid
    insertion point in terms of the sizes written: the node exists, the
    offset is at most its size, and the elements of the nodes before it plus
    the offset make up [position]. *)
Theorem distribute_locates_insertion numNodes numElements capacity sizes0 position
    sizes node off :
  1 <= numNodes < 2 ^ 32 -> 0 <= numElements -> 0 <= capacity ->
  numElements + 1 <= numNodes * capacity ->
  numNodes * capacity < 2 ^ 32 ->
  0 <= position <= numElements ->
  numNodes <= Z.of_nat (length sizes0) ->
  distribute numNodes numElements capacity sizes0 position true = Some (sizes, (node, off)) ->
  0 <= node < numNodes /\
  (exists s, sizes !! Z.to_nat node = Some s /\ 0 <= off <= s) /\
  foldr Z.add 0 (take (Z.to_nat node) sizes) + off = position.
Proof.
  intros Hn He Hc Hcap Hprod Hpos Hlen Hrun.
  destruct (distribute_result numNodes numElements capacity sizes0 position true)
    as (sizes' & node' & off' & Hrun' & _ & Hs & Hfound & _); try assumption.
  rewrite Hrun in Hrun'. injection Hrun' as <- <- <-.
  destruct Hfound as (Hnode & Hoff & Hrange); [simpl; lia|].
  split; [exact Hnode|]. split.
  - eexists. split; [apply Hs; lia|].
    rewrite Z2Nat.id, Z.eqb_refl by lia. simpl. simpl in Hrange. lia.
  - rewrite (sum_written _ numNodes node true sizes ltac:(lia) Hs) by lia.
    rewrite Z2Nat.id by lia. simpl.
    destruct (Z.leb_spec 0 node), (Z.ltb_spec node node); simpl; simpl in Hoff; lia.
Qed.

Lemma distribute_locates_insertion_witness :
  0 <= 1 < 2 /\
  (exists s, [2; 1] !! Z.to_nat 1 = Some s /\ 0 <= 1 <= s) /\
  foldr Z.add 0 (take (Z.to_nat 1) [2; 1]) + 1 = 3.
Proof.
  apply (distribute_locates_insertion 2 3 4 [0; 0] 3 [2; 1] 1 1);
    [lia|lia|lia|lia|lia|lia|simpl; lia|reflexivity].
Defined.

End distribute_more.

(** ** The bit-counting functions of [MathFuncs.cpp] *)

Section bitcount_more.
Import Builtins.
Local Open Scope Z_scope.

(** The loop of [$countbits] fails exactly on an argument that fails. *)
Lemma countBits_loop_None iv controls : forall st,
  countBits_loop iv controls st = None <-> In None controls.
Proof.
  induction controls as [|[v|] rest IH]; intros st; simpl.
  - split; [discriminate|tauto].
  - rewrite IH. split; [tauto|]. intros [H|H]; [discriminate|exact H].
  - split; auto.
Qed.

(** The value of a [$countbits] call all of whose arguments evaluate. *)
Lemma countBits_value iv controls :
  ~ In None controls ->
  CountBitsFunction_eval (Some iv :: controls) =
  Some (SVInt32_signed (uint64 (countDistinct iv (controlBits controls)))).
Proof.
  intros Hall. unfold CountBitsFunction_eval.
  destruct (countBits_loop iv controls _) as [st|] eqn:Hrun.
  - assert (countInv iv [] (mkCount false false false false 0)) as Hinit
      by (repeat split).
    pose proof (countBits_loop_inv iv controls [] _ _ Hinit Hrun) as (_ & _ & _ & _ & Hc).
    rewrite app_nil_l in Hc. now rewrite Hc.
  - apply countBits_loop_None in Hrun. contradiction.
Qed.

Lemma existsb_logic_In b bs : existsb (logic_eqb b) bs = true <-> In b bs.
Proof.
  rewrite existsb_exists. split.
  - intros (x & Hin & Heq). destruct b, x; try discriminate; exact Hin.
  - intros Hin. exists b. split; [exact Hin|]. now destruct b.
Qed.

Lemma existsb_logic_ext b bs bs' :
  (In b bs <-> In b bs') -> existsb (logic_eqb b) bs = existsb (logic_eqb b) bs'.
Proof.
  intros H. apply eq_true_iff_eq. now rewrite !existsb_logic_In.
Qed.

Lemma small_signed x : 0 <= x < 2 ^ 31 -> SVInt32_signed (uint64 x) = x.
Proof.
  intros Hx. unfold SVInt32_signed, uint64.
  rewrite (Z.mod_small x) by lia. rewrite Z.mod_small by lia. lia.
Qed.

(** X5: [$countbits] returns the null value exactly when one of its
    arguments fails to evaluate. *)
Theorem countbits_fails_iff_argument_fails (arg0 : Expression) (controls : list Expression) :
  CountBitsFunction_eval (arg0 :: controls) = None <-> In None (arg0 :: controls).
Proof.
  unfold CountBitsFunction_eval. destruct arg0 as [iv|]; [|simpl; tauto].
  destruct (countBits_loop iv controls _) as [st|] eqn:Hrun.
  - split; [discriminate|]. intros [H|H]; [discriminate|].
    pose proof (proj2 (countBits_loop_None iv controls
                         (mkCount false false false false 0)) H) as H'.
    rewrite Hrun in H'. discriminate.
  - apply countBits_loop_None in Hrun. simpl. tauto.
Qed.

(** X6: the result of [$countbits] depends only on which bit values occur
    among the least significant bits of the control arguments, not on their
    order or number. *)
Theorem countbits_depends_on_control_set (iv : SVInt) (controls controls' : list Expression) :
  ~ In None controls -> ~ In None controls' ->
  (forall b, In b (controlBits controls) <-> In b (controlBits controls')) ->
  CountBitsFunction_eval (Some iv :: controls) =
  CountBitsFunction_eval (Some iv :: controls').
Proof.
  intros H1 H2 Hset. rewrite !countBits_value by assumption.
  do 3 f_equal. unfold countDistinct. cbn [map foldr].
  now rewrite !(existsb_logic_ext _ _ _ (Hset _)).
Qed.

Lemma countbits_depends_on_control_set_witness :
  CountBitsFunction_eval
    (Some (mkSVInt [bit1; bit0; bitX]) :: [Some (mkSVInt [bit1]); Some (mkSVInt [bit0])]) =
  CountBitsFunction_eval
    (Some (mkSVInt [bit1; bit0; bitX]) ::
     [Some (mkSVInt [bit0; bit1]); Some (mkSVInt [bit1]); Some (mkSVInt [bit0])]).
Proof.
  apply countbits_depends_on_control_set.
  - simpl. intros [H|[H|[]]]; discriminate.
  - simpl. intros [H|[H|[H|[]]]]; discriminate.
  - intros b. simpl. tauto.
Defined.

(** X7: with all four bit values among the controls, [$countbits] returns the
    width of its first argument. *)
Theorem countbits_of_all_values_is_width (iv : SVInt) (controls : list Expression) :
  ~ In None controls ->
  (forall b, In b (controlBits controls)) ->
  getBitWidth iv < 2 ^ 31 ->
  CountBitsFunction_eval (Some iv :: controls) = Some (getBitWidth iv).
Proof.
  intros Hall Hevery Hw. rewrite countBits_value by assumption.
  assert (countDistinct iv (controlBits controls) = getBitWidth iv) as ->.
  { rewrite <- count_partition. unfold countDistinct. cbn [map foldr].
    rewrite !(proj2 (existsb_logic_In _ _) (Hevery _)).
    unfold countZeros, countOnes, countXs, countZs. lia. }
  rewrite small_signed; [reflexivity|]. unfold getBitWidth in *. lia.
Qed.

Lemma countbits_of_all_values_is_width_witness :
  CountBitsFunction_eval
    (Some (mkSVInt [bit1; bitZ; bitX]) ::
     [Some (mkSVInt [bit0]); Some (mkSVInt [bit1]); Some (mkSVInt [bitX]);
      Some (mkSVInt [bitZ])]) = Some (getBitWidth (mkSVInt [bit1; bitZ; bitX])).
Proof.
  apply countbits_of_all_values_is_width.
  - simpl. intros [H|[H|[H|[H|[]]]]]; discriminate.
  - intros b. simpl. destruct b; tauto.
  - vm_compute. reflexivity.
Defined.

(** X8: [$countones(v)] is [$countbits(v, c1, ..., cn)] for controls whose
    least significant bits are all 1. *)
Theorem countones_is_countbits_of_one (iv : SVInt) (controls : list Expression) :
  controls <> [] ->
  Forall (fun e => exists c, e = Some c /\ lsb c = bit1) controls ->
  CountBitsFunction_eval (Some iv :: controls) = CountOnesFunction_eval [Some iv].
Proof.
  intros Hne Hones.
  assert (~ In None controls) as Hall.
  { intros Hin. rewrite List.Forall_forall in Hones.
    destruct (Hones _ Hin) as (c & Hc & _). discriminate. }
  rewrite countBits_value by assumption. unfold CountOnesFunction_eval.
  do 3 f_equal.
  assert (forall b, In b (controlBits controls) <-> b = bit1) as Hbits.
  { intros b. clear Hall. induction Hones as [|e rest (c & -> & Hc) _ IH]; [contradiction|].
    unfold controlBits in *. cbn [omap list_omap fmap option_fmap option_map].
    simpl. rewrite Hc. destruct rest as [|e' rest'].
    - simpl. split; [intros [H|[]]; congruence|auto].
    - rewrite IH by discriminate. split; [intros [H|H]; congruence|auto]. }
  unfold countDistinct. cbn [map foldr].
  rewrite (proj2 (existsb_logic_In bit1 _)) by now apply Hbits.
  assert (forall b, b <> bit1 -> existsb (logic_eqb b) (controlBits controls) = false) as Hno.
  { intros b Hb. apply not_true_is_false. rewrite existsb_logic_In, Hbits. exact Hb. }
  rewrite !Hno by discriminate. unfold countOnes. lia.
Qed.

Lemma countones_is_countbits_of_one_witness :
  CountBitsFunction_eval
    (Some (mkSVInt [bit1; bit0; bit1]) :: [Some (mkSVInt [bit1; bit0])]) =
  CountOnesFunction_eval [Some (mkSVInt [bit1; bit0; bit1])].
Proof.
  apply countones_is_countbits_of_one; [discriminate|].
  repeat constructor. eexists. split; reflexivity.
Defined.

(** X9: [$onehot] implies [$onehot0]; where they differ no bit is 1; and
    [$isunknown] holds exactly when [$countbits] finds an X or a Z. *)
Theorem onehot_onehot0_isunknown (iv : SVInt) (cx cz : SVInt) :
  lsb cx = bitX -> lsb cz = bitZ -> getBitWidth iv < 2 ^ 31 ->
  (BooleanBitVectorFunction_eval OneHot [Some iv] = Some 1 ->
   BooleanBitVectorFunction_eval OneHot0 [Some iv] = Some 1) /\
  (BooleanBitVectorFunction_eval OneHot0 [Some iv] = Some 1 ->
   BooleanBitVectorFunction_eval OneHot [Some iv] = Some 0 ->
   CountOnesFunction_eval [Some iv] = Some 0) /\
  (BooleanBitVectorFunction_eval IsUnknown [Some iv] = Some 1 <->
   exists n, CountBitsFunction_eval [Some iv; Some cx; Some cz] = Some n /\ 0 < n).
Proof.
  intros Hx Hz Hw. pose proof (countOf_nonneg bit1 iv) as Hnn.
  unfold BooleanBitVectorFunction_eval, CountOnesFunction_eval, countOnes in *.
  split; [|split].
  - destruct (Z.eqb_spec (countOf bit1 iv) 1) as [->|]; [reflexivity|discriminate].
  - destruct (Z.leb_spec (countOf bit1 iv) 1), (Z.eqb_spec (countOf bit1 iv) 1);
      try discriminate.
    intros _ _. assert (countOf bit1 iv = 0) as -> by lia. reflexivity.
  - rewrite countBits_value by (simpl; intros [H|[H|[]]]; discriminate).
    unfold controlBits. cbn [omap list_omap fmap option_fmap option_map].
    rewrite Hx, Hz. unfold countDistinct. cbn.
    pose proof (count_partition iv) as Hp.
    unfold countZeros, countOnes, countXs, countZs in Hp.
    pose proof (countOf_nonneg bit0 iv). pose proof (countOf_nonneg bitX iv).
    pose proof (countOf_nonneg bitZ iv).
    rewrite small_signed by lia.
    assert (hasUnknown iv = true <-> 0 < countOf bitX iv + countOf bitZ iv) as Hu.
    { unfold hasUnknown, countOf. destruct iv as [l]. cbn [bits].
      clear. induction l as [|b l IH]; [simpl; split; [discriminate|lia]|].
      cbn [existsb List.filter]. destruct b; cbn; rewrite ?IH; try tauto; split; auto; lia. }
    destruct (hasUnknown iv); cbn [Z.b2z].
    + split; [intros _|reflexivity]. eexists. split; [reflexivity|].
      pose proof (proj1 Hu eq_refl). lia.
    + split; [discriminate|]. intros (n & [= <-] & Hpos).
      assert (false = true) by (apply Hu; lia). discriminate.
Qed.

Lemma onehot_onehot0_isunknown_witness :
  (BooleanBitVectorFunction_eval OneHot [Some (mkSVInt [bit0; bit1; bitX])] = Some 1 ->
   BooleanBitVectorFunction_eval OneHot0 [Some (mkSVInt [bit0; bit1; bitX])] = Some 1) /\
  (BooleanBitVectorFunction_eval OneHot0 [Some (mkSVInt [bit0; bit1; bitX])] = Some 1 ->
   BooleanBitVectorFunction_eval OneHot [Some (mkSVInt [bit0; bit1; bitX])] = Some 0 ->
   CountOnesFunction_eval [Some (mkSVInt [bit0; bit1; bitX])] = Some 0) /\
  (BooleanBitVectorFunction_eval IsUnknown [Some (mkSVInt [bit0; bit1; bitX])] = Some 1 <->
   exists n, CountBitsFunction_eval
               [Some (mkSVInt [bit0; bit1; bitX]); Some (mkSVInt [bitX]); Some (mkSVInt [bitZ])]
             = Some n /\ 0 < n).
Proof.
  apply (onehot_onehot0_isunknown (mkSVInt [bit0; bit1; bitX]) (mkSVInt [bitX]) (mkSVInt [bitZ]));
    [reflexivity|reflexivity|vm_compute; reflexivity].
Defined.

End bitcount_more.

(** ** [isSameMacro]: comparison of two definitions *)

Section same_macro.

Lemma cons_inv {A} (x y : A) (l l' : list A) : x :: l = y :: l' -> x = y /\ l = l'.
Proof. intros H. split; [exact (f_equal (hd x) H)|exact (f_equal (@tl A) H)]. Qed.

Lemma isSameTrivia_spec lt : forall rt,
  length lt = length rt ->
  isSameTrivia lt rt = true <->
  map (fun tr => (trivia_kind tr, trivia_rawText tr)) lt =
  map (fun tr => (trivia_kind tr, trivia_rawText tr)) rt.
Proof.
  induction lt as [|l lt IH]; intros [|r rt] Hlen; try discriminate.
  - simpl. tauto.
  - injection Hlen as Hlen. cbn [isSameTrivia map].
    destruct (decide (trivia_kind l = trivia_kind r)) as [Hk|Hk].
    2:{ rewrite bool_decide_eq_false_2 by exact Hk. cbn. split; [discriminate|congruence]. }
    rewrite bool_decide_eq_true_2 by exact Hk.
    destruct (decide (trivia_rawText l = trivia_rawText r)) as [Ht|Ht].
    2:{ rewrite bool_decide_eq_false_2 by exact Ht. cbn. split; [discriminate|congruence]. }
    rewrite bool_decide_eq_true_2 by exact Ht. cbn [negb orb].
    rewrite (IH rt Hlen), Hk, Ht. split; [now intros ->|now intros [= ->]].
Qed.

Lemma isSameToken_spec l r : isSameToken l r = true <-> spelling_of l = spelling_of r.
Proof.
  unfold isSameToken, spelling_of.
  destruct (decide (kind l = kind r)) as [Hk|Hk].
  2:{ rewrite bool_decide_eq_false_2 by exact Hk. cbn. split; [discriminate|congruence]. }
  rewrite bool_decide_eq_true_2 by exact Hk.
  destruct (decide (rawText l = rawText r)) as [Ht|Ht].
  2:{ rewrite bool_decide_eq_false_2 by exact Ht. cbn. split; [discriminate|congruence]. }
  rewrite bool_decide_eq_true_2 by exact Ht. cbn [negb orb].
  destruct (Nat.eqb_spec (length (trivia l)) (length (trivia r))) as [Hlen|Hlen]; cbn [negb].
  - rewrite (isSameTrivia_spec _ _ Hlen), Hk, Ht. split; [now intros ->|now intros [= ->]].
  - split; [discriminate|]. intros [= _ _ Hm]. apply (f_equal length) in Hm.
    rewrite !length_map in Hm. contradiction.
Qed.

Lemma isSameTokens_spec left : forall right,
  length left = length right ->
  isSameTokens left right = true <-> map spelling_of left = map spelling_of right.
Proof.
  induction left as [|l left IH]; intros [|r right] Hlen; try discriminate.
  - simpl. tauto.
  - injection Hlen as Hlen. cbn [isSameTokens map].
    destruct (isSameToken l r) eqn:Hs; cbn [negb].
    + apply isSameToken_spec in Hs. rewrite (IH right Hlen), Hs.
      split; [now intros ->|now intros [_ ->]%cons_inv].
    + split; [discriminate|]. intros [H _]%cons_inv. apply isSameToken_spec in H. congruence.
Qed.

Lemma isSameTokenList_spec left right :
  isSameTokenList left right = true <-> map spelling_of left = map spelling_of right.
Proof.
  unfold isSameTokenList.
  destruct (Nat.eqb_spec (length left) (length right)) as [Hlen|Hlen]; cbn [negb].
  - now apply isSameTokens_spec.
  - split; [discriminate|]. intros Hm. apply (f_equal length) in Hm.
    rewrite !length_map in Hm. contradiction.
Qed.

Lemma isSameFormals_spec la : forall ra,
  length la = length ra ->
  isSameFormals la ra = true <-> map formal_spelling la = map formal_spelling ra.
Proof.
  induction la as [|l la IH]; intros [|r ra] Hlen; try discriminate.
  - simpl. tauto.
  - injection Hlen as Hlen. cbn [isSameFormals map].
    assert (formal_spelling l = formal_spelling r <->
            spelling_of (formal_name l) = spelling_of (formal_name r) /\
            (map spelling_of <$> defaultValue l) = (map spelling_of <$> defaultValue r)) as Hfs.
    { unfold formal_spelling. split; [intros H|intros [-> ->]; reflexivity].
      split; [exact (f_equal fst H)|exact (f_equal snd H)]. }
    destruct (isSameToken (formal_name l) (formal_name r)) eqn:Hs; cbn [negb].
    2:{ split; [discriminate|]. intros [H _]%cons_inv. apply Hfs in H as [H _].
        apply isSameToken_spec in H. congruence. }
    apply isSameToken_spec in Hs.
    destruct (defaultValue l) as [ld|] eqn:El, (defaultValue r) as [rd|] eqn:Er; cbn.
    + destruct (isSameTokenList ld rd) eqn:Hd; cbn [negb].
      * apply isSameTokenList_spec in Hd. rewrite (IH ra Hlen).
        split; [intros ->; f_equal; apply Hfs; cbn; split; congruence
               |now intros [_ ->]%cons_inv].
      * split; [discriminate|]. intros [H _]%cons_inv. apply Hfs in H as [_ H].
        cbn in H. injection H as H. apply isSameTokenList_spec in H. congruence.
    + split; [discriminate|]. intros [H _]%cons_inv. apply Hfs in H as [_ H]. discriminate.
    + split; [discriminate|]. intros [H _]%cons_inv. apply Hfs in H as [_ H]. discriminate.
    + rewrite (IH ra Hlen).
      split; [intros ->; f_equal; apply Hfs; cbn; split; congruence
             |now intros [_ ->]%cons_inv].
Qed.

(** X10: two definitions are the same macro exactly when their formal
    arguments (names and defaults) and their bodies agree token by token in
    kind, raw text and the kinds and texts of the trivia; nothing else of
    the tokens, such as their location, and no other part of the definition
    is looked at. *)
Theorem isSameMacro_compares_spelling (left right : DefineDirectiveSyntax) :
  isSameMacro left right = true <-> macro_spelling left = macro_spelling right.
Proof.
  unfold isSameMacro, macro_spelling.
  destruct (formalArguments left) as [la|], (formalArguments right) as [ra|]; cbn.
  - destruct (Nat.eqb_spec (length la) (length ra)) as [Hlen|Hlen]; cbn [negb].
    + destruct (isSameFormals la ra) eqn:Hf; cbn [negb].
      * apply (isSameFormals_spec _ _ Hlen) in Hf.
        rewrite isSameTokenList_spec, Hf. split; [now intros ->|now intros [= ->]].
      * split; [discriminate|]. intros [= H _].
        apply (isSameFormals_spec _ _ Hlen) in H. congruence.
    + split; [discriminate|]. intros [= Hm _]. apply (f_equal length) in Hm.
      rewrite !length_map in Hm. contradiction.
  - split; [discriminate|]. intros [= ].
  - split; [discriminate|]. intros [= ].
  - rewrite isSameTokenList_spec. split; [now intros ->|now intros [= ->]].
Qed.

Lemma isSameMacro_bool left right :
  isSameMacro left right = true <->
  (map formal_spelling <$> formalArguments left) = (map formal_spelling <$> formalArguments right)
  /\ isSameTokenList (body left) (body right) = true.
Proof.
  unfold isSameMacro.
  destruct (formalArguments left) as [la|], (formalArguments right) as [ra|]; cbn.
  - destruct (Nat.eqb_spec (length la) (length ra)) as [Hlen|Hlen]; cbn [negb].
    + destruct (isSameFormals la ra) eqn:Hf; cbn [negb].
      * apply (isSameFormals_spec _ _ Hlen) in Hf. rewrite Hf. tauto.
      * split; [discriminate|]. intros [[= H] _].
        apply (isSameFormals_spec _ _ Hlen) in H. congruence.
    + split; [discriminate|]. intros [[= Hm] _]. apply (f_equal length) in Hm.
      rewrite !length_map in Hm. contradiction.
  - split; [discriminate|]. intros [[= ] _].
  - split; [discriminate|]. intros [[= ] _].
  - tauto.
Qed.

(** X11: [isSameMacro] is an equivalence relation on definitions. *)
Theorem isSameMacro_is_equivalence :
  (forall d, isSameMacro d d = true) /\
  (forall d1 d2, isSameMacro d1 d2 = isSameMacro d2 d1) /\
  (forall d1 d2 d3, isSameMacro d1 d2 = true -> isSameMacro d2 d3 = true ->
     isSameMacro d1 d3 = true).
Proof.
  split; [|split].
  - intros d. apply isSameMacro_bool. split; [reflexivity|].
    now apply isSameTokenList_spec.
  - intros d1 d2. apply eq_true_iff_eq. rewrite !isSameMacro_bool, !isSameTokenList_spec.
    split; intros [-> ->]; split; reflexivity.
  - intros d1 d2 d3. rewrite !isSameMacro_bool, !isSameTokenList_spec.
    intros [-> ->] [-> ->]. split; reflexivity.
Qed.

End same_macro.

(** ** Nested expansion and the rewrite pass on ordinary tokens *)

(** Running the monad on values that are known. *)
Ltac mred := cbv beta iota delta [bind ret must].

(** Projections of an explicitly given [OpsState]. *)
Ltac ops_simpl :=
  cbn [emptyArgTrivia stringifyBuffer commentBuffer stringify syntheticComment
       anyNewMacros didConcat dest set_emptyArgTrivia set_stringifyBuffer
       set_commentBuffer set_stringify set_syntheticComment set_anyNewMacros
       set_didConcat set_dest initOps].

Ltac mrun :=
  repeat first
    [ progress mred
    | progress cbn [lookup list_lookup isEmpty negb orb andb Nat.eqb length Nat.sub app]
    | progress ops_simpl ].

Section ordinary_tokens.
Context {L : Lexer}.

Lemma expandReplacementList_inert fuel tokens AE pp :
  Forall (inert pp) tokens ->
  expandReplacementList (S fuel) tokens AE pp = Ok (mkReplacement true tokens false AE, pp).
Proof.
  intros Hall. rewrite expandReplacementList_S. unfold setBuffer.
  replace (S (length tokens)) with (length tokens + 1)%nat by lia.
  rewrite erl_loop_inert; [|exact Hall|].
  2:{ rewrite drop_0. cbn [Nat.add]. now rewrite drop_all, app_nil_r. }
  cbn [erl_loop Nat.add]. unfold next. cbn [buffer currentIndex].
  rewrite lookup_ge_None_2 by lia. reflexivity.
Qed.

(** X12: a replacement list without usages of defined macros is returned as it
    is: success, the caller's span untouched, no diagnostic, and
    [alreadyExpanded] unchanged. *)
Theorem expandReplacementList_keeps_inert_tokens (fuel : nat) (tokens : list Token)
    (AE : gset N) (pp : PPState) :
  Forall (inert pp) tokens ->
  expandReplacementList (S fuel) tokens AE pp = Ok (mkReplacement true tokens false AE, pp).
Proof. intros Hall. apply expandReplacementList_inert. exact Hall. Qed.

Lemma ops_loop_step rec tokens n i s pp i' s' pp' :
  (i < length tokens)%nat ->
  ops_body rec tokens i s pp = Ok ((i', s'), pp') ->
  ops_loop rec tokens (S n) i s pp = ops_loop rec tokens n (S i') s' pp'.
Proof.
  intros Hlt Hbody. cbn [ops_loop].
  destruct (Nat.ltb_spec i (length tokens)); [|lia].
  now rewrite (bind_eval _ _ _ _ _ Hbody).
Qed.

Lemma ops_loop_done rec tokens n i s pp :
  (length tokens <= i)%nat -> ops_loop rec tokens n i s pp = Ok (s, pp).
Proof.
  intros Hge. destruct n; cbn [ops_loop];
    destruct (Nat.ltb_spec i (length tokens)); try lia; reflexivity.
Qed.

(** An ordinary token outside stringification and synthetic comments goes to
    the destination as it is. *)
Lemma ops_body_plain rec tokens i t s pp :
  tokens !! i = Some t -> sentinel (kind t) = false ->
  stringify s = None -> syntheticComment s = None ->
  didConcat s = false -> emptyArgTrivia s = [] ->
  ops_body rec tokens i s pp = Ok ((i, set_dest (dest s ++ [t]) (set_didConcat false s)), pp).
Proof.
  intros Hi Hk Hstr Hsc Hdc Het.
  unfold ops_body. rewrite Hi. cbn [must]. rewrite bind_ret_l.
  assert (ops_switch tokens t i s pp = Ok ((Some t, false, i, s), pp)) as Hsw.
  { unfold ops_switch, ops_default. rewrite Hdc. cbn [andb].
    destruct (kind t); try discriminate; reflexivity. }
  rewrite (bind_eval _ _ _ _ _ Hsw). cbv iota beta.
  unfold ops_emit.
  rewrite bool_decide_eq_false_2 by (intros E; rewrite E in Hk; discriminate).
  destruct s. cbn in *. subst. reflexivity.
Qed.

Lemma ops_loop_plain rec tokens pp n : forall i s,
  (forall j t, (i <= j)%nat -> tokens !! j = Some t -> sentinel (kind t) = false) ->
  stringify s = None -> syntheticComment s = None ->
  didConcat s = false -> emptyArgTrivia s = [] ->
  (length tokens - i <= n)%nat ->
  exists s',
    ops_loop rec tokens n i s pp = Ok (s', pp) /\
    dest s' = dest s ++ drop i tokens /\
    anyNewMacros s' = anyNewMacros s /\ stringify s' = None.
Proof.
  induction n as [|n IH]; intros i s Hall Hstr Hsc Hdc Het Hn.
  - rewrite ops_loop_done by lia. exists s. rewrite drop_ge, app_nil_r by lia. auto.
  - destruct (Nat.lt_ge_cases i (length tokens)) as [Hlt|Hge].
    2:{ rewrite ops_loop_done by lia. exists s. rewrite drop_ge, app_nil_r by lia. auto. }
    destruct (lookup_lt_is_Some_2 tokens i Hlt) as [t Ht].
    rewrite (ops_loop_step _ _ _ _ _ _ _ _ _ Hlt
               (ops_body_plain rec tokens i t s pp Ht (Hall i t (le_n _) Ht) Hstr Hsc Hdc Het)).
    destruct (IH (S i) (set_dest (dest s ++ [t]) (set_didConcat false s)))
      as (s' & Hrun & Hd & Ha & Hs);
      [intros j t' Hj; apply Hall; lia|exact Hstr|exact Hsc|reflexivity|exact Het|lia|].
    exists s'. split; [exact Hrun|]. cbn in Hd, Ha.
    rewrite Hd, <- app_assoc, (drop_S _ _ _ Ht). auto.
Qed.

Lemma applyMacroOps_plain fuel tokens dest0 pp :
  Forall (fun t => sentinel (kind t) = false) tokens ->
  applyMacroOps (S fuel) tokens dest0 pp = Ok ((false, dest0 ++ tokens), pp).
Proof.
  intros Hall. cbn [applyMacroOps].
  destruct (ops_loop_plain (applyMacroOps fuel) tokens pp (length tokens) 0 (initOps dest0))
    as (s' & Hrun & Hd & Ha & Hs); try reflexivity; try lia.
  { intros j t _ Hj. rewrite Forall_forall in Hall. apply Hall.
    eapply list_elem_of_lookup_2; eauto. }
  rewrite (bind_eval _ _ _ _ _ Hrun), Hs. rewrite bind_ret_l.
  cbn in Hd, Ha. rewrite drop_0 in Hd. unfold ret. now rewrite Hd, Ha.
Qed.

(** X13: on tokens none of which is a quote, a paste or an empty argument the
    rewrite pass is the identity: it appends them to the destination
    unchanged, reports nothing and returns [false]. *)
Theorem applyMacroOps_copies_ordinary_tokens (fuel : nat) (tokens dest0 : list Token)
    (pp : PPState) :
  noSentinels tokens ->
  applyMacroOps (S fuel) tokens dest0 pp = Ok ((false, dest0 ++ tokens), pp).
Proof. intros Hall. apply applyMacroOps_plain. exact Hall. Qed.

End ordinary_tokens.

Lemma expandReplacementList_keeps_inert_tokens_witness :
  expandReplacementList (L := Example.lexer) 1
    [Example.ident "a" 0; Example.usage "`undefined" 2] ∅ (Example.initialState [] []) =
  Ok (mkReplacement true [Example.ident "a" 0; Example.usage "`undefined" 2] false ∅,
      Example.initialState [] []).
Proof.
  apply (expandReplacementList_keeps_inert_tokens (L := Example.lexer)).
  apply Forall_cons. split; [left; reflexivity|].
  apply Forall_cons. split; [|apply Forall_nil; exact I].
  right. eexists. split; [vm_compute; reflexivity|reflexivity].
Defined.

Lemma applyMacroOps_copies_ordinary_tokens_witness :
  applyMacroOps (L := Example.lexer) 1 [Example.ident "a" 0; Example.ident "b" 2]
    [Example.ident "z" 9] (Example.initialState [] []) =
  Ok ((false, [Example.ident "z" 9] ++ [Example.ident "a" 0; Example.ident "b" 2]),
      Example.initialState [] []).
Proof.
  apply (applyMacroOps_copies_ordinary_tokens (L := Example.lexer)).
  repeat constructor.
Defined.

(** ** Stringification and token pasting *)

Section operators.
Context {L : Lexer}.
Variable rec : list Token -> list Token -> M (bool * list Token).

Lemma set_didConcat_same s : didConcat s = false -> set_didConcat false s = s.
Proof. destruct s. cbn. now intros ->. Qed.

(** Inside a stringification an ordinary token is put into the buffer. *)
Lemma ops_body_buffered tokens i t s q pp :
  tokens !! i = Some t -> collected t -> kind t <> TokenKind.EmptyMacroArgument ->
  stringify s = Some q -> didConcat s = false -> emptyArgTrivia s = [] ->
  ops_body rec tokens i s pp =
  Ok ((i, set_stringifyBuffer (stringifyBuffer s ++ [t]) s), pp).
Proof.
  intros Hi (Hq & Hp & Hsplit) Hne Hstr Hdc Het.
  unfold ops_body. rewrite Hi. cbn [must]. rewrite bind_ret_l.
  assert (ops_switch tokens t i s pp = Ok ((Some t, false, i, s), pp)) as Hsw.
  { unfold ops_switch, ops_default. rewrite Hdc. cbn [andb].
    destruct (kind t); try congruence; reflexivity. }
  rewrite (bind_eval _ _ _ _ _ Hsw). cbv iota beta.
  rewrite (set_didConcat_same _ Hdc).
  unfold ops_emit. rewrite bool_decide_eq_false_2 by exact Hne.
  rewrite Het. cbn [isEmpty negb]. rewrite Hstr, Hsplit. reflexivity.
Qed.

Lemma ops_loop_buffered tokens q pp : forall body_ i s n,
  (forall j t, body_ !! j = Some t -> tokens !! (i + j)%nat = Some t) ->
  Forall collected body_ ->
  Forall (fun t => kind t <> TokenKind.EmptyMacroArgument) body_ ->
  stringify s = Some q -> didConcat s = false -> emptyArgTrivia s = [] ->
  ops_loop rec tokens (length body_ + n) i s pp =
  ops_loop rec tokens n (i + length body_)
    (set_stringifyBuffer (stringifyBuffer s ++ body_) s) pp.
Proof.
  induction body_ as [|t body_ IH]; intros i s n Hat Hcol Hne Hstr Hdc Het.
  - cbn [length Nat.add]. rewrite Nat.add_0_r, app_nil_r. now destruct s.
  - apply Forall_cons in Hcol as [Ht Hcol]. apply Forall_cons in Hne as [Hnt Hne].
    assert (tokens !! i = Some t) as Hi.
    { specialize (Hat 0%nat t eq_refl). now rewrite Nat.add_0_r in Hat. }
    cbn [length Nat.add].
    rewrite (ops_loop_step _ _ _ _ _ _ _ _ _ (lookup_lt_Some _ _ _ Hi)
               (ops_body_buffered tokens i t s q pp Hi Ht Hnt Hstr Hdc Het)).
    rewrite IH; try assumption.
    + replace (S i + length body_)%nat with (i + S (length body_))%nat by lia.
      f_equal. destruct s. cbn. now rewrite <- app_assoc.
    + intros j t' Hj. specialize (Hat (S j) t' Hj).
      now replace (S i + j)%nat with (i + S j)%nat by lia.
Qed.

End operators.

Section operators_top.
Context {L : Lexer}.

(** X14: a stringification that is closed produces exactly one token, the one
    [Lexer::stringify] makes of the tokens between the quotes at the place
    and with the trivia of the opening quote; both quote tokens vanish and
    nothing is reported. *)
Theorem applyMacroOps_stringifies_between_quotes (fuel : nat) (q q' : Token)
    (body_ dest0 : list Token) (pp : PPState) :
  kind q = TokenKind.MacroQuote -> kind q' = TokenKind.MacroQuote ->
  Forall collected body_ ->
  Forall (fun t => kind t <> TokenKind.EmptyMacroArgument) body_ ->
  kind (Lexer_stringify (location q) (trivia q) body_) = TokenKind.StringLiteral ->
  applyMacroOps (S fuel) (q :: body_ ++ [q']) dest0 pp =
  Ok ((false, dest0 ++ [Lexer_stringify (location q) (trivia q) body_]), pp).
Proof.
  intros Hq Hq' Hcol Hne Hstr. cbn [applyMacroOps].
  set (tokens := q :: body_ ++ [q']).
  set (rec := applyMacroOps fuel).
  enough (ops_loop rec tokens (length tokens) 0 (initOps dest0) pp =
          Ok (mkOps [] body_ [] None None false false
                (dest0 ++ [Lexer_stringify (location q) (trivia q) body_]), pp)) as Hloop.
  { now rewrite (bind_eval _ _ _ _ _ Hloop). }
  assert (length tokens = S (S (length body_))) as Hlen.
  { subst tokens. cbn. rewrite length_app. cbn. lia. }
  (* the opening quote *)
  assert (ops_body rec tokens 0 (initOps dest0) pp =
          Ok ((0%nat, set_stringifyBuffer [] (set_stringify (Some q) (initOps dest0))), pp)) as H0.
  { unfold ops_body. cbn [tokens lookup list_lookup must]. rewrite bind_ret_l.
    unfold ops_switch. rewrite Hq. reflexivity. }
  assert (0 < length tokens)%nat as Hlt0 by lia.
  assert (1 + length body_ < length tokens)%nat as Hlt1 by lia.
  rewrite Hlen. rewrite (ops_loop_step _ _ _ _ _ _ _ _ _ Hlt0 H0).
  (* the tokens between the quotes *)
  replace (S (length body_)) with (length body_ + 1)%nat by lia.
  rewrite (ops_loop_buffered rec tokens q pp body_ 1); try assumption; try reflexivity.
  2:{ intros j t Hj. change ((body_ ++ [q']) !! j = Some t). now apply lookup_app_l_Some. }
  (* the closing quote *)
  ops_simpl. cbn [app].
  assert (tokens !! (1 + length body_)%nat = Some q') as Hlast.
  { change ((body_ ++ [q']) !! length body_ = Some q').
    rewrite lookup_app_r by lia. now rewrite Nat.sub_diag. }
  match goal with |- context [ops_loop rec tokens 1 _ ?s pp] =>
    assert (ops_body rec tokens (1 + length body_) s pp =
            Ok (((1 + length body_)%nat,
                 mkOps [] body_ [] None None false false
                   (dest0 ++ [Lexer_stringify (location q) (trivia q) body_])), pp)) as H1
  end.
  { unfold ops_body. rewrite Hlast. cbn [must]. rewrite bind_ret_l.
    unfold ops_switch. rewrite Hq'. unfold ops_quote. ops_simpl. rewrite bind_ret_l.
    cbn [ops_emit]. ops_simpl.
    rewrite bool_decide_eq_false_2 by (rewrite Hstr; discriminate).
    reflexivity. }
  rewrite (ops_loop_step _ _ _ _ _ _ _ _ _ Hlt1 H1).
  rewrite ops_loop_done by lia. reflexivity.
Qed.

(** X15: a paste between two adjacent tokens replaces them by their
    concatenation and returns whether that is a macro usage; when the two do
    not concatenate, both stay as they are and nothing is reported. *)
Theorem applyMacroOps_pastes_neighbours (fuel : nat) (l p r : Token)
    (dest0 : list Token) (pp : PPState) :
  sentinel (kind l) = false ->
  kind p = TokenKind.MacroPaste -> trivia p = [] -> trivia r = [] ->
  ~ (kind l = TokenKind.Slash /\ kind r = TokenKind.Star) ->
  (forall t, concatenateTokens l r = Some t ->
     kind t <> TokenKind.EmptyMacroArgument ->
     applyMacroOps (S fuel) [l; p; r] dest0 pp =
     Ok ((isMacroUsage t, dest0 ++ [t]), pp)) /\
  (concatenateTokens l r = None -> sentinel (kind r) = false ->
     applyMacroOps (S fuel) [l; p; r] dest0 pp = Ok ((false, dest0 ++ [l; r]), pp)).
Proof.
  intros Hl Hp Htp Htr Hcomment.
  set (rec := applyMacroOps fuel).
  assert (0 < length [l; p; r])%nat as Hlt0 by (simpl; lia).
  assert (1 < length [l; p; r])%nat as Hlt1 by (simpl; lia).
  assert (2 < length [l; p; r])%nat as Hlt2 by (simpl; lia).
  assert (ops_body rec [l; p; r] 0 (initOps dest0) pp =
          Ok ((0%nat, mkOps [] [] [] None None false false (dest0 ++ [l])), pp)) as H0.
  { now rewrite (ops_body_plain rec [l; p; r] 0 l). }
  assert (bool_decide (kind l = TokenKind.Slash) && bool_decide (kind r = TokenKind.Star)
          = false) as Hsl.
  { apply andb_false_iff.
    destruct (decide (kind l = TokenKind.Slash)) as [Hs|Hs];
      [right|left]; apply bool_decide_eq_false_2; tauto. }
  split.
  - intros t Hcat Hkt. cbn [applyMacroOps]. fold rec.
    enough (ops_loop rec [l; p; r] (length [l; p; r]) 0 (initOps dest0) pp =
            Ok (mkOps [] [] [] None None (isMacroUsage t) true (dest0 ++ [t]), pp)) as Hloop.
    { now rewrite (bind_eval _ _ _ _ _ Hloop). }
    cbn [length].
    rewrite (ops_loop_step _ _ _ _ _ _ _ _ _ Hlt0 H0).
    assert (ops_body rec [l; p; r] 1 (mkOps [] [] [] None None false false (dest0 ++ [l])) pp =
            Ok ((2%nat, mkOps [] [] [] None None (isMacroUsage t) true (dest0 ++ [t])), pp))
      as H1.
    { unfold ops_body. mrun. unfold ops_switch. rewrite Hp.
      unfold ops_paste, pasteIgnored. mrun. rewrite Htp. mrun. rewrite Htr. mrun.
      rewrite last_snoc, Hsl, Hcat. mrun.
      cbn [ops_emit]. rewrite bool_decide_eq_false_2 by exact Hkt.
      mrun. now rewrite removelast_last. }
    rewrite (ops_loop_step _ _ _ _ _ _ _ _ _ Hlt1 H1).
    rewrite ops_loop_done by (simpl; lia). reflexivity.
  - intros Hcat Hr. cbn [applyMacroOps]. fold rec.
    enough (ops_loop rec [l; p; r] (length [l; p; r]) 0 (initOps dest0) pp =
            Ok (mkOps [] [] [] None None false false (dest0 ++ [l; r]), pp)) as Hloop.
    { now rewrite (bind_eval _ _ _ _ _ Hloop). }
    cbn [length].
    rewrite (ops_loop_step _ _ _ _ _ _ _ _ _ Hlt0 H0).
    assert (ops_body rec [l; p; r] 1 (mkOps [] [] [] None None false false (dest0 ++ [l])) pp =
            Ok ((1%nat, mkOps [] [] [] None None false false (dest0 ++ [l])), pp)) as H1.
    { unfold ops_body. mrun. unfold ops_switch. rewrite Hp.
      unfold ops_paste, pasteIgnored. mrun. rewrite Htp. mrun. rewrite Htr. mrun.
      rewrite last_snoc, Hsl, Hcat. mrun. reflexivity. }
    rewrite (ops_loop_step _ _ _ _ _ _ _ _ _ Hlt1 H1).
    rewrite (ops_loop_step _ _ _ _ _ _ _ _ _ Hlt2
               (ops_body_plain rec [l; p; r] 2 r
                  (mkOps [] [] [] None None false false (dest0 ++ [l])) pp
                  eq_refl Hr eq_refl eq_refl eq_refl eq_refl)).
    rewrite ops_loop_done by (simpl; lia). cbn. now rewrite <- app_assoc.
Qed.

(** X16: a paste that follows nothing but an empty macro argument without
    trivia reads the last token of an empty destination
    ([dest.back()] on an empty vector). *)
Theorem applyMacroOps_paste_after_empty_argument (fuel : nat) (e p r : Token)
    (rest : list Token) (pp : PPState) :
  kind e = TokenKind.EmptyMacroArgument -> trivia e = [] ->
  kind p = TokenKind.MacroPaste -> trivia p = [] -> trivia r = [] ->
  applyMacroOps (S fuel) (e :: p :: r :: rest) [] pp = Crash.
Proof.
  intros He Hte Hp Htp Htr. cbn [applyMacroOps].
  set (rec := applyMacroOps fuel). set (tokens := e :: p :: r :: rest).
  apply bind_crash_l.
  assert (ops_body rec tokens 0 (initOps []) pp = Ok ((0%nat, initOps []), pp)) as H0.
  { unfold ops_body. cbn [tokens lookup list_lookup must]. rewrite bind_ret_l.
    unfold ops_switch. rewrite He. cbn [ops_default initOps didConcat andb].
    rewrite bind_ret_l. cbn [ops_emit]. rewrite bool_decide_eq_true_2 by exact He.
    rewrite Hte. reflexivity. }
  assert (0 < length tokens)%nat as Hlt0 by (simpl; lia).
  change (length tokens) with (S (S (S (length rest)))).
  rewrite (ops_loop_step _ _ _ _ _ _ _ _ _ Hlt0 H0).
  cbn [ops_loop]. change (length tokens) with (S (S (S (length rest)))).
  cbn [Nat.ltb Nat.leb]. apply bind_crash_l.
  subst tokens. unfold ops_body. mrun. unfold ops_switch. rewrite Hp.
  unfold ops_paste, pasteIgnored. mrun.
  replace (1 =? S (S (length rest)) - 0)%nat with false
    by (symmetry; apply Nat.eqb_neq; lia).
  mrun. rewrite Htp. mrun. rewrite Htr. mrun. reflexivity.
Qed.

End operators_top.

Lemma applyMacroOps_stringifies_between_quotes_witness :
  applyMacroOps (L := Example.lexer) 1
    (Example.tok TokenKind.MacroQuote (String grave (String dquote EmptyString)) 0 ::
     [Example.ident "a" 2; Example.spaced (Example.ident "b" 4)] ++
     [Example.tok TokenKind.MacroQuote (String grave (String dquote EmptyString)) 5])
    [] (Example.initialState [] []) =
  Ok ((false,
       [] ++ [@Lexer_stringify Example.lexer (mkLoc 1 0) []
                [Example.ident "a" 2; Example.spaced (Example.ident "b" 4)]]),
      Example.initialState [] []).
Proof.
  apply (applyMacroOps_stringifies_between_quotes (L := Example.lexer)); try reflexivity.
  - repeat constructor; discriminate.
  - repeat constructor; discriminate.
Defined.

Lemma applyMacroOps_pastes_neighbours_witness :
  applyMacroOps (L := Example.lexer) 1
    [Example.ident "foo" 0; Example.tok TokenKind.MacroPaste "``" 3; Example.ident "bar" 5]
    [] (Example.initialState [] []) =
  Ok ((false, [] ++ [mkToken TokenKind.Identifier [] "foobar" (mkLoc 1 0) SyntaxKind.Unknown]),
      Example.initialState [] []) /\
  applyMacroOps (L := Example.lexer) 1
    [Example.tok TokenKind.Comma "," 0; Example.tok TokenKind.MacroPaste "``" 1;
     Example.ident "bar" 3]
    [] (Example.initialState [] []) =
  Ok ((false, [] ++ [Example.tok TokenKind.Comma "," 0; Example.ident "bar" 3]),
      Example.initialState [] []).
Proof.
  split.
  - refine (proj1 (applyMacroOps_pastes_neighbours (L := Example.lexer) 0
                     (Example.ident "foo" 0) (Example.tok TokenKind.MacroPaste "``" 3)
                     (Example.ident "bar" 5) [] (Example.initialState [] []) _ _ _ _ _)
                  (mkToken TokenKind.Identifier [] "foobar" (mkLoc 1 0) SyntaxKind.Unknown)
                  _ _);
      try reflexivity; try discriminate. intros [H _]; discriminate.
  - refine (proj2 (applyMacroOps_pastes_neighbours (L := Example.lexer) 0
                     (Example.tok TokenKind.Comma "," 0)
                     (Example.tok TokenKind.MacroPaste "``" 1)
                     (Example.ident "bar" 3) [] (Example.initialState [] []) _ _ _ _ _) _ _);
      try reflexivity. intros [H _]; discriminate.
Defined.

Lemma applyMacroOps_paste_after_empty_argument_witness :
  applyMacroOps (L := Example.lexer) 1
    (mkToken TokenKind.EmptyMacroArgument [] EmptyString (mkLoc 2 0) SyntaxKind.Unknown ::
     Example.tok TokenKind.MacroPaste "``" 1 :: Example.ident "x" 3 :: [])
    [] (Example.initialState [] []) = Crash.
Proof.
  apply (applyMacroOps_paste_after_empty_argument (L := Example.lexer)); reflexivity.
Defined.

(** ** The rewrite pass on ignored pastes and empty arguments *)

Section pending_trivia.
Context {L : Lexer}.
Variable rec : list Token -> list Token -> M (bool * list Token).

Lemma set_emptyArgTrivia_same s : emptyArgTrivia s = [] -> set_emptyArgTrivia [] s = s.
Proof. destruct s. cbn. now intros ->. Qed.

(** An ordinary token outside stringification and synthetic comments takes
    the pending trivia with it to the destination. *)
Lemma ops_body_pending tokens i t s pp :
  tokens !! i = Some t -> sentinel (kind t) = false ->
  stringify s = None -> syntheticComment s = None -> didConcat s = false ->
  ops_body rec tokens i s pp =
  Ok ((i, set_dest (dest s ++ [withTrivia t (emptyArgTrivia s ++ trivia t)])
            (set_emptyArgTrivia [] s)), pp).
Proof.
  intros Hi Hk Hstr Hsc Hdc.
  unfold ops_body. rewrite Hi. cbn [must]. rewrite bind_ret_l.
  assert (ops_switch tokens t i s pp = Ok ((Some t, false, i, s), pp)) as Hsw.
  { unfold ops_switch, ops_default. rewrite Hdc. cbn [andb].
    destruct (kind t); try discriminate; reflexivity. }
  rewrite (bind_eval _ _ _ _ _ Hsw). cbv iota beta.
  rewrite (set_didConcat_same _ Hdc).
  unfold ops_emit.
  rewrite bool_decide_eq_false_2 by (intros E; rewrite E in Hk; discriminate).
  destruct s as [eat sb cb st sc anm dc d]. cbn in *. subst.
  destruct eat as [|tr0 eat]; cbn; [|reflexivity].
  now rewrite withTrivia_same.
Qed.

Lemma ops_loop_copied tokens pp : forall pre i s n,
  (forall j t, pre !! j = Some t -> tokens !! (i + j)%nat = Some t) ->
  Forall (fun t => sentinel (kind t) = false) pre ->
  stringify s = None -> syntheticComment s = None ->
  didConcat s = false -> emptyArgTrivia s = [] ->
  ops_loop rec tokens (length pre + n) i s pp =
  ops_loop rec tokens n (i + length pre) (set_dest (dest s ++ pre) s) pp.
Proof.
  induction pre as [|t pre IH]; intros i s n Hat Hall Hstr Hsc Hdc Het.
  - cbn [length Nat.add]. rewrite Nat.add_0_r, app_nil_r. now destruct s.
  - apply Forall_cons in Hall as [Ht Hall].
    assert (tokens !! i = Some t) as Hi.
    { specialize (Hat 0%nat t eq_refl). now rewrite Nat.add_0_r in Hat. }
    cbn [length Nat.add].
    rewrite (ops_loop_step _ _ _ _ _ _ _ _ _ (lookup_lt_Some _ _ _ Hi)
               (ops_body_plain rec tokens i t s pp Hi Ht Hstr Hsc Hdc Het)).
    rewrite (set_didConcat_same _ Hdc).
    rewrite IH; try assumption.
    + replace (S i + length pre)%nat with (i + S (length pre))%nat by lia.
      f_equal. destruct s. cbn. now rewrite <- app_assoc.
    + intros j t' Hj. specialize (Hat (S j) t' Hj).
      now replace (S i + j)%nat with (i + S j)%nat by lia.
Qed.

Lemma ops_loop_empties tokens pp : forall es i s n,
  (forall j t, es !! j = Some t -> tokens !! (i + j)%nat = Some t) ->
  Forall (fun t => kind t = TokenKind.EmptyMacroArgument) es ->
  didConcat s = false ->
  ops_loop rec tokens (length es + n) i s pp =
  ops_loop rec tokens n (i + length es)
    (set_emptyArgTrivia (emptyArgTrivia s ++ concat (map trivia es)) s) pp.
Proof.
  induction es as [|e es IH]; intros i s n Hat Hall Hdc.
  - cbn [length Nat.add map concat]. rewrite Nat.add_0_r, app_nil_r. now destruct s.
  - apply Forall_cons in Hall as [He Hall].
    assert (tokens !! i = Some e) as Hi.
    { specialize (Hat 0%nat e eq_refl). now rewrite Nat.add_0_r in Hat. }
    cbn [length Nat.add].
    rewrite (ops_loop_step _ _ _ _ _ _ _ _ _ (lookup_lt_Some _ _ _ Hi)
               (ops_body_empty_argument rec tokens i e s pp Hi He (or_introl Hdc))).
    rewrite (set_didConcat_same _ Hdc).
    rewrite IH; try assumption.
    + replace (S i + length es)%nat with (i + S (length es))%nat by lia.
      f_equal. destruct s. cbn. now rewrite <- app_assoc.
    + intros j t' Hj. specialize (Hat (S j) t' Hj).
      now replace (S i + j)%nat with (i + S j)%nat by lia.
Qed.

(** Ordinary tokens up to the end of the buffer, with trivia pending. *)
Lemma ops_loop_pending tokens pp n i s :
  (forall j t, (i <= j)%nat -> tokens !! j = Some t -> sentinel (kind t) = false) ->
  stringify s = None -> syntheticComment s = None -> didConcat s = false ->
  (length tokens - i <= n)%nat ->
  exists s',
    ops_loop rec tokens n i s pp = Ok (s', pp) /\
    dest s' = dest s ++ withPending (emptyArgTrivia s) (drop i tokens) /\
    anyNewMacros s' = anyNewMacros s /\ stringify s' = None.
Proof.
  intros Hall Hstr Hsc Hdc Hn.
  destruct (Nat.lt_ge_cases i (length tokens)) as [Hlt|Hge].
  2:{ rewrite ops_loop_done by lia. exists s. rewrite drop_ge by lia.
      cbn [withPending]. rewrite app_nil_r. auto. }
  destruct (lookup_lt_is_Some_2 tokens i Hlt) as [t Ht].
  destruct n as [|n]; [lia|].
  rewrite (ops_loop_step _ _ _ _ _ _ _ _ _ Hlt
             (ops_body_pending tokens i t s pp Ht (Hall i t (le_n _) Ht) Hstr Hsc Hdc)).
  destruct (ops_loop_plain rec tokens pp n (S i)
              (set_dest (dest s ++ [withTrivia t (emptyArgTrivia s ++ trivia t)])
                 (set_emptyArgTrivia [] s)))
    as (s' & Hrun & Hd & Ha & Hs);
    [intros j t' Hj; apply Hall; lia|exact Hstr|exact Hsc|exact Hdc|reflexivity|lia|].
  exists s'. split; [exact Hrun|]. cbn in Hd, Ha.
  rewrite Hd, <- app_assoc, (drop_S _ _ _ Ht). auto.
Qed.

End pending_trivia.

Section single_operator.
Context {L : Lexer}.

Lemma lookup_middle (pre mid post : list Token) j t :
  mid !! j = Some t -> (pre ++ mid ++ post) !! (length pre + j)%nat = Some t.
Proof.
  intros H. rewrite lookup_app_r by lia.
  replace (length pre + j - length pre)%nat with j by lia.
  now apply lookup_app_l_Some.
Qed.

Lemma lookup_tail (pre post : list Token) j t :
  (length pre <= j)%nat -> (pre ++ post) !! j = Some t -> In t post.
Proof.
  intros Hj H. rewrite lookup_app_r in H by lia.
  apply list_elem_of_lookup_2, list_elem_of_In in H. exact H.
Qed.

(** A run of empty-argument tokens among ordinary tokens. *)
Lemma applyMacroOps_empties fuel pre es post dest0 pp :
  noSentinels pre -> Forall (fun t => kind t = TokenKind.EmptyMacroArgument) es ->
  noSentinels post ->
  applyMacroOps (S fuel) (pre ++ es ++ post) dest0 pp =
  Ok ((false, dest0 ++ pre ++ withPending (concat (map trivia es)) post), pp).
Proof.
  intros Hpre Hes Hpost. unfold noSentinels in *. cbn [applyMacroOps].
  set (tokens := pre ++ es ++ post). set (rec := applyMacroOps fuel).
  assert (length tokens = length pre + (length es + length post))%nat as Hlen
    by (subst tokens; now rewrite !length_app).
  assert (exists s',
            ops_loop rec tokens (length tokens) 0 (initOps dest0) pp = Ok (s', pp) /\
            dest s' = dest0 ++ pre ++ withPending (concat (map trivia es)) post /\
            anyNewMacros s' = false /\ stringify s' = None) as (s' & Hrun & Hd & Ha & Hs).
  { rewrite Hlen.
    rewrite (ops_loop_copied rec tokens pp pre 0 (initOps dest0)); try reflexivity;
      try exact Hpre.
    2:{ intros j t Hj. cbn [Nat.add]. subst tokens. now apply lookup_app_l_Some. }
    rewrite (ops_loop_empties rec tokens pp es); try reflexivity; try exact Hes.
    2:{ intros j t Hj. cbn [Nat.add]. subst tokens. now apply lookup_middle. }
    cbn [Nat.add].
    match goal with |- context [ops_loop rec tokens _ ?i ?s pp] =>
      destruct (ops_loop_pending rec tokens pp (length post) i s)
        as (s' & Hrun & Hd & Ha & Hs) end; try reflexivity.
    { intros j t Hj Ht. rewrite Forall_forall in Hpost. apply Hpost. apply list_elem_of_In.
      subst tokens. rewrite app_assoc in Ht. eapply lookup_tail; [|exact Ht].
      rewrite length_app. lia. }
    { lia. }
    exists s'. split; [exact Hrun|]. cbn in Hd, Ha. rewrite Hd, Ha, <- app_assoc.
    repeat split; try assumption. do 3 f_equal.
    subst tokens. rewrite app_assoc, drop_app_length'; [reflexivity|].
    now rewrite length_app. }
  rewrite (bind_eval _ _ _ _ _ Hrun), Hs. rewrite bind_ret_l.
  unfold ret. now rewrite Hd, Ha.
Qed.

(** One ignored paste among ordinary tokens, possibly after a run of
    empty-argument tokens. *)
Lemma applyMacroOps_ignored_paste fuel pre es p post dest0 pp :
  noSentinels pre -> Forall (fun t => kind t = TokenKind.EmptyMacroArgument) es ->
  kind p = TokenKind.MacroPaste -> noSentinels post ->
  (pre ++ es = [] \/ post = [] \/ trivia p <> [] \/
   (exists r rest, post = r :: rest /\ trivia r <> []) \/
   concat (map trivia es) <> []) ->
  applyMacroOps (S fuel) (pre ++ es ++ p :: post) dest0 pp =
  Ok ((false, dest0 ++ pre ++ withPending (concat (map trivia es) ++ trivia p) post),
      addDiagState diag.IgnoredMacroPaste (location p) [] pp).
Proof.
  intros Hpre Hes Hp Hpost Hcond. unfold noSentinels in *. cbn [applyMacroOps].
  set (tokens := pre ++ es ++ p :: post). set (rec := applyMacroOps fuel).
  set (pp1 := addDiagState diag.IgnoredMacroPaste (location p) [] pp).
  assert (length tokens = length pre + (length es + S (length post)))%nat as Hlen
    by (subst tokens; now rewrite !length_app).
  assert (exists s',
            ops_loop rec tokens (length tokens) 0 (initOps dest0) pp = Ok (s', pp1) /\
            dest s' = dest0 ++ pre ++
                      withPending (concat (map trivia es) ++ trivia p) post /\
            anyNewMacros s' = false /\ stringify s' = None) as (s' & Hrun & Hd & Ha & Hs).
  { rewrite Hlen.
    rewrite (ops_loop_copied rec tokens pp pre 0 (initOps dest0)); try reflexivity;
      try exact Hpre.
    2:{ intros j t Hj. cbn [Nat.add]. subst tokens. now apply lookup_app_l_Some. }
    rewrite (ops_loop_empties rec tokens pp es); try reflexivity; try exact Hes.
    2:{ intros j t Hj. cbn [Nat.add]. subst tokens. now apply lookup_middle. }
    cbn [Nat.add].
    set (i := (length pre + length es)%nat).
    assert (tokens !! i = Some p) as Hi.
    { subst tokens i. rewrite app_assoc, lookup_app_r by (rewrite length_app; lia).
      rewrite length_app, Nat.sub_diag. reflexivity. }
    match goal with |- context [ops_loop rec tokens _ i ?s pp] => set (sB := s) end.
    assert (i = 0%nat \/ i = (length tokens - 1)%nat \/ trivia p <> [] \/
            (exists right, tokens !! S i = Some right /\ trivia right <> []) \/
            emptyArgTrivia sB <> []) as Hguard.
    { destruct Hcond as [H|[H|[H|[(r & rest & H & Hr)|H]]]].
      - left. apply (f_equal length) in H. rewrite length_app in H. cbn in H. subst i. lia.
      - right. left. rewrite Hlen. subst post. cbn [length]. subst i. lia.
      - auto.
      - right. right. right. left. exists r. split; [|exact Hr].
        subst tokens i post. rewrite app_assoc, lookup_app_r by (rewrite length_app; lia).
        rewrite length_app.
        replace (S (length pre + length es) - (length pre + length es))%nat
          with 1%nat by lia. reflexivity.
      - right. right. right. right. subst sB. cbn. exact H. }
    rewrite (ops_loop_step _ _ _ _ _ _ _ _ _ (lookup_lt_Some _ _ _ Hi)
               (ops_body_ignored_paste rec tokens i p sB pp Hi Hp Hguard)).
    fold pp1.
    match goal with |- context [ops_loop rec tokens _ (S i) ?s pp1] =>
      destruct (ops_loop_pending rec tokens pp1 (length post) (S i) s)
        as (s' & Hrun & Hd & Ha & Hs) end; try reflexivity.
    { intros j t Hj Ht. rewrite Forall_forall in Hpost. apply Hpost. apply list_elem_of_In.
      subst tokens i. change (p :: post) with ([p] ++ post) in Ht.
      rewrite !app_assoc in Ht. eapply lookup_tail; [|exact Ht].
      rewrite !length_app. cbn [length]. lia. }
    { rewrite Hlen. subst i. lia. }
    exists s'. split; [exact Hrun|]. cbn in Hd, Ha. rewrite Hd, Ha, <- app_assoc.
    repeat split; try assumption. do 3 f_equal.
    subst tokens i. change (p :: post) with ([p] ++ post).
    rewrite !app_assoc. rewrite drop_app_length'; [reflexivity|].
    rewrite !length_app. cbn [length]. lia. }
  rewrite (bind_eval _ _ _ _ _ Hrun), Hs. rewrite bind_ret_l.
  unfold ret. now rewrite Hd, Ha.
Qed.

End single_operator.

(** ** No empty-argument token reaches the destination *)

Section no_empty_argument.
Context {L : Lexer}.
Hypothesis Hstr :
  forall loc tr ts, kind (Lexer_stringify loc tr ts) = TokenKind.StringLiteral.

Lemma ops_switch_dest tokens token i s pp nt ndc i' s1 pp1 :
  ops_switch tokens token i s pp = Ok ((nt, ndc, i', s1), pp1) ->
  dest s1 = dest s \/ dest s1 = removelast (dest s).
Proof.
  unfold ops_switch, ops_quote, ops_paste, ops_default, pasteIgnored.
  cbv [bind ret must crash addDiag].
  repeat case_match; intros; simplify_eq; cbn; auto.
Qed.

Section noEmpty_with_rec.
Variable rec : list Token -> list Token -> M (bool * list Token).
Hypothesis Hrec : forall ts d pp b d' pp',
  rec ts d pp = Ok ((b, d'), pp') -> noEmptyArguments d -> noEmptyArguments d'.

Lemma ops_emit_noEmpty nt s pp s2 pp2 :
  noEmptyArguments (dest s) -> ops_emit rec nt s pp = Ok (s2, pp2) -> noEmptyArguments (dest s2).
Proof using Hstr Hrec.
  unfold noEmptyArguments in *. intros Hd. unfold ops_emit. intros H.
  destruct nt as [t|]; [|injection H as <- <-; exact Hd].
  destruct (bool_decide (kind t = TokenKind.EmptyMacroArgument)) eqn:Hema.
  { injection H as <- <-. exact Hd. }
  apply bool_decide_eq_false in Hema.
  set (p := if negb (isEmpty (emptyArgTrivia s))
            then (withTrivia t (emptyArgTrivia s ++ trivia t), set_emptyArgTrivia [] s)
            else (t, s)) in H.
  assert (kind (fst p) = kind t /\ dest (snd p) = dest s /\
          stringify (snd p) = stringify s /\ syntheticComment (snd p) = syntheticComment s)
    as (Hk & Hds & Hst & Hsc).
  { subst p. destruct (negb _); cbn; auto. }
  destruct p as [t1 s1]. cbn [fst snd] in *.
  destruct (stringify s1) as [q|].
  - match type of H with context [match ?x with Some _ => _ | None => _ end] =>
      destruct x as [offset|] end.
    + cbv zeta in H. destruct (splitTokens _ _) as [splits ds].
      apply bind_Ok in H as ([] & pp0 & _ & H).
      apply bind_Ok in H as ([any d2] & pp0' & Hr & H).
      injection H as <- <-. cbn.
      eapply Hrec; [exact Hr|]. apply Forall_app. split; [now rewrite Hds|].
      constructor; [|constructor]. now rewrite Hstr.
    + injection H as <- <-. cbn. now rewrite Hds.
  - destruct (syntheticComment s1); injection H as <- <-; cbn; rewrite Hds; [exact Hd|].
    apply Forall_app. split; [exact Hd|]. constructor; [|constructor]. now rewrite Hk.
Qed.

Lemma ops_body_noEmpty tokens i s pp i' s2 pp2 :
  noEmptyArguments (dest s) ->
  ops_body rec tokens i s pp = Ok ((i', s2), pp2) -> noEmptyArguments (dest s2).
Proof using Hstr Hrec.
  intros Hd H. unfold ops_body in H.
  apply bind_Ok in H as (token & pp0 & _ & H).
  apply bind_Ok in H as ([[[nt ndc] j] s1] & pp1 & Hsw & H).
  apply bind_Ok in H as (s2' & pp2' & Hem & H). injection H as <- <- <-.
  apply ops_switch_dest in Hsw.
  eapply ops_emit_noEmpty; [|exact Hem]. cbn. unfold noEmptyArguments in *.
  destruct Hsw as [->| ->]; [exact Hd|now apply Forall_removelast].
Qed.

Lemma ops_loop_noEmpty tokens n : forall i s pp s' pp',
  noEmptyArguments (dest s) ->
  ops_loop rec tokens n i s pp = Ok (s', pp') -> noEmptyArguments (dest s').
Proof using Hstr Hrec.
  induction n as [|n IH]; intros i s pp s' pp' Hd H; simpl in H.
  - destruct (i <? length tokens)%nat; [discriminate|]. injection H as <- <-. exact Hd.
  - destruct (i <? length tokens)%nat; [|injection H as <- <-; exact Hd].
    apply bind_Ok in H as ([i' s1] & pp1 & Hb & H).
    eapply IH; [|exact H]. eapply ops_body_noEmpty; eauto.
Qed.

End noEmpty_with_rec.

Lemma applyMacroOps_noEmpty fuel : forall tokens dest0 pp b d pp',
  applyMacroOps fuel tokens dest0 pp = Ok ((b, d), pp') ->
  noEmptyArguments dest0 -> noEmptyArguments d.
Proof using Hstr.
  induction fuel as [|fuel IH]; intros tokens dest0 pp b d pp' H Hd; simpl in H;
    [discriminate|].
  apply bind_Ok in H as (s & pp1 & Hloop & H).
  apply bind_Ok in H as ([] & pp2 & _ & H). injection H as <- <- <-.
  eapply ops_loop_noEmpty; [exact IH| |exact Hloop]. exact Hd.
Qed.

End no_empty_argument.

Section operator_tokens.
Context {L : Lexer}.

(** C6 (as amended).  A paste token that the loop of [applyMacroOps] takes up
    and that is the first or the last token of the buffer, has trivia, is
    followed by a token with trivia, or is met while trivia are pending, is
    ignored: the run goes on behind it with one [IgnoredMacroPaste]
    diagnostic more, nothing consumed or concatenated, and the trivia of the
    paste appended to the pending trivia; a token emitted while trivia are
    pending gets them in front of its own.  For the pass as a whole: one
    such paste among ordinary tokens, possibly behind empty-argument tokens,
    gives the tokens around it unchanged but for the trivia, which go to the
    token behind the paste, and exactly one diagnostic. *)
Theorem ignored_paste_salvages_trivia (fuel : nat) :
  (forall (tokens : list Token) (n i : nat) (token : Token) (s : OpsState) (pp : PPState),
     tokens !! i = Some token ->
     kind token = TokenKind.MacroPaste ->
     (i = 0%nat \/ i = (length tokens - 1)%nat \/ trivia token <> [] \/
      (exists right, tokens !! S i = Some right /\ trivia right <> []) \/
      emptyArgTrivia s <> []) ->
     ops_loop (applyMacroOps fuel) tokens (S n) i s pp =
     ops_loop (applyMacroOps fuel) tokens n (S i)
       (set_didConcat false (set_emptyArgTrivia (emptyArgTrivia s ++ trivia token) s))
       (addDiagState diag.IgnoredMacroPaste (location token) [] pp)) /\
  (forall (newToken : Token) (s : OpsState) (pp : PPState),
     kind newToken <> TokenKind.EmptyMacroArgument ->
     emptyArgTrivia s <> [] ->
     ops_emit (applyMacroOps fuel) (Some newToken) s pp =
     ops_emit (applyMacroOps fuel)
       (Some (withTrivia newToken (emptyArgTrivia s ++ trivia newToken)))
       (set_emptyArgTrivia [] s) pp) /\
  (forall (pre es : list Token) (p : Token) (post dest0 : list Token) (pp : PPState),
     noSentinels pre ->
     Forall (fun t => kind t = TokenKind.EmptyMacroArgument) es ->
     kind p = TokenKind.MacroPaste ->
     noSentinels post ->
     (pre ++ es = [] \/ post = [] \/ trivia p <> [] \/
      (exists r rest, post = r :: rest /\ trivia r <> []) \/
      concat (map trivia es) <> []) ->
     applyMacroOps (S fuel) (pre ++ es ++ p :: post) dest0 pp =
     Ok ((false, dest0 ++ pre ++ withPending (concat (map trivia es) ++ trivia p) post),
         addDiagState diag.IgnoredMacroPaste (location p) [] pp)).
Proof.
  split; [|split].
  - intros tokens n i token s pp Hi Hk Hcond.
    apply ops_loop_step; [eapply lookup_lt_Some; eauto|].
    now apply ops_body_ignored_paste.
  - intros newToken s pp Hk He. now apply ops_emit_donates.
  - intros pre es p post dest0 pp Hpre Hes Hp Hpost Hcond.
    now apply applyMacroOps_ignored_paste.
Qed.

(** C8 (as amended).  During body emission, a formal parameter substituted
    by an empty actual argument appends one token of kind
    [EmptyMacroArgument] whose location is the formal occurrence's location
    moved into the expansion and whose trivia are those of the formal
    occurrence, except for the first token of an expansion, which gets the
    trivia of the usage site (none at top level).  The rewrite pass consumes
    such tokens: with [Lexer::stringify] returning a string literal,
    [applyMacroOps] writes no empty-argument token to its destination;
    among ordinary tokens they are dropped and their trivia put in front of
    the trivia of the token that follows; and whenever the loop takes up one
    that has trivia, these are appended to the pending trivia, which go in
    front of the trivia of the next token emitted. *)
Theorem empty_argument_token (fuel : nat) :
  (forall range token text arg s pp,
     (kind token <> TokenKind.Directive /\
      (kind token = TokenKind.Identifier \/ isKeyword (kind token) = true) /\
      valueText token = text) \/
     (kind token = TokenKind.Directive /\
      directiveKind token = SyntaxKind.MacroUsage /\
      exists c, valueText token = String c text) ->
     argumentMap s !! text = Some arg ->
     arg_tokens arg = [] ->
     exists loc ml fl s2 pp',
       adjustLoc token (expansionLoc s) (start s) range pp = Ok ((loc, ml, fl), pp') /\
       handleToken (expandReplacementList (S fuel)) range token s pp = Ok ((true, s2), pp') /\
       exp_dest (expansion s2) =
         exp_dest (expansion s) ++
         [mkToken TokenKind.EmptyMacroArgument (appendedTrivia (expansion s) (trivia token))
            EmptyString loc SyntaxKind.Unknown]) /\
  (forall tokens dest0 pp any_ out pp',
     (forall loc tr ts, kind (Lexer_stringify loc tr ts) = TokenKind.StringLiteral) ->
     applyMacroOps fuel tokens dest0 pp = Ok ((any_, out), pp') ->
     noEmptyArguments dest0 -> noEmptyArguments out) /\
  (forall pre es post dest0 pp,
     noSentinels pre ->
     Forall (fun t => kind t = TokenKind.EmptyMacroArgument) es ->
     noSentinels post ->
     applyMacroOps (S fuel) (pre ++ es ++ post) dest0 pp =
     Ok ((false, dest0 ++ pre ++ withPending (concat (map trivia es)) post), pp)) /\
  (forall tokens n i tok s pp,
     tokens !! i = Some tok ->
     kind tok = TokenKind.EmptyMacroArgument ->
     trivia tok <> [] ->
     ops_loop (applyMacroOps fuel) tokens (S n) i s pp =
     ops_loop (applyMacroOps fuel) tokens n (S i)
       (set_emptyArgTrivia (emptyArgTrivia s ++ trivia tok) (set_didConcat false s)) pp) /\
  (forall newToken s pp,
     kind newToken <> TokenKind.EmptyMacroArgument ->
     emptyArgTrivia s <> [] ->
     ops_emit (applyMacroOps fuel) (Some newToken) s pp =
     ops_emit (applyMacroOps fuel)
       (Some (withTrivia newToken (emptyArgTrivia s ++ trivia newToken)))
       (set_emptyArgTrivia [] s) pp).
Proof.
  split; [|split; [|split; [|split]]].
  - intros range token text arg s pp Hkey Hlook Hnil.
    now apply (handleToken_empty_argument fuel range token text arg).
  - intros tokens dest0 pp any_ out pp' Hstr Hrun Hd.
    exact (applyMacroOps_noEmpty Hstr fuel tokens dest0 pp any_ out pp' Hrun Hd).
  - intros pre es post dest0 pp Hpre Hes Hpost. now apply applyMacroOps_empties.
  - intros tokens n i tok s pp Hi Hk Htr.
    apply ops_loop_step; [eapply lookup_lt_Some; eauto|].
    apply ops_body_empty_argument; auto.
  - intros newToken s pp Hk He. now apply ops_emit_donates.
Qed.

End operator_tokens.

Lemma ignored_paste_salvages_trivia_witness :
  applyMacroOps (L := Example.lexer) 1
    ([Example.ident "a" 0] ++ [] ++
     Example.spaced (Example.tok TokenKind.MacroPaste "``" 2) :: [Example.ident "b" 5])
    [] (Example.initialState [] []) =
  Ok ((false,
       [] ++ [Example.ident "a" 0] ++
       withPending
         (concat (map trivia []) ++
          trivia (Example.spaced (Example.tok TokenKind.MacroPaste "``" 2)))
         [Example.ident "b" 5]),
      addDiagState diag.IgnoredMacroPaste
        (location (Example.spaced (Example.tok TokenKind.MacroPaste "``" 2))) []
        (Example.initialState [] [])).
Proof.
  apply (proj2 (proj2 (ignored_paste_salvages_trivia (L := Example.lexer) 0))).
  - repeat constructor.
  - constructor.
  - reflexivity.
  - repeat constructor.
  - right. right. left. discriminate.
Defined.

(** C6 as stated fails: the second paste is the last token of the buffer,
    yet it is not ignored and no diagnostic is issued: the paste before it
    takes it as its right operand and glues it to the escaped identifier. *)
Lemma last_paste_taken_as_operand :
  last Relex.escapedThenPastes = Some (Example.tok TokenKind.MacroPaste "``" 4) /\
  applyMacroOps (L := Relex.lexer) 1 Relex.escapedThenPastes [] (Example.initialState [] []) =
  Ok ((false, [Example.tok TokenKind.Identifier (String backslash "x``") 0]),
      Example.initialState [] []).
Proof. split; vm_compute; reflexivity. Qed.

Lemma empty_argument_token_witness :
  exists loc ml fl s2 pp',
    adjustLoc EmptyArgExample.formalOccurrence
      (mkLoc 2 0) (mkLoc 1 0) EmptyArgExample.someRange (Example.initialState [] [])
      = Ok ((loc, ml, fl), pp') /\
    handleToken (L := Example.lexer) (expandReplacementList (L := Example.lexer) 1)
      EmptyArgExample.someRange EmptyArgExample.formalOccurrence
      EmptyArgExample.midExpansion (Example.initialState [] []) = Ok ((true, s2), pp') /\
    exp_dest (expansion s2) =
      [Example.ident "k" 0] ++
      [mkToken TokenKind.EmptyMacroArgument
         (appendedTrivia (expansion EmptyArgExample.midExpansion)
            (trivia EmptyArgExample.formalOccurrence))
         EmptyString loc SyntaxKind.Unknown].
Proof.
  refine (proj1 (empty_argument_token (L := Example.lexer) 0%nat) EmptyArgExample.someRange
            EmptyArgExample.formalOccurrence "a"%string (mkArgTokens [] false)
            EmptyArgExample.midExpansion (Example.initialState [] []) _ _ _).
  - left. split; [discriminate|]. split; [now left|reflexivity].
  - vm_compute. reflexivity.
  - reflexivity.
Defined.

(** ** [expandReplacementList]: what it leaves behind *)

Section replacement_list.
Context {L : Lexer}.

Lemma findMacro_Ok t pp m pp' :
  findMacro t pp = Ok (m, pp') ->
  pp' = pp /\ (m = nullMacro \/ exists name, macros pp !! name = Some m).
Proof.
  unfold findMacro. intros H.
  apply bind_Ok in H as (n1 & pp1 & H1 & H).
  apply must_Ok in H1 as (a1 & _ & E). injection E as E1 E2. subst n1 pp1.
  apply bind_Ok in H as (n2 & pp2 & H2 & H).
  assert (pp2 = pp) as E.
  { destruct (startsWith backslash a1).
    - apply must_Ok in H2 as (a2 & _ & E). now injection E.
    - now injection H2. }
  subst pp2.
  apply bind_Ok in H as (pp3 & pp4 & Hg & H). injection Hg as E1 E2. subst pp3 pp4.
  destruct (macros pp !! n2) as [m'|] eqn:Hl; injection H as E1 E2; subst m pp'.
  - split; [reflexivity|]. right. eauto.
  - split; [reflexivity|]. now left.
Qed.


Section post_with_rec.
Variable rec : list Token -> gset N -> M ReplacementResult.
Hypothesis Hloud : forall ts AE, Loud erl_ok (rec ts AE).
Hypothesis Hpost : forall ts AE pp r pp',
  rec ts AE pp = Ok (r, pp') -> wfTable (macros pp) -> erl_ok r = true ->
  erl_alreadyExpanded r ⊆ AE /\ AE ∖ {[0%N]} ⊆ erl_alreadyExpanded r.

Lemma erl_loop_post tokens0 n : forall parser out es AE pp r pp',
  erl_loop rec tokens0 n parser out es AE pp = Ok (r, pp') ->
  wfTable (macros pp) ->
  (erl_ok r = true ->
     erl_alreadyExpanded r ⊆ AE /\ AE ∖ {[0%N]} ⊆ erl_alreadyExpanded r) /\
  (erl_ok r = false -> erl_tokens r = tokens0 /\ erl_replaced r = false) /\
  (erl_ok r = true -> erl_replaced r = es \/ erl_replaced r = true) /\
  (erl_replaced r = false -> erl_tokens r = tokens0).
Proof using Hloud Hpost.
  induction n as [|n IH]; intros parser out es AE pp r pp' H Hwf; simpl in H; [discriminate|].
  destruct (next parser) as [[token|] parser'].
  2:{ injection H as <- <-. cbn. split; [|split; [|split]].
      - intros _. split; [reflexivity|]. intros x Hx.
        now apply elem_of_difference in Hx as [Hx _].
      - discriminate.
      - intros _. now left.
      - intros ->. reflexivity. }
  destruct (negb _ || negb _).
  { destruct (IH _ _ _ _ _ _ _ H Hwf) as (H1 & H2 & H3 & H4). auto. }
  apply bind_Ok in H as (macro & pp1 & Hfind & H).
  apply findMacro_Ok in Hfind as [-> Hm].
  destruct (negb (valid macro)) eqn:Hv.
  { destruct (IH _ _ _ _ _ _ _ H Hwf) as (H1 & H2 & H3 & H4). auto. }
  destruct (negb (isIntrinsic macro) && bool_decide (syntaxPtr macro ∈ AE)) eqn:Hg.
  { cbv [bind addDiag erl_fail ret] in H. injection H as <- <-. cbn.
    repeat split; auto; discriminate. }
  assert (forall x : N, x ∈ AE -> x <> 0%N -> x <> syntaxPtr macro) as Hfresh.
  { intros x Hx Hx0 ->. apply andb_false_iff in Hg as [Hi|Hin].
    - apply negb_false_iff in Hi.
      destruct Hm as [->|(name & Hname)]; [discriminate|].
      specialize (Hwf name macro Hname). cbn in Hwf. unfold wfMacro in Hwf.
      rewrite Hi in Hwf. cbn in Hwf. apply negb_true_iff in Hwf.
      apply bool_decide_eq_false in Hwf. unfold syntaxPtr in Hx0.
      destruct (syntax macro); [|congruence]. destruct Hwf. eauto.
    - apply bool_decide_eq_false in Hin. contradiction. }
  apply bind_Ok in H as ([actualArgs parser''] & pp2 & Hargs & H).
  assert (macros pp2 = macros pp) as Hm2.
  { destruct (needsArgs macro).
    - apply Quiet_parseActualArgumentList in Hargs. apply Hargs.
    - now injection Hargs as _ _ <-. }
  destruct (needsArgs macro && _).
  { injection H as <- <-. cbn. repeat split; auto; discriminate. }
  apply bind_Ok in H as ([ok e'] & pp3 & Hexp & H).
  pose proof (Loud_expandMacro rec Hloud _ _ _ _ _ _ Hexp) as ((Hm3 & _) & _).
  destruct ok; simpl in H.
  2:{ injection H as <- <-. cbn. repeat split; auto; discriminate. }
  apply bind_Ok in H as (r1 & pp4 & Hrec1 & H).
  pose proof (Hloud _ _ _ _ _ Hrec1) as ((Hm4 & _) & _).
  assert (wfTable (macros pp3)) as Hwf3 by (rewrite Hm3, Hm2; exact Hwf).
  destruct (erl_ok r1) eqn:Hok1; simpl in H.
  2:{ injection H as <- <-. cbn. repeat split; auto; discriminate. }
  destruct (Hpost _ _ _ _ _ Hrec1 Hwf3 Hok1) as (Hsub & Hsup).
  assert (wfTable (macros pp4)) as Hwf4 by (rewrite Hm4; exact Hwf3).
  destruct (IH _ _ _ _ _ _ _ H Hwf4) as (H1 & H2 & H3 & H4).
  split; [|split; [exact H2|split; [|exact H4]]].
  - intros Hok. destruct (H1 Hok) as (Ha & Hb). split.
    + intros x Hx. apply Ha in Hx. apply elem_of_difference in Hx as [Hx Hne].
      apply Hsub in Hx. apply elem_of_union in Hx as [Hx|Hx]; [exact Hx|contradiction].
    + intros x Hx. apply Hb. apply elem_of_difference in Hx as [Hx Hne].
      apply elem_of_difference. split; [|exact Hne].
      apply elem_of_difference. split.
      * apply Hsup. apply elem_of_difference. split; [|exact Hne].
        apply elem_of_union. now left.
      * intros Heq%elem_of_singleton. apply (Hfresh x Hx); [|exact Heq].
        intros ->. apply Hne. now apply elem_of_singleton.
  - intros Hok. right. destruct (H3 Hok) as [E|E]; exact E.
Qed.

End post_with_rec.

Lemma expandReplacementList_post fuel : forall tokens AE pp r pp',
  expandReplacementList fuel tokens AE pp = Ok (r, pp') ->
  wfTable (macros pp) ->
  (erl_ok r = true ->
     erl_alreadyExpanded r ⊆ AE /\ AE ∖ {[0%N]} ⊆ erl_alreadyExpanded r) /\
  (erl_ok r = false -> erl_tokens r = tokens /\ erl_replaced r = false) /\
  (erl_replaced r = false -> erl_tokens r = tokens).
Proof.
  induction fuel as [|fuel IH]; intros tokens AE pp r pp' H Hwf; [discriminate|].
  rewrite expandReplacementList_S in H.
  apply erl_loop_post in H as (H1 & H2 & _ & H4); auto.
  - apply Loud_expandReplacementList.
  - intros ts AE' pp0 r0 pp0' Hr Hwf0 Hok. now apply (IH _ _ _ _ _ Hr Hwf0).
Qed.

(** X18: a nested expansion that succeeds hands [alreadyExpanded] back as it
    got it, up to the null pointer that an intrinsic macro inserts and
    erases; one that fails leaves the caller's tokens untouched; and the
    caller's tokens are replaced only by a fresh copy. *)
Theorem expandReplacementList_restores_alreadyExpanded (fuel : nat) (tokens : list Token)
    (AE : gset N) (pp : PPState) (r : ReplacementResult) (pp' : PPState) :
  wfTable (macros pp) ->
  expandReplacementList fuel tokens AE pp = Ok (r, pp') ->
  (erl_ok r = true ->
     erl_alreadyExpanded r ⊆ AE /\ AE ∖ {[0%N]} ⊆ erl_alreadyExpanded r) /\
  (erl_ok r = false -> erl_tokens r = tokens /\ erl_replaced r = false) /\
  (erl_replaced r = false -> erl_tokens r = tokens).
Proof. intros Hwf H. exact (expandReplacementList_post fuel _ _ _ _ _ H Hwf). Qed.

End replacement_list.


Lemma expandReplacementList_restores_alreadyExpanded_witness :
  exists r pp',
    expandReplacementList (L := Example.lexer) 3 [Example.usage "`M" 0; Example.usage "`M" 3]
      {[ 5%N ]} (Example.initialState
                   [("M"%string, Example.defineMacro 10 "M" None [Example.ident "x" 9])] [])
    = Ok (r, pp') /\
    map rawText (erl_tokens r) = ["x"%string; "x"%string] /\
    (erl_ok r = true ->
       erl_alreadyExpanded r ⊆ {[ 5%N ]} /\ {[ 5%N ]} ∖ {[0%N]} ⊆ erl_alreadyExpanded r) /\
    (erl_ok r = false ->
       erl_tokens r = [Example.usage "`M" 0; Example.usage "`M" 3] /\ erl_replaced r = false) /\
    (erl_replaced r = false ->
       erl_tokens r = [Example.usage "`M" 0; Example.usage "`M" 3]).
Proof.
  eexists _, _. split; [vm_compute; reflexivity|].
  split; [reflexivity|].
  eapply (expandReplacementList_restores_alreadyExpanded (L := Example.lexer) 3
            [Example.usage "`M" 0; Example.usage "`M" 3] {[ 5%N ]}
            (Example.initialState
               [("M"%string, Example.defineMacro 10 "M" None [Example.ident "x" 9])] [])).
  - apply map_Forall_insert_2; [reflexivity|apply map_Forall_empty].
  - vm_compute. reflexivity.
Defined.

(** ** The expansion only adds diagnostics and never touches the macro table *)

Lemma grows_refl pp : grows pp pp.
Proof. split; [reflexivity|]. exists []. now rewrite app_nil_r. Qed.

Lemma grows_trans pp1 pp2 pp3 : grows pp1 pp2 -> grows pp2 pp3 -> grows pp1 pp3.
Proof.
  intros [Hm1 [ds1 Hd1]] [Hm2 [ds2 Hd2]]. split; [congruence|].
  exists (ds1 ++ ds2). rewrite Hd2, Hd1. now rewrite app_assoc.
Qed.

Lemma Grows_ret {A} (a : A) : Grows (ret a).
Proof. intros pp a' pp' [= _ <-]. apply grows_refl. Qed.

Lemma Grows_crash {A} : Grows (@crash A).
Proof. intros pp a pp' H. discriminate. Qed.

Lemma Grows_outOfFuel {A} : Grows (@outOfFuel A).
Proof. intros pp a pp' H. discriminate. Qed.

Lemma Grows_bind {A B} (c : M A) (k : A -> M B) :
  Grows c -> (forall a, Grows (k a)) -> Grows (bind c k).
Proof.
  intros Hc Hk pp b pp' H. apply bind_Ok in H as (a & pp1 & H1 & H2).
  eapply grows_trans; [eapply Hc|eapply Hk]; eauto.
Qed.

Lemma Grows_must {A} (o : option A) : Grows (must o).
Proof. destruct o; [apply Grows_ret|apply Grows_crash]. Qed.

Lemma Grows_getState : Grows getState.
Proof. intros pp a pp' [= _ <-]. apply grows_refl. Qed.

Lemma Grows_addDiag c l a : Grows (addDiag c l a).
Proof. intros pp [] pp' [= <-]. split; [reflexivity|]. eexists. reflexivity. Qed.

Lemma Grows_addExternalDiags ds : Grows (addExternalDiags ds).
Proof. intros pp [] pp' [= <-]. split; [reflexivity|]. eexists. reflexivity. Qed.

Lemma Grows_createExpansionLoc sp r b n : Grows (createExpansionLoc sp r b n).
Proof. intros pp a pp' [= _ <-]. split; [reflexivity|]. exists []. cbn. now rewrite app_nil_r. Qed.

Lemma Grows_pp_peek : Grows pp_peek.
Proof. intros pp a pp' [= _ <-]. apply grows_refl. Qed.

Lemma Grows_pp_consume : Grows pp_consume.
Proof.
  intros pp a pp'. unfold pp_consume.
  destruct (input pp); intros [= _ <-]; (split; [reflexivity|]); exists []; cbn;
    now rewrite app_nil_r.
Qed.

Lemma Grows_setExpandedTokens ts : Grows (setExpandedTokens ts).
Proof. intros pp a pp' [= _ <-]. split; [reflexivity|]. exists []. cbn. now rewrite app_nil_r. Qed.

Lemma Grows_setCurrentMacroToken i : Grows (setCurrentMacroToken i).
Proof. intros pp a pp' [= _ <-]. split; [reflexivity|]. exists []. cbn. now rewrite app_nil_r. Qed.

(** Structural proof search for [Grows] goals. *)
Create HintDb grows_db discriminated.
#[local] Hint Resolve Grows_ret Grows_crash Grows_outOfFuel Grows_must Grows_getState
  Grows_addDiag Grows_addExternalDiags Grows_createExpansionLoc Grows_pp_peek
  Grows_pp_consume Grows_setExpandedTokens Grows_setCurrentMacroToken : grows_db.

Ltac grows_step :=
  match goal with
  | |- Grows (bind _ _) => apply Grows_bind; [|intros ?]
  | |- Grows (match ?x with _ => _ end) => destruct x
  | |- Grows (let '(_, _) := ?x in _) => destruct x
  | |- Grows _ => solve [auto with grows_db]
  end.
Ltac grows_auto := repeat grows_step.

Section Grows_engine.
Context {L : Lexer}.

Lemma Grows_pp_expect k : Grows (pp_expect k).
Proof. unfold pp_expect. grows_auto. Qed.

Lemma Grows_findMacro d : Grows (findMacro d).
Proof. unfold findMacro. grows_auto. Qed.

Lemma Grows_peek p : Grows (peek p).
Proof. unfold peek. grows_auto. Qed.

Lemma Grows_consume p : Grows (consume p).
Proof. unfold consume. grows_auto. Qed.

Lemma Grows_expect p k : Grows (expect p k).
Proof. unfold expect. pose proof Grows_pp_expect. grows_auto. Qed.

Lemma Grows_parseTokenList_loop n : forall b p ts st, Grows (parseTokenList_loop n b p ts st).
Proof.
  pose proof Grows_peek. pose proof Grows_consume.
  induction n as [|n IH]; intros b p ts st; simpl; grows_auto.
Qed.

Lemma Grows_parseTokenList b p : Grows (parseTokenList b p).
Proof. unfold parseTokenList. pose proof Grows_parseTokenList_loop. grows_auto. Qed.

Lemma Grows_parseArgumentList_loop n : forall p rs, Grows (parseArgumentList_loop n p rs).
Proof.
  pose proof Grows_peek. pose proof Grows_consume. pose proof Grows_parseTokenList.
  induction n as [|n IH]; intros p rs; simpl; unfold parseActualArgument; grows_auto.
Qed.

Lemma Grows_parseActualArgumentList p t : Grows (parseActualArgumentList p t).
Proof.
  unfold parseActualArgumentList, parseArgumentList.
  pose proof Grows_peek. pose proof Grows_consume. pose proof Grows_expect.
  pose proof Grows_parseArgumentList_loop.
  grows_auto.
Qed.

Lemma Grows_ops_switch tokens token i s : Grows (ops_switch tokens token i s).
Proof.
  unfold ops_switch, ops_quote, ops_paste, ops_default, pasteIgnored. grows_auto.
Qed.

Lemma Grows_ops_emit rec newToken s :
  (forall ts d, Grows (rec ts d)) -> Grows (ops_emit rec newToken s).
Proof. intros Hrec. unfold ops_emit. grows_auto. Qed.

Lemma Grows_ops_body rec tokens i s :
  (forall ts d, Grows (rec ts d)) -> Grows (ops_body rec tokens i s).
Proof.
  intros Hrec. unfold ops_body.
  pose proof Grows_ops_switch. pose proof (fun nt s => Grows_ops_emit rec nt s Hrec).
  grows_auto.
Qed.

Lemma Grows_ops_loop rec tokens n :
  (forall ts d, Grows (rec ts d)) -> forall i s, Grows (ops_loop rec tokens n i s).
Proof.
  intros Hrec. pose proof (fun i s => Grows_ops_body rec tokens i s Hrec).
  induction n as [|n IH]; intros i s; simpl; grows_auto.
Qed.

Lemma Grows_applyMacroOps fuel : forall tokens dest0, Grows (applyMacroOps fuel tokens dest0).
Proof.
  induction fuel as [|fuel IH]; intros tokens dest0; simpl; [grows_auto|].
  pose proof (Grows_ops_loop (applyMacroOps fuel) tokens (length tokens) IH).
  grows_auto.
Qed.

Lemma Grows_adjustLoc t ml fl r : Grows (adjustLoc t ml fl r).
Proof. unfold adjustLoc. grows_auto. Qed.

Lemma Grows_append_at e t l b : Grows (append_at e t l b).
Proof. unfold append_at. grows_auto. Qed.

Lemma Grows_append e t ml fl r b : Grows (append e t ml fl r b).
Proof.
  unfold append. pose proof Grows_adjustLoc. pose proof Grows_append_at. grows_auto.
Qed.

Lemma Grows_appendAll ts : forall e ml fl r, Grows (appendAll e ts ml fl r).
Proof.
  pose proof Grows_append.
  induction ts as [|t ts IH]; intros e ml fl r; simpl; grows_auto.
Qed.

Lemma Grows_expandIntrinsic i e : Grows (expandIntrinsic i e).
Proof. unfold expandIntrinsic. pose proof Grows_append_at. grows_auto. Qed.

Lemma Grows_matchArguments formals : forall i a m, Grows (matchArguments formals i a m).
Proof.
  induction formals as [|f formals IH]; intros i a m; simpl; grows_auto.
Qed.

Lemma Grows_expand_append r t s : Grows (expand_append r t s).
Proof. unfold expand_append. pose proof Grows_append. grows_auto. Qed.

Lemma Grows_appendBody t e al fl r : Grows (appendBody t e al fl r).
Proof. unfold appendBody. pose proof Grows_append. grows_auto. Qed.

Lemma Grows_appendBodyAll ts : forall e al fl r, Grows (appendBodyAll ts e al fl r).
Proof.
  pose proof Grows_appendBody.
  induction ts as [|t ts IH]; intros e al fl r; simpl; grows_auto.
Qed.

End Grows_engine.
Section Grows_expansion.
Context {L : Lexer}.

Section Grows_with_rec.
Variable rec : list Token -> gset N -> M ReplacementResult.
Hypothesis Hrec : forall ts AE, Grows (rec ts AE).

Lemma Grows_handleToken r t s : Grows (handleToken rec r t s).
Proof using Hrec.
  pose proof Grows_expand_append. pose proof Grows_adjustLoc.
  pose proof Grows_appendAll. pose proof Grows_appendBodyAll.
  unfold handleToken. grows_auto.
Qed.

Lemma Grows_handleTokens r ts : forall s, Grows (handleTokens rec r ts s).
Proof using Hrec.
  pose proof Grows_handleToken.
  induction ts as [|t ts IH]; intros s; simpl; grows_auto.
Qed.

Lemma Grows_expandBodyToken r t s : Grows (expandBodyToken rec r t s).
Proof using Hrec.
  pose proof Grows_handleToken. pose proof Grows_handleTokens.
  unfold expandBodyToken. grows_auto.
Qed.

Lemma Grows_expandBody r ts : forall s, Grows (expandBody rec r ts s).
Proof using Hrec.
  pose proof Grows_expandBodyToken.
  induction ts as [|t ts IH]; intros s; simpl; grows_auto.
Qed.

Lemma Grows_expandMacro macro e actualArgs : Grows (expandMacro rec macro e actualArgs).
Proof using Hrec.
  pose proof Grows_expandIntrinsic. pose proof Grows_appendAll.
  pose proof Grows_matchArguments. pose proof Grows_expandBody.
  unfold expandMacro. grows_auto.
Qed.

Lemma Grows_erl_loop tokens0 n :
  forall parser outBuffer es AE, Grows (erl_loop rec tokens0 n parser outBuffer es AE).
Proof using Hrec.
  pose proof Grows_findMacro. pose proof Grows_parseActualArgumentList.
  pose proof Grows_expandMacro.
  induction n as [|n IH]; intros parser outBuffer es AE; simpl; unfold erl_fail; grows_auto.
Qed.

End Grows_with_rec.

Lemma Grows_expandReplacementList fuel :
  forall tokens AE, Grows (expandReplacementList fuel tokens AE).
Proof.
  induction fuel as [|fuel IH]; intros tokens AE.
  - apply Grows_outOfFuel.
  - rewrite expandReplacementList_S. apply Grows_erl_loop, IH.
Qed.

Lemma Grows_topLevel_loop fuel n :
  forall tokens AE actualArgs, Grows (topLevel_loop fuel n tokens AE actualArgs).
Proof.
  pose proof (Grows_expandReplacementList fuel). pose proof (Grows_applyMacroOps fuel).
  induction n as [|n IH]; intros tokens AE actualArgs; simpl; unfold topLevel_finish;
    grows_auto.
Qed.

Lemma Grows_handleTopLevelMacro fuel directive : Grows (handleTopLevelMacro fuel directive).
Proof.
  pose proof Grows_findMacro. pose proof Grows_parseActualArgumentList.
  pose proof (Grows_expandMacro _ (Grows_expandReplacementList fuel)).
  pose proof (Grows_topLevel_loop fuel fuel).
  unfold handleTopLevelMacro. grows_auto.
Qed.

(** X19: whatever a top-level macro usage leads to, the macro table is left as
    it was and the diagnostics reported before are all still there, in front
    of the new ones. *)
Theorem handleTopLevelMacro_keeps_table_and_diagnostics (fuel : nat) (directive : Token)
    (pp : PPState) (r : option MacroActualArgumentListSyntax) (pp' : PPState) :
  handleTopLevelMacro fuel directive pp = Ok (r, pp') ->
  macros pp' = macros pp /\
  exists ds, diagnostics pp' = diagnostics pp ++ ds.
Proof. intros H. exact (Grows_handleTopLevelMacro fuel directive pp r pp' H). Qed.

End Grows_expansion.

Lemma handleTopLevelMacro_keeps_table_and_diagnostics_witness :
  exists r pp',
    handleTopLevelMacro (L := Example.lexer) 3 (Example.usage "`m1" 100)
      (Example.initialState Examples.tableMutual []) = Ok (r, pp') /\
    macros pp' = macros (Example.initialState Examples.tableMutual []) /\
    exists ds, diagnostics pp' =
               diagnostics (Example.initialState Examples.tableMutual []) ++ ds.
Proof.
  eexists _, _. split; [vm_compute; reflexivity|].
  eapply (handleTopLevelMacro_keeps_table_and_diagnostics (L := Example.lexer) 3
            (Example.usage "`m1" 100) (Example.initialState Examples.tableMutual [])).
  vm_compute. reflexivity.
Defined.

(** ** Top-level expansion of object-like, built-in and intrinsic macros *)

Section object_like.
Context {L : Lexer}.

Lemma onlyBuffers_refl pp : onlyBuffers pp pp.
Proof. repeat split. Qed.

Lemma onlyBuffers_trans pp1 pp2 pp3 :
  onlyBuffers pp1 pp2 -> onlyBuffers pp2 pp3 -> onlyBuffers pp1 pp3.
Proof.
  intros (a1 & b1 & c1 & d1 & e1) (a2 & b2 & c2 & d2 & e2). repeat split; congruence.
Qed.

Lemma adjustLoc_onlyBuffers t ml fl range pp :
  exists loc ml' fl' pp',
    adjustLoc t ml fl range pp = Ok ((loc, ml', fl'), pp') /\ onlyBuffers pp pp'.
Proof.
  unfold adjustLoc. destruct (negb _); cbv [bind createExpansionLoc ret].
  - do 4 eexists. split; [reflexivity|]. repeat split.
  - do 4 eexists. split; [reflexivity|]. repeat split.
Qed.

Lemma createExpansionLoc_onlyBuffers sp r b n pp :
  exists loc pp', createExpansionLoc sp r b n pp = Ok (loc, pp') /\ onlyBuffers pp pp'.
Proof. do 2 eexists. split; [reflexivity|]. repeat split. Qed.

(** What [append] adds for a token that is no line continuation. *)
Lemma append_ordinary e token ml fl range pp :
  kind token <> TokenKind.LineContinuation ->
  exists loc e' ml' fl' pp',
    append e token ml fl range false pp = Ok ((e', ml', fl'), pp') /\
    exp_dest e' = exp_dest e ++
      [mkToken (kind token) (appendedTrivia e (trivia token)) (rawText token) loc
         (directiveKind token)] /\
    any e' = true /\ usageSite e' = usageSite e /\ isTopLevel e' = isTopLevel e /\
    onlyBuffers pp pp'.
Proof.
  intros Hk. unfold append.
  destruct (adjustLoc_onlyBuffers token ml fl range pp) as (loc & ml' & fl' & pp' & Hadj & Hob).
  rewrite (bind_eval _ _ _ _ _ Hadj).
  exists loc. unfold append_at, appendedTrivia.
  destruct (any e); [|destruct (isTopLevel e) eqn:Htop]; cbn [negb withTrivia kind];
    rewrite (bool_decide_eq_false_2 _ Hk); cbn [andb]; rewrite bind_ret_l;
    eexists _, _, _, _; (split; [reflexivity|]); cbn; repeat split; auto; apply Hob.
Qed.

Lemma appendAll_ordinary tokens : forall e ml fl range pp,
  Forall (fun t => kind t <> TokenKind.LineContinuation) tokens ->
  exists ts' e' ml' fl' pp',
    appendAll e tokens ml fl range pp = Ok ((e', ml', fl'), pp') /\
    exp_dest e' = exp_dest e ++ ts' /\
    length ts' = length tokens /\
    (forall i t, tokens !! i = Some t ->
       exists loc, ts' !! i =
         Some (mkToken (kind t)
                 (if (i =? 0)%nat then appendedTrivia e (trivia t) else trivia t)
                 (rawText t) loc (directiveKind t))) /\
    onlyBuffers pp pp'.
Proof.
  induction tokens as [|t tokens IH]; intros e ml fl range pp Hall.
  - exists [], e, ml, fl, pp. cbn. rewrite app_nil_r.
    repeat split. intros i t Hi. discriminate.
  - apply Forall_cons in Hall as [Ht Hall].
    destruct (append_ordinary e t ml fl range pp Ht)
      as (loc & e1 & ml1 & fl1 & pp1 & Hrun & Hd & Hany & Hus & Htop & Hob).
    destruct (IH e1 ml1 fl1 range pp1 Hall)
      as (ts' & e2 & ml2 & fl2 & pp2 & Hrun2 & Hd2 & Hlen & Hts & Hob2).
    eexists (_ :: ts'), e2, ml2, fl2, pp2. cbn [appendAll].
    rewrite (bind_eval _ _ _ _ _ Hrun). split; [exact Hrun2|].
    split; [rewrite Hd2, Hd, <- app_assoc; reflexivity|].
    split; [cbn; now rewrite Hlen|].
    split; [|eapply onlyBuffers_trans; eauto].
    intros [|i] t' Hi.
    + injection Hi as <-. eexists. reflexivity.
    + destruct (Hts i t' Hi) as (loc' & Hl). exists loc'.
      match goal with |- context [(?x :: ts') !! S i] =>
        change ((x :: ts') !! S i) with (ts' !! i) end.
      rewrite Hl. unfold appendedTrivia. rewrite Hany. now destruct i.
Qed.

Lemma relocatedBody_ordinary body_ ts pp :
  relocatedBody body_ ts -> Forall ordinaryToken body_ ->
  Forall (inert pp) ts /\ noSentinels ts.
Proof.
  intros [Hlen Hts] Hall. split; apply Forall_forall; intros t' Hin;
    apply list_elem_of_lookup_1 in Hin as [i Hi];
    (assert (i < length body_)%nat as Hlt by (rewrite <- Hlen; eapply lookup_lt_Some; eauto));
    destruct (lookup_lt_is_Some_2 body_ i Hlt) as [t Ht];
    destruct (Hts i t Ht) as (loc & Hl); rewrite Hl in Hi; injection Hi as <-;
    rewrite Forall_forall in Hall;
    destruct (Hall t (list_elem_of_lookup_2 _ _ _ Ht)) as (Hs & _ & Hu).
  - left. exact Hu.
  - exact Hs.
Qed.

Lemma topLevel_object_like fuel directive pp macro d body0 rest :
  findMacro directive pp = Ok (macro, pp) ->
  syntax macro = Some d -> isIntrinsic macro = false ->
  formalArguments d = None -> body d = body0 :: rest ->
  Forall ordinaryToken (body0 :: rest) ->
  currentMacroToken pp = None ->
  exists ts pp',
    handleTopLevelMacro (S fuel) directive pp = Ok (None, pp') /\
    expandedTokens pp' = ts /\ currentMacroToken pp' = Some 0%nat /\
    macros pp' = macros pp /\ diagnostics pp' = diagnostics pp /\ input pp' = input pp /\
    relocatedBody (body0 :: rest) ts.
Proof.
  intros Hfind Hsyn Hintr Hformals Hbody Hall Hcur.
  unfold handleTopLevelMacro. rewrite (bind_eval _ _ _ _ _ Hfind).
  assert (valid macro = true) as ->.
  { unfold valid. rewrite Hsyn. rewrite bool_decide_eq_true_2 by eauto. reflexivity. }
  assert (needsArgs macro = false) as Hna.
  { unfold needsArgs. rewrite Hsyn, Hformals.
    apply bool_decide_eq_false_2. intros [? ?]. discriminate. }
  cbn [negb]. rewrite (bind_eval _ _ pp pp pp eq_refl), Hcur.
  rewrite bool_decide_eq_false_2 by (intros [? ?]; discriminate).
  rewrite Hna. rewrite bind_ret_l. cbn [andb].
  (* the body is copied into the expansion *)
  unfold expandMacro. rewrite Hintr, Hsyn. cbn [must]. rewrite bind_assoc, bind_ret_l.
  rewrite Hbody, Hformals. rewrite bind_assoc.
  erewrite bind_eval by reflexivity. rewrite bind_assoc.
  assert (Forall (fun t => kind t <> TokenKind.LineContinuation) (body0 :: rest)) as Hlc.
  { eapply Forall_impl; [exact Hall|]. intros t (_ & H & _). exact H. }
  match goal with |- context [bind (appendAll ?e _ ?ml ?fl ?r) _ ?p] =>
    destruct (appendAll_ordinary (body0 :: rest) e ml fl r p Hlc)
      as (ts & e' & ml' & fl' & pp1 & Hrun & Hd & Hlen & Hts & Hob) end.
  rewrite (bind_eval _ _ _ _ _ Hrun). rewrite bind_ret_l. cbn [negb].
  cbn [exp_dest app] in Hd. rewrite Hd.
  assert (relocatedBody (body0 :: rest) ts) as Hrel.
  { split; [exact Hlen|]. intros i t Hi. destruct (Hts i t Hi) as (loc & Hl).
    exists loc. rewrite Hl. unfold appendedTrivia. cbn. reflexivity. }
  destruct (relocatedBody_ordinary _ _ pp1 Hrel Hall) as [Hinert Hplain].
  (* the loop: nothing to expand, nothing to rewrite *)
  cbn [topLevel_loop].
  rewrite (bind_eval _ _ _ _ _
             (expandReplacementList_inert fuel ts _ pp1 Hinert)).
  cbn [erl_ok erl_tokens erl_replaced erl_alreadyExpanded negb].
  cbv [bind setExpandedTokens].
  rewrite (applyMacroOps_plain fuel ts [] _ Hplain). cbn [app negb andb].
  unfold topLevel_finish. cbv [bind getState setCurrentMacroToken ret expandedTokens].
  destruct ts as [|t0 ts]; [discriminate Hlen|]. cbn [isEmpty negb].
  destruct Hob as (Hm & Hdg & Hin & _ & _).
  eexists _, _. split; [reflexivity|]. cbn. repeat split; auto; apply Hrel.
Qed.

(** ** Relocation of a body that lies in one buffer *)

Lemma createExpansionLoc_eval sp r b n pp :
  createExpansionLoc sp r b n pp =
  Ok (mkLoc (nextBufferID (sourceManager pp)) 0, withExpansion (mkExpansion sp r b n) pp).
Proof. reflexivity. Qed.

Lemma append_same_buffer e token ml fl range pp :
  kind token <> TokenKind.LineContinuation ->
  loc_buffer (location token) = loc_buffer fl ->
  append e token ml fl range false pp =
  Ok ((mkMacroExpansion
         (exp_dest e ++ [relocate ml fl (withTrivia token (appendedTrivia e (trivia token)))])
         (usageSite e) true (isTopLevel e), ml, fl), pp).
Proof.
  intros Hk Hbuf. unfold append, adjustLoc.
  rewrite (bool_decide_eq_true_2 _ Hbuf). cbn [negb]. rewrite bind_ret_l.
  unfold append_at, appendedTrivia, relocate.
  destruct (any e); [|destruct (isTopLevel e) eqn:Htop]; cbn [negb withTrivia kind];
    rewrite (bool_decide_eq_false_2 _ Hk); cbn [andb]; rewrite bind_ret_l; reflexivity.
Qed.

Lemma appendAll_appended tokens : forall e ml fl range pp,
  any e = true ->
  Forall (fun t => kind t <> TokenKind.LineContinuation) tokens ->
  inBufferOf fl tokens ->
  appendAll e tokens ml fl range pp =
  Ok ((mkMacroExpansion (exp_dest e ++ map (relocate ml fl) tokens)
         (usageSite e) true (isTopLevel e), ml, fl), pp).
Proof.
  induction tokens as [|t tokens IH]; intros e ml fl range pp Hany Hlc Hbuf.
  - cbn. rewrite app_nil_r. destruct e. cbn in Hany. now subst.
  - apply Forall_cons in Hlc as [Ht Hlc]. apply Forall_cons in Hbuf as [Hb Hbuf].
    cbn [appendAll]. rewrite (bind_eval _ _ _ _ _ (append_same_buffer e t ml fl range pp Ht Hb)).
    cbv iota beta. rewrite IH by (try reflexivity; assumption).
    cbn [exp_dest usageSite isTopLevel map]. rewrite <- app_assoc. cbn [app].
    unfold appendedTrivia. rewrite Hany. now destruct t.
Qed.

Lemma appendAll_same_buffer t tokens e ml fl range pp :
  Forall (fun t => kind t <> TokenKind.LineContinuation) (t :: tokens) ->
  inBufferOf fl (t :: tokens) ->
  appendAll e (t :: tokens) ml fl range pp =
  Ok ((mkMacroExpansion
         (exp_dest e ++ relocated ml fl (appendedTrivia e (trivia t)) (t :: tokens))
         (usageSite e) true (isTopLevel e), ml, fl), pp).
Proof.
  intros Hlc Hbuf.
  apply Forall_cons in Hlc as [Ht Hlc]. apply Forall_cons in Hbuf as [Hb Hbuf].
  cbn [appendAll]. rewrite (bind_eval _ _ _ _ _ (append_same_buffer e t ml fl range pp Ht Hb)).
  cbv iota beta. rewrite appendAll_appended by (try reflexivity; assumption).
  cbn [exp_dest usageSite isTopLevel relocated]. now rewrite <- app_assoc.
Qed.

Lemma relocated_ordinary ml fl tr0 body_ pp :
  Forall ordinaryToken body_ ->
  Forall (inert pp) (relocated ml fl tr0 body_) /\ noSentinels (relocated ml fl tr0 body_).
Proof.
  intros Hall. destruct body_ as [|t rest]; [split; constructor|].
  apply Forall_cons in Hall as [(Hs & _ & Hu) Hall]. cbn [relocated].
  split; (apply Forall_cons; split; [|apply Forall_map; eapply Forall_impl; [exact Hall|]]).
  - left. exact Hu.
  - intros t' (_ & _ & Hu'). left. exact Hu'.
  - exact Hs.
  - intros t' (Hs' & _). exact Hs'.
Qed.

Lemma topLevel_object_like_exact fuel directive pp macro d body0 rest :
  findMacro directive pp = Ok (macro, pp) ->
  syntax macro = Some d -> isIntrinsic macro = false ->
  formalArguments d = None -> body d = body0 :: rest ->
  Forall ordinaryToken (body0 :: rest) ->
  inBufferOf (location body0) rest ->
  currentMacroToken pp = None ->
  handleTopLevelMacro (S fuel) directive pp =
  Ok (None,
      mkPP (macros pp) (diagnostics pp)
        (sourceManager
           (withExpansion
              (mkExpansion (location body0)
                 (mkRange (location directive)
                          (loc_add (location directive) (strlen (rawText directive))))
                 false (Some (valueText (define_name d)))) pp))
        (input pp)
        (relocated (mkLoc (nextBufferID (sourceManager pp)) 0) (location body0) []
           (body0 :: rest))
        (Some 0%nat)).
Proof.
  intros Hfind Hsyn Hintr Hformals Hbody Hall Hbuf Hcur.
  unfold handleTopLevelMacro. rewrite (bind_eval _ _ _ _ _ Hfind).
  assert (valid macro = true) as ->.
  { unfold valid. rewrite Hsyn. rewrite bool_decide_eq_true_2 by eauto. reflexivity. }
  assert (needsArgs macro = false) as Hna.
  { unfold needsArgs. rewrite Hsyn, Hformals.
    apply bool_decide_eq_false_2. intros [? ?]. discriminate. }
  cbn [negb]. rewrite (bind_eval _ _ pp pp pp eq_refl), Hcur.
  rewrite bool_decide_eq_false_2 by (intros [? ?]; discriminate).
  rewrite Hna. rewrite bind_ret_l. cbn [andb].
  (* the body is copied into the expansion *)
  unfold expandMacro. rewrite Hintr, Hsyn. cbn [must]. rewrite bind_assoc, bind_ret_l.
  rewrite Hbody, Hformals. rewrite bind_assoc.
  rewrite (bind_eval _ _ _ _ _ (createExpansionLoc_eval _ _ _ _ pp)). rewrite bind_assoc.
  assert (Forall (fun t => kind t <> TokenKind.LineContinuation) (body0 :: rest)) as Hlc.
  { eapply Forall_impl; [exact Hall|]. intros t (_ & H & _). exact H. }
  assert (inBufferOf (location body0) (body0 :: rest)) as Hbuf'
    by (apply Forall_cons; split; [reflexivity|exact Hbuf]).
  rewrite (bind_eval _ _ _ _ _ (appendAll_same_buffer body0 rest _ _ _ _ _ Hlc Hbuf')).
  cbv iota beta. rewrite bind_ret_l. cbn [negb exp_dest app].
  unfold appendedTrivia at 1. cbn [any isTopLevel].
  set (ts := relocated _ _ [] (body0 :: rest)).
  set (pp1 := withExpansion _ pp).
  destruct (relocated_ordinary (mkLoc (nextBufferID (sourceManager pp)) 0) (location body0) []
              (body0 :: rest) pp1 Hall) as [Hinert Hplain].
  fold ts in Hinert, Hplain.
  (* the loop: nothing to expand, nothing to rewrite *)
  cbn [topLevel_loop].
  rewrite (bind_eval _ _ _ _ _ (expandReplacementList_inert fuel ts _ pp1 Hinert)).
  cbn [erl_ok erl_tokens erl_replaced erl_alreadyExpanded negb].
  cbv [bind setExpandedTokens].
  rewrite (applyMacroOps_plain fuel ts [] _ Hplain). cbn [app negb andb].
  unfold topLevel_finish. cbv [bind getState setCurrentMacroToken ret expandedTokens].
  subst ts. cbn [relocated isEmpty negb]. reflexivity.
Qed.

(** X21: a top-level usage of an object-like macro whose body consists of
    ordinary tokens of one buffer hands out exactly the body, moved into a
    new expansion buffer: every token keeps its kind, text and trivia,
    except that the first loses its trivia, and lies as far behind the start
    of the new buffer as it lay behind the first body token.  One expansion
    is registered with the source manager; nothing is reported and no input
    is consumed. *)
Theorem handleTopLevelMacro_expands_object_like (fuel : nat) (directive : Token)
    (pp : PPState) (c : ascii) (name : string) (macro : MacroDef)
    (d : DefineDirectiveSyntax) (body0 : Token) (rest : list Token) :
  valueText directive = String c name -> startsWith backslash name = false ->
  macros pp !! name = Some macro ->
  syntax macro = Some d -> intrinsic macro = MacroIntrinsic.None ->
  formalArguments d = None -> body d = body0 :: rest ->
  Forall ordinaryToken (body0 :: rest) ->
  inBufferOf (location body0) rest ->
  currentMacroToken pp = None ->
  handleTopLevelMacro (S fuel) directive pp =
  Ok (None,
      mkPP (macros pp) (diagnostics pp)
        (sourceManager
           (withExpansion
              (mkExpansion (location body0)
                 (mkRange (location directive)
                          (loc_add (location directive) (strlen (rawText directive))))
                 false (Some (valueText (define_name d)))) pp))
        (input pp)
        (relocated (mkLoc (nextBufferID (sourceManager pp)) 0) (location body0) []
           (body0 :: rest))
        (Some 0%nat)).
Proof.
  intros Hvt Hesc Hlook Hsyn Hintr Hformals Hbody Hall Hbuf Hcur.
  apply (topLevel_object_like_exact fuel directive pp macro d body0 rest); try assumption.
  - rewrite (findMacro_eval directive c name pp Hvt Hesc), Hlook. reflexivity.
  - unfold isIntrinsic. now rewrite Hintr.
Qed.

End object_like.

Lemma handleTopLevelMacro_expands_object_like_witness :
  handleTopLevelMacro (L := Example.lexer) 1 (Example.usage "`M" 100)
    (Example.initialState
       [("M"%string, Example.defineMacro 10 "M" None
                       [Example.spaced (Example.ident "a" 5);
                        Example.spaced (Example.ident "b" 7)])] []) =
  Ok (None,
      mkPP (list_to_map
              [("M"%string, Example.defineMacro 10 "M" None
                              [Example.spaced (Example.ident "a" 5);
                               Example.spaced (Example.ident "b" 7)])])
        []
        (mkSM 3 {[ 2%N := mkExpansion (mkLoc 1 5) (mkRange (mkLoc 1 100) (mkLoc 1 102))
                            false (Some "M"%string) ]})
        []
        [mkToken TokenKind.Identifier [] "a" (mkLoc 2 0) SyntaxKind.Unknown;
         mkToken TokenKind.Identifier [mkTrivia TriviaKind.Whitespace " "] "b" (mkLoc 2 2)
           SyntaxKind.Unknown]
        (Some 0%nat)).
Proof.
  rewrite (handleTopLevelMacro_expands_object_like (L := Example.lexer) 0
             (Example.usage "`M" 100) _ grave "M"%string
             (Example.defineMacro 10 "M" None [Example.spaced (Example.ident "a" 5); Example.spaced (Example.ident "b" 7)])
             (mkDefine 10 (Example.ident "M" 0) None [Example.spaced (Example.ident "a" 5); Example.spaced (Example.ident "b" 7)])
             (Example.spaced (Example.ident "a" 5)) [Example.spaced (Example.ident "b" 7)]).
  - vm_compute. reflexivity.
  - reflexivity.
  - reflexivity.
  - vm_compute. reflexivity.
  - reflexivity.
  - reflexivity.
  - reflexivity.
  - reflexivity.
  - repeat (apply Forall_cons; split; [repeat split; discriminate|]). apply Forall_nil. exact I.
  - repeat constructor.
  - reflexivity.
Defined.

Section built_in.
Context {L : Lexer}.

(** X22: a macro made by [createBuiltInMacro] is found under its name, is
    marked built-in, takes no arguments and expands at top level to one
    integer literal whose text is [valueStr], or the decimal form of [value]
    when [valueStr] is empty; the other entries of the table stay. *)
Theorem createBuiltInMacro_defines_literal (fuel : nat) (addr : N) (name : string)
    (value : Z) (valueStr : string) (pp : PPState) (directive : Token) (c : ascii) :
  valueText directive = String c name -> startsWith backslash name = false ->
  currentMacroToken pp = None ->
  exists pp1,
    createBuiltInMacro addr name value valueStr pp = Ok (tt, pp1) /\
    (forall other, other <> name -> macros pp1 !! other = macros pp !! other) /\
    (exists m, findMacro directive pp1 = Ok (m, pp1) /\
               builtIn m = true /\ needsArgs m = false) /\
    exists loc pp2,
      handleTopLevelMacro (S fuel) directive pp1 = Ok (None, pp2) /\
      expandedTokens pp2 =
        [mkToken TokenKind.IntegerLiteral []
           (if bool_decide (valueStr = EmptyString) then to_string value else valueStr)
           loc SyntaxKind.Unknown] /\
      currentMacroToken pp2 = Some 0%nat /\ diagnostics pp2 = diagnostics pp.
Proof.
  intros Hvt Hesc Hcur.
  set (text := if bool_decide (valueStr = EmptyString) then to_string value else valueStr).
  set (def := mkMacroDef
                (Some (mkDefine addr
                         (mkToken TokenKind.Identifier [] name NoLocation SyntaxKind.Unknown)
                         None
                         [mkToken TokenKind.IntegerLiteral [] text NoLocation
                            SyntaxKind.Unknown]))
                true MacroIntrinsic.None).
  set (pp1 := mkPP (<[name := def]> (macros pp)) (diagnostics pp) (sourceManager pp)
                (input pp) (expandedTokens pp) (currentMacroToken pp)).
  exists pp1. split; [reflexivity|].
  assert (findMacro directive pp1 = Ok (def, pp1)) as Hfind.
  { rewrite (findMacro_eval directive c name pp1 Hvt Hesc).
    change (macros pp1) with (<[name := def]> (macros pp)).
    now rewrite lookup_insert_eq. }
  split; [|split].
  - intros other Hne. change (macros pp1) with (<[name := def]> (macros pp)).
    now rewrite lookup_insert_ne.
  - exists def. split; [exact Hfind|]. split; reflexivity.
  - destruct (topLevel_object_like fuel directive pp1 def _ _ [] Hfind eq_refl eq_refl
                eq_refl eq_refl) as (ts & pp2 & Hrun & Hts & Hc & _ & Hd & _ & Hlen & Hrel).
    { apply Forall_cons. split; [|apply Forall_nil; exact I].
      repeat split; discriminate. }
    { exact Hcur. }
    destruct (Hrel 0%nat _ eq_refl) as (loc & Hl).
    exists loc, pp2. split; [exact Hrun|]. split; [|split; [exact Hc|exact Hd]].
    rewrite Hts. destruct ts as [|t0 [|t1 ts]]; try discriminate Hlen.
    now injection Hl as ->.
Qed.

(** X23: a top-level usage of an intrinsic macro hands out one literal token
    at the place of the usage: the quoted file name for [File], the line
    number for [Line]; nothing else of the state changes. *)
Theorem handleTopLevelMacro_expands_intrinsic (fuel : nat) (directive : Token)
    (pp : PPState) (c : ascii) (name : string) (macro : MacroDef) :
  valueText directive = String c name -> startsWith backslash name = false ->
  macros pp !! name = Some macro ->
  syntax macro = None -> intrinsic macro <> MacroIntrinsic.None ->
  currentMacroToken pp = None ->
  let loc := location directive in
  let tok :=
    match intrinsic macro with
    | MacroIntrinsic.Line =>
        mkToken TokenKind.IntegerLiteral [] (uintToStr (getLineNumber loc)) loc
          SyntaxKind.Unknown
    | _ =>
        mkToken TokenKind.StringLiteral []
          (String dquote (getFileName loc ++ String dquote EmptyString)) loc
          SyntaxKind.Unknown
    end in
  handleTopLevelMacro (S fuel) directive pp =
  Ok (None, mkPP (macros pp) (diagnostics pp) (sourceManager pp) (input pp) [tok]
              (Some 0%nat)).
Proof.
  intros Hvt Hesc Hlook Hsyn Hintr Hcur loc tok.
  unfold handleTopLevelMacro.
  rewrite (bind_eval _ _ _ _ _ (findMacro_eval directive c name pp Hvt Hesc)).
  rewrite Hlook. change (default nullMacro (Some macro)) with macro.
  assert (isIntrinsic macro = true) as Hi.
  { unfold isIntrinsic. now rewrite bool_decide_eq_false_2. }
  assert (valid macro = true) as -> by (unfold valid; rewrite Hi; apply orb_true_r).
  assert (needsArgs macro = false) as -> by (unfold needsArgs; now rewrite Hsyn).
  cbn [negb]. rewrite (bind_eval _ _ pp pp pp eq_refl), Hcur.
  rewrite bool_decide_eq_false_2 by (intros [? ?]; discriminate).
  rewrite bind_ret_l. cbn [andb].
  assert (expandMacro (expandReplacementList fuel) macro
            (mkMacroExpansion [] directive false true) None pp =
          Ok ((true, mkMacroExpansion [tok] directive true true), pp)) as Hexp.
  { unfold expandMacro. rewrite Hi. unfold expandIntrinsic, append_at. subst tok loc.
    destruct (intrinsic macro); [congruence| |]; reflexivity. }
  rewrite (bind_eval _ _ _ _ _ Hexp). cbn [negb exp_dest]. rewrite Hi. cbn [negb].
  assert (sentinel (kind tok) = false /\ isMacroUsage tok = false) as [Hs Hu].
  { subst tok. destruct (intrinsic macro); split; reflexivity. }
  cbn [topLevel_loop].
  rewrite (bind_eval _ _ _ _ _
             (expandReplacementList_inert fuel [tok] ∅ pp
                ltac:(apply Forall_cons; split; [now left|apply Forall_nil; exact I]))).
  cbn [erl_ok erl_tokens erl_replaced erl_alreadyExpanded negb].
  cbv [bind setExpandedTokens].
  rewrite (applyMacroOps_plain fuel [tok] [] _
             ltac:(apply Forall_cons; split; [exact Hs|apply Forall_nil; exact I])).
  reflexivity.
Qed.

End built_in.

Lemma createBuiltInMacro_defines_literal_witness :
  exists pp1,
    createBuiltInMacro 7 "WIDTH" 32 EmptyString (Example.initialState [] []) = Ok (tt, pp1) /\
    (forall other, other <> "WIDTH"%string ->
       macros pp1 !! other = macros (Example.initialState [] []) !! other) /\
    (exists m, findMacro (L := Example.lexer) (Example.usage "`WIDTH" 100) pp1 = Ok (m, pp1) /\
               builtIn m = true /\ needsArgs m = false) /\
    exists loc pp2,
      handleTopLevelMacro (L := Example.lexer) 1 (Example.usage "`WIDTH" 100) pp1
        = Ok (None, pp2) /\
      expandedTokens pp2 =
        [mkToken TokenKind.IntegerLiteral []
           (if bool_decide (EmptyString = EmptyString) then to_string 32 else EmptyString)
           loc SyntaxKind.Unknown] /\
      currentMacroToken pp2 = Some 0%nat /\
      diagnostics pp2 = diagnostics (Example.initialState [] []).
Proof.
  apply (createBuiltInMacro_defines_literal (L := Example.lexer) 0 7 "WIDTH" 32 EmptyString
           (Example.initialState [] []) (Example.usage "`WIDTH" 100) grave);
    reflexivity.
Defined.

Lemma handleTopLevelMacro_expands_intrinsic_witness :
  handleTopLevelMacro (L := Example.lexer) 1 (Example.usage "`__LINE__" 42)
    (Example.initialState
       [("__LINE__"%string, mkMacroDef None true MacroIntrinsic.Line)] []) =
  Ok (None,
      mkPP (list_to_map [("__LINE__"%string, mkMacroDef None true MacroIntrinsic.Line)])
        [] (mkSM 2 ∅) []
        [mkToken TokenKind.IntegerLiteral [] "42" (mkLoc 1 42) SyntaxKind.Unknown]
        (Some 0%nat)).
Proof.
  exact (handleTopLevelMacro_expands_intrinsic (L := Example.lexer) 0
           (Example.usage "`__LINE__" 42)
           (Example.initialState
              [("__LINE__"%string, mkMacroDef None true MacroIntrinsic.Line)] [])
           grave "__LINE__"%string
           (mkMacroDef None true MacroIntrinsic.Line)
           eq_refl eq_refl eq_refl eq_refl ltac:(discriminate) eq_refl).
Defined.

(** ** [expandMacro]: matching actual arguments to formal ones *)

Section arguments.
Context {L : Lexer}.

(** The loop over the formal arguments, generalised over its position. *)
Lemma matchArguments_missing formals : forall i a m pp,
  (exists k f, formals !! k = Some f /\ args a !! (i + k)%nat = None /\
               defaultValue f = None) ->
  matchArguments formals i a m pp =
  Ok (None, addDiagState diag.NotEnoughMacroArgs (location (closeParen a)) [] pp).
Proof.
  induction formals as [|f formals IH]; intros i a m pp (k & fk & Hk & Hnone & Hdef).
  - discriminate.
  - cbn [matchArguments].
    destruct k as [|k].
    + injection Hk as <-. rewrite Nat.add_0_r in Hnone. rewrite Hnone, Hdef. reflexivity.
    + assert (forall m', matchArguments formals (S i) a m' pp =
                Ok (None, addDiagState diag.NotEnoughMacroArgs
                            (location (closeParen a)) [] pp)) as Hrest.
      { intros m'. apply IH. exists k, fk. repeat split; try assumption.
        now replace (S i + k)%nat with (i + S k)%nat by lia. }
      destruct (args a !! i) as [actual|].
      * destruct actual, (defaultValue f); apply Hrest.
      * destruct (defaultValue f); [apply Hrest|reflexivity].
Qed.

(** X24: the argument count is checked before anything is expanded: too many
    actual arguments are reported at the opening parenthesis, a missing
    argument without default at the closing one; in both cases the expansion
    fails and appends nothing.  A macro with an empty body expands to
    nothing whatever its arguments are. *)
Theorem expandMacro_checks_argument_count
    (rec : list Token -> gset N -> M ReplacementResult) (macro : MacroDef)
    (d : DefineDirectiveSyntax) (e : MacroExpansion) (pp : PPState) :
  isIntrinsic macro = false -> syntax macro = Some d ->
  (body d = [] -> forall actualArgs,
     expandMacro rec macro e actualArgs pp = Ok ((true, e), pp)) /\
  (forall formals a,
     body d <> [] -> formalArguments d = Some formals ->
     (length formals < length (args a))%nat ->
     expandMacro rec macro e (Some a) pp =
     Ok ((false, e),
         addDiagState diag.TooManyActualMacroArgs (location (openParen a)) [] pp)) /\
  (forall formals a k f,
     body d <> [] -> formalArguments d = Some formals ->
     (length (args a) <= k)%nat -> formals !! k = Some f -> defaultValue f = None ->
     expandMacro rec macro e (Some a) pp =
     Ok ((false, e),
         addDiagState diag.NotEnoughMacroArgs (location (closeParen a)) [] pp)).
Proof.
  intros Hintr Hsyn. split; [|split].
  - intros Hbody actualArgs. unfold expandMacro. rewrite Hintr, Hsyn. cbn [must].
    rewrite bind_ret_l, Hbody. reflexivity.
  - intros formals a Hbody Hformals Hlen. unfold expandMacro. rewrite Hintr, Hsyn.
    cbn [must]. rewrite bind_ret_l. destruct (body d) as [|b0 rest]; [congruence|].
    rewrite Hformals. cbn [must]. rewrite bind_ret_l.
    destruct (Nat.ltb_spec (length formals) (length (args a))); [|lia].
    reflexivity.
  - intros formals a k f Hbody Hformals Hlen Hk Hdef. unfold expandMacro.
    rewrite Hintr, Hsyn. cbn [must]. rewrite bind_ret_l.
    destruct (body d) as [|b0 rest]; [congruence|].
    rewrite Hformals. cbn [must]. rewrite bind_ret_l.
    destruct (Nat.ltb_spec (length formals) (length (args a))) as [Hlt|_].
    { apply lookup_lt_Some in Hk. lia. }
    rewrite (bind_eval _ _ _ _ _
               (matchArguments_missing formals 0 a ∅ pp
                  ltac:(exists k, f; repeat split;
                          [exact Hk|apply lookup_ge_None; simpl; lia|exact Hdef]))).
    reflexivity.
Qed.

(** The map filled by the loop over the formal arguments. *)
Lemma matchArguments_binds formals : forall i a m pp r pp',
  matchArguments formals i a m pp = Ok (Some r, pp') ->
  pp' = pp /\
  (forall name, is_Some (m !! name) -> r !! name = m !! name) /\
  (forall k f, formals !! k = Some f ->
     valueText (formal_name f) <> EmptyString ->
     m !! valueText (formal_name f) = None ->
     (forall j g, (j < k)%nat -> formals !! j = Some g ->
        valueText (formal_name g) <> valueText (formal_name f)) ->
     exists ts, boundTokens a (i + k) f = Some ts /\
                r !! valueText (formal_name f) = Some (mkArgTokens ts false)).
Proof.
  induction formals as [|f formals IH]; intros i a m pp r pp' H.
  - injection H as <- <-. split; [reflexivity|]. split; [auto|]. intros k f Hk. discriminate.
  - cbn [matchArguments] in H.
    set (name := valueText (formal_name f)) in *.
    set (m' tokenList :=
           if negb (bool_decide (name = EmptyString)) then
             match m !! name with
             | Some _ => m
             | None => <[name := mkArgTokens tokenList false]> m
             end
           else m) in *.
    assert (exists ts, boundTokens a i f = Some ts /\
                       matchArguments formals (S i) a (m' ts) pp = Ok (Some r, pp'))
      as (ts & Hbound & Hrun).
    { unfold boundTokens. destruct (args a !! i) as [actual|].
      - destruct actual as [|a0 actual], (defaultValue f) as [def|]; eexists;
          (split; [reflexivity|exact H]).
      - destruct (defaultValue f) as [def|].
        + eexists. split; [reflexivity|exact H].
        + cbv [bind addDiag ret] in H. discriminate. }
    clear H. destruct (IH _ _ _ _ _ _ Hrun) as (-> & Hkeep & Hnew).
    assert (forall n, is_Some (m !! n) -> m' ts !! n = m !! n) as Hm'.
    { intros n Hn. unfold m'. destruct (negb _); [|reflexivity].
      destruct (m !! name) eqn:E; [reflexivity|].
      rewrite lookup_insert_ne; [reflexivity|]. intros <-. rewrite E in Hn.
      now destruct Hn. }
    split; [reflexivity|]. split.
    + intros n Hn. rewrite Hkeep; [now apply Hm'|]. rewrite Hm'; assumption.
    + intros [|k] g Hk Hne Hfree Hfirst.
      * injection Hk as <-. fold name in Hne, Hfree |- *.
        exists ts. rewrite Nat.add_0_r. split; [exact Hbound|].
        assert (m' ts !! name = Some (mkArgTokens ts false)) as Hin.
        { unfold m'. rewrite bool_decide_eq_false_2 by exact Hne. cbn [negb].
          rewrite Hfree. now rewrite lookup_insert_eq. }
        rewrite Hkeep; [exact Hin|]. rewrite Hin. eauto.
      * cbn [lookup list_lookup] in Hk.
        replace (i + S k)%nat with (S i + k)%nat by lia.
        apply Hnew; try assumption.
        -- unfold m'. specialize (Hfirst 0%nat f ltac:(lia) eq_refl). fold name in Hfirst.
           destruct (negb _); [|exact Hfree].
           destruct (m !! name); [exact Hfree|].
           now rewrite lookup_insert_ne.
        -- intros j g' Hj Hg'. apply (Hfirst (S j) g'); [lia|exact Hg'].
Qed.

(** X25: when the arguments match, every formal argument with a non-empty
    name is bound to its actual argument, or to its default when the actual
    is empty or missing; of formals with the same name the first counts. *)
Theorem matchArguments_binds_formals (formals : list MacroFormalArgumentSyntax)
    (a : MacroActualArgumentListSyntax) (pp : PPState)
    (r : gmap string ArgTokens) (pp' : PPState) :
  matchArguments formals 0 a ∅ pp = Ok (Some r, pp') ->
  pp' = pp /\
  forall k f, formals !! k = Some f ->
    valueText (formal_name f) <> EmptyString ->
    (forall j g, (j < k)%nat -> formals !! j = Some g ->
       valueText (formal_name g) <> valueText (formal_name f)) ->
    exists ts, boundTokens a k f = Some ts /\
               r !! valueText (formal_name f) = Some (mkArgTokens ts false).
Proof.
  intros H. destruct (matchArguments_binds formals 0 a ∅ pp r pp' H) as (Hpp & _ & Hnew).
  split; [exact Hpp|]. intros k f Hk Hne Hfirst.
  apply (Hnew k f Hk Hne); [apply lookup_empty|exact Hfirst].
Qed.

End arguments.

Section substitution.
Context {L : Lexer}.
Variable rec : list Token -> gset N -> M ReplacementResult.

(** X26: the first time a formal argument occurs in the body as an
    identifier (outside a define directive), its tokens are expanded on
    their own, with an empty [alreadyExpanded], and the result is kept as
    expanded in the argument map.  The expanded argument, taken to lie in
    one buffer and to hold no line continuation, is then appended, moved
    into a new expansion buffer registered for the argument: every token
    lies as far behind the start of that buffer as it lay behind the first
    token of the argument; the first token gets the trivia of the formal's
    occurrence, or, where it opens the expansion, the trivia [append] gives
    the first token (those of the usage, none at top level). *)
Theorem handleToken_substitutes_argument (range : SourceRange) (token : Token)
    (s : ExpandState) (arg : ArgTokens) (pp : PPState) (r : ReplacementResult)
    (pp1 : PPState) (b : Token) (rest : list Token) :
  kind token = TokenKind.Identifier -> inDefineDirective s = false ->
  argumentMap s !! valueText token = Some arg -> isExpanded arg = false ->
  rec (arg_tokens arg) ∅ pp = Ok (r, pp1) ->
  erl_ok r = true -> erl_tokens r = b :: rest ->
  Forall (fun t => kind t <> TokenKind.LineContinuation) (b :: rest) ->
  inBufferOf (location b) rest ->
  exists tokenLoc ml' fl' pp2,
    adjustLoc token (expansionLoc s) (start s) range pp1 = Ok ((tokenLoc, ml', fl'), pp2) /\
    handleToken rec range token s pp =
    Ok ((true,
         mkExpand
           (mkMacroExpansion
              (exp_dest (expansion s) ++
               relocated (mkLoc (nextBufferID (sourceManager pp2)) 0) (location b)
                 (appendedTrivia (expansion s) (trivia token)) (b :: rest))
              (usageSite (expansion s)) true (isTopLevel (expansion s)))
           (<[valueText token := mkArgTokens (b :: rest) true]> (argumentMap s))
           false ml' fl'),
        withExpansion
          (mkExpansion (location b)
             (mkRange tokenLoc (loc_add tokenLoc (strlen (rawText token)))) true None)
          pp2).
Proof.
  intros Hk Hdef Harg Hexp Hrec Hok Hts Hlc Hbuf.
  destruct (adjustLoc_onlyBuffers token (expansionLoc s) (start s) range pp1)
    as (tokenLoc & ml' & fl' & pp2 & Hadj & _).
  exists tokenLoc, ml', fl', pp2. split; [exact Hadj|].
  set (argRange := mkRange tokenLoc (loc_add tokenLoc (strlen (rawText token)))).
  set (first := withTrivia b (trivia token)).
  assert (Forall (fun t => kind t <> TokenKind.LineContinuation) (first :: rest)) as Hlc'.
  { apply Forall_cons in Hlc as [Hb Hrest]. apply Forall_cons. split; assumption. }
  assert (inBufferOf (location first) (first :: rest)) as Hbuf'
    by (apply Forall_cons; split; [reflexivity|exact Hbuf]).
  unfold handleToken. rewrite Hdef. cbn [andb]. rewrite Hk.
  rewrite (bool_decide_eq_true_2 (TokenKind.Identifier = TokenKind.Identifier))
    by reflexivity.
  rewrite (bool_decide_eq_false_2 (TokenKind.Identifier = TokenKind.Directive))
    by discriminate.
  cbn [negb andb]. rewrite bind_ret_l, Harg, Hexp. cbn [negb].
  rewrite !bind_assoc. rewrite (bind_eval _ _ _ _ _ Hrec), Hok. cbn [negb].
  rewrite bind_ret_l, Hts. cbv iota beta.
  cbn [expansionLoc start expansion argumentMap inDefineDirective].
  rewrite (bind_eval _ _ _ _ _ Hadj). cbv iota beta.
  fold first. fold argRange.
  rewrite (bind_eval _ _ _ _ _ (createExpansionLoc_eval _ _ _ _ pp2)).
  rewrite bind_ret_l. rewrite ?Hdef.
  rewrite (bind_eval _ _ _ _ _ (appendAll_same_buffer first rest _ _ _ _ _ Hlc' Hbuf')).
  rewrite ?Hdef. reflexivity.
Qed.

End substitution.

Lemma expandMacro_checks_argument_count_witness :
  expandMacro (L := Example.lexer) (expandReplacementList (L := Example.lexer) 0)
    (Example.defineMacro 10 "M" (Some ["a"%string]) [Example.ident "a" 5])
    (mkMacroExpansion [] (Example.usage "`M" 100) false true)
    (Some (mkActualArgs (Example.tok TokenKind.OpenParenthesis "(" 102)
             [[Example.ident "x" 103]; [Example.ident "y" 105]]
             (Example.tok TokenKind.CloseParenthesis ")" 106)))
    (Example.initialState [] []) =
  Ok ((false, mkMacroExpansion [] (Example.usage "`M" 100) false true),
      addDiagState diag.TooManyActualMacroArgs (mkLoc 1 102) []
        (Example.initialState [] [])).
Proof.
  refine (proj1 (proj2 (expandMacro_checks_argument_count (L := Example.lexer)
            (expandReplacementList (L := Example.lexer) 0)
            (Example.defineMacro 10 "M" (Some ["a"%string]) [Example.ident "a" 5])
            _ (mkMacroExpansion [] (Example.usage "`M" 100) false true)
            (Example.initialState [] []) eq_refl eq_refl))
          _ (mkActualArgs (Example.tok TokenKind.OpenParenthesis "(" 102)
               [[Example.ident "x" 103]; [Example.ident "y" 105]]
               (Example.tok TokenKind.CloseParenthesis ")" 106)) _ eq_refl _).
  - discriminate.
  - simpl. lia.
Defined.

Lemma matchArguments_binds_formals_witness :
  exists r pp',
    matchArguments (L := Example.lexer)
      [mkFormal (Example.ident "a" 0) None;
       mkFormal (Example.ident "b" 0) (Some [Example.ident "dflt" 9])] 0
      (mkActualArgs (Example.tok TokenKind.OpenParenthesis "(" 102)
         [[Example.ident "x" 103]] (Example.tok TokenKind.CloseParenthesis ")" 104))
      ∅ (Example.initialState [] []) = Ok (Some r, pp') /\
    r !! "b"%string = Some (mkArgTokens [Example.ident "dflt" 9] false) /\
    pp' = Example.initialState [] [] /\
    forall k f,
      [mkFormal (Example.ident "a" 0) None;
       mkFormal (Example.ident "b" 0) (Some [Example.ident "dflt" 9])] !! k = Some f ->
      @valueText Example.lexer (formal_name f) <> EmptyString ->
      (forall j g, (j < k)%nat ->
         [mkFormal (Example.ident "a" 0) None;
          mkFormal (Example.ident "b" 0) (Some [Example.ident "dflt" 9])] !! j = Some g ->
         @valueText Example.lexer (formal_name g) <> @valueText Example.lexer (formal_name f)) ->
      exists ts,
        boundTokens
          (mkActualArgs (Example.tok TokenKind.OpenParenthesis "(" 102)
             [[Example.ident "x" 103]] (Example.tok TokenKind.CloseParenthesis ")" 104))
          k f = Some ts /\
        r !! @valueText Example.lexer (formal_name f) = Some (mkArgTokens ts false).
Proof.
  eexists _, _. split; [vm_compute; reflexivity|]. split; [vm_compute; reflexivity|].
  eapply (matchArguments_binds_formals (L := Example.lexer)).
  vm_compute. reflexivity.
Defined.

Lemma handleToken_substitutes_argument_witness :
  exists tokenLoc ml' fl' pp2,
    adjustLoc (Example.spaced (Example.ident "a" 5)) (mkLoc 2 0) (mkLoc 1 0)
      EmptyArgExample.someRange (Example.initialState [] []) =
      Ok ((tokenLoc, ml', fl'), pp2) /\
    handleToken (L := Example.lexer) (expandReplacementList (L := Example.lexer) 1)
      EmptyArgExample.someRange (Example.spaced (Example.ident "a" 5))
      (mkExpand (mkMacroExpansion [Example.ident "k" 0] (Example.usage "`M" 100) true true)
         {[ "a"%string := mkArgTokens [Example.ident "x" 103; Example.ident "y" 105] false ]}
         false (mkLoc 2 0) (mkLoc 1 0))
      (Example.initialState [] []) =
    Ok ((true,
         mkExpand
           (mkMacroExpansion
              ([Example.ident "k" 0] ++
               relocated (mkLoc (nextBufferID (sourceManager pp2)) 0) (mkLoc 1 103)
                 [mkTrivia TriviaKind.Whitespace " "]
                 [Example.ident "x" 103; Example.ident "y" 105])
              (Example.usage "`M" 100) true true)
           (<["a"%string := mkArgTokens [Example.ident "x" 103; Example.ident "y" 105] true]>
              {[ "a"%string :=
                   mkArgTokens [Example.ident "x" 103; Example.ident "y" 105] false ]})
           false ml' fl'),
        withExpansion
          (mkExpansion (mkLoc 1 103)
             (mkRange tokenLoc (loc_add tokenLoc 1)) true None)
          pp2).
Proof.
  set (s0 := mkExpand
               (mkMacroExpansion [Example.ident "k" 0] (Example.usage "`M" 100) true true)
               {[ "a"%string :=
                    mkArgTokens [Example.ident "x" 103; Example.ident "y" 105] false ]}
               false (mkLoc 2 0) (mkLoc 1 0)).
  assert (argumentMap s0 !! @valueText Example.lexer (Example.spaced (Example.ident "a" 5)) =
          Some (mkArgTokens [Example.ident "x" 103; Example.ident "y" 105] false)) as Harg
    by (vm_compute; reflexivity).
  assert (expandReplacementList (L := Example.lexer) 1
            [Example.ident "x" 103; Example.ident "y" 105] ∅ (Example.initialState [] []) =
          Ok (mkReplacement true [Example.ident "x" 103; Example.ident "y" 105] false ∅,
              Example.initialState [] [])) as Hrec
    by (vm_compute; reflexivity).
  assert (Forall (fun t => kind t <> TokenKind.LineContinuation)
            [Example.ident "x" 103; Example.ident "y" 105]) as Hlc
    by (repeat (apply Forall_cons; split; [discriminate|]); apply Forall_nil; exact I).
  assert (inBufferOf (location (Example.ident "x" 103)) [Example.ident "y" 105]) as Hbuf
    by (repeat constructor).
  exact (handleToken_substitutes_argument (L := Example.lexer)
           (expandReplacementList (L := Example.lexer) 1)
           EmptyArgExample.someRange (Example.spaced (Example.ident "a" 5)) s0
           _ _ _ _ _ _ eq_refl eq_refl Harg eq_refl Hrec eq_refl eq_refl Hlc Hbuf).
Defined.

(** ** [MacroParser]: what the argument parser consumes *)

Section parser.
Context {L : Lexer}.

Lemma pending_length p pp : length (pending p pp) = remaining p pp.
Proof. unfold pending, remaining. now rewrite length_app, length_drop. Qed.

Lemma peek_upcoming p pp : peek p pp = Ok (upcoming p pp, pp).
Proof.
  unfold peek, upcoming, pending.
  destruct (buffer p !! currentIndex p) as [t|] eqn:Hb.
  - now rewrite (drop_S _ _ _ Hb).
  - rewrite drop_ge by now apply lookup_ge_None. reflexivity.
Qed.

Lemma consume_pending p pp t rest :
  pending p pp = t :: rest ->
  exists p' pp',
    consume p pp = Ok ((t, p'), pp') /\ pending p' pp' = rest /\
    buffer p' = buffer p /\ macros pp' = macros pp /\ diagnostics pp' = diagnostics pp.
Proof.
  unfold pending, consume, next. intros Hp.
  destruct (buffer p !! currentIndex p) as [t0|] eqn:Hb.
  - rewrite (drop_S _ _ _ Hb) in Hp. injection Hp as -> <-.
    do 2 eexists. split; [reflexivity|]. cbn. repeat split.
  - rewrite drop_ge in Hp by now apply lookup_ge_None.
    cbn [app] in Hp. cbv [bind pp_consume ret]. rewrite Hp.
    do 2 eexists. split; [reflexivity|]. cbn.
    rewrite drop_ge by now apply lookup_ge_None. repeat split.
Qed.

Lemma parseTokenList_loop_spec n : forall b p ts st pp,
  (length (pending p pp) < n)%nat ->
  (st <> [] -> ts <> []) ->
  exists consumed p' pp',
    parseTokenList_loop n b p ts st pp = Ok ((ts ++ consumed, p'), pp') /\
    pending p pp = consumed ++ pending p' pp' /\
    buffer p' = buffer p /\ macros pp' = macros pp /\
    (diagnostics pp' = diagnostics pp \/
     exists loc a, diagnostics pp' =
                   diagnostics pp ++ [mkDiag diag.UnbalancedMacroArgDims loc a]) /\
    stopsAt b (upcoming p' pp').
Proof.
  induction n as [|n IH]; intros b p ts st pp Hn Hst; [lia|].
  cbn [parseTokenList_loop]. rewrite (bind_eval _ _ _ _ _ (peek_upcoming p pp)).
  destruct (bool_decide (kind (upcoming p pp) = TokenKind.EndOfFile)
            || negb b && negb (isOnSameLine (upcoming p pp))) eqn:Hstop.
  { assert (stopsAt b (upcoming p pp)) as Hs.
    { apply orb_true_iff in Hstop as [H|H].
      - left. now apply bool_decide_eq_true in H.
      - apply andb_true_iff in H as [H1 H2]. right. left.
        split; [now destruct b|now destruct (isOnSameLine _)]. }
    destruct st as [|top st].
    - exists [], p, pp. rewrite app_nil_r. repeat split; auto.
    - destruct (last ts) as [b0|] eqn:Hlast.
      2:{ apply last_None in Hlast. destruct (Hst ltac:(discriminate) Hlast). }
      cbn [must]. rewrite bind_ret_l. cbv [bind addDiag ret].
      exists [], p. eexists. rewrite app_nil_r. split; [reflexivity|].
      cbn. repeat split; auto. right. eauto. }
  apply orb_false_iff in Hstop as [Hne _]. apply bool_decide_eq_false in Hne.
  destruct (pending p pp) as [|t rest] eqn:Hpend.
  { exfalso. apply Hne. unfold upcoming. now rewrite Hpend. }
  assert (upcoming p pp = t) as Hup by (unfold upcoming; now rewrite Hpend).
  destruct (consume_pending p pp t rest Hpend) as (p1 & pp1 & Hc & Hp1 & Hb1 & Hm1 & Hd1).
  assert (forall stack,
    exists consumed p' pp',
      (do ' (t, p') <- consume p;;
       parseTokenList_loop n b p' (ts ++ [t])
         (if negb (bool_decide (getDelimCloseKind (kind (upcoming p pp)) = TokenKind.Unknown))
          then getDelimCloseKind (kind (upcoming p pp)) :: stack else stack)) pp
      = Ok ((ts ++ consumed, p'), pp') /\
      t :: rest = consumed ++ pending p' pp' /\
      buffer p' = buffer p /\ macros pp' = macros pp /\
      (diagnostics pp' = diagnostics pp \/
       exists loc a, diagnostics pp' =
                     diagnostics pp ++ [mkDiag diag.UnbalancedMacroArgDims loc a]) /\
      stopsAt b (upcoming p' pp')) as Hcont.
  { intros stack. rewrite (bind_eval _ _ _ _ _ Hc).
    match goal with |- context [parseTokenList_loop n b p1 ?ts' ?st'] =>
      destruct (IH b p1 ts' st' pp1) as (cs & p2 & pp2 & Hrun & Hp2 & Hb2 & Hm2 & Hd2 & Hs2)
    end.
    { rewrite Hp1. simpl in Hn. lia. }
    { intros _ H. now apply app_eq_nil in H as [_ H]. }
    exists (t :: cs), p2, pp2. rewrite Hrun, <- app_assoc. split; [reflexivity|].
    split; [cbn; now rewrite <- Hp2, Hp1|].
    split; [congruence|]. split; [congruence|]. split; [|exact Hs2].
    rewrite Hd1 in Hd2. exact Hd2. }
  destruct st as [|top rest'].
  - destruct (bool_decide (kind (upcoming p pp) = TokenKind.Comma)
              || bool_decide (kind (upcoming p pp) = TokenKind.CloseParenthesis)) eqn:Hend.
    + exists [], p, pp. rewrite app_nil_r. rewrite Hpend. repeat split; auto.
      right. right. apply orb_true_iff in Hend as [H|H]; apply bool_decide_eq_true in H; auto.
    + apply Hcont.
  - destruct (bool_decide (top = kind (upcoming p pp))); apply Hcont.
Qed.

(** X27: [parseTokenList] always returns; the tokens it returns are exactly
    the ones it took from the front of what the parser had before it, in
    order; it stops in front of an end of file, a comma or a closing
    parenthesis (or, when newlines are not allowed, a token on a new line);
    and it reports at most one [UnbalancedMacroArgDims]. *)
Theorem parseTokenList_returns_what_it_consumed (allowNewlines : bool) (p : MacroParser)
    (pp : PPState) :
  exists ts p' pp',
    parseTokenList allowNewlines p pp = Ok ((ts, p'), pp') /\
    pending p pp = ts ++ pending p' pp' /\
    buffer p' = buffer p /\ macros pp' = macros pp /\
    (diagnostics pp' = diagnostics pp \/
     exists loc a, diagnostics pp' =
                   diagnostics pp ++ [mkDiag diag.UnbalancedMacroArgDims loc a]) /\
    stopsAt allowNewlines (upcoming p' pp').
Proof.
  unfold parseTokenList. rewrite (bind_eval _ _ pp pp pp eq_refl).
  destruct (parseTokenList_loop_spec (S (remaining p pp)) allowNewlines p [] [] pp)
    as (cs & p' & pp' & Hrun & H); [rewrite pending_length; lia|congruence|].
  exists cs, p', pp'. split; [exact Hrun|exact H].
Qed.

End parser.

(** ** Unknown directives *)

Section unknown_directive.
Context {L : Lexer}.

Lemma expect_spec p k pp :
  exists t p' pp' cs,
    expect p k pp = Ok ((t, p'), pp') /\
    pending p pp = cs ++ pending p' pp' /\ buffer p' = buffer p.
Proof.
  unfold expect, pending.
  destruct (buffer p !! currentIndex p) as [cur|] eqn:Hb.
  - destruct (negb (bool_decide (kind cur = k))).
    + destruct (createExpected cur k _) as [tok ds]. cbv [bind addExternalDiags ret].
      do 3 eexists. exists []. split; [reflexivity|]. cbn. auto.
    + do 3 eexists. exists [cur]. split; [reflexivity|]. cbn.
      now rewrite (drop_S _ _ _ Hb).
  - assert (drop (currentIndex p) (buffer p) = []) as Hdrop
      by (apply drop_ge; now apply lookup_ge_None).
    rewrite Hdrop. cbn [app].
    unfold pp_expect, pp_peek, pp_consume. cbv [bind ret].
    destruct (input pp) as [|t rest] eqn:Hin.
    + destruct (bool_decide (kind eofToken = k)).
      * rewrite Hin. do 3 eexists. exists []. split; [reflexivity|].
        rewrite Hdrop, Hin. auto.
      * destruct (createExpected _ k None) as [tok ds]. cbv [bind addExternalDiags ret].
        do 3 eexists. exists []. split; [reflexivity|]. cbn. rewrite Hdrop, Hin. auto.
    + destruct (bool_decide (kind t = k)).
      * rewrite Hin. do 3 eexists. exists [t]. split; [reflexivity|]. cbn.
        rewrite Hdrop. auto.
      * destruct (createExpected _ k None) as [tok ds]. cbv [bind addExternalDiags ret].
        do 3 eexists. exists []. split; [reflexivity|]. cbn. rewrite Hdrop, Hin. auto.
Qed.

Lemma parseArgumentList_loop_spec n : forall p results pp,
  (length (pending p pp) < n)%nat ->
  exists res p' pp' cs,
    parseArgumentList_loop n p results pp = Ok ((res, p'), pp') /\
    pending p pp = cs ++ pending p' pp' /\ buffer p' = buffer p.
Proof.
  induction n as [|n IH]; intros p results pp Hn; [lia|].
  cbn [parseArgumentList_loop]. unfold parseActualArgument.
  destruct (parseTokenList_returns_what_it_consumed true p pp)
    as (ts & p1 & pp1 & Hrun & Hp1 & Hb1 & _).
  rewrite (bind_eval _ _ _ _ _ Hrun). cbv iota beta.
  rewrite (bind_eval _ _ _ _ _ (peek_upcoming p1 pp1)).
  destruct (bool_decide (kind (upcoming p1 pp1) = TokenKind.Comma)) eqn:Hc.
  - apply bool_decide_eq_true in Hc.
    destruct (pending p1 pp1) as [|t rest] eqn:Hpend.
    { unfold upcoming in Hc. rewrite Hpend in Hc. discriminate. }
    destruct (consume_pending p1 pp1 t rest Hpend) as (p2 & pp2 & Hcons & Hp2 & Hb2 & _).
    rewrite (bind_eval _ _ _ _ _ Hcons). cbv iota beta.
    destruct (IH p2 (results ++ [ts]) pp2) as (res & p3 & pp3 & cs & Hrun3 & Hp3 & Hb3).
    { rewrite Hp2. rewrite Hp1, length_app in Hn. cbn in Hn. lia. }
    exists res, p3, pp3, (ts ++ t :: cs). split; [exact Hrun3|].
    split; [|congruence]. rewrite Hp1, <- app_assoc. cbn. now rewrite <- Hp3, Hp2.
  - exists (results ++ [ts]), p1, pp1, ts. auto.
Qed.

Lemma parseActualArgumentList_spec p prev pp t rest :
  pending p pp = t :: rest -> kind t = TokenKind.OpenParenthesis ->
  exists a p' pp' cs,
    parseActualArgumentList p prev pp = Ok ((Some a, p'), pp') /\
    openParen a = t /\ rest = cs ++ pending p' pp' /\ buffer p' = buffer p.
Proof.
  intros Hpend Hk. unfold parseActualArgumentList.
  rewrite (bind_eval _ _ _ _ _ (peek_upcoming p pp)).
  assert (upcoming p pp = t) as -> by (unfold upcoming; now rewrite Hpend).
  rewrite (bool_decide_eq_true_2 _ Hk). cbn [negb].
  destruct (consume_pending p pp t rest Hpend) as (p1 & pp1 & Hcons & Hp1 & Hb1 & _).
  rewrite (bind_eval _ _ _ _ _ Hcons). cbv iota beta.
  unfold parseArgumentList. rewrite bind_assoc. rewrite (bind_eval _ _ pp1 pp1 pp1 eq_refl).
  destruct (parseArgumentList_loop_spec (S (remaining p1 pp1)) p1 [] pp1)
    as (res & p2 & pp2 & cs & Hrun & Hp2 & Hb2); [rewrite pending_length; lia|].
  rewrite (bind_eval _ _ _ _ _ Hrun). cbv iota beta.
  destruct (expect_spec p2 TokenKind.CloseParenthesis pp2)
    as (cl & p3 & pp3 & cs' & Hex & Hp3 & Hb3).
  rewrite (bind_eval _ _ _ _ _ Hex). cbv iota beta.
  do 3 eexists. exists (cs ++ cs'). split; [reflexivity|]. cbn.
  split; [reflexivity|]. split; [|congruence].
  rewrite <- Hp1, Hp2, Hp3. now rewrite app_assoc.
Qed.

(** X20: an unknown directive is reported once, with its text.  When no
    opening parenthesis follows, nothing else happens.  When one follows, an
    argument list starting with it is parsed and returned: input is
    consumed, further diagnostics may follow the first, and no token is
    handed out. *)
Theorem handleTopLevelMacro_unknown_directive (fuel : nat) (directive : Token)
    (pp : PPState) (name : string) (c : ascii) :
  valueText directive = String c name ->
  startsWith backslash name = false ->
  macros pp !! name = None ->
  ((forall t rest, input pp = t :: rest -> kind t <> TokenKind.OpenParenthesis) ->
   handleTopLevelMacro fuel directive pp =
   Ok (None,
       addDiagState diag.UnknownDirective (location directive) [valueText directive] pp)) /\
  (forall t rest,
     input pp = t :: rest -> kind t = TokenKind.OpenParenthesis ->
     exists a pp' consumed ds,
       handleTopLevelMacro fuel directive pp = Ok (Some a, pp') /\
       openParen a = t /\
       rest = consumed ++ input pp' /\
       diagnostics pp' =
         diagnostics pp ++
         mkDiag diag.UnknownDirective (location directive) [valueText directive] :: ds /\
       macros pp' = macros pp /\ expandedTokens pp' = expandedTokens pp /\
       currentMacroToken pp' = currentMacroToken pp).
Proof.
  intros Hvt Hesc Hlook.
  assert (
    handleTopLevelMacro fuel directive pp =
    (do tk <- pp_peek ;;
     if bool_decide (kind tk = TokenKind.OpenParenthesis) then
       do '(actualArgs, _) <- parseActualArgumentList (setBuffer []) directive ;;
       ret actualArgs
     else ret None)
      (addDiagState diag.UnknownDirective (location directive) [valueText directive] pp))
    as Hstart.
  { unfold handleTopLevelMacro.
    rewrite (bind_eval _ _ _ _ _ (findMacro_eval directive c name pp Hvt Hesc)).
    rewrite Hlook. change (negb (valid (default nullMacro None))) with true. cbv iota.
    reflexivity. }
  split.
  - intros Hnext. rewrite Hstart. cbv [bind pp_peek addDiagState]. cbn [input].
    destruct (input pp) as [|t rest] eqn:Hin.
    + rewrite bool_decide_eq_false_2 by discriminate. reflexivity.
    + rewrite bool_decide_eq_false_2 by (eapply Hnext; eauto). reflexivity.
  - intros t rest Hin Hk. rewrite Hstart.
    set (pp1 := addDiagState diag.UnknownDirective (location directive)
                  [valueText directive] pp).
    assert (pp_peek pp1 = Ok (t, pp1)) as Hpeek
      by (unfold pp_peek; subst pp1; cbn [input addDiagState]; now rewrite Hin).
    rewrite (bind_eval _ _ _ _ _ Hpeek). rewrite (bool_decide_eq_true_2 _ Hk).
    destruct (parseActualArgumentList_spec (setBuffer []) directive pp1 t rest)
      as (a & p' & pp' & cs & Hrun & Hopen & Hrest & Hbuf); [|exact Hk|].
    { unfold pending. cbn. exact Hin. }
    rewrite (bind_eval _ _ _ _ _ Hrun). cbv iota beta.
    destruct (Quiet_parseActualArgumentList _ _ _ _ _ Hrun) as [(Hm & Het & Hcur) _].
    destruct (Grows_parseActualArgumentList _ _ _ _ _ Hrun) as [_ [ds Hds]].
    exists a, pp', cs, ds. split; [reflexivity|]. split; [exact Hopen|].
    split.
    { rewrite Hrest. f_equal. unfold pending. rewrite Hbuf. cbn. now rewrite drop_nil. }
    split; [rewrite Hds; subst pp1; cbn; now rewrite <- app_assoc|].
    subst pp1. cbn in *. auto.
Qed.

End unknown_directive.

Lemma handleTopLevelMacro_unknown_directive_witness :
  (forall t rest,
     input (Example.initialState Examples.tableMutual [Example.ident "x" 110]) = t :: rest ->
     kind t <> TokenKind.OpenParenthesis) /\
  handleTopLevelMacro (L := Example.lexer) 0 (Example.usage "`nothing" 100)
    (Example.initialState Examples.tableMutual [Example.ident "x" 110]) =
  Ok (None,
      addDiagState diag.UnknownDirective (location (Example.usage "`nothing" 100))
        [@valueText Example.lexer (Example.usage "`nothing" 100)]
        (Example.initialState Examples.tableMutual [Example.ident "x" 110])).
Proof.
  assert (forall t rest,
     input (Example.initialState Examples.tableMutual [Example.ident "x" 110]) = t :: rest ->
     kind t <> TokenKind.OpenParenthesis) as Hnext
    by (intros t rest [= <- _]; discriminate).
  split; [exact Hnext|].
  assert (macros (Example.initialState Examples.tableMutual [Example.ident "x" 110])
            !! "nothing"%string = None) as Hlook by (vm_compute; reflexivity).
  apply (proj1 (handleTopLevelMacro_unknown_directive (L := Example.lexer) 0
                  (Example.usage "`nothing" 100) _ "nothing" grave
                  eq_refl eq_refl Hlook)).
  exact Hnext.
Defined.

(** ** Nested expansion of an object-like macro *)

Section nested.
Context {L : Lexer}.

(** [findMacro] reads nothing but the macro table. *)
Lemma findMacro_table t pp pp' m :
  findMacro t pp = Ok (m, pp) -> macros pp' = macros pp -> findMacro t pp' = Ok (m, pp').
Proof.
  unfold findMacro. intros H Hm.
  destruct (substr (valueText t) 1) as [n1|]; [|discriminate]. cbn [must] in *.
  rewrite bind_ret_l in *.
  destruct (startsWith backslash n1).
  - destruct (substr n1 1) as [n2|]; [|discriminate]. cbn [must] in *.
    rewrite bind_ret_l in *. cbv [bind getState ret] in *. rewrite Hm.
    destruct (macros pp !! n2); now injection H as ->.
  - rewrite bind_ret_l in *. cbv [bind getState ret] in *. rewrite Hm.
    destruct (macros pp !! n1); now injection H as ->.
Qed.

Lemma inert_table pp pp' t : macros pp' = macros pp -> inert pp t -> inert pp' t.
Proof.
  intros Hm [H|(m & Hf & Hv)]; [now left|right].
  exists m. split; [|exact Hv]. now apply (findMacro_table t pp).
Qed.

(** X28: in a replacement list of otherwise inert tokens, a usage of an
    object-like macro that is not being expanded and whose body consists of
    ordinary tokens of one buffer is replaced in place by that body, moved
    into a new expansion buffer: every token keeps its kind, text and
    trivia, except that the first takes the trivia of the usage, and lies as
    far behind the start of the new buffer as it lay behind the first body
    token.  The tokens around it stay, [alreadyExpanded] is handed back
    unchanged, one expansion is registered and nothing is reported. *)
Theorem expandReplacementList_expands_object_like (fuel : nat) (pre : list Token)
    (tok : Token) (post : list Token) (AE : gset N) (pp : PPState) (macro : MacroDef)
    (d : DefineDirectiveSyntax) (body0 : Token) (rest : list Token) :
  Forall (inert pp) pre -> Forall (inert pp) post ->
  isMacroUsage tok = true -> findMacro tok pp = Ok (macro, pp) ->
  syntax macro = Some d -> isIntrinsic macro = false -> syntax_addr d ∉ AE ->
  formalArguments d = None -> body d = body0 :: rest ->
  Forall ordinaryToken (body0 :: rest) ->
  inBufferOf (location body0) rest ->
  expandReplacementList (S (S fuel)) (pre ++ tok :: post) AE pp =
  Ok (mkReplacement true
        (pre ++
         relocated (mkLoc (nextBufferID (sourceManager pp)) 0) (location body0) (trivia tok)
           (body0 :: rest) ++
         post)
        true AE,
      withExpansion
        (mkExpansion (location body0)
           (mkRange (location tok) (loc_add (location tok) (strlen (rawText tok))))
           false (Some (valueText (define_name d)))) pp).
Proof.
  intros Hpre Hpost Htok Hfind Hsyn Hintr Hnin Hformals Hbody Hall Hbuf.
  assert (valid macro = true) as Hvalid.
  { unfold valid. rewrite Hsyn. rewrite bool_decide_eq_true_2 by eauto. reflexivity. }
  assert (needsArgs macro = false) as Hna.
  { unfold needsArgs. rewrite Hsyn, Hformals.
    apply bool_decide_eq_false_2. intros [? ?]. discriminate. }
  assert (syntaxPtr macro = syntax_addr d) as Hptr by (unfold syntaxPtr; now rewrite Hsyn).
  assert (Forall (fun t => kind t <> TokenKind.LineContinuation) (body0 :: rest)) as Hlc.
  { eapply Forall_impl; [exact Hall|]. intros t (_ & H & _). exact H. }
  assert (inBufferOf (location body0) (body0 :: rest)) as Hbuf'
    by (apply Forall_cons; split; [reflexivity|exact Hbuf]).
  (* the expansion of the usage *)
  set (e0 := mkMacroExpansion [] tok false false).
  set (info := mkExpansion (location body0)
                 (mkRange (location tok) (loc_add (location tok) (strlen (rawText tok))))
                 false (Some (valueText (define_name d)))).
  set (pp1 := withExpansion info pp).
  set (ts := relocated (mkLoc (nextBufferID (sourceManager pp)) 0) (location body0)
               (trivia tok) (body0 :: rest)).
  assert (expandMacro (expandReplacementList (S fuel)) macro e0 None pp =
          Ok ((true, mkMacroExpansion ts tok true false), pp1)) as Hexp.
  { unfold expandMacro. rewrite Hintr, Hsyn. cbn [must]. rewrite bind_ret_l.
    rewrite Hbody, Hformals.
    rewrite (bind_eval _ _ _ _ _ (createExpansionLoc_eval _ _ _ _ pp)).
    rewrite (bind_eval _ _ _ _ _ (appendAll_same_buffer body0 rest _ _ _ _ _ Hlc Hbuf')).
    reflexivity. }
  assert (macros pp1 = macros pp) as Hm1 by reflexivity.
  destruct (relocated_ordinary (mkLoc (nextBufferID (sourceManager pp)) 0) (location body0)
              (trivia tok) (body0 :: rest) pp1 Hall) as [Hinert _].
  fold ts in Hinert.
  (* the loop *)
  rewrite expandReplacementList_S. unfold setBuffer.
  replace (S (length (pre ++ tok :: post)))
    with (length pre + S (length post + 1))%nat by (rewrite length_app; simpl; lia).
  rewrite erl_loop_inert; [|exact Hpre|].
  2:{ rewrite drop_0. simpl. now rewrite drop_app_length. }
  cbn [erl_loop Nat.add app]. unfold next at 1. cbn [buffer currentIndex].
  rewrite (lookup_app_r pre) by lia. rewrite Nat.sub_diag. cbn [lookup list_lookup].
  rewrite isMacroUsage_negb, Htok. cbn [negb].
  rewrite (bind_eval _ _ _ _ _ Hfind), Hvalid, Hintr. cbn [negb andb].
  rewrite Hptr. rewrite bool_decide_eq_false_2 by exact Hnin.
  rewrite Hna. rewrite bind_ret_l. cbn [andb].
  fold e0. rewrite (bind_eval _ _ _ _ _ Hexp). cbn [negb exp_dest].
  rewrite (bind_eval _ _ _ _ _ (expandReplacementList_inert fuel ts _ pp1 Hinert)).
  cbn [erl_ok erl_tokens erl_alreadyExpanded negb].
  assert ((AE ∪ {[syntax_addr d]}) ∖ {[syntax_addr d]} = AE) as ->.
  { apply set_eq. intros x. rewrite elem_of_difference, elem_of_union, elem_of_singleton.
    split; [intros [[H|H] Hne]; [exact H|contradiction]|].
    intros H. split; [now left|]. intros ->. contradiction. }
  rewrite erl_loop_inert.
  - cbn [erl_loop]. unfold next. cbn [buffer currentIndex].
    rewrite lookup_ge_None_2 by (rewrite length_app; simpl; lia).
    now rewrite <- app_assoc.
  - eapply Forall_impl; [exact Hpost|]. intros t. now apply inert_table.
  - assert (drop (S (length pre)) (pre ++ tok :: post) = post) as E.
    { change (S (length pre)) with (1 + length pre)%nat.
      rewrite Nat.add_comm, <- drop_drop, drop_app_length. reflexivity. }
    rewrite E. rewrite drop_ge by (rewrite length_app; simpl; lia). now rewrite app_nil_r.
Qed.

(** X29: the expansion of an object-like macro never contains a line
    continuation: [append] turns each one of the body into an empty-argument
    token, and all other body tokens keep their kind. *)
Theorem expandMacro_drops_line_continuations
    (rec : list Token -> gset N -> M ReplacementResult) (macro : MacroDef)
    (d : DefineDirectiveSyntax) (e : MacroExpansion) (pp : PPState)
    (ok : bool) (e' : MacroExpansion) (pp' : PPState) :
  isIntrinsic macro = false -> syntax macro = Some d -> formalArguments d = None ->
  expandMacro rec macro e None pp = Ok ((ok, e'), pp') ->
  ok = true /\
  exists ts,
    exp_dest e' = exp_dest e ++ ts /\
    Forall2 (fun t t' =>
               kind t' = (if bool_decide (kind t = TokenKind.LineContinuation)
                          then TokenKind.EmptyMacroArgument else kind t))
            (body d) ts.
Proof.
  intros Hintr Hsyn Hformals. unfold expandMacro. rewrite Hintr, Hsyn. cbn [must].
  rewrite bind_ret_l. destruct (body d) as [|body0 rest] eqn:Hbody.
  { intros [= <- <- <-]. split; [reflexivity|]. exists []. rewrite app_nil_r.
    split; [reflexivity|constructor]. }
  rewrite Hformals. intros H.
  apply bind_Ok in H as (eloc & pp0 & _ & H).
  apply bind_Ok in H as ([[e1 ml1] fl1] & pp1 & Hrun & [= <- <- <-]).
  split; [reflexivity|].
  revert Hrun. generalize (getRange e) as range. generalize (location body0) as fl.
  generalize eloc as ml. generalize (body0 :: rest) as tokens. clear.
  intros tokens. revert e pp0.
  induction tokens as [|t tokens IH]; intros e pp0 ml fl range Hrun.
  - injection Hrun as <- _ _ _. exists []. rewrite app_nil_r. split; [reflexivity|constructor].
  - cbn [appendAll] in Hrun. apply bind_Ok in Hrun as ([[e2 ml2] fl2] & pp2 & Happ & Hrun).
    apply IH in Hrun as (ts & Hd & Hall).
    unfold append in Happ. apply bind_Ok in Happ as ([[loc ml3] fl3] & pp3 & _ & Happ).
    apply bind_Ok in Happ as (e3 & pp4 & Hat & [= <- _ _ _]).
    unfold append_at in Hat.
    set (t1 := if negb (any e) then
                 if negb (isTopLevel e) then withTrivia t (trivia (usageSite e))
                 else withTrivia t []
               else t) in *.
    assert (kind t1 = kind t) as Hk1.
    { subst t1. destruct (negb (any e)); [destruct (negb (isTopLevel e))|]; reflexivity. }
    rewrite Hk1 in Hat.
    destruct (bool_decide (kind t = TokenKind.LineContinuation)) eqn:Hlc; cbn [andb negb] in Hat.
    + apply bind_Ok in Hat as (r0 & pp5 & _ & [= <- _]). cbn [exp_dest] in Hd.
      eexists (_ :: ts). rewrite Hd, <- app_assoc. split; [reflexivity|].
      constructor; [|exact Hall]. rewrite Hlc. reflexivity.
    + injection Hat as <- _. cbn [exp_dest] in Hd.
      eexists (_ :: ts). rewrite Hd, <- app_assoc. split; [reflexivity|].
      constructor; [|exact Hall]. rewrite Hlc. cbn. exact Hk1.
Qed.

End nested.

Lemma expandReplacementList_expands_object_like_witness :
  expandReplacementList (L := Example.lexer) 2
    ([Example.ident "x" 0] ++ Example.usage "`M" 2 :: [Example.ident "y" 5]) ∅
    (Example.initialState
         [("M"%string, Example.defineMacro 10 "M" None
                         [Example.spaced (Example.ident "a" 5);
                          Example.spaced (Example.ident "b" 7)])] []) =
  Ok (mkReplacement true
        ([Example.ident "x" 0] ++
         relocated (mkLoc 2 0) (mkLoc 1 5) []
           [Example.spaced (Example.ident "a" 5); Example.spaced (Example.ident "b" 7)] ++
         [Example.ident "y" 5])
        true ∅,
      withExpansion
        (mkExpansion (mkLoc 1 5) (mkRange (mkLoc 1 2) (mkLoc 1 4)) false (Some "M"%string))
        (Example.initialState
         [("M"%string, Example.defineMacro 10 "M" None
                         [Example.spaced (Example.ident "a" 5);
                          Example.spaced (Example.ident "b" 7)])] [])).
Proof.
  set (pp := (Example.initialState
         [("M"%string, Example.defineMacro 10 "M" None
                         [Example.spaced (Example.ident "a" 5);
                          Example.spaced (Example.ident "b" 7)])] [])).
  assert (Forall (inert (L := Example.lexer) pp) [Example.ident "x" 0]) as Hpre
    by (apply Forall_cons; split; [left; reflexivity|apply Forall_nil; exact I]).
  assert (Forall (inert (L := Example.lexer) pp) [Example.ident "y" 5]) as Hpost
    by (apply Forall_cons; split; [left; reflexivity|apply Forall_nil; exact I]).
  assert (findMacro (L := Example.lexer) (Example.usage "`M" 2) pp =
          Ok (Example.defineMacro 10 "M" None
                [Example.spaced (Example.ident "a" 5); Example.spaced (Example.ident "b" 7)],
              pp)) as Hfind by (vm_compute; reflexivity).
  assert (Forall ordinaryToken
            [Example.spaced (Example.ident "a" 5); Example.spaced (Example.ident "b" 7)])
    as Hall
    by (repeat (apply Forall_cons; split; [repeat split; discriminate|]);
        apply Forall_nil; exact I).
  assert (inBufferOf (location (Example.spaced (Example.ident "a" 5)))
            [Example.spaced (Example.ident "b" 7)]) as Hbuf by (repeat constructor).
  exact (expandReplacementList_expands_object_like (L := Example.lexer) 0
           [Example.ident "x" 0] (Example.usage "`M" 2) [Example.ident "y" 5] ∅ pp
           (Example.defineMacro 10 "M" None
              [Example.spaced (Example.ident "a" 5); Example.spaced (Example.ident "b" 7)])
           (mkDefine 10 (Example.ident "M" 0) None
              [Example.spaced (Example.ident "a" 5); Example.spaced (Example.ident "b" 7)])
           (Example.spaced (Example.ident "a" 5)) [Example.spaced (Example.ident "b" 7)]
           Hpre Hpost eq_refl Hfind eq_refl eq_refl (not_elem_of_empty _) eq_refl eq_refl
           Hall Hbuf).
Defined.

Lemma expandMacro_drops_line_continuations_witness :
  exists e' pp',
    expandMacro (L := Example.lexer) (expandReplacementList (L := Example.lexer) 1)
      (Example.defineMacro 10 "M" None
         [Example.ident "a" 5; Example.tok TokenKind.LineContinuation (String backslash EmptyString) 6; Example.ident "b" 8])
      (mkMacroExpansion [] (Example.usage "`M" 100) false true) None
      (Example.initialState [] []) = Ok ((true, e'), pp') /\
    true = true /\
    exists ts,
      exp_dest e' = [] ++ ts /\
      Forall2 (fun t t' =>
                 kind t' = (if bool_decide (kind t = TokenKind.LineContinuation)
                            then TokenKind.EmptyMacroArgument else kind t))
              [Example.ident "a" 5; Example.tok TokenKind.LineContinuation (String backslash EmptyString) 6; Example.ident "b" 8] ts.
Proof.
  set (macro := Example.defineMacro 10 "M" None
                  [Example.ident "a" 5; Example.tok TokenKind.LineContinuation (String backslash EmptyString) 6;
                   Example.ident "b" 8]).
  set (e := mkMacroExpansion [] (Example.usage "`M" 100) false true).
  assert (exists e' pp',
            expandMacro (L := Example.lexer) (expandReplacementList (L := Example.lexer) 1)
              macro e None (Example.initialState [] []) = Ok ((true, e'), pp'))
    as (e' & pp' & E) by (eexists _, _; vm_compute; reflexivity).
  exists e', pp'. split; [exact E|].
  exact (expandMacro_drops_line_continuations (L := Example.lexer)
           (expandReplacementList (L := Example.lexer) 1) macro _ e
           (Example.initialState [] []) true e' pp' eq_refl eq_refl eq_refl E).
Defined.

